(** * ParOptInteriorPoint: a shallow embedding of the interior-point driver

    This development embeds the parts of [src/ParOptInteriorPoint.cpp] that
    decide the properties stated about it: the checkpoint reader and writer,
    the complementarity measure, the fraction-to-boundary scaling, the
    clamped update of the variables, the Cw factorisation, the line search
    and the major iteration of [optimize].

    Conventions of the embedding.

    - [ParOptScalar] and [double] are rationals ([Q]); the decimal
      constants of the source stand for the doubles nearest to them.
      Arithmetic is exact, except where the source offsets a value by
      [design_precision] or [function_precision]: those sums and
      differences, and the step of [computeStep] that they are compared
      with, are rounded to a double by the rounding [rnd] of the class
      [Numerics], since a binary64 sum can absorb the offset.  Infinities
      and NaN are not modelled: a division by zero evaluates to zero.
      Comparisons are the boolean tests [Qle_bool]/[Qltb].
    - A distributed vector ([ParOptVec]) is the list of its global entries;
      a replicated array is one list.  A collective (reduce, broadcast,
      collective file access) acts on that global view, so the solver is
      the one seen by the optimization root.
    - [int] sizes and counters are [nat]; return codes, LAPACK [info]
      values and the line-search flag word are [Z], the flag word with
      [Z.lor]/[Z.land] as in the source.
    - The user problem, the compact quasi-Newton object and the numerical
      libraries (LAPACK, [pow]) are interfaces (type classes).  The
      numerical routines of the source file that need logarithms, square
      roots or the bordered KKT solves are gathered in the class
      [Kernels]; the driver is modelled over arbitrary instances of them.
    - Printing to [outfp]/[stderr], the output hook [writeOutput] and the
      gradient-check diagnostics ([checkGradients]) are omitted; the
      Hessian-vector counter [nhvec] is not kept. *)

From Stdlib Require Import Floats.
From Stdlib Require Import String QArith Qabs Qround Qpower ZArith List Bool.
From Stdlib Require Import Lia Lqa.
Import ListNotations.

Set Warnings "-inexact-float".

Open Scope Q_scope.

(** ** Scalars and arrays *)

Definition Qltb (a b : Q) : bool := negb (Qle_bool b a).
Definition Qgtb (a b : Q) : bool := Qltb b a.
Definition Qgeb (a b : Q) : bool := Qle_bool b a.

(** [max2] and [min2], the static helpers of the source. *)
Definition max2 (a b : Q) : Q := if Qgtb a b then a else b.
Definition min2 (a b : Q) : Q := if Qltb a b then a else b.

(** [a[i]] for an array of scalars. *)
Definition get (a : list Q) (i : nat) : Q := nth i a 0.

(** [for (i = 0; i < n; i++) out[i] = f i]. *)
Definition tabulate {A : Type} (n : nat) (f : nat -> A) : list A :=
  map f (seq 0 n).

(** [a[i] = v], nothing when [i] is outside the array. *)
Fixpoint set_nth (a : list Q) (i : nat) (v : Q) : list Q :=
  match a, i with
  | [], _ => []
  | _ :: r, O => v :: r
  | h :: r, S j => h :: set_nth r j v
  end.

Definition Qsum (l : list Q) : Q := fold_right Qplus 0 l.

(** The [ParOptVec] operations the driver uses. *)
Definition vec_set (n : nat) (v : Q) : list Q := repeat v n.
Definition vec_scale (alpha : Q) (v : list Q) : list Q :=
  map (fun e => alpha * e) v.
Definition vec_axpy (alpha : Q) (xv yv : list Q) : list Q :=
  tabulate (length yv) (fun i => get yv i + alpha * get xv i).
Definition vec_dot (u v : list Q) : Q :=
  Qsum (tabulate (length u) (fun i => get u i * get v i)).
Definition vec_maxabs (v : list Q) : Q :=
  fold_left (fun m e => if Qgtb (Qabs e) m then Qabs e else m) v 0.
Definition vec_l1norm (v : list Q) : Q := Qsum (map Qabs v).

(** ** Enumerations *)

Inductive ParOptNormType := PAROPT_INFTY_NORM | PAROPT_L1_NORM | PAROPT_L2_NORM.

Inductive ParOptBarrierStrategy :=
  PAROPT_MONOTONE | PAROPT_MEHROTRA | PAROPT_COMPLEMENTARITY_FRACTION.

Inductive ParOptStartingPointStrategy :=
  PAROPT_NO_START_STRATEGY | PAROPT_LEAST_SQUARES_MULTIPLIERS | PAROPT_AFFINE_STEP.

(** Modelled from the spec: the line-search outcome flags are declared in
    the header, which is not among the sources; the specification calls
    them bit-flags SUCCESS, FAILURE, MIN_STEP, MAX_ITERS, NO_IMPROVEMENT, so
    each is one bit of the flag word, in that order. *)
Definition BIT_SUCCESS : Z := 0.
Definition BIT_FAILURE : Z := 1.
Definition BIT_MIN_STEP : Z := 2.
Definition BIT_MAX_ITERS : Z := 3.
Definition BIT_NO_IMPROVEMENT : Z := 4.
Definition PAROPT_LINE_SEARCH_SUCCESS : Z := Z.shiftl 1 BIT_SUCCESS.
Definition PAROPT_LINE_SEARCH_FAILURE : Z := Z.shiftl 1 BIT_FAILURE.
Definition PAROPT_LINE_SEARCH_MIN_STEP : Z := Z.shiftl 1 BIT_MIN_STEP.
Definition PAROPT_LINE_SEARCH_MAX_ITERS : Z := Z.shiftl 1 BIT_MAX_ITERS.
Definition PAROPT_LINE_SEARCH_NO_IMPROVEMENT : Z := Z.shiftl 1 BIT_NO_IMPROVEMENT.

(** [fail & FLAG] used as a condition. *)
Definition has_flag (fail flag : Z) : bool := negb (Z.land fail flag =? 0)%Z.

(** ** The solver instance *)

(** Sizes and problem kind, fixed at construction. *)
Record Dims := mkDims {
  nvars : nat;
  ncon : nat;
  nwcon : nat;
  nwblock : nat;
  sparse_inequality : bool;
  dense_inequality : bool;
  use_lower : bool;
  use_upper : bool
}.

(** The options, with the member names of the source. *)
Record Options := mkOptions {
  max_bound_val : Q;
  norm_type : ParOptNormType;
  starting_point_strategy : ParOptStartingPointStrategy;
  barrier_strategy : ParOptBarrierStrategy;
  max_major_iters : nat;
  rel_bound_barrier : Q;
  abs_res_tol : Q;
  rel_func_tol : Q;
  abs_step_tol : Q;
  use_line_search : bool;
  use_backtracking_alpha : bool;
  max_line_iters : nat;
  min_rho_penalty_search : Q;
  armijo_constant : Q;
  monotone_barrier_fraction : Q;
  monotone_barrier_power : Q;
  min_fraction_to_boundary : Q;
  write_output_frequency : Z;
  gradient_check_frequency : Z;
  major_iter_step_check : Z;
  hessian_reset_freq : Z;
  use_quasi_newton_update : bool;
  qn_sigma : Q;
  merit_func_check_epsilon : Q;
  start_affine_multiplier_min : Q;
  penalty_gamma : list Q;
  function_precision : Q;
  design_precision : Q;
  use_diag_hessian : bool;
  use_hvec_product : bool;
  use_qn_gmres_precon : bool;
  nk_switch_tol : Q;
  eisenstat_walker_alpha : Q;
  eisenstat_walker_gamma : Q;
  max_gmres_rtol : Q;
  gmres_atol : Q
}.

(** The values the constructor assigns. *)
Definition default_options (max_bound_value : Q) (n_con : nat) : Options :=
  {| max_bound_val := max_bound_value;
     norm_type := PAROPT_INFTY_NORM;
     starting_point_strategy := PAROPT_LEAST_SQUARES_MULTIPLIERS;
     barrier_strategy := PAROPT_MONOTONE;
     max_major_iters := 1000;
     rel_bound_barrier := 1;
     abs_res_tol := 1e-5;
     rel_func_tol := 0;
     abs_step_tol := 0;
     use_line_search := true;
     use_backtracking_alpha := false;
     max_line_iters := 10;
     min_rho_penalty_search := 0;
     armijo_constant := 1e-5;
     monotone_barrier_fraction := 0.25;
     monotone_barrier_power := 1.1;
     min_fraction_to_boundary := 0.95;
     write_output_frequency := 10;
     gradient_check_frequency := -1;
     major_iter_step_check := -1;
     hessian_reset_freq := 100000000;
     use_quasi_newton_update := true;
     qn_sigma := 0;
     merit_func_check_epsilon := 5e-8;
     start_affine_multiplier_min := 1e-3;
     penalty_gamma := repeat 1000 n_con;
     function_precision := 1e-10;
     design_precision := 1e-15;
     use_diag_hessian := false;
     use_hvec_product := false;
     use_qn_gmres_precon := true;
     nk_switch_tol := 1e-3;
     eisenstat_walker_alpha := 1.5;
     eisenstat_walker_gamma := 1;
     max_gmres_rtol := 0.1;
     gmres_atol := 1e-30 |}.

(** Design variables, bounds, slacks and multipliers. *)
Record Vars := mkVars {
  x : list Q;
  lb : list Q;
  ub : list Q;
  zl : list Q;
  zu : list Q;
  z : list Q;
  s : list Q;
  zt : list Q;
  t : list Q;
  zw : list Q;
  sw : list Q
}.

(** The step [p_*]. *)
Record Steps := mkSteps {
  px : list Q;
  pzl : list Q;
  pzu : list Q;
  pz : list Q;
  ps : list Q;
  pzt : list Q;
  pt : list Q;
  pzw : list Q;
  psw : list Q
}.

(** The residual buffers [r_*]; the line search reuses [rx], [rs], [rt] and
    [rsw] for the trial point. *)
Record Resid := mkResid {
  rx : list Q;
  rzl : list Q;
  rzu : list Q;
  rc : list Q;
  rs : list Q;
  rt : list Q;
  rzt : list Q;
  rcw : list Q;
  rsw : list Q
}.

(** Objective, constraints and their gradients at the last evaluation. *)
Record Evals := mkEvals {
  fobj : Q;
  c : list Q;
  g : list Q;
  Ac : list (list Q);
  neval : nat;
  ngeval : nat
}.

(** The assembled and factored diagonal KKT system. *)
Record Factor := mkFactor {
  Cvec : list Q;
  Cw : list Q;
  Ew : list (list Q);
  Dmat : list Q;
  dpiv : list Z;
  Ce : list Q;
  cpiv : list Z
}.

(** ** Interfaces of the collaborators *)

(** The problem adapter ([ParOptProblem]).  An evaluation returns its
    failure code together with what it stored in the output arguments. *)
Class ParOptProblem := {
  getVarsAndBounds : list Q -> list Q -> list Q -> list Q * list Q * list Q;
  evalObjCon : list Q -> Z * Q * list Q;
  evalObjConGradient : list Q -> Z * list Q * list (list Q);
  evalHessianDiag : list Q -> list Q -> list Q -> Z * list Q;
  addSparseJacobian : Q -> list Q -> list Q -> list Q -> list Q;
  addSparseJacobianTranspose : Q -> list Q -> list Q -> list Q -> list Q;
  addSparseInnerProduct : Q -> list Q -> list Q -> list Q -> list Q;
  computeQuasiNewtonUpdateCorrection : list Q -> list Q -> list Q * list Q
}.

(** The compact quasi-Newton approximation ([ParOptCompactQuasiNewton]). *)
Class ParOptCompactQuasiNewton := {
  QN : Type;
  qn_update_sy : QN -> list Q -> list Q -> list Q -> list Q -> list Q -> QN * Z;
  qn_update : QN -> list Q -> list Q -> list Q -> QN * Z;
  qn_reset : QN -> QN;
  (* b0, d, M, Z *)
  getCompactMat : QN -> Q * list Q * list Q * list (list Q)
}.

(** The numerical environment of the source: the LAPACK routines, each
    returning [info] with its output, [pow] of the C library, the Euclidean
    norm of [ParOptVec], and the rounding of the result of an arithmetic
    operation to a double. *)
Class Numerics := {
  (* Cholesky factorisation of one packed upper-triangular block *)
  LAPACKdpptrf : nat -> list Q -> list Q * Z;
  (* solve with a packed Cholesky factor *)
  LAPACKdpptrs : nat -> list Q -> list Q -> list Q * Z;
  (* LU factorisation with partial pivoting: factors, pivots, info *)
  LAPACKdgetrf : nat -> list Q -> list Q * list Z * Z;
  (* solve with an LU factorisation *)
  LAPACKdgetrs : nat -> list Q -> list Z -> list Q -> list Q * Z;
  (* [pow] of the C library *)
  pow : Q -> Q -> Q;
  (* [ParOptVec::norm], the Euclidean norm *)
  vec_norm : list Q -> Q;
  (* the double that the exact result of an operation is rounded to *)
  rnd : Q -> Q
}.

(** ** Doubles *)

(** The nearest integer, a tie going to the even one. *)
Definition nearest_even (q : Q) : Z :=
  let f := Qfloor q in
  match Qcompare (q - inject_Z f) (1 # 2) with
  | Lt => f
  | Gt => (f + 1)%Z
  | Eq => if Z.even f then f else (f + 1)%Z
  end.

(** [floor (log2 |q|)] for [q <> 0]. *)
Definition ilog2 (q : Q) : Z :=
  let k := (Z.log2 (Z.abs (Qnum q)) - Z.log2 (Zpos (Qden q)))%Z in
  if Qle_bool (2 ^ k) (Qabs q) then k else (k - 1)%Z.

(** The exponent of the unit in the last place of the doubles around
    [q]: 52 binary places below the leading one, and never below the
    spacing [2^-1074] of the subnormal doubles. *)
Definition ulp_exponent (q : Q) : Z := Z.max (ilog2 q - 52) (-1074).

(** binary64's round to nearest, ties to even.  Overflow is left out: the
    result stands for a double only below [2^1024]. *)
Definition round_binary64 (q : Q) : Q :=
  inject_Z (nearest_even (q / 2 ^ ulp_exponent q)) * 2 ^ ulp_exponent q.

(** The rational that a finite double stands for. *)
Definition Q_of_float (f : float) : Q :=
  match Prim2SF f with
  | S754_finite s m e =>
      (if s then -1 else 1) * inject_Z (Zpos m) * 2 ^ e
  | _ => 0
  end.

Section Doubles.

Context {LA : Numerics}.

(** [a] is a double: rounding leaves it alone. *)
Definition representable (a : Q) : Prop := rnd a == a.

(** What the rounding of binary64 satisfies on finite values, in every
    rounding mode: it is monotone, its results are doubles, and zero is a
    double. *)
Definition roundingLaws : Prop :=
  (forall a b, a <= b -> rnd a <= rnd b) /\
  (forall a, representable (rnd a)) /\
  representable 0.

End Doubles.

Section Model.

Context {prob : ParOptProblem} {QNI : ParOptCompactQuasiNewton} {LA : Numerics}.

(** The members of [ParOptInteriorPoint]. *)
Record Solver := mkSolver {
  dims : Dims;
  opts : Options;
  vars : Vars;
  steps : Steps;
  resid : Resid;
  evals : Evals;
  factor : Factor;
  qn : option QN;
  hdiag : option (list Q);
  y_qn : list Q;
  s_qn : list Q;
  barrier_param : Q;
  rho_penalty_search : Q;
  sequential_linear_method : bool;
  niter : nat
}.

Definition set_vars (v : Vars) (st : Solver) : Solver :=
  mkSolver (dims st) (opts st) v (steps st) (resid st) (evals st) (factor st)
    (qn st) (hdiag st) (y_qn st) (s_qn st) (barrier_param st)
    (rho_penalty_search st) (sequential_linear_method st) (niter st).
Definition set_steps (p : Steps) (st : Solver) : Solver :=
  mkSolver (dims st) (opts st) (vars st) p (resid st) (evals st) (factor st)
    (qn st) (hdiag st) (y_qn st) (s_qn st) (barrier_param st)
    (rho_penalty_search st) (sequential_linear_method st) (niter st).
Definition set_resid (r : Resid) (st : Solver) : Solver :=
  mkSolver (dims st) (opts st) (vars st) (steps st) r (evals st) (factor st)
    (qn st) (hdiag st) (y_qn st) (s_qn st) (barrier_param st)
    (rho_penalty_search st) (sequential_linear_method st) (niter st).
Definition set_evals (e : Evals) (st : Solver) : Solver :=
  mkSolver (dims st) (opts st) (vars st) (steps st) (resid st) e (factor st)
    (qn st) (hdiag st) (y_qn st) (s_qn st) (barrier_param st)
    (rho_penalty_search st) (sequential_linear_method st) (niter st).
Definition set_factor (f : Factor) (st : Solver) : Solver :=
  mkSolver (dims st) (opts st) (vars st) (steps st) (resid st) (evals st) f
    (qn st) (hdiag st) (y_qn st) (s_qn st) (barrier_param st)
    (rho_penalty_search st) (sequential_linear_method st) (niter st).
Definition set_qn (q : option QN) (st : Solver) : Solver :=
  mkSolver (dims st) (opts st) (vars st) (steps st) (resid st) (evals st)
    (factor st) q (hdiag st) (y_qn st) (s_qn st) (barrier_param st)
    (rho_penalty_search st) (sequential_linear_method st) (niter st).
Definition set_hdiag (h : option (list Q)) (st : Solver) : Solver :=
  mkSolver (dims st) (opts st) (vars st) (steps st) (resid st) (evals st)
    (factor st) (qn st) h (y_qn st) (s_qn st) (barrier_param st)
    (rho_penalty_search st) (sequential_linear_method st) (niter st).
Definition set_qn_vecs (y sq : list Q) (st : Solver) : Solver :=
  mkSolver (dims st) (opts st) (vars st) (steps st) (resid st) (evals st)
    (factor st) (qn st) (hdiag st) y sq (barrier_param st)
    (rho_penalty_search st) (sequential_linear_method st) (niter st).
Definition set_barrier_param (mu : Q) (st : Solver) : Solver :=
  mkSolver (dims st) (opts st) (vars st) (steps st) (resid st) (evals st)
    (factor st) (qn st) (hdiag st) (y_qn st) (s_qn st) mu
    (rho_penalty_search st) (sequential_linear_method st) (niter st).
Definition set_rho_penalty_search (rho : Q) (st : Solver) : Solver :=
  mkSolver (dims st) (opts st) (vars st) (steps st) (resid st) (evals st)
    (factor st) (qn st) (hdiag st) (y_qn st) (s_qn st) (barrier_param st)
    rho (sequential_linear_method st) (niter st).
Definition set_sequential_linear_method (b : bool) (st : Solver) : Solver :=
  mkSolver (dims st) (opts st) (vars st) (steps st) (resid st) (evals st)
    (factor st) (qn st) (hdiag st) (y_qn st) (s_qn st) (barrier_param st)
    (rho_penalty_search st) b (niter st).
Definition set_niter (n : nat) (st : Solver) : Solver :=
  mkSolver (dims st) (opts st) (vars st) (steps st) (resid st) (evals st)
    (factor st) (qn st) (hdiag st) (y_qn st) (s_qn st) (barrier_param st)
    (rho_penalty_search st) (sequential_linear_method st) n.

(** Updates of single arrays of the variables and of the trial point. *)
Definition with_x (v : list Q) (a : Vars) : Vars :=
  mkVars v (lb a) (ub a) (zl a) (zu a) (z a) (s a) (zt a) (t a) (zw a) (sw a).
Definition with_bounds (l u : list Q) (a : Vars) : Vars :=
  mkVars (x a) l u (zl a) (zu a) (z a) (s a) (zt a) (t a) (zw a) (sw a).
Definition with_zl (v : list Q) (a : Vars) : Vars :=
  mkVars (x a) (lb a) (ub a) v (zu a) (z a) (s a) (zt a) (t a) (zw a) (sw a).
Definition with_zu (v : list Q) (a : Vars) : Vars :=
  mkVars (x a) (lb a) (ub a) (zl a) v (z a) (s a) (zt a) (t a) (zw a) (sw a).
Definition with_z (v : list Q) (a : Vars) : Vars :=
  mkVars (x a) (lb a) (ub a) (zl a) (zu a) v (s a) (zt a) (t a) (zw a) (sw a).
Definition with_s (v : list Q) (a : Vars) : Vars :=
  mkVars (x a) (lb a) (ub a) (zl a) (zu a) (z a) v (zt a) (t a) (zw a) (sw a).
Definition with_zt (v : list Q) (a : Vars) : Vars :=
  mkVars (x a) (lb a) (ub a) (zl a) (zu a) (z a) (s a) v (t a) (zw a) (sw a).
Definition with_t (v : list Q) (a : Vars) : Vars :=
  mkVars (x a) (lb a) (ub a) (zl a) (zu a) (z a) (s a) (zt a) v (zw a) (sw a).
Definition with_zw (v : list Q) (a : Vars) : Vars :=
  mkVars (x a) (lb a) (ub a) (zl a) (zu a) (z a) (s a) (zt a) (t a) v (sw a).
Definition with_sw (v : list Q) (a : Vars) : Vars :=
  mkVars (x a) (lb a) (ub a) (zl a) (zu a) (z a) (s a) (zt a) (t a) (zw a) v.

Definition with_rx (v : list Q) (r : Resid) : Resid :=
  mkResid v (rzl r) (rzu r) (rc r) (rs r) (rt r) (rzt r) (rcw r) (rsw r).
Definition with_rc (v : list Q) (r : Resid) : Resid :=
  mkResid (rx r) (rzl r) (rzu r) v (rs r) (rt r) (rzt r) (rcw r) (rsw r).
Definition with_rs (v : list Q) (r : Resid) : Resid :=
  mkResid (rx r) (rzl r) (rzu r) (rc r) v (rt r) (rzt r) (rcw r) (rsw r).
Definition with_rt (v : list Q) (r : Resid) : Resid :=
  mkResid (rx r) (rzl r) (rzu r) (rc r) (rs r) v (rzt r) (rcw r) (rsw r).
Definition with_rsw (v : list Q) (r : Resid) : Resid :=
  mkResid (rx r) (rzl r) (rzu r) (rc r) (rs r) (rt r) (rzt r) (rcw r) v.

(** Short names for the members reached through the sub-records. *)
Definition live_lower (st : Solver) (i : nat) : bool :=
  Qgtb (get (lb (vars st)) i) (- max_bound_val (opts st)).
Definition live_upper (st : Solver) (i : nat) : bool :=
  Qltb (get (ub (vars st)) i) (max_bound_val (opts st)).

(** ** Complementarity *)

(** The accumulation of [computeComp]: the pair (product, sum) of the
    source when all contributions are added up. *)
Definition compProductSum (st : Solver) : Q * Q :=
  let d := dims st in
  let v := vars st in
  let acc := (0, 0) in
  let acc :=
    if use_lower d then
      fold_left (fun (a : Q * Q) i =>
        if live_lower st i then
          (fst a + get (zl v) i * (get (x v) i - get (lb v) i), snd a + 1)
        else a) (seq 0 (nvars d)) acc
    else acc in
  let acc :=
    if use_upper d then
      fold_left (fun (a : Q * Q) i =>
        if live_upper st i then
          (fst a + get (zu v) i * (get (ub v) i - get (x v) i), snd a + 1)
        else a) (seq 0 (nvars d)) acc
    else acc in
  (* Modify the complementarity by the bound scalar factor *)
  let acc := (fst acc / rel_bound_barrier (opts st), snd acc) in
  if dense_inequality d then
    fold_left (fun (a : Q * Q) i =>
      (fst a + (get (s v) i * get (z v) i + get (t v) i * get (zt v) i),
       snd a + 2)) (seq 0 (ncon d)) acc
  else acc.

(** [computeComp]: the average of the complementarity products at the
    current point, zero when there is nothing to average. *)
Definition computeComp (st : Solver) : Q :=
  let '(product, sum) := compProductSum st in
  if negb (Qeq_bool sum 0) then product / sum else 0.

(** [getComplementarity]. *)
Definition getComplementarity (st : Solver) : Q := computeComp st.

(** [computeCompStep]: the complementarity at the given step lengths. *)
Definition computeCompStep (alpha_x alpha_z : Q) (st : Solver) : Q :=
  let d := dims st in
  let v := vars st in
  let p := steps st in
  let acc := (0, 0) in
  let acc :=
    if use_lower d then
      fold_left (fun (a : Q * Q) i =>
        if live_lower st i then
          let xnew := get (x v) i + alpha_x * get (px p) i in
          (fst a + (get (zl v) i + alpha_z * get (pzl p) i) * (xnew - get (lb v) i),
           snd a + 1)
        else a) (seq 0 (nvars d)) acc
    else acc in
  let acc :=
    if use_upper d then
      fold_left (fun (a : Q * Q) i =>
        if live_upper st i then
          let xnew := get (x v) i + alpha_x * get (px p) i in
          (fst a + (get (zu v) i + alpha_z * get (pzu p) i) * (get (ub v) i - xnew),
           snd a + 1)
        else a) (seq 0 (nvars d)) acc
    else acc in
  let acc := (fst acc / rel_bound_barrier (opts st), snd acc) in
  let acc :=
    if dense_inequality d then
      fold_left (fun (a : Q * Q) i =>
        (fst a + ((get (s v) i + alpha_x * get (ps p) i) *
                  (get (z v) i + alpha_z * get (pz p) i) +
                  (get (t v) i + alpha_x * get (pt p) i) *
                  (get (zt v) i + alpha_z * get (pzt p) i)),
         snd a + 2)) (seq 0 (ncon d)) acc
    else acc in
  if negb (Qeq_bool (snd acc) 0) then fst acc / snd acc else 0.

(** ** Step lengths *)

(** One test of [computeMaxStep] for a variable that must stay positive:
    [if (p < 0){ alpha = -tau*numer/p; if (alpha < max) max = alpha; }]. *)
Definition limit_decreasing (tau numer p cur : Q) : Q :=
  if Qltb p 0 then
    let alpha := - tau * numer / p in
    if Qltb alpha cur then alpha else cur
  else cur.

(** The same test against an upper bound, taken when [p > 0]. *)
Definition limit_increasing (tau numer p cur : Q) : Q :=
  if Qgtb p 0 then
    let alpha := tau * numer / p in
    if Qltb alpha cur then alpha else cur
  else cur.

(** [computeMaxStep]: the pair is (max_x, max_z). *)
Definition computeMaxStep (tau : Q) (st : Solver) : Q * Q :=
  let d := dims st in
  let v := vars st in
  let p := steps st in
  let max_x := 1 in
  let max_z := 1 in
  let max_x :=
    if use_lower d then
      fold_left (fun m i =>
        limit_decreasing tau (get (x v) i - get (lb v) i) (get (px p) i) m)
        (seq 0 (nvars d)) max_x
    else max_x in
  let max_x :=
    if use_upper d then
      fold_left (fun m i =>
        limit_increasing tau (get (ub v) i - get (x v) i) (get (px p) i) m)
        (seq 0 (nvars d)) max_x
    else max_x in
  let '(max_x, max_z) :=
    if dense_inequality d then
      fold_left (fun (m : Q * Q) i =>
        let mx := limit_decreasing tau (get (s v) i) (get (ps p) i) (fst m) in
        let mx := limit_decreasing tau (get (t v) i) (get (pt p) i) mx in
        let mz := limit_decreasing tau (get (z v) i) (get (pz p) i) (snd m) in
        let mz := limit_decreasing tau (get (zt v) i) (get (pzt p) i) mz in
        (mx, mz)) (seq 0 (ncon d)) (max_x, max_z)
    else (max_x, max_z) in
  let '(max_x, max_z) :=
    if (0 <? nwcon d)%nat && sparse_inequality d then
      let mz :=
        fold_left (fun m i =>
          limit_decreasing tau (get (zw v) i) (get (pzw p) i) m)
          (seq 0 (nwcon d)) max_z in
      let mx :=
        fold_left (fun m i =>
          limit_decreasing tau (get (sw v) i) (get (psw p) i) m)
          (seq 0 (nwcon d)) max_x in
      (mx, mz)
    else (max_x, max_z) in
  let max_z :=
    if use_lower d then
      fold_left (fun m i =>
        limit_decreasing tau (get (zl v) i) (get (pzl p) i) m)
        (seq 0 (nvars d)) max_z
    else max_z in
  let max_z :=
    if use_upper d then
      fold_left (fun m i =>
        limit_decreasing tau (get (zu v) i) (get (pzu p) i) m)
        (seq 0 (nvars d)) max_z
    else max_z in
  (max_x, max_z).

(** [scaleStep]: [pvals[i] *= alpha] for [i < nvals]. *)
Definition scaleStep (alpha : Q) (nvals : nat) (pvals : list Q) : list Q :=
  tabulate nvals (fun i => get pvals i * alpha).

(** [computeStep]: take the step, then move every entry that is within
    [design_precision] of a bound back inside.  The bounds come either as
    arrays ([lbvals], [ubvals]) or as single values.  Every operation is
    rounded to a double. *)
Definition computeStep (design_prec : Q) (nvals : nat) (xvals : list Q)
    (alpha : Q) (pvals : list Q)
    (lbvals : option (list Q)) (lower_value : option Q)
    (ubvals : option (list Q)) (upper_value : option Q) : list Q :=
  let xvals :=
    tabulate nvals (fun i => rnd (get xvals i + rnd (alpha * get pvals i))) in
  let xvals :=
    match lbvals, lower_value with
    | Some lbv, _ =>
        tabulate nvals (fun i =>
          if Qle_bool (get xvals i) (rnd (get lbv i + design_prec))
          then rnd (get lbv i + design_prec) else get xvals i)
    | None, Some lbval =>
        tabulate nvals (fun i =>
          if Qle_bool (get xvals i) (rnd (lbval + design_prec))
          then rnd (lbval + design_prec) else get xvals i)
    | None, None => xvals
    end in
  match ubvals, upper_value with
  | Some ubv, _ =>
      tabulate nvals (fun i =>
        if Qgeb (rnd (get xvals i + design_prec)) (get ubv i)
        then rnd (get ubv i - design_prec) else get xvals i)
  | None, Some ubval =>
      tabulate nvals (fun i =>
        if Qgeb (rnd (get xvals i + design_prec)) ubval
        then rnd (ubval - design_prec) else get xvals i)
  | None, None => xvals
  end.

(** [computeStepVec]: [computeStep] on whole vectors. *)
Definition computeStepVec (design_prec : Q) (xvec : list Q) (alpha : Q)
    (pvec : list Q) (lower : option (list Q)) (lower_value : option Q)
    (upper : option (list Q)) (upper_value : option Q) : list Q :=
  computeStep design_prec (length xvec) xvec alpha pvec
    lower lower_value upper upper_value.

(** [scaleKKTStep]: scale the KKT step by the maximum allowable step
    lengths.  Returns [ceq_step], [alpha_x], [alpha_z] and the solver with
    the scaled step. *)
Definition scaleKKTStep (tau comp : Q) (inexact_newton_step : bool)
    (st : Solver) : bool * Q * Q * Solver :=
  let d := dims st in
  let '(alpha_x, alpha_z) := computeMaxStep tau st in
  let '(ceq_step, alpha_x, alpha_z) :=
    if negb inexact_newton_step then
      let max_bnd := 100 in
      let '(alpha_x, alpha_z) :=
        if Qgtb alpha_x alpha_z then
          if Qgtb alpha_x (max_bnd * alpha_z) then (max_bnd * alpha_z, alpha_z)
          else if Qltb alpha_x (alpha_z / max_bnd) then (alpha_z / max_bnd, alpha_z)
          else (alpha_x, alpha_z)
        else
          if Qgtb alpha_z (max_bnd * alpha_x) then (alpha_x, max_bnd * alpha_x)
          else if Qltb alpha_z (alpha_x / max_bnd) then (alpha_x, alpha_x / max_bnd)
          else (alpha_x, alpha_z) in
      let comp_new := computeCompStep alpha_x alpha_z st in
      if Qgtb comp_new (10 * comp) then
        if Qgtb alpha_x alpha_z then (true, alpha_z, alpha_z)
        else (true, alpha_x, alpha_x)
      else (false, alpha_x, alpha_z)
    else
      if Qgtb alpha_x alpha_z then (false, alpha_z, alpha_z)
      else (false, alpha_x, alpha_x) in
  let p := steps st in
  let p_x := vec_scale alpha_x (px p) in
  let '(p_zw, p_sw) :=
    if (0 <? nwcon d)%nat then
      (vec_scale alpha_z (pzw p),
       if sparse_inequality d then vec_scale alpha_x (psw p) else psw p)
    else (pzw p, psw p) in
  let p_zl := if use_lower d then vec_scale alpha_z (pzl p) else pzl p in
  let p_zu := if use_upper d then vec_scale alpha_z (pzu p) else pzu p in
  let p_z := scaleStep alpha_z (ncon d) (pz p) in
  let '(p_s, p_t, p_zt) :=
    if dense_inequality d then
      (scaleStep alpha_x (ncon d) (ps p),
       scaleStep alpha_x (ncon d) (pt p),
       scaleStep alpha_z (ncon d) (pzt p))
    else (ps p, pt p, pzt p) in
  let p' := mkSteps p_x p_zl p_zu p_z p_s p_zt p_t p_zw p_sw in
  (ceq_step, alpha_x, alpha_z, set_steps p' st).

(** ** Numerical routines taken as given

    These stand for functions of the source file whose arithmetic is
    outside exact rationals (logarithms in the merit function, square
    roots in the norms) or is the bordered linear algebra of the KKT
    solves.  Each returns what the routine writes. *)
Class Kernels := {
  (* computeKKTRes: the residual blocks and max_prime, max_dual, max_infeas *)
  kktRes : Q -> Solver -> Resid * (Q * Q * Q);
  (* setUpKKTSystem: the factored Schur complement Ce and its pivots *)
  kktSchur : bool -> Solver -> list Q * list Z;
  (* computeKKTStep: the step; the residual buffers are consumed *)
  kktStep : bool -> Solver -> Steps * Resid;
  (* computeKKTGMRESStep: signed iteration count, step, residual buffers *)
  gmresStep : Q -> Q -> bool -> Solver -> Z * Steps * Resid;
  (* evalMeritFunc at (fk, ck, xk, sk, tk, swk) *)
  meritFunc : Solver -> Q -> list Q -> list Q -> list Q -> list Q -> list Q -> Q;
  (* evalMeritInitDeriv: merit, its derivative, the tuned penalty, buffers *)
  meritInitDeriv : Q -> Solver -> Q * Q * Q * Resid;
  (* checkKKTStep, the step-check hook *)
  checkStep : nat -> bool -> Solver -> Resid
}.

Context {K : Kernels}.

(** [computeKKTRes]: store the residuals; the overall norm is the largest
    of the three. *)
Definition computeKKTRes (barrier : Q) (st : Solver)
    : Solver * (Q * Q * Q * Q) :=
  let '(r, (max_prime, max_dual, max_infeas)) := kktRes barrier st in
  let res_norm := max_prime in
  let res_norm := if Qgtb max_dual res_norm then max_dual else res_norm in
  let res_norm := if Qgtb max_infeas res_norm then max_infeas else res_norm in
  (set_resid r st, (max_prime, max_dual, max_infeas, res_norm)).

Definition setUpKKTSystem (use_qn : bool) (st : Solver) : Solver :=
  let '(ce, piv) := kktSchur use_qn st in
  let f := factor st in
  set_factor (mkFactor (Cvec f) (Cw f) (Ew f) (Dmat f) (dpiv f) ce piv) st.

Definition computeKKTStep (use_qn : bool) (st : Solver) : Solver :=
  let '(p, r) := kktStep use_qn st in
  set_resid r (set_steps p st).

Definition computeKKTGMRESStep (rtol atol : Q) (use_qn : bool) (st : Solver)
    : Z * Solver :=
  let '(iters, p, r) := gmresStep rtol atol use_qn st in
  (iters, set_resid r (set_steps p st)).

Definition evalMeritFunc (st : Solver) (fk : Q) (ck xk sk tk swk : list Q) : Q :=
  meritFunc st fk ck xk sk tk swk.

(** [evalMeritInitDeriv]: returns (m0, dm0) and stores the tuned penalty. *)
Definition evalMeritInitDeriv (max_x : Q) (st : Solver) : Q * Q * Solver :=
  let '(m0, dm0, rho, r) := meritInitDeriv max_x st in
  (m0, dm0, set_rho_penalty_search rho (set_resid r st)).

Definition checkKKTStep (iteration : nat) (is_newton : bool) (st : Solver)
    : Solver :=
  set_resid (checkStep iteration is_newton st) st.

(** [computeStepNorm]. *)
Definition computeStepNorm (st : Solver) : Q :=
  match norm_type (opts st) with
  | PAROPT_INFTY_NORM => vec_maxabs (px (steps st))
  | PAROPT_L1_NORM => vec_l1norm (px (steps st))
  | PAROPT_L2_NORM => vec_norm (px (steps st))
  end.

(** ** Line search *)

(** Store the result [prob->evalObjCon(xk, &fobj, c)] and count it. *)
Definition call_evalObjCon (xk : list Q) (st : Solver) : Z * Solver :=
  let '(fail_obj, f, cv) := evalObjCon xk in
  let e := evals st in
  (fail_obj, set_evals (mkEvals f cv (g e) (Ac e) (S (neval e)) (ngeval e)) st).

(** Store the result of [prob->evalObjConGradient(xk, g, Ac)] and count it. *)
Definition call_evalObjConGradient (xk : list Q) (st : Solver) : Z * Solver :=
  let '(fail_gobj, gv, av) := evalObjConGradient xk in
  let e := evals st in
  (fail_gobj,
   set_evals (mkEvals (fobj e) (c e) gv av (neval e) (S (ngeval e))) st).

(** [checkMeritFuncGradient(NULL, dh)], the finite-difference check of
    the merit function along the stored step: the objective and the
    gradients are evaluated again at [x], [evalMeritInitDeriv] tunes the
    penalty parameter once more, and the problem is evaluated at the
    perturbed point, its objective going to a local and its constraints to
    [rc].  A failed evaluation ends the check. *)
Definition checkMeritFuncGradient (dh : Q) (st : Solver) : Solver :=
  let d := dims st in
  let '(fail_obj, st) := call_evalObjCon (x (vars st)) st in
  if negb (fail_obj =? 0)%Z then st
  else
    let '(fail_gobj, st) := call_evalObjConGradient (x (vars st)) st in
    if negb (fail_gobj =? 0)%Z then st
    else
      let '(_, _, st) := evalMeritInitDeriv 1 st in
      let v := vars st in
      let p := steps st in
      let r := with_rx (vec_axpy dh (px p) (x v)) (resid st) in
      let r :=
        if dense_inequality d then
          with_rt (tabulate (ncon d) (fun i => get (t v) i + dh * get (pt p) i))
            (with_rs (tabulate (ncon d) (fun i => get (s v) i + dh * get (ps p) i))
               r)
        else r in
      let r :=
        if (0 <? nwcon d)%nat && sparse_inequality d
        then with_rsw (vec_axpy dh (psw p) (sw v)) r else r in
      let '(_, _, rcv) := evalObjCon (rx r) in
      let e := evals st in
      set_evals (mkEvals (fobj e) (c e) (g e) (Ac e) (S (neval e)) (ngeval e))
        (set_resid (with_rc rcv r) st).

(** The trial point of the line search: [rx = x + alpha*px],
    [rsw = sw + alpha*psw], [rs = s + alpha*ps], [rt = t + alpha*pt], each
    through [computeStep]. *)
Definition trialPoint (alpha : Q) (st : Solver) : Solver :=
  let d := dims st in
  let v := vars st in
  let p := steps st in
  let dp := design_precision (opts st) in
  let zero := 0 in
  let r := resid st in
  let r :=
    with_rx (computeStepVec dp (x v) alpha (px p)
               (Some (lb v)) None (Some (ub v)) None) r in
  let r :=
    if (0 <? nwcon d)%nat && sparse_inequality d then
      with_rsw (computeStepVec dp (sw v) alpha (psw p)
                  None (Some zero) None None) r
    else r in
  let r :=
    if dense_inequality d then
      let r := with_rs (computeStep dp (ncon d) (s v) alpha (ps p)
                          None (Some zero) None None) r in
      with_rt (computeStep dp (ncon d) (t v) alpha (pt p)
                 None (Some zero) None None) r
    else r in
  set_resid r st.

(** The locals of [lineSearch]. *)
Record LineState := mkLineState {
  ls_alpha : Q;
  ls_fail : Z;
  ls_best_merit : Q;
  ls_best_alpha : Q;
  ls_merit : Q;
  ls_solver : Solver
}.

(** The backtracking loop, [remaining = max_line_iters - j].  The boolean
    tells whether the loop was left by [break]. *)
Fixpoint lineSearchLoop (remaining : nat) (alpha_min m0 dm0 : Q)
    (l : LineState) : bool * LineState :=
  match remaining with
  | O => (false, l)
  | S rem =>
    let alpha := ls_alpha l in
    let fail := ls_fail l in
    let st := trialPoint alpha (ls_solver l) in
    let r := resid st in
    let '(fail_obj, st) := call_evalObjCon (rx r) st in
    if negb (fail_obj =? 0)%Z then
      (* Multiply alpha by 1/10 to avoid the undefined region *)
      lineSearchLoop rem alpha_min m0 dm0
        (mkLineState (alpha * 0.1) fail (ls_best_merit l) (ls_best_alpha l)
           (ls_merit l) st)
    else
      let o := opts st in
      let merit :=
        evalMeritFunc st (fobj (evals st)) (c (evals st))
          (rx r) (rs r) (rt r) (rsw r) in
      let '(best_alpha, best_merit) :=
        if Qltb (ls_best_alpha l) 0 || Qltb merit (ls_best_merit l)
        then (alpha, merit) else (ls_best_alpha l, ls_best_merit l) in
      if Qltb (merit - armijo_constant o * alpha * dm0)
              (rnd (m0 + function_precision o)) then
        let fail :=
          if has_flag fail PAROPT_LINE_SEARCH_MIN_STEP
          then Z.lor PAROPT_LINE_SEARCH_SUCCESS PAROPT_LINE_SEARCH_MIN_STEP
          else PAROPT_LINE_SEARCH_SUCCESS in
        (true, mkLineState alpha fail best_merit best_alpha merit st)
      else if has_flag fail PAROPT_LINE_SEARCH_MIN_STEP then
        (true, mkLineState alpha fail best_merit best_alpha merit st)
      else
        let '(alpha, fail) :=
          match rem with
          | O => (alpha, fail)             (* j = max_line_iters - 1 *)
          | S _ =>
            if use_backtracking_alpha o then
              let alpha := 0.5 * alpha in
              if Qle_bool alpha alpha_min
              then (alpha_min, Z.lor fail PAROPT_LINE_SEARCH_MIN_STEP)
              else (alpha, fail)
            else
              let alpha_new :=
                - 0.5 * dm0 * (alpha * alpha) / (merit - m0 - dm0 * alpha) in
              if Qle_bool alpha_new alpha_min
              then (alpha_min, Z.lor fail PAROPT_LINE_SEARCH_MIN_STEP)
              else if Qltb alpha_new (0.01 * alpha) then (0.01 * alpha, fail)
              else (alpha_new, fail)
          end in
        lineSearchLoop rem alpha_min m0 dm0
          (mkLineState alpha fail best_merit best_alpha merit st)
  end.

(** The two-sided test "no significant change": [a + prec <= b] and
    [b + prec <= a], each sum rounded to a double. *)
Definition no_change_guard (prec a b : Q) : bool :=
  Qle_bool (rnd (a + prec)) b && Qle_bool (rnd (b + prec)) a.

(** [lineSearch]: returns the flag word, the accepted [alpha] and the
    solver (trial point, objective and constraints at that point). *)
Definition lineSearch (alpha_min alpha m0 dm0 : Q) (st : Solver)
    : Z * Q * Solver :=
  let o := opts st in
  let '(broke, l) :=
    lineSearchLoop (max_line_iters o) alpha_min m0 dm0
      (mkLineState alpha PAROPT_LINE_SEARCH_FAILURE 0 (-1) 0 st) in
  let alpha := ls_alpha l in
  let st := ls_solver l in
  let fail := ls_fail l in
  let fail :=
    if broke then fail else Z.lor fail PAROPT_LINE_SEARCH_MAX_ITERS in
  if negb (has_flag fail PAROPT_LINE_SEARCH_SUCCESS) then
    let fail :=
      if Qle_bool (ls_best_merit l) (rnd (m0 + function_precision o)) then
        Z.land (Z.lor fail PAROPT_LINE_SEARCH_SUCCESS)
               (Z.lnot PAROPT_LINE_SEARCH_FAILURE)
      else if no_change_guard (function_precision o) m0 (ls_merit l) then
        Z.lor fail PAROPT_LINE_SEARCH_NO_IMPROVEMENT
      else fail in
    if negb (Qeq_bool alpha (ls_best_alpha l)) then
      let alpha := ls_best_alpha l in
      let st := trialPoint alpha st in
      let '(fail_obj, st) := call_evalObjCon (rx (resid st)) st in
      if negb (fail_obj =? 0)%Z
      then (PAROPT_LINE_SEARCH_FAILURE, alpha, st)
      else (fail, alpha, st)
    else (fail, ls_best_alpha l, st)
  else (fail, alpha, st).

(** ** The accepted update *)

(** First block of [computeStepAndUpdate], "Set the new values of the
    variables": the multipliers and slacks, each clamped against zero. *)
Definition steppedMultipliers (alpha : Q) (st : Solver) : Vars :=
  let d := dims st in
  let p := steps st in
  let dp := design_precision (opts st) in
  let zero := 0 in
  let v := vars st in
  let v :=
    if (0 <? nwcon d)%nat then
      let v := with_zw (computeStepVec dp (zw v) alpha (pzw p)
                          None (Some zero) None None) v in
      if sparse_inequality d then
        with_sw (computeStepVec dp (sw v) alpha (psw p)
                   None (Some zero) None None) v
      else v
    else v in
  let v :=
    if use_lower d then
      with_zl (computeStepVec dp (zl v) alpha (pzl p)
                 None (Some zero) None None) v
    else v in
  let v :=
    if use_upper d then
      with_zu (computeStepVec dp (zu v) alpha (pzu p)
                 None (Some zero) None None) v
    else v in
  let v := with_z (computeStep dp (ncon d) (z v) alpha (pz p)
                     None (Some zero) None None) v in
  if dense_inequality d then
    let v := with_s (computeStep dp (ncon d) (s v) alpha (ps p)
                       None (Some zero) None None) v in
    let v := with_t (computeStep dp (ncon d) (t v) alpha (pt p)
                       None (Some zero) None None) v in
    with_zt (computeStep dp (ncon d) (zt v) alpha (pzt p)
               None (Some zero) None None) v
  else v.

(** [computeStepAndUpdate]: apply the step to every variable, evaluate the
    problem at the new point and update the quasi-Newton approximation.
    The returned integer is [fail_obj] when the evaluation fails, otherwise
    the type of quasi-Newton update. *)
Definition computeStepAndUpdate (alpha : Q)
    (eval_obj_con perform_qn_update : bool) (st : Solver) : Z * Solver :=
  let d := dims st in
  let o := opts st in
  let p := steps st in
  let dp := design_precision o in
  (* Set the new values of the variables *)
  let v := steppedMultipliers alpha st in
  (* The negative gradient of the Lagrangian with the old gradient
     information and the new multiplier estimates *)
  let e := evals st in
  let has_qn := match qn st with Some _ => true | None => false end in
  let y :=
    if has_qn && perform_qn_update && use_quasi_newton_update o then
      let y := vec_scale (-1) (g e) in
      let y :=
        fold_left (fun y i => vec_axpy (get (z v) i) (nth i (Ac e) []) y)
          (seq 0 (ncon d)) y in
      if (0 <? nwcon d)%nat
      then addSparseJacobianTranspose 1 (x v) (zw v) y
      else y
    else y_qn st in
  (* Apply the step to the design variables *)
  let v := with_x (computeStepVec dp (x v) alpha (px p)
                     (Some (lb v)) None (Some (ub v)) None) v in
  let st := set_qn_vecs y (s_qn st) (set_vars v st) in
  let '(fail_obj, st) :=
    if eval_obj_con then call_evalObjCon (x v) st else (0%Z, st) in
  if eval_obj_con && negb (fail_obj =? 0)%Z then (fail_obj, st)
  else
    (* a failed gradient evaluation is reported on stderr only *)
    let '(_, st) := call_evalObjConGradient (x v) st in
    let e := evals st in
    match qn st with
    | Some q =>
      if perform_qn_update then
        if use_quasi_newton_update o then
          let sq := vec_scale alpha (px p) in
          let y := vec_axpy 1 (g e) y in
          let y :=
            fold_left (fun y i => vec_axpy (- get (z v) i) (nth i (Ac e) []) y)
              (seq 0 (ncon d)) y in
          let y :=
            if (0 <? nwcon d)%nat
            then addSparseJacobianTranspose (-1) (x v) (zw v) y
            else y in
          let '(sq, y) := computeQuasiNewtonUpdateCorrection sq y in
          let '(q, update_type) := qn_update_sy q (x v) (z v) (zw v) sq y in
          (update_type, set_qn (Some q) (set_qn_vecs y sq st))
        else
          let '(q, update_type) := qn_update q (x v) (z v) (zw v) in
          (update_type, set_qn (Some q) st)
      else (0%Z, st)
    | None => (0%Z, st)
    end.

(** ** Assembly and factorisation of the diagonal KKT system *)

(** [factorCw] for [nwblock == 1]: invert the diagonal in place, stopping
    with 1 at the first zero entry.  [n] entries remain from index [i]. *)
Fixpoint factorCw_diagonal (n i : nat) (cw : list Q) : list Q * Z :=
  match n with
  | O => (cw, 0%Z)
  | S n' =>
    if Qeq_bool (get cw i) 0 then (cw, 1%Z)
    else factorCw_diagonal n' (S i) (set_nth cw i (1 / get cw i))
  end.

(** [factorCw] otherwise: a packed Cholesky factorisation per block;
    [n] blocks remain, the next one starts at constraint [i] and at
    offset [off] of [Cw]. *)
Fixpoint factorCw_blocks (blk n i off : nat) (cw : list Q) : list Q * Z :=
  match n with
  | O => (cw, 0%Z)
  | S n' =>
    let incr := (((blk + 1) * blk) / 2)%nat in
    let '(fac, info) := LAPACKdpptrf blk (firstn incr (skipn off cw)) in
    let cw := (firstn off cw ++ fac ++ skipn (off + incr) cw)%list in
    if negb (info =? 0)%Z then (cw, (Z.of_nat i + info)%Z)
    else factorCw_blocks blk n' (i + blk) (off + incr) cw
  end.

(** The number of passes of [for (i = 0; i < n; i += step)]. *)
Definition strides (n step : nat) : nat := ((n + step - 1) / step)%nat.

(** [factorCw]: factor the matrix after assembly; the code it returns is
    nonzero when a block is singular. *)
Definition factorCw (st : Solver) : Z * Solver :=
  let d := dims st in
  let f := factor st in
  let '(cw, code) :=
    if (nwblock d =? 1)%nat then factorCw_diagonal (nwcon d) 0 (Cw f)
    else factorCw_blocks (nwblock d) (strides (nwcon d) (nwblock d)) 0 0 (Cw f) in
  (code, set_factor (mkFactor (Cvec f) cw (Ew f) (Dmat f) (dpiv f) (Ce f) (cpiv f)) st).

(** [applyCwFactor] on the blocks, as [factorCw_blocks]. *)
Fixpoint applyCwFactor_blocks (blk n i off : nat) (cw rhs : list Q)
    : list Q * Z :=
  match n with
  | O => (rhs, 0%Z)
  | S n' =>
    let incr := (((blk + 1) * blk) / 2)%nat in
    let '(sol, info) :=
      LAPACKdpptrs blk (firstn incr (skipn off cw)) (firstn blk (skipn i rhs)) in
    let rhs := (firstn i rhs ++ sol ++ skipn (i + blk) rhs)%list in
    if negb (info =? 0)%Z then (rhs, (Z.of_nat i + info)%Z)
    else applyCwFactor_blocks blk n' (i + blk) (off + incr) cw rhs
  end.

(** [applyCwFactor]: apply the factored Cw to a vector. *)
Definition applyCwFactor (st : Solver) (vec : list Q) : list Q * Z :=
  let d := dims st in
  let cw := Cw (factor st) in
  if (nwblock d =? 1)%nat then
    (tabulate (nwcon d) (fun i => get vec i * get cw i), 0%Z)
  else
    applyCwFactor_blocks (nwblock d) (strides (nwcon d) (nwblock d)) 0 0 cw vec.

(** The diagonal of [Zw^{-1} Sw] written into the zeroed packed blocks:
    entry [k] of a block is a diagonal one when [k = j(j+3)/2]. *)
Definition Cw_slack_diagonal (st : Solver) : list Q :=
  let d := dims st in
  let v := vars st in
  let blk := nwblock d in
  let size := ((nwcon d * (blk + 1)) / 2)%nat in
  if negb (sparse_inequality d) then repeat 0 size
  else if (blk =? 1)%nat then
    tabulate (nwcon d) (fun i => get (sw v) i / get (zw v) i)
  else
    let incr := (((blk + 1) * blk) / 2)%nat in
    tabulate size (fun idx =>
      let b := (idx / incr)%nat in
      let k := (idx mod incr)%nat in
      match find (fun j => (k =? (j * (j + 3)) / 2)%nat) (seq 0 blk) with
      | Some j => get (sw v) (b * blk + j) / get (zw v) (b * blk + j)
      | None => 0
      end).

(** First block of [setUpKKTDiagSystem]: the diagonal matrix [Cvec]. *)
Definition assembleCvec (use_qn : bool) (st : Solver) : Solver :=
  let d := dims st in
  let o := opts st in
  let v := vars st in
  let h :=
    if use_diag_hessian o then hdiag st else None in
  let b0 :=
    match h, qn st with
    | Some _, _ => 0
    | None, Some q => if use_qn then fst (fst (fst (getCompactMat q))) else 0
    | None, None => 0
    end in
  let b i := match h with Some hv => get hv i | None => b0 end in
  let lo i := get (zl v) i / (get (x v) i - get (lb v) i) in
  let up i := get (zu v) i / (get (ub v) i - get (x v) i) in
  let cvals :=
    if use_lower d && use_upper d then
      tabulate (nvars d) (fun i =>
        if live_lower st i && live_upper st i
        then 1 / (b i + qn_sigma o + lo i + up i)
        else if live_lower st i then 1 / (b i + qn_sigma o + lo i)
        else if live_upper st i then 1 / (b i + qn_sigma o + up i)
        else 1 / (b i + qn_sigma o))
    else if use_lower d then
      tabulate (nvars d) (fun i =>
        if live_lower st i then 1 / (b i + qn_sigma o + lo i)
        else 1 / (b i + qn_sigma o))
    else if use_upper d then
      tabulate (nvars d) (fun i =>
        if live_upper st i then 1 / (b i + qn_sigma o + up i)
        else 1 / (b i + qn_sigma o))
    else
      tabulate (nvars d) (fun i => 1 / (b i + qn_sigma o)) in
  let f := factor st in
  set_factor (mkFactor cvals (Cw f) (Ew f) (Dmat f) (dpiv f) (Ce f) (cpiv f)) st.

(** Second block: [Cw = Zw^{-1}*Sw + Aw*C^{-1}*Aw^{T}], not yet factored. *)
Definition assembleCw (st : Solver) : Solver :=
  let f := factor st in
  let cw :=
    addSparseInnerProduct 1 (x (vars st)) (Cvec f) (Cw_slack_diagonal st) in
  set_factor (mkFactor (Cvec f) cw (Ew f) (Dmat f) (dpiv f) (Ce f) (cpiv f)) st.

(** Third block: [Ew = Aw*C^{-1}*A], through the work vector [xtmp], for
    which the callers pass [s_qn]. *)
Definition assembleEw (st : Solver) : Solver :=
  let d := dims st in
  let e := evals st in
  let f := factor st in
  let xtmp k :=
    tabulate (nvars d) (fun i => get (Cvec f) i * get (nth k (Ac e) []) i) in
  let ew :=
    tabulate (ncon d) (fun k =>
      addSparseJacobian 1 (x (vars st)) (xtmp k) (repeat 0 (nwcon d))) in
  let st :=
    set_factor (mkFactor (Cvec f) (Cw f) ew (Dmat f) (dpiv f) (Ce f) (cpiv f)) st in
  match ncon d with
  | O => st
  | S k => set_qn_vecs (y_qn st) (xtmp k) st
  end.

(** Fourth block: the dense matrix
    [D = Z^{-1}*S + Zt^{-1}*T + A*C^{-1}*A^{T} - Ew^{T}*Cw^{-1}*Ew],
    stored by columns.  The sums are the unrolled loops of the source. *)
Definition assembleDmat (st : Solver) : list Q :=
  let d := dims st in
  let v := vars st in
  let e := evals st in
  let f := factor st in
  let lower i j :=
    let dw :=
      if (0 <? nwcon d)%nat then
        let wtmp := fst (applyCwFactor st (nth j (Ew f) [])) in
        Qsum (tabulate (nwcon d) (fun k => get (nth i (Ew f) []) k * get wtmp k))
      else 0 in
    let da :=
      Qsum (tabulate (nvars d) (fun k =>
        get (nth i (Ac e) []) k * get (nth j (Ac e) []) k * get (Cvec f) k)) in
    0 - dw + da in
  let n := ncon d in
  tabulate (n * n) (fun idx =>
    let i := (idx mod n)%nat in
    let j := (idx / n)%nat in
    (* the remainder of the matrix is populated by symmetry *)
    let a := if (j <=? i)%nat then lower i j else lower j i in
    if (i =? j)%nat && dense_inequality d
    then a + (get (s v) i / get (z v) i + get (t v) i / get (zt v) i)
    else a).

(** [setUpKKTDiagSystem]: assemble [Cvec], [Cw], [Ew] and [Dmat] and factor
    them.  The function is [void]: the code of [factorCw] and the [info] of
    the LU factorisation are dropped. *)
Definition setUpKKTDiagSystem (use_qn : bool) (st : Solver) : Solver :=
  let d := dims st in
  let st := assembleCvec use_qn st in
  let st :=
    if (0 <? nwcon d)%nat then
      let st := assembleCw st in
      (* Factor the Cw matrix *)
      let '(_, st) := factorCw st in
      assembleEw st
    else st in
  let dmat := assembleDmat st in
  let f := factor st in
  if (0 <? ncon d)%nat then
    (* Factor the matrix for future use *)
    let '(lu, piv, _) := LAPACKdgetrf (ncon d) dmat in
    set_factor (mkFactor (Cvec f) (Cw f) (Ew f) lu piv (Ce f) (cpiv f)) st
  else
    set_factor (mkFactor (Cvec f) (Cw f) (Ew f) dmat (dpiv f) (Ce f) (cpiv f)) st.

End Model.

(** ** Checkpoint files *)

(** A file is a sequence of cells, one per stored [int] or scalar; cell
    indices stand for byte offsets ([3*sizeof(int)] is three cells, one
    scalar is one cell).  A cell read at the other type yields zero. *)
Inductive Cell := IntCell (n : Z) | ScalarCell (q : Q).

Definition File := nat -> Cell.

Definition empty_file : File := fun _ => IntCell 0.

Definition cell_int (cl : Cell) : Z :=
  match cl with IntCell n => n | ScalarCell _ => 0%Z end.
Definition cell_scalar (cl : Cell) : Q :=
  match cl with ScalarCell q => q | IntCell _ => 0 end.

(** Write [data] at cell [off]. *)
Definition file_write (off : nat) (data : list Cell) (f : File) : File :=
  fun i =>
    if (off <=? i)%nat && (i <? off + length data)%nat
    then nth (i - off) data (f i) else f i.

Definition file_write_ints (off : nat) (data : list Z) (f : File) : File :=
  file_write off (map IntCell data) f.
Definition file_write_scalars (off : nat) (data : list Q) (f : File) : File :=
  file_write off (map ScalarCell data) f.

Definition file_read_ints (off n : nat) (f : File) : list Z :=
  tabulate n (fun i => cell_int (f (off + i)%nat)).
Definition file_read_scalars (off n : nat) (f : File) : list Q :=
  tabulate n (fun i => cell_scalar (f (off + i)%nat)).

(** Read [n] scalars at cell [off] into the front of the array [dst]. *)
Definition file_read_into (off n : nat) (f : File) (dst : list Q) : list Q :=
  (file_read_scalars off n f ++ skipn n dst)%list.

(** The files reachable through [MPI_File_open]: the contents by name, and
    which names can be opened for writing (and created). *)
Record FileSystem := mkFileSystem {
  contents : string -> option File;
  writable : string -> bool
}.

(** [MPI_File_open] with [MPI_MODE_WRONLY | MPI_MODE_CREATE]. *)
Definition open_write (fsys : FileSystem) (name : string) : option File :=
  if writable fsys name then
    match contents fsys name with
    | Some f => Some f
    | None => Some empty_file
    end
  else None.

(** [MPI_File_open] with [MPI_MODE_RDONLY]. *)
Definition open_read (fsys : FileSystem) (name : string) : option File :=
  contents fsys name.

Definition store (fsys : FileSystem) (name : string) (f : File) : FileSystem :=
  mkFileSystem
    (fun n => if String.eqb n name then Some f else contents fsys n)
    (writable fsys).

Section Driver.

Context {prob : ParOptProblem} {QNI : ParOptCompactQuasiNewton} {LA : Numerics}.
Context {K : Kernels}.

(** The writes of [writeSolutionFile] on the open file: the sizes, the
    barrier parameter, [z], [s], then [x], [zl], [zu] and, with sparse
    constraints, [zw] and [sw]. *)
Definition writeSolution (st : Solver) (fp : File) : File :=
  let d := dims st in
  let v := vars st in
  let var_sizes :=
    [Z.of_nat (nvars d); Z.of_nat (nwcon d); Z.of_nat (ncon d)] in
  let fp := file_write_ints 0 var_sizes fp in
  let fp := file_write_scalars 3 [barrier_param st] fp in
  let fp := file_write_scalars 4 (firstn (ncon d) (z v)) fp in
  let fp := file_write_scalars (4 + ncon d) (firstn (ncon d) (s v)) fp in
  let offset := (3 + (2 * ncon d + 1))%nat in
  let fp := file_write_scalars offset (x v) fp in
  let offset := (offset + nvars d)%nat in
  let fp := file_write_scalars offset (firstn (length (x v)) (zl v)) fp in
  let offset := (offset + nvars d)%nat in
  let fp := file_write_scalars offset (firstn (length (x v)) (zu v)) fp in
  let offset := (offset + nvars d)%nat in
  if (0 <? nwcon d)%nat then
    let fp := file_write_scalars offset (zw v) fp in
    let offset := (offset + nwcon d)%nat in
    file_write_scalars offset (firstn (length (zw v)) (sw v)) fp
  else fp.

(** [writeSolutionFile]: 1 when the file cannot be opened, else 0. *)
Definition writeSolutionFile (filename : string) (st : Solver)
    (fsys : FileSystem) : Z * FileSystem :=
  match open_write fsys filename with
  | None => (1%Z, fsys)
  | Some fp => (0%Z, store fsys filename (writeSolution st fp))
  end.

(** The size test of [readSolutionFile] on the three recorded sizes. *)
Definition sizeFail (st : Solver) (fp : File) : bool :=
  let d := dims st in
  let var_sizes := file_read_ints 0 3 fp in
  negb (nth 0 var_sizes 0 =? Z.of_nat (nvars d))%Z ||
  negb (nth 1 var_sizes 0 =? Z.of_nat (nwcon d))%Z ||
  negb (nth 2 var_sizes 0 =? Z.of_nat (ncon d))%Z.

(** The reads of [readSolutionFile] once the sizes are accepted. *)
Definition readSolution (st : Solver) (fp : File) : Solver :=
  let d := dims st in
  let v := vars st in
  let mu := get (file_read_scalars 3 1 fp) 0 in
  let v := with_z (file_read_into 4 (ncon d) fp (z v)) v in
  let v := with_s (file_read_into (4 + ncon d) (ncon d) fp (s v)) v in
  let offset := (3 + (2 * ncon d + 1))%nat in
  let xsize := length (x v) in
  let v := with_x (file_read_into offset xsize fp (x v)) v in
  let offset := (offset + nvars d)%nat in
  let v := with_zl (file_read_into offset xsize fp (zl v)) v in
  let offset := (offset + nvars d)%nat in
  let v := with_zu (file_read_into offset xsize fp (zu v)) v in
  let offset := (offset + nvars d)%nat in
  let v :=
    if (0 <? nwcon d)%nat then
      let nwsize := length (zw v) in
      let v := with_zw (file_read_into offset nwsize fp (zw v)) v in
      let offset := (offset + nwcon d)%nat in
      with_sw (file_read_into offset nwsize fp (sw v)) v
    else v in
  set_vars v (set_barrier_param mu st).

(** [readSolutionFile]: the reverse of [writeSolutionFile], refused with 1
    when the file cannot be opened or the recorded sizes are not those of
    the solver. *)
Definition readSolutionFile (filename : string) (st : Solver)
    (fsys : FileSystem) : Z * Solver :=
  match open_read fsys filename with
  | None => (1%Z, st)
  | Some fp =>
    if sizeFail st fp then (1%Z, st)
    else (0%Z, readSolution st fp)
  end.

(** ** Start of the optimization *)

(** Zero the multipliers of the bounds that are out of range. *)
Definition zeroInactiveBoundMultipliers (st : Solver) : Solver :=
  let d := dims st in
  let v := vars st in
  let mbv := max_bound_val (opts st) in
  let zlv :=
    tabulate (nvars d) (fun i =>
      if Qle_bool (get (lb v) i) (- mbv) then 0 else get (zl v) i) in
  let zuv :=
    tabulate (nvars d) (fun i =>
      if Qgeb (get (ub v) i) mbv then 0 else get (zu v) i) in
  set_vars (with_zu zuv (with_zl zlv v)) st.

(** [initAndCheckDesignAndBounds]: fetch the variables and bounds, repair
    inconsistent bounds and variables too close to a bound. *)
Definition initAndCheckDesignAndBounds (st : Solver) : Solver :=
  let d := dims st in
  let v := vars st in
  let mbv := max_bound_val (opts st) in
  let '(xv, lbv, ubv) := getVarsAndBounds (x v) (lb v) (ub v) in
  let rel_bound := 0.001 * barrier_param st in
  let fix_entry i : Q * Q * Q :=
    let xi := get xv i in
    let lbi := get lbv i in
    let ubi := get ubv i in
    let delta := 1 in
    let '(lbi, ubi, delta) :=
      if Qgtb lbi (- mbv) && Qltb ubi mbv then
        let '(lbi, ubi) :=
          if Qgeb lbi ubi then
            (* Make up bounds *)
            let lbi' := 0.5 * (lbi + ubi) - 0.5 * rel_bound in
            (lbi', lbi' + rel_bound)
          else (lbi, ubi) in
        (lbi, ubi, ubi - lbi)
      else (lbi, ubi, delta) in
    let xi :=
      if Qgtb lbi (- mbv) && Qltb xi (lbi + rel_bound * delta)
      then lbi + rel_bound * delta else xi in
    let xi :=
      if Qltb ubi mbv && Qgtb xi (ubi - rel_bound * delta)
      then ubi - rel_bound * delta else xi in
    (xi, lbi, ubi) in
  let v :=
    if use_lower d && use_upper d then
      let xs := tabulate (nvars d) fix_entry in
      with_bounds (map (fun e => snd (fst e)) xs) (map snd xs)
        (with_x (map (fun e => fst (fst e)) xs) v)
    else with_bounds lbv ubv (with_x xv v) in
  zeroInactiveBoundMultipliers (set_vars v st).

(** [max2(start_affine_multiplier_min, fabs(v + p))]. *)
Definition affine_start (o : Options) (vi pi : Q) : Q :=
  max2 (start_affine_multiplier_min o) (Qabs (vi + pi)).

(** The [PAROPT_AFFINE_STEP] starting point. *)
Definition startAffineStep (st : Solver) : Solver :=
  let d := dims st in
  let o := opts st in
  let st := zeroInactiveBoundMultipliers st in
  let '(st, _) := computeKKTRes 0 st in
  let use_qn :=
    negb (sequential_linear_method st || negb (use_qn_gmres_precon o)) in
  let st := setUpKKTDiagSystem use_qn st in
  let st := setUpKKTSystem use_qn st in
  let st := computeKKTStep use_qn st in
  let p := steps st in
  let v := vars st in
  let upd n vv pp := tabulate n (fun i => affine_start o (get vv i) (get pp i)) in
  let v :=
    if dense_inequality d then
      with_zt (upd (ncon d) (zt v) (pzt p))
        (with_t (upd (ncon d) (t v) (pt p))
           (with_s (upd (ncon d) (s v) (ps p))
              (with_z (upd (ncon d) (z v) (pz p)) v)))
    else with_z (upd (ncon d) (z v) (pz p)) v in
  let v :=
    if (0 <? nwcon d)%nat then
      let v := with_zw (upd (nwcon d) (zw v) (pzw p)) v in
      if sparse_inequality d then with_sw (upd (nwcon d) (sw v) (psw p)) v
      else v
    else v in
  let st' := set_vars v st in
  let v :=
    if use_lower d then
      with_zl (tabulate (nvars d) (fun i =>
        if live_lower st' i then affine_start o (get (zl v) i) (get (pzl p) i)
        else get (zl v) i)) v
    else v in
  let v :=
    if use_upper d then
      with_zu (tabulate (nvars d) (fun i =>
        if live_upper st' i then affine_start o (get (zu v) i) (get (pzu p) i)
        else get (zu v) i)) v
    else v in
  let st := set_vars v st in
  set_barrier_param (computeComp st) st.

(** The [PAROPT_LEAST_SQUARES_MULTIPLIERS] starting point. *)
Definition startLeastSquaresMultipliers (st : Solver) : Solver :=
  let d := dims st in
  let o := opts st in
  let v := vars st in
  let e := evals st in
  let n := ncon d in
  let v :=
    mkVars (x v) (lb v) (ub v)
      (vec_set (length (zl v)) 1) (vec_set (length (zu v)) 1)
      (vec_set n 1) (vec_set n 1) (vec_set n 1) (vec_set n 1)
      (vec_set (length (zw v)) 1) (vec_set (length (sw v)) 1) in
  let st := zeroInactiveBoundMultipliers (set_vars v st) in
  let v := vars st in
  (* the right-hand side of the least-squares problem *)
  let xt := vec_axpy 1 (zu v) (vec_axpy (-1) (zl v) (g e)) in
  let st := set_qn_vecs xt (s_qn st) st in
  let zv := tabulate n (fun i => vec_dot (nth i (Ac e) []) xt) in
  (* Dmat = A*A^{T} *)
  let dmat :=
    tabulate (n * n) (fun idx =>
      vec_dot (nth (idx / n) (Ac e) []) (nth (idx mod n) (Ac e) [])) in
  let f := factor st in
  if (0 <? n)%nat then
    let '(lu, piv, info) := LAPACKdgetrf n dmat in
    let st := set_factor (mkFactor (Cvec f) (Cw f) (Ew f) lu piv
                            (Ce f) (cpiv f)) st in
    let zv :=
      if (info =? 0)%Z then
        let zv := fst (LAPACKdgetrs n lu piv zv) in
        (* Keep the multipliers that are within a reasonable range *)
        if dense_inequality d then
          tabulate n (fun i =>
            if Qltb (get zv i) 0.01 || Qgtb (get zv i) (get (penalty_gamma o) i)
            then 1 else get zv i)
        else
          tabulate n (fun i =>
            if Qltb (get zv i) (- get (penalty_gamma o) i) ||
               Qgtb (get zv i) (get (penalty_gamma o) i)
            then 1 else get zv i)
      else vec_set n 1 in
    set_vars (with_z zv v) st
  else
    set_vars (with_z zv v)
      (set_factor (mkFactor (Cvec f) (Cw f) (Ew f) dmat (dpiv f)
                     (Ce f) (cpiv f)) st).

(** ** The major iteration of [optimize] *)

(** The locals of [optimize] that live across iterations, with the
    solver, the file system and the checkpoint name. *)
Record LoopState := mkLoopState {
  solver : Solver;
  fsys : FileSystem;
  checkpoint : option string;
  fobj_prev : Q;
  alpha_prev : Q;
  alpha_xprev : Q;
  alpha_zprev : Q;
  dm0_prev : Q;
  res_norm_prev : Q;
  step_norm_prev : Q;
  no_merit_function_improvement : bool;
  line_search_test : nat;
  line_search_failed : bool
}.

(** [k % m == 0] on [int]s. *)
Definition divides (m : Z) (k : nat) : bool := (Z.rem (Z.of_nat k) m =? 0)%Z.

Definition reset_qn (st : Solver) : Solver :=
  match qn st with
  | Some q => set_qn (Some (qn_reset q)) st
  | None => st
  end.

(** The head of the loop body: the periodic reset of the quasi-Newton
    approximation and the checkpoint. *)
Definition iterationHead (k : nat) (l : LoopState) : LoopState :=
  let st := solver l in
  let o := opts st in
  let st :=
    match qn st with
    | Some _ =>
      if negb (sequential_linear_method st) &&
         ((0 <? k)%nat && divides (hessian_reset_freq o) k &&
          use_quasi_newton_update o)
      then reset_qn st else st
    | None => st
    end in
  let '(fsys', checkpoint') :=
    if (0 <? write_output_frequency o)%Z && divides (write_output_frequency o) k
    then
      match checkpoint l with
      | Some name =>
        let '(fail, fs') := writeSolutionFile name st (fsys l) in
        if negb (fail =? 0)%Z then (fs', None) else (fs', Some name)
      | None => (fsys l, None)
      end
    else (fsys l, checkpoint l) in
  mkLoopState st fsys' checkpoint' (fobj_prev l) (alpha_prev l)
    (alpha_xprev l) (alpha_zprev l) (dm0_prev l) (res_norm_prev l)
    (step_norm_prev l) (no_merit_function_improvement l)
    (line_search_test l) (line_search_failed l).

(** What the loop body knows when it tests for convergence. *)
Record BarrierStage := mkBarrierStage {
  bs_solver : Solver;
  rel_function_test : bool;
  bs_line_search_test : nat;
  comp : Q;
  max_prime : Q;
  max_dual : Q;
  max_infeas : Q;
  res_norm : Q;
  bs_res_norm_prev : Q;
  barrier_converged : bool
}.

(** The relative function test of the loop body. *)
Definition relFunctionTest (l : LoopState) : bool :=
  Qeq_bool (alpha_xprev l) 1 && Qeq_bool (alpha_zprev l) 1 &&
  Qltb (Qabs (fobj (evals (solver l)) - fobj_prev l))
       (rel_func_tol (opts (solver l)) * Qabs (fobj_prev l)).

(** The monotone test "the barrier problem has converged". *)
Definition barrierConverged (k : nat) (res_nrm mu : Q) (rel_test : bool)
    (ls_test : nat) : bool :=
  (0 <? k)%nat && (Qltb res_nrm (10 * mu) || rel_test || (2 <=? ls_test)%nat).

(** The new barrier parameter of the monotone strategy. *)
Definition monotoneBarrier (o : Options) (mu : Q) : Q :=
  let mu_frac := monotone_barrier_fraction o * mu in
  let mu_pow := pow mu (monotone_barrier_power o) in
  let new_barrier_param := mu_frac in
  let new_barrier_param :=
    if Qltb mu_pow mu_frac then mu_pow else new_barrier_param in
  (* Truncate the barrier parameter at 0.1*abs_res_tol *)
  if Qltb new_barrier_param (0.1 * abs_res_tol o)
  then 0.09999 * abs_res_tol o else new_barrier_param.

(** From the tests at the top of the loop body to the barrier update of
    the selected strategy. *)
Definition barrierStage (k : nat) (l : LoopState) : BarrierStage :=
  let st := solver l in
  let o := opts st in
  let rel_test := relFunctionTest l in
  let ls_test :=
    if no_merit_function_improvement l then S (line_search_test l) else O in
  let cmp := computeComp st in
  match barrier_strategy o with
  | PAROPT_MONOTONE =>
    let '(st, (mp, md, mi, rn)) := computeKKTRes (barrier_param st) st in
    let rn_prev := if (k =? 0)%nat then rn else res_norm_prev l in
    let bc := barrierConverged k rn (barrier_param st) rel_test ls_test in
    if bc then
      let new_barrier_param := monotoneBarrier o (barrier_param st) in
      (* Compute the residuals with the new barrier parameter value *)
      let '(st, (mp, md, mi, rn)) := computeKKTRes new_barrier_param st in
      (* Reset the penalty parameter to the min allowable value *)
      let st := set_rho_penalty_search (min_rho_penalty_search o) st in
      let st := set_barrier_param new_barrier_param st in
      mkBarrierStage st rel_test ls_test cmp mp md mi rn rn_prev bc
    else
      mkBarrierStage st rel_test ls_test cmp mp md mi rn rn_prev bc
  | PAROPT_MEHROTRA =>
    let '(st, (mp, md, mi, rn)) := computeKKTRes (barrier_param st) st in
    let rn_prev := if (k =? 0)%nat then rn else res_norm_prev l in
    mkBarrierStage st rel_test ls_test cmp mp md mi rn rn_prev false
  | PAROPT_COMPLEMENTARITY_FRACTION =>
    let mu := monotone_barrier_fraction o * cmp in
    let mu := if Qltb mu (0.1 * abs_res_tol o) then 0.1 * abs_res_tol o else mu in
    let st := set_barrier_param mu st in
    let '(st, (mp, md, mi, rn)) := computeKKTRes mu st in
    let rn_prev := if (k =? 0)%nat then rn else res_norm_prev l in
    mkBarrierStage st rel_test ls_test cmp mp md mi rn rn_prev false
  end.

(** The convergence test of the loop body. *)
Definition converged (k : nat) (b : BarrierStage) : bool :=
  (0 <? k)%nat &&
  Qle_bool (barrier_param (bs_solver b)) (0.1 * abs_res_tol (opts (bs_solver b))) &&
  (Qltb (res_norm b) (abs_res_tol (opts (bs_solver b))) ||
   rel_function_test b ||
   (2 <=? bs_line_search_test b)%nat).

(** What one pass of the loop body leaves for the log line. *)
Record IterInfo := mkIterInfo {
  gmres_iters : Z;
  update_type : Z;
  line_fail : Z;
  seq_linear_step : bool;
  line_search_skipped : bool;
  ceq_step : bool
}.

(** How one pass of the loop body ends. *)
Inductive IterResult :=
| Converged (st : Solver) (fs : FileSystem)
| Returned (code : Z) (st : Solver) (fs : FileSystem)
| Continue (l : LoopState) (info : IterInfo).

(** The quasi-Newton (or sequential linear) step; on the left the code of
    a failed evaluation of the Hessian diagonal, on the right the solver,
    the step norm and [seq_linear_step]. *)
Definition quasiNewtonStep (l : LoopState) (b : BarrierStage) (st : Solver)
    (step_nrm : Q) : (Z * Solver) + (Solver * Q * bool) :=
  let o := opts st in
  let slp :=
    sequential_linear_method st ||
    (line_search_failed l && negb (use_quasi_newton_update o)) in
  let use_qn := negb slp && negb (use_diag_hessian o) in
  let hd :=
    if negb slp && use_diag_hessian o then
      let '(fail, hv) :=
        evalHessianDiag (x (vars st)) (z (vars st)) (zw (vars st)) in
      (fail, set_hdiag (Some hv) st)
    else (0%Z, st) in
  if negb (fst hd =? 0)%Z then inl hd
  else
    let st := snd hd in
    let st :=
      match barrier_strategy o with
      | PAROPT_MEHROTRA => fst (computeKKTRes 0 st)
      | _ => st
      end in
    let st := setUpKKTDiagSystem use_qn st in
    let st := setUpKKTSystem use_qn st in
    let st := computeKKTStep use_qn st in
    let step_nrm :=
      if Qgtb (abs_step_tol o) 0 then computeStepNorm st else step_nrm in
    let st :=
      match barrier_strategy o with
      | PAROPT_MEHROTRA =>
        let '(max_x, max_z) := computeMaxStep 1 st in
        let comp_affine := computeCompStep max_x max_z st in
        let s1 := comp_affine / comp b in
        let sigma := s1 * s1 * s1 in
        let mu := sigma * comp b in
        let mu :=
          if Qltb mu (0.09999 * abs_res_tol o) then 0.09999 * abs_res_tol o
          else mu in
        let st := set_barrier_param mu st in
        let st := fst (computeKKTRes mu st) in
        computeKKTStep use_qn st
      | _ => st
      end in
    inr (st, step_nrm, slp).

(** The inexact Newton step by GMRES, tried when Hessian-vector products
    are in use: (gmres_iters, inexact_newton_step, step norm, solver). *)
Definition newtonKrylovStep (l : LoopState) (b : BarrierStage)
    : Z * bool * Q * Solver :=
  let st := bs_solver b in
  let o := opts st in
  if use_hvec_product o then
    let gmres_rtol :=
      eisenstat_walker_gamma o *
      pow (res_norm b / bs_res_norm_prev b) (eisenstat_walker_alpha o) in
    if Qltb (max_prime b) (nk_switch_tol o) &&
       Qltb (max_dual b) (nk_switch_tol o) &&
       Qltb (max_infeas b) (nk_switch_tol o) &&
       Qltb gmres_rtol (max_gmres_rtol o) then
      let use_qn :=
        negb (sequential_linear_method st || negb (use_qn_gmres_precon o)) in
      let st := setUpKKTDiagSystem use_qn st in
      let st := setUpKKTSystem use_qn st in
      let '(iters, st) :=
        computeKKTGMRESStep gmres_rtol (gmres_atol o) use_qn st in
      let step_nrm :=
        if Qgtb (abs_step_tol o) 0 then computeStepNorm st
        else step_norm_prev l in
      if (iters <? 0)%Z then
        (* the residual was destroyed during the failed GMRES iteration *)
        (iters, false, step_nrm, fst (computeKKTRes (barrier_param st) st))
      else (iters, true, step_nrm, st)
    else (0%Z, false, step_norm_prev l, st)
  else (0%Z, false, step_norm_prev l, st).

(** What the line-search part of the loop body produces. *)
Record StepOutcome := mkStepOutcome {
  so_solver : Solver;
  so_line_fail : Z;
  so_update_type : Z;
  so_line_search_skipped : bool;
  so_seq_linear_step : bool;
  so_ceq_step : bool;
  so_alpha : Q;
  so_alpha_x : Q;
  so_alpha_z : Q;
  so_dm0 : Q
}.

(** From [scaleKKTStep] to the accepted update: the line search, or the
    update without it. *)
Definition lineSearchStage (k : nat) (l : LoopState) (b : BarrierStage)
    (fobj_prev' : Q) (inexact_newton_step seq_linear : bool) (st : Solver)
    : StepOutcome :=
  let o := opts st in
  let step_check :=
    (0 <? major_iter_step_check o)%Z && divides (major_iter_step_check o) k in
  (* Compute the maximum permitted line search lengths *)
  let tau := min_fraction_to_boundary o in
  let tau_mu := 1 - barrier_param st in
  let tau := if Qgeb tau_mu tau then tau_mu else tau in
  let '(ceq, alpha_x, alpha_z, st) :=
    scaleKKTStep tau (comp b) inexact_newton_step st in
  let alpha := 1 in
  if use_line_search o then
    let '(m0, dm0, st) := evalMeritInitDeriv alpha_x st in
    if Qgeb dm0 0 && Qle_bool dm0 (function_precision o) then
      (* skip the line search and update *)
      let '(upd, st) := computeStepAndUpdate alpha true true st in
      let line_fail :=
        if no_change_guard (function_precision o) fobj_prev' (fobj (evals st))
        then PAROPT_LINE_SEARCH_NO_IMPROVEMENT
        else PAROPT_LINE_SEARCH_FAILURE in
      mkStepOutcome st line_fail upd true seq_linear ceq alpha alpha_x alpha_z dm0
    else
      let '(seq_linear, ceq, alpha_x, alpha_z, m0, dm0, st) :=
        if Qgeb dm0 0 then
          (* Revert to an SLP step and re-compute the step *)
          let use_qn := false in
          let st := fst (computeKKTRes (barrier_param st) st) in
          let st := setUpKKTDiagSystem use_qn st in
          let st := setUpKKTSystem use_qn st in
          let st := computeKKTStep use_qn st in
          let '(ceq, alpha_x, alpha_z, st) :=
            scaleKKTStep tau (comp b) false st in
          let '(m0, dm0, st) := evalMeritInitDeriv alpha_x st in
          (true, ceq, alpha_x, alpha_z, m0, dm0, st)
        else (seq_linear, ceq, alpha_x, alpha_z, m0, dm0, st) in
      let st :=
        if step_check
        then checkMeritFuncGradient (merit_func_check_epsilon o) st else st in
      if Qgeb dm0 0 then
        mkStepOutcome st PAROPT_LINE_SEARCH_FAILURE 0 false seq_linear ceq
          alpha alpha_x alpha_z dm0
      else
        let px_norm := vec_maxabs (px (steps st)) in
        let alpha_min := 1 in
        let alpha_min :=
          if negb (Qeq_bool px_norm 0) then function_precision o / px_norm
          else alpha_min in
        let alpha_min := if Qgtb alpha_min 0.5 then 0.5 else alpha_min in
        let '(line_fail, alpha, st) := lineSearch alpha_min alpha m0 dm0 st in
        if negb (has_flag line_fail PAROPT_LINE_SEARCH_FAILURE) then
          let '(upd, st) := computeStepAndUpdate alpha false true st in
          mkStepOutcome st line_fail upd false seq_linear ceq
            alpha alpha_x alpha_z dm0
        else
          mkStepOutcome st line_fail 0 false seq_linear ceq
            alpha alpha_x alpha_z dm0
  else
    let '(upd, st) := computeStepAndUpdate alpha true true st in
    mkStepOutcome st PAROPT_LINE_SEARCH_FAILURE upd false seq_linear ceq
      alpha alpha_x alpha_z (dm0_prev l).

(** Whether the pass counts as one without merit-function improvement. *)
Definition noMeritFunctionImprovement (line_fail : Z) : bool :=
  has_flag line_fail PAROPT_LINE_SEARCH_NO_IMPROVEMENT ||
  has_flag line_fail PAROPT_LINE_SEARCH_MIN_STEP ||
  has_flag line_fail PAROPT_LINE_SEARCH_FAILURE.

(** The loop body after the convergence test. *)
Definition stepStage (k : nat) (l : LoopState) (b : BarrierStage)
    : IterResult :=
  let '(gm_iters, inexact, step_nrm, st) := newtonKrylovStep l b in
  let o := opts st in
  (* Store the objective/res_norm for next time through the loop *)
  let fobj_prev' := fobj (evals st) in
  let res_norm_prev' := res_norm b in
  let qn_step :=
    if negb inexact then quasiNewtonStep l b st step_nrm
    else inr (st, step_nrm, false) in
  match qn_step with
  | inl (code, st) => Returned code st (fsys l)
  | inr (st, step_nrm, seq_linear) =>
    let st :=
      if (0 <? major_iter_step_check o)%Z &&
         divides (major_iter_step_check o) k
      then checkKKTStep k inexact st else st in
    let so := lineSearchStage k l b fobj_prev' inexact seq_linear st in
    let st := so_solver so in
    let line_fail := so_line_fail so in
    (* Reset the quasi-Newton Hessian if there is a line search failure *)
    let st :=
      if use_quasi_newton_update o &&
         has_flag line_fail PAROPT_LINE_SEARCH_FAILURE
      then reset_qn st else st in
    Continue
      (mkLoopState st (fsys l) (checkpoint l) fobj_prev'
         (so_alpha so) (so_alpha_x so) (so_alpha_z so) (so_dm0 so)
         res_norm_prev' step_nrm
         (noMeritFunctionImprovement line_fail)
         (bs_line_search_test b)
         (has_flag line_fail PAROPT_LINE_SEARCH_FAILURE))
      (mkIterInfo gm_iters (so_update_type so) line_fail
         (so_seq_linear_step so) (so_line_search_skipped so) (so_ceq_step so))
  end.

(** One pass of the loop body of [optimize]. *)
Definition majorIteration (k : nat) (l : LoopState) : IterResult :=
  let l := iterationHead k l in
  let b := barrierStage k l in
  if converged k b then Converged (bs_solver b) (fsys l)
  else stepStage k l b.

(** [for (k = 0; k < max_major_iters; k++, niter++)], [remaining] passes
    being left. *)
Fixpoint majorLoop (remaining k : nat) (l : LoopState)
    : Z * Solver * FileSystem :=
  match remaining with
  | O => (0%Z, solver l, fsys l)
  | S rem =>
    match majorIteration k l with
    | Converged st fs => (0%Z, st, fs)
    | Returned code st fs => (code, st, fs)
    | Continue l' _ =>
      let st := solver l' in
      majorLoop rem (S k)
        (mkLoopState (set_niter (S (niter st)) st) (fsys l') (checkpoint l')
           (fobj_prev l') (alpha_prev l') (alpha_xprev l') (alpha_zprev l')
           (dm0_prev l') (res_norm_prev l') (step_norm_prev l')
           (no_merit_function_improvement l') (line_search_test l')
           (line_search_failed l'))
    end
  end.

(** The loop locals as [optimize] initialises them. *)
Definition initialLoopState (st : Solver) (fs : FileSystem)
    (checkpoint : option string) : LoopState :=
  mkLoopState st fs checkpoint 0 0 0 0 0 0 0 false 0 false.

(** The first statements of [optimize], up to the initial evaluations:
    the counters are zeroed, a solver without quasi-Newton object becomes
    sequential linear, the variables and bounds are fetched and checked. *)
Definition optimizeStart (st : Solver) : Solver :=
  (* Zero out the number of function/gradient evaluations *)
  let e := evals st in
  let st := set_evals (mkEvals (fobj e) (c e) (g e) (Ac e) 0 0) (set_niter 0 st) in
  (* Without a quasi-Newton method, use a sequential linear method *)
  let st :=
    match qn st with
    | None => set_sequential_linear_method true st
    | Some _ => st
    end in
  initAndCheckDesignAndBounds st.

(** [optimize]: the return code, the solver and the file system. *)
Definition optimize (checkpoint : option string) (st : Solver)
    (fs : FileSystem) : Z * Solver * FileSystem :=
  let st := optimizeStart st in
  let '(fail_obj, st) := call_evalObjCon (x (vars st)) st in
  if negb (fail_obj =? 0)%Z then (fail_obj, st, fs)
  else
    let '(fail_gobj, st) := call_evalObjConGradient (x (vars st)) st in
    if negb (fail_gobj =? 0)%Z then
      (* "Initial gradient evaluation failed": the source returns fail_obj *)
      (fail_obj, st, fs)
    else
      let st :=
        match starting_point_strategy (opts st) with
        | PAROPT_AFFINE_STEP => startAffineStep st
        | PAROPT_LEAST_SQUARES_MULTIPLIERS => startLeastSquaresMultipliers st
        | PAROPT_NO_START_STRATEGY => st
        end in
      let st :=
        match qn st with
        | Some q =>
          if negb (use_quasi_newton_update (opts st)) then
            set_qn (Some (fst (qn_update q (x (vars st)) (z (vars st))
                                  (zw (vars st))))) st
          else st
        | None => st
        end in
      majorLoop (max_major_iters (opts st)) 0
        (initialLoopState st fs checkpoint).


End Driver.

(** ** Option setters *)

(** Assignments to single members of the options. *)
Definition with_barrier_strategy (v : ParOptBarrierStrategy) (o : Options) : Options :=
  mkOptions (max_bound_val o) (norm_type o) (starting_point_strategy o) v
    (max_major_iters o) (rel_bound_barrier o) (abs_res_tol o) (rel_func_tol o)
    (abs_step_tol o) (use_line_search o) (use_backtracking_alpha o)
    (max_line_iters o) (min_rho_penalty_search o) (armijo_constant o)
    (monotone_barrier_fraction o) (monotone_barrier_power o)
    (min_fraction_to_boundary o) (write_output_frequency o)
    (gradient_check_frequency o) (major_iter_step_check o)
    (hessian_reset_freq o) (use_quasi_newton_update o) (qn_sigma o)
    (merit_func_check_epsilon o) (start_affine_multiplier_min o)
    (penalty_gamma o) (function_precision o) (design_precision o)
    (use_diag_hessian o) (use_hvec_product o) (use_qn_gmres_precon o)
    (nk_switch_tol o) (eisenstat_walker_alpha o) (eisenstat_walker_gamma o)
    (max_gmres_rtol o) (gmres_atol o).
Definition with_max_major_iters (v : nat) (o : Options) : Options :=
  mkOptions (max_bound_val o) (norm_type o) (starting_point_strategy o)
    (barrier_strategy o) v (rel_bound_barrier o) (abs_res_tol o)
    (rel_func_tol o) (abs_step_tol o) (use_line_search o)
    (use_backtracking_alpha o) (max_line_iters o) (min_rho_penalty_search o)
    (armijo_constant o) (monotone_barrier_fraction o)
    (monotone_barrier_power o) (min_fraction_to_boundary o)
    (write_output_frequency o) (gradient_check_frequency o)
    (major_iter_step_check o) (hessian_reset_freq o)
    (use_quasi_newton_update o) (qn_sigma o) (merit_func_check_epsilon o)
    (start_affine_multiplier_min o) (penalty_gamma o) (function_precision o)
    (design_precision o) (use_diag_hessian o) (use_hvec_product o)
    (use_qn_gmres_precon o) (nk_switch_tol o) (eisenstat_walker_alpha o)
    (eisenstat_walker_gamma o) (max_gmres_rtol o) (gmres_atol o).
Definition with_abs_res_tol (v : Q) (o : Options) : Options :=
  mkOptions (max_bound_val o) (norm_type o) (starting_point_strategy o)
    (barrier_strategy o) (max_major_iters o) (rel_bound_barrier o) v
    (rel_func_tol o) (abs_step_tol o) (use_line_search o)
    (use_backtracking_alpha o) (max_line_iters o) (min_rho_penalty_search o)
    (armijo_constant o) (monotone_barrier_fraction o)
    (monotone_barrier_power o) (min_fraction_to_boundary o)
    (write_output_frequency o) (gradient_check_frequency o)
    (major_iter_step_check o) (hessian_reset_freq o)
    (use_quasi_newton_update o) (qn_sigma o) (merit_func_check_epsilon o)
    (start_affine_multiplier_min o) (penalty_gamma o) (function_precision o)
    (design_precision o) (use_diag_hessian o) (use_hvec_product o)
    (use_qn_gmres_precon o) (nk_switch_tol o) (eisenstat_walker_alpha o)
    (eisenstat_walker_gamma o) (max_gmres_rtol o) (gmres_atol o).
Definition with_rel_func_tol (v : Q) (o : Options) : Options :=
  mkOptions (max_bound_val o) (norm_type o) (starting_point_strategy o)
    (barrier_strategy o) (max_major_iters o) (rel_bound_barrier o)
    (abs_res_tol o) v (abs_step_tol o) (use_line_search o)
    (use_backtracking_alpha o) (max_line_iters o) (min_rho_penalty_search o)
    (armijo_constant o) (monotone_barrier_fraction o)
    (monotone_barrier_power o) (min_fraction_to_boundary o)
    (write_output_frequency o) (gradient_check_frequency o)
    (major_iter_step_check o) (hessian_reset_freq o)
    (use_quasi_newton_update o) (qn_sigma o) (merit_func_check_epsilon o)
    (start_affine_multiplier_min o) (penalty_gamma o) (function_precision o)
    (design_precision o) (use_diag_hessian o) (use_hvec_product o)
    (use_qn_gmres_precon o) (nk_switch_tol o) (eisenstat_walker_alpha o)
    (eisenstat_walker_gamma o) (max_gmres_rtol o) (gmres_atol o).
Definition with_abs_step_tol (v : Q) (o : Options) : Options :=
  mkOptions (max_bound_val o) (norm_type o) (starting_point_strategy o)
    (barrier_strategy o) (max_major_iters o) (rel_bound_barrier o)
    (abs_res_tol o) (rel_func_tol o) v (use_line_search o)
    (use_backtracking_alpha o) (max_line_iters o) (min_rho_penalty_search o)
    (armijo_constant o) (monotone_barrier_fraction o)
    (monotone_barrier_power o) (min_fraction_to_boundary o)
    (write_output_frequency o) (gradient_check_frequency o)
    (major_iter_step_check o) (hessian_reset_freq o)
    (use_quasi_newton_update o) (qn_sigma o) (merit_func_check_epsilon o)
    (start_affine_multiplier_min o) (penalty_gamma o) (function_precision o)
    (design_precision o) (use_diag_hessian o) (use_hvec_product o)
    (use_qn_gmres_precon o) (nk_switch_tol o) (eisenstat_walker_alpha o)
    (eisenstat_walker_gamma o) (max_gmres_rtol o) (gmres_atol o).
Definition with_rel_bound_barrier (v : Q) (o : Options) : Options :=
  mkOptions (max_bound_val o) (norm_type o) (starting_point_strategy o)
    (barrier_strategy o) (max_major_iters o) v (abs_res_tol o)
    (rel_func_tol o) (abs_step_tol o) (use_line_search o)
    (use_backtracking_alpha o) (max_line_iters o) (min_rho_penalty_search o)
    (armijo_constant o) (monotone_barrier_fraction o)
    (monotone_barrier_power o) (min_fraction_to_boundary o)
    (write_output_frequency o) (gradient_check_frequency o)
    (major_iter_step_check o) (hessian_reset_freq o)
    (use_quasi_newton_update o) (qn_sigma o) (merit_func_check_epsilon o)
    (start_affine_multiplier_min o) (penalty_gamma o) (function_precision o)
    (design_precision o) (use_diag_hessian o) (use_hvec_product o)
    (use_qn_gmres_precon o) (nk_switch_tol o) (eisenstat_walker_alpha o)
    (eisenstat_walker_gamma o) (max_gmres_rtol o) (gmres_atol o).
Definition with_monotone_barrier_fraction (v : Q) (o : Options) : Options :=
  mkOptions (max_bound_val o) (norm_type o) (starting_point_strategy o)
    (barrier_strategy o) (max_major_iters o) (rel_bound_barrier o)
    (abs_res_tol o) (rel_func_tol o) (abs_step_tol o) (use_line_search o)
    (use_backtracking_alpha o) (max_line_iters o) (min_rho_penalty_search o)
    (armijo_constant o) v (monotone_barrier_power o)
    (min_fraction_to_boundary o) (write_output_frequency o)
    (gradient_check_frequency o) (major_iter_step_check o)
    (hessian_reset_freq o) (use_quasi_newton_update o) (qn_sigma o)
    (merit_func_check_epsilon o) (start_affine_multiplier_min o)
    (penalty_gamma o) (function_precision o) (design_precision o)
    (use_diag_hessian o) (use_hvec_product o) (use_qn_gmres_precon o)
    (nk_switch_tol o) (eisenstat_walker_alpha o) (eisenstat_walker_gamma o)
    (max_gmres_rtol o) (gmres_atol o).
Definition with_monotone_barrier_power (v : Q) (o : Options) : Options :=
  mkOptions (max_bound_val o) (norm_type o) (starting_point_strategy o)
    (barrier_strategy o) (max_major_iters o) (rel_bound_barrier o)
    (abs_res_tol o) (rel_func_tol o) (abs_step_tol o) (use_line_search o)
    (use_backtracking_alpha o) (max_line_iters o) (min_rho_penalty_search o)
    (armijo_constant o) (monotone_barrier_fraction o) v
    (min_fraction_to_boundary o) (write_output_frequency o)
    (gradient_check_frequency o) (major_iter_step_check o)
    (hessian_reset_freq o) (use_quasi_newton_update o) (qn_sigma o)
    (merit_func_check_epsilon o) (start_affine_multiplier_min o)
    (penalty_gamma o) (function_precision o) (design_precision o)
    (use_diag_hessian o) (use_hvec_product o) (use_qn_gmres_precon o)
    (nk_switch_tol o) (eisenstat_walker_alpha o) (eisenstat_walker_gamma o)
    (max_gmres_rtol o) (gmres_atol o).
Definition with_hessian_reset_freq (v : Z) (o : Options) : Options :=
  mkOptions (max_bound_val o) (norm_type o) (starting_point_strategy o)
    (barrier_strategy o) (max_major_iters o) (rel_bound_barrier o)
    (abs_res_tol o) (rel_func_tol o) (abs_step_tol o) (use_line_search o)
    (use_backtracking_alpha o) (max_line_iters o) (min_rho_penalty_search o)
    (armijo_constant o) (monotone_barrier_fraction o)
    (monotone_barrier_power o) (min_fraction_to_boundary o)
    (write_output_frequency o) (gradient_check_frequency o)
    (major_iter_step_check o) v (use_quasi_newton_update o) (qn_sigma o)
    (merit_func_check_epsilon o) (start_affine_multiplier_min o)
    (penalty_gamma o) (function_precision o) (design_precision o)
    (use_diag_hessian o) (use_hvec_product o) (use_qn_gmres_precon o)
    (nk_switch_tol o) (eisenstat_walker_alpha o) (eisenstat_walker_gamma o)
    (max_gmres_rtol o) (gmres_atol o).
Definition with_qn_sigma (v : Q) (o : Options) : Options :=
  mkOptions (max_bound_val o) (norm_type o) (starting_point_strategy o)
    (barrier_strategy o) (max_major_iters o) (rel_bound_barrier o)
    (abs_res_tol o) (rel_func_tol o) (abs_step_tol o) (use_line_search o)
    (use_backtracking_alpha o) (max_line_iters o) (min_rho_penalty_search o)
    (armijo_constant o) (monotone_barrier_fraction o)
    (monotone_barrier_power o) (min_fraction_to_boundary o)
    (write_output_frequency o) (gradient_check_frequency o)
    (major_iter_step_check o) (hessian_reset_freq o)
    (use_quasi_newton_update o) v (merit_func_check_epsilon o)
    (start_affine_multiplier_min o) (penalty_gamma o) (function_precision o)
    (design_precision o) (use_diag_hessian o) (use_hvec_product o)
    (use_qn_gmres_precon o) (nk_switch_tol o) (eisenstat_walker_alpha o)
    (eisenstat_walker_gamma o) (max_gmres_rtol o) (gmres_atol o).
Definition with_max_line_iters (v : nat) (o : Options) : Options :=
  mkOptions (max_bound_val o) (norm_type o) (starting_point_strategy o)
    (barrier_strategy o) (max_major_iters o) (rel_bound_barrier o)
    (abs_res_tol o) (rel_func_tol o) (abs_step_tol o) (use_line_search o)
    (use_backtracking_alpha o) v (min_rho_penalty_search o)
    (armijo_constant o) (monotone_barrier_fraction o)
    (monotone_barrier_power o) (min_fraction_to_boundary o)
    (write_output_frequency o) (gradient_check_frequency o)
    (major_iter_step_check o) (hessian_reset_freq o)
    (use_quasi_newton_update o) (qn_sigma o) (merit_func_check_epsilon o)
    (start_affine_multiplier_min o) (penalty_gamma o) (function_precision o)
    (design_precision o) (use_diag_hessian o) (use_hvec_product o)
    (use_qn_gmres_precon o) (nk_switch_tol o) (eisenstat_walker_alpha o)
    (eisenstat_walker_gamma o) (max_gmres_rtol o) (gmres_atol o).
Definition with_armijo_constant (v : Q) (o : Options) : Options :=
  mkOptions (max_bound_val o) (norm_type o) (starting_point_strategy o)
    (barrier_strategy o) (max_major_iters o) (rel_bound_barrier o)
    (abs_res_tol o) (rel_func_tol o) (abs_step_tol o) (use_line_search o)
    (use_backtracking_alpha o) (max_line_iters o) (min_rho_penalty_search o) v
    (monotone_barrier_fraction o) (monotone_barrier_power o)
    (min_fraction_to_boundary o) (write_output_frequency o)
    (gradient_check_frequency o) (major_iter_step_check o)
    (hessian_reset_freq o) (use_quasi_newton_update o) (qn_sigma o)
    (merit_func_check_epsilon o) (start_affine_multiplier_min o)
    (penalty_gamma o) (function_precision o) (design_precision o)
    (use_diag_hessian o) (use_hvec_product o) (use_qn_gmres_precon o)
    (nk_switch_tol o) (eisenstat_walker_alpha o) (eisenstat_walker_gamma o)
    (max_gmres_rtol o) (gmres_atol o).
Definition with_min_rho_penalty_search (v : Q) (o : Options) : Options :=
  mkOptions (max_bound_val o) (norm_type o) (starting_point_strategy o)
    (barrier_strategy o) (max_major_iters o) (rel_bound_barrier o)
    (abs_res_tol o) (rel_func_tol o) (abs_step_tol o) (use_line_search o)
    (use_backtracking_alpha o) (max_line_iters o) v (armijo_constant o)
    (monotone_barrier_fraction o) (monotone_barrier_power o)
    (min_fraction_to_boundary o) (write_output_frequency o)
    (gradient_check_frequency o) (major_iter_step_check o)
    (hessian_reset_freq o) (use_quasi_newton_update o) (qn_sigma o)
    (merit_func_check_epsilon o) (start_affine_multiplier_min o)
    (penalty_gamma o) (function_precision o) (design_precision o)
    (use_diag_hessian o) (use_hvec_product o) (use_qn_gmres_precon o)
    (nk_switch_tol o) (eisenstat_walker_alpha o) (eisenstat_walker_gamma o)
    (max_gmres_rtol o) (gmres_atol o).
Definition with_penalty_gamma (v : list Q) (o : Options) : Options :=
  mkOptions (max_bound_val o) (norm_type o) (starting_point_strategy o)
    (barrier_strategy o) (max_major_iters o) (rel_bound_barrier o)
    (abs_res_tol o) (rel_func_tol o) (abs_step_tol o) (use_line_search o)
    (use_backtracking_alpha o) (max_line_iters o) (min_rho_penalty_search o)
    (armijo_constant o) (monotone_barrier_fraction o)
    (monotone_barrier_power o) (min_fraction_to_boundary o)
    (write_output_frequency o) (gradient_check_frequency o)
    (major_iter_step_check o) (hessian_reset_freq o)
    (use_quasi_newton_update o) (qn_sigma o) (merit_func_check_epsilon o)
    (start_affine_multiplier_min o) v (function_precision o)
    (design_precision o) (use_diag_hessian o) (use_hvec_product o)
    (use_qn_gmres_precon o) (nk_switch_tol o) (eisenstat_walker_alpha o)
    (eisenstat_walker_gamma o) (max_gmres_rtol o) (gmres_atol o).
Definition with_use_diag_hessian (v : bool) (o : Options) : Options :=
  mkOptions (max_bound_val o) (norm_type o) (starting_point_strategy o)
    (barrier_strategy o) (max_major_iters o) (rel_bound_barrier o)
    (abs_res_tol o) (rel_func_tol o) (abs_step_tol o) (use_line_search o)
    (use_backtracking_alpha o) (max_line_iters o) (min_rho_penalty_search o)
    (armijo_constant o) (monotone_barrier_fraction o)
    (monotone_barrier_power o) (min_fraction_to_boundary o)
    (write_output_frequency o) (gradient_check_frequency o)
    (major_iter_step_check o) (hessian_reset_freq o)
    (use_quasi_newton_update o) (qn_sigma o) (merit_func_check_epsilon o)
    (start_affine_multiplier_min o) (penalty_gamma o) (function_precision o)
    (design_precision o) v (use_hvec_product o) (use_qn_gmres_precon o)
    (nk_switch_tol o) (eisenstat_walker_alpha o) (eisenstat_walker_gamma o)
    (max_gmres_rtol o) (gmres_atol o).
Definition with_use_hvec_product (v : bool) (o : Options) : Options :=
  mkOptions (max_bound_val o) (norm_type o) (starting_point_strategy o)
    (barrier_strategy o) (max_major_iters o) (rel_bound_barrier o)
    (abs_res_tol o) (rel_func_tol o) (abs_step_tol o) (use_line_search o)
    (use_backtracking_alpha o) (max_line_iters o) (min_rho_penalty_search o)
    (armijo_constant o) (monotone_barrier_fraction o)
    (monotone_barrier_power o) (min_fraction_to_boundary o)
    (write_output_frequency o) (gradient_check_frequency o)
    (major_iter_step_check o) (hessian_reset_freq o)
    (use_quasi_newton_update o) (qn_sigma o) (merit_func_check_epsilon o)
    (start_affine_multiplier_min o) (penalty_gamma o) (function_precision o)
    (design_precision o) (use_diag_hessian o) v (use_qn_gmres_precon o)
    (nk_switch_tol o) (eisenstat_walker_alpha o) (eisenstat_walker_gamma o)
    (max_gmres_rtol o) (gmres_atol o).
Definition with_eisenstat_walker_alpha (v : Q) (o : Options) : Options :=
  mkOptions (max_bound_val o) (norm_type o) (starting_point_strategy o)
    (barrier_strategy o) (max_major_iters o) (rel_bound_barrier o)
    (abs_res_tol o) (rel_func_tol o) (abs_step_tol o) (use_line_search o)
    (use_backtracking_alpha o) (max_line_iters o) (min_rho_penalty_search o)
    (armijo_constant o) (monotone_barrier_fraction o)
    (monotone_barrier_power o) (min_fraction_to_boundary o)
    (write_output_frequency o) (gradient_check_frequency o)
    (major_iter_step_check o) (hessian_reset_freq o)
    (use_quasi_newton_update o) (qn_sigma o) (merit_func_check_epsilon o)
    (start_affine_multiplier_min o) (penalty_gamma o) (function_precision o)
    (design_precision o) (use_diag_hessian o) (use_hvec_product o)
    (use_qn_gmres_precon o) (nk_switch_tol o) v (eisenstat_walker_gamma o)
    (max_gmres_rtol o) (gmres_atol o).
Definition with_eisenstat_walker_gamma (v : Q) (o : Options) : Options :=
  mkOptions (max_bound_val o) (norm_type o) (starting_point_strategy o)
    (barrier_strategy o) (max_major_iters o) (rel_bound_barrier o)
    (abs_res_tol o) (rel_func_tol o) (abs_step_tol o) (use_line_search o)
    (use_backtracking_alpha o) (max_line_iters o) (min_rho_penalty_search o)
    (armijo_constant o) (monotone_barrier_fraction o)
    (monotone_barrier_power o) (min_fraction_to_boundary o)
    (write_output_frequency o) (gradient_check_frequency o)
    (major_iter_step_check o) (hessian_reset_freq o)
    (use_quasi_newton_update o) (qn_sigma o) (merit_func_check_epsilon o)
    (start_affine_multiplier_min o) (penalty_gamma o) (function_precision o)
    (design_precision o) (use_diag_hessian o) (use_hvec_product o)
    (use_qn_gmres_precon o) (nk_switch_tol o) (eisenstat_walker_alpha o) v
    (max_gmres_rtol o) (gmres_atol o).

Section Settings.

Context {QNI : ParOptCompactQuasiNewton}.

Definition set_opts (o : Options) (st : Solver) : Solver :=
  mkSolver (dims st) o (vars st) (steps st) (resid st) (evals st) (factor st)
    (qn st) (hdiag st) (y_qn st) (s_qn st) (barrier_param st)
    (rho_penalty_search st) (sequential_linear_method st) (niter st).

(** [setBarrierStrategy]. *)
Definition setBarrierStrategy (strategy : ParOptBarrierStrategy) (st : Solver)
    : Solver :=
  set_opts (with_barrier_strategy strategy (opts st)) st.

(** [setMaxMajorIterations]. *)
Definition setMaxMajorIterations (iters : Z) (st : Solver) : Solver :=
  if (1 <=? iters)%Z
  then set_opts (with_max_major_iters (Z.to_nat iters) (opts st)) st
  else st.

(** [setAbsOptimalityTol]. *)
Definition setAbsOptimalityTol (tol : Q) (st : Solver) : Solver :=
  if Qltb tol 1e-2 && Qgeb tol 0
  then set_opts (with_abs_res_tol tol (opts st)) st else st.

(** [setRelFunctionTol]. *)
Definition setRelFunctionTol (tol : Q) (st : Solver) : Solver :=
  if Qltb tol 1e-2 && Qgeb tol 0
  then set_opts (with_rel_func_tol tol (opts st)) st else st.

(** [setAbsStepTol]. *)
Definition setAbsStepTol (tol : Q) (st : Solver) : Solver :=
  if Qltb tol 1e-2 && Qgeb tol 0
  then set_opts (with_abs_step_tol tol (opts st)) st else st.

(** [setInitBarrierParameter]. *)
Definition setInitBarrierParameter (mu : Q) (st : Solver) : Solver :=
  if Qgtb mu 0 then set_barrier_param mu st else st.

(** [setRelativeBarrier]. *)
Definition setRelativeBarrier (rel : Q) (st : Solver) : Solver :=
  if Qgtb rel 0 then set_opts (with_rel_bound_barrier rel (opts st)) st else st.

(** [setBarrierFraction]. *)
Definition setBarrierFraction (frac : Q) (st : Solver) : Solver :=
  if Qgtb frac 0 && Qltb frac 1
  then set_opts (with_monotone_barrier_fraction frac (opts st)) st else st.

(** [setBarrierPower]. *)
Definition setBarrierPower (power : Q) (st : Solver) : Solver :=
  if Qgeb power 1 && Qltb power 10
  then set_opts (with_monotone_barrier_power power (opts st)) st else st.

(** [setPenaltyGamma(double)]: one value for every dense constraint. *)
Definition setPenaltyGamma (gamma : Q) (st : Solver) : Solver :=
  if Qgeb gamma 0 then
    set_opts (with_penalty_gamma
                (tabulate (ncon (dims st)) (fun _ => gamma)) (opts st)) st
  else st.

(** [setPenaltyGamma(const double* )]: the entries that are not negative
    are taken, the others keep their value. *)
Definition setPenaltyGammaArray (gamma : list Q) (st : Solver) : Solver :=
  set_opts (with_penalty_gamma
              (tabulate (ncon (dims st)) (fun i =>
                 if Qgeb (get gamma i) 0 then get gamma i
                 else get (penalty_gamma (opts st)) i)) (opts st)) st.

(** [setHessianResetFreq]. *)
Definition setHessianResetFreq (freq : Z) (st : Solver) : Solver :=
  if (0 <? freq)%Z then set_opts (with_hessian_reset_freq freq (opts st)) st
  else st.

(** [setQNDiagonalFactor]. *)
Definition setQNDiagonalFactor (sigma : Q) (st : Solver) : Solver :=
  if Qgeb sigma 0 then set_opts (with_qn_sigma sigma (opts st)) st else st.

(** [setMaxLineSearchIters]. *)
Definition setMaxLineSearchIters (iters : Z) (st : Solver) : Solver :=
  if (0 <? iters)%Z
  then set_opts (with_max_line_iters (Z.to_nat iters) (opts st)) st
  else st.

(** [setArmijoParam]. *)
Definition setArmijoParam (c1 : Q) (st : Solver) : Solver :=
  if Qgeb c1 0 then set_opts (with_armijo_constant c1 (opts st)) st else st.

(** [setMinPenaltyParameter]: the current penalty is reset with its
    minimum. *)
Definition setMinPenaltyParameter (rho_min : Q) (st : Solver) : Solver :=
  if Qgeb rho_min 0 then
    set_opts (with_min_rho_penalty_search rho_min (opts st))
      (set_rho_penalty_search rho_min st)
  else st.

(** [setEisenstatWalkerParameters]: as in the source, the upper limit in
    the test for [alpha] is one on [gamma]. *)
Definition setEisenstatWalkerParameters (gamma alpha : Q) (st : Solver)
    : Solver :=
  let st :=
    if Qgtb gamma 0 && Qle_bool gamma 1
    then set_opts (with_eisenstat_walker_gamma gamma (opts st)) st else st in
  if Qgeb alpha 0 && Qle_bool gamma 2
  then set_opts (with_eisenstat_walker_alpha alpha (opts st)) st else st.

(** [setUseDiagHessian]; [new_vec] is the vector [createDesignVec] hands
    out when [hdiag] has to be allocated.  The GMRES work arrays the
    function frees are not part of the model. *)
Definition setUseDiagHessian (new_vec : list Q) (truth : bool) (st : Solver)
    : Solver :=
  if truth then
    let st :=
      match hdiag st with
      | None => set_hdiag (Some new_vec) st
      | Some _ => st
      end in
    set_opts (with_use_diag_hessian truth
                (with_use_hvec_product false (opts st))) st
  else set_opts (with_use_diag_hessian truth (opts st)) st.

(** [setUseHvecProduct]. *)
Definition setUseHvecProduct (truth : bool) (st : Solver) : Solver :=
  if truth then
    set_opts (with_use_hvec_product truth
                (with_use_diag_hessian false (opts st)))
      (set_hdiag None st)
  else set_opts (with_use_hvec_product truth (opts st)) st.

End Settings.

(** ** Conditions on a solver used in the statements below *)

Section Conditions.

Context {QNI : ParOptCompactQuasiNewton}.

(** The ranges the validating setters accept. *)
Definition optionRanges (st : Solver) : Prop :=
  let o := opts st in
  (1 <= max_major_iters o)%nat /\
  (0 <= abs_res_tol o /\ abs_res_tol o < 1e-2) /\
  (0 <= rel_func_tol o /\ rel_func_tol o < 1e-2) /\
  (0 <= abs_step_tol o /\ abs_step_tol o < 1e-2) /\
  0 < barrier_param st /\
  0 < rel_bound_barrier o /\
  (0 < monotone_barrier_fraction o /\ monotone_barrier_fraction o < 1) /\
  (1 <= monotone_barrier_power o /\ monotone_barrier_power o < 10) /\
  (0 < hessian_reset_freq o)%Z /\
  0 <= qn_sigma o /\
  (0 < max_line_iters o)%nat /\
  0 <= armijo_constant o /\
  0 <= min_rho_penalty_search o /\
  (0 < eisenstat_walker_gamma o /\ eisenstat_walker_gamma o <= 1) /\
  0 <= eisenstat_walker_alpha o /\
  Forall (fun e => 0 <= e) (penalty_gamma o).

(** The iterate is inside the feasible region of the barrier problem:
    the design variables are within the bounds in use, and the slacks and
    multipliers of the inequalities are not negative. *)
Definition feasibleIterate (st : Solver) : Prop :=
  let d := dims st in
  let v := vars st in
  (use_lower d = true -> forall i, (i < nvars d)%nat ->
     get (lb v) i <= get (x v) i /\ 0 <= get (zl v) i) /\
  (use_upper d = true -> forall i, (i < nvars d)%nat ->
     get (x v) i <= get (ub v) i /\ 0 <= get (zu v) i) /\
  (dense_inequality d = true -> forall i, (i < ncon d)%nat ->
     0 <= get (s v) i /\ 0 <= get (t v) i /\
     0 <= get (z v) i /\ 0 <= get (zt v) i) /\
  ((0 < nwcon d)%nat -> sparse_inequality d = true ->
   forall i, (i < nwcon d)%nat -> 0 <= get (zw v) i /\ 0 <= get (sw v) i).


(** [st'] holds the iterate of [st]: the same sizes, options, variables
    and barrier parameter. *)
Definition sameIterate (st st' : Solver) : Prop :=
  dims st' = dims st /\ opts st' = opts st /\ vars st' = vars st /\
  barrier_param st' = barrier_param st.

(** Besides the iterate, [st'] holds the step, the factored matrices, the
    quasi-Newton approximation, the penalty parameter and the gradients of
    [st], and has evaluated as many gradients. *)
Definition sameStepData (st st' : Solver) : Prop :=
  sameIterate st st' /\ steps st' = steps st /\ factor st' = factor st /\
  qn st' = qn st /\ rho_penalty_search st' = rho_penalty_search st /\
  g (evals st') = g (evals st) /\ Ac (evals st') = Ac (evals st) /\
  ngeval (evals st') = ngeval (evals st).

End Conditions.

(** ** Quantities of the specification *)

Section SpecQuantities.

Context {QNI : ParOptCompactQuasiNewton}.

(** The indices of the live lower (upper) bounds: the bound is in use and
    its magnitude is below [max_bound_val]. *)
Definition liveLowerBounds (st : Solver) : list nat :=
  if use_lower (dims st)
  then filter (live_lower st) (seq 0 (nvars (dims st))) else [].
Definition liveUpperBounds (st : Solver) : list nat :=
  if use_upper (dims st)
  then filter (live_upper st) (seq 0 (nvars (dims st))) else [].

(** The sum over the live bounds of bound slack times bound multiplier. *)
Definition boundComplementarity (st : Solver) : Q :=
  let v := vars st in
  Qsum (map (fun i => get (zl v) i * (get (x v) i - get (lb v) i))
          (liveLowerBounds st)) +
  Qsum (map (fun i => get (zu v) i * (get (ub v) i - get (x v) i))
          (liveUpperBounds st)).

(** The sum over the dense constraints of [s_i*z_i + t_i*zt_i]. *)
Definition denseComplementarity (st : Solver) : Q :=
  let v := vars st in
  Qsum (map (fun i => get (s v) i * get (z v) i + get (t v) i * get (zt v) i)
          (seq 0 (ncon (dims st)))).

Definition liveBoundCount (st : Solver) : nat :=
  (length (liveLowerBounds st) + length (liveUpperBounds st))%nat.

(** The number of sparse inequality constraints. *)
Definition sparseInequalityCount (st : Solver) : nat :=
  if sparse_inequality (dims st) then nwcon (dims st) else O.

(** The complementarity in the words of the specification: the bound
    products over [rel_bound_barrier] plus the dense products, divided by
    [2*ncon + #live_bounds + nwcon_ineq]. *)
Definition complementarityAsSpecified (st : Solver) : Q :=
  (boundComplementarity st / rel_bound_barrier (opts st) +
   denseComplementarity st) /
  inject_Z (Z.of_nat (2 * ncon (dims st) + liveBoundCount st +
                      sparseInequalityCount st)).

(** The number of products the source averages over: the live bounds, and
    two per dense constraint when these are inequalities. *)
Definition averagedProducts (st : Solver) : nat :=
  (liveBoundCount st +
   (if dense_inequality (dims st) then 2 * ncon (dims st) else 0))%nat.

(** The arrays have the sizes the constructor allocates. *)
Definition wellSized (st : Solver) : Prop :=
  let d := dims st in
  let v := vars st in
  length (x v) = nvars d /\ length (zl v) = nvars d /\
  length (zu v) = nvars d /\ length (z v) = ncon d /\
  length (s v) = ncon d /\ length (zw v) = nwcon d /\
  length (sw v) = nwcon d.

End SpecQuantities.

Section SpecTests.

Context {QNI : ParOptCompactQuasiNewton} {LA : Numerics}.

(** The relative function test in the words of the specification: the
    last two passes both took full steps, and
    [|fobj - fobj_prev| < rel_func_tol*|fobj_prev|].  [lengths] holds the
    step lengths [(alpha_x, alpha_z)] of the passes made so far, the latest
    first. *)
Definition relFunctionTestAsSpecified (lengths : list (Q * Q))
    (l : LoopState) : bool :=
  match lengths with
  | (ax1, az1) :: (ax2, az2) :: _ =>
    Qeq_bool ax1 1 && Qeq_bool az1 1 && Qeq_bool ax2 1 && Qeq_bool az2 1 &&
    Qltb (Qabs (fobj (evals (solver l)) - fobj_prev l))
         (rel_func_tol (opts (solver l)) * Qabs (fobj_prev l))
  | _ => false
  end.

(** The global convergence test with that relative function test. *)
Definition convergedAsSpecified (k : nat) (lengths : list (Q * Q))
    (l : LoopState) (b : BarrierStage) : bool :=
  (0 <? k)%nat &&
  Qle_bool (barrier_param (bs_solver b)) (0.1 * abs_res_tol (opts (bs_solver b))) &&
  (Qltb (res_norm b) (abs_res_tol (opts (bs_solver b))) ||
   relFunctionTestAsSpecified lengths l ||
   (2 <=? bs_line_search_test b)%nat).

(** The new barrier parameter in the words of the specification: the
    smaller of [monotone_barrier_fraction*mu] and
    [mu^monotone_barrier_power], floored at [0.09999*abs_res_tol]. *)
Definition monotoneBarrierAsSpecified (o : Options) (mu : Q) : Q :=
  max2 (min2 (monotone_barrier_fraction o * mu)
             (pow mu (monotone_barrier_power o)))
       (0.09999 * abs_res_tol o).

End SpecTests.

Section DoubleValues.

Context {prob : ParOptProblem} {QNI : ParOptCompactQuasiNewton} {LA : Numerics}.
Context {K : Kernels}.

(** The objective values of the problem and the merit values of the
    kernels are doubles. *)
Definition doubleValued : Prop :=
  (forall xk, representable (snd (fst (evalObjCon xk)))) /\
  (forall st fk ck xk sk tk swk,
     representable (meritFunc st fk ck xk sk tk swk)) /\
  (forall max_x st, representable (fst (fst (fst (meritInitDeriv max_x st))))).

End DoubleValues.

(** * Example instances

    Small concrete collaborators and solver instances on which the
    definitions above are evaluated. *)

Module Examples.

(** A quasi-Newton object without memory. *)
Definition noMemoryQN : ParOptCompactQuasiNewton :=
  {| QN := unit;
     qn_update_sy := fun q _ _ _ _ _ => (q, 0%Z);
     qn_update := fun q _ _ _ => (q, 0%Z);
     qn_reset := fun q => q;
     getCompactMat := fun _ => (1, [], [], []) |}.

(** LAPACK on the instances below, where no dense block is factored: the
    routines hand back their argument with the given [info].  The
    arithmetic is exact. *)
Definition lapackWithInfo (info : Z) : Numerics :=
  {| LAPACKdpptrf := fun _ a => (a, info);
     LAPACKdpptrs := fun _ _ b => (b, info);
     LAPACKdgetrf := fun n a => (a, repeat 1%Z n, info);
     LAPACKdgetrs := fun _ _ _ b => (b, info);
     pow := fun a _ => a;
     vec_norm := vec_l1norm;
     rnd := fun q => q |}.

(** A problem in [n] variables with bounds [lo], [hi] and start [x0]:
    the objective is [obj], there are no dense constraints, the sparse
    Jacobian is zero; the evaluations answer with the codes [fail_obj] and
    [fail_gobj]. *)
Definition exampleProblem (x0 lo hi : list Q) (obj : list Q -> Q)
    (cons : list Q -> list Q) (fail_obj fail_gobj : Z) : ParOptProblem :=
  {| getVarsAndBounds := fun _ _ _ => (x0, lo, hi);
     evalObjCon := fun xv => (fail_obj, obj xv, cons xv);
     evalObjConGradient := fun xv => (fail_gobj, repeat 1 (length xv), []);
     evalHessianDiag := fun xv _ _ => (0%Z, repeat 1 (length xv));
     addSparseJacobian := fun _ _ _ out => out;
     addSparseJacobianTranspose := fun _ _ _ out => out;
     addSparseInnerProduct := fun _ _ _ out => out;
     computeQuasiNewtonUpdateCorrection := fun sq y => (sq, y) |}.

(** Kernels that leave the buffers alone: zero residual norms, the stored
    step, a merit function equal to the objective, and a merit value [m0]
    with slope [dm0] at the start of the line search. *)
Definition exampleKernels (m0 dm0 : Q) : Kernels (QNI := noMemoryQN) :=
  {| kktRes := fun _ st => (resid st, (0, 0, 0));
     kktSchur := fun _ st => (Ce (factor st), cpiv (factor st));
     kktStep := fun _ st => (steps st, resid st);
     gmresStep := fun _ _ _ st => (0%Z, steps st, resid st);
     meritFunc := fun _ fk _ _ _ _ _ => fk;
     meritInitDeriv := fun _ st => (m0, dm0, rho_penalty_search st, resid st);
     checkStep := fun _ _ st => resid st |}.

Definition zeroResid (n m w : nat) : Resid :=
  mkResid (repeat 0 n) (repeat 0 n) (repeat 0 n) (repeat 0 m) (repeat 0 m)
    (repeat 0 m) (repeat 0 m) (repeat 0 w) (repeat 0 w).

Definition emptyFactor : Factor := mkFactor [] [] [] [] [] [] [].

(** A solver as the constructor leaves it, for the given sizes, options,
    variables and step. *)
Definition exampleSolver (d : Dims) (o : Options) (v : Vars) (p : Steps)
    : Solver (QNI := noMemoryQN) :=
  mkSolver (QNI := noMemoryQN) d o v p
    (zeroResid (nvars d) (ncon d) (nwcon d))
    (mkEvals 0 (repeat 0 (ncon d)) (repeat 0 (nvars d)) [] 0 0)
    emptyFactor None None (repeat 0 (nvars d)) (repeat 0 (nvars d))
    0.1 0 false 0.

Definition noFiles : FileSystem :=
  mkFileSystem (fun _ => None) (fun _ => true).

(** One design variable between bounds closer than twice the design
    precision, and a zero step. *)
Definition narrowDims : Dims := mkDims 1 0 0 1 false false true true.

Definition narrowVars : Vars :=
  mkVars [5e-16] [0] [1e-15] [1] [1] [] [] [] [] [] [].

Definition narrowSolver : Solver (QNI := noMemoryQN) :=
  exampleSolver narrowDims (default_options 1e20 0) narrowVars
    (mkSteps [0] [0] [0] [] [] [] [] [] []).

Definition narrowProblem : ParOptProblem :=
  exampleProblem [5e-16] [0] [1e-15] (fun _ => 0) (fun _ => []) 0 0.

(** One variable in [0, 10] with one dense inequality and one sparse
    inequality, the problem used to run the update and the step scaling. *)
Definition smallDims : Dims := mkDims 1 1 1 1 true true true true.

Definition smallVars : Vars :=
  mkVars [5] [0] [10] [1] [1] [1] [1] [1] [1] [1] [1].

Definition smallSteps : Steps :=
  mkSteps [1] [-3] [1] [0] [-2] [1] [-1] [1] [-4].

Definition smallSolver : Solver (QNI := noMemoryQN) :=
  exampleSolver smallDims (default_options 1e20 1) smallVars smallSteps.

Definition smallProblem : ParOptProblem :=
  exampleProblem [5] [0] [10] (fun _ => 0) (fun _ => [0]) 0 0.

(** The small problem with other values in every variable: the solver
    that reads a checkpoint back. *)
Definition otherVars : Vars :=
  mkVars [7] [0] [10] [2] [3] [4] [5] [6] [8] [9] [11].

Definition otherSolver : Solver (QNI := noMemoryQN) :=
  set_barrier_param 0.5
    (exampleSolver smallDims (default_options 1e20 1) otherVars smallSteps).

(** The same solver for a problem with two design variables. *)
Definition widerSolver : Solver (QNI := noMemoryQN) :=
  exampleSolver (mkDims 2 1 1 1 true true true true) (default_options 1e20 1)
    (mkVars [7; 7] [0; 0] [10; 10] [2; 2] [3; 3] [4] [5] [6] [8] [9] [11])
    (mkSteps [0; 0] [0; 0] [0; 0] [0] [0] [0] [0] [0] [0]).

(** The loop state at the first pass on the small problem, with kernels
    reporting a merit value 1 and slope -1 at the start of the line
    search. *)
Definition descentKernels : Kernels (QNI := noMemoryQN) := exampleKernels 1 (-1).

Definition smallLoopState : LoopState (QNI := noMemoryQN) :=
  initialLoopState smallSolver noFiles None.

(** The small problem whose gradient evaluation fails with code 1 while
    the objective evaluation succeeds. *)
Definition failingGradientProblem : ParOptProblem :=
  exampleProblem [5] [0] [10] (fun _ => 0) (fun _ => [0]) 0 1.

(** The small problem whose objective evaluation fails with code 7. *)
Definition failingObjectiveProblem : ParOptProblem :=
  exampleProblem [5] [0] [10] (fun _ => 0) (fun _ => [0]) 7 0.




(** The loop state of the small problem at its second pass, after a pass
    with full steps. *)
Definition secondPassState : LoopState (QNI := noMemoryQN) :=
  mkLoopState (QNI := noMemoryQN) smallSolver noFiles None
    0 1 1 1 (-1) 0 0 false 0 false.

(** The second pass on the small problem with the barrier parameter
    already at [1e-7], below a tenth of the default [abs_res_tol]. *)
Definition finalPassState : LoopState (QNI := noMemoryQN) :=
  mkLoopState (QNI := noMemoryQN) (set_barrier_param 1e-7 smallSolver)
    noFiles None 0 1 1 1 (-1) 0 0 false 0 false.

(** Two sparse constraints in blocks of one, with the given diagonal
    assembled in Cw. *)
Definition twoSparseDims : Dims := mkDims 1 1 2 1 true true true true.

Definition cwSolver (cw : list Q) : Solver (QNI := noMemoryQN) :=
  set_factor (mkFactor [] cw [] [] [] [] [])
    (exampleSolver twoSparseDims (default_options 1e20 1)
       (mkVars [5] [0] [10] [1] [1] [1] [1] [1] [1] [1; 1] [1; 1])
       (mkSteps [0] [0] [0] [0] [0] [0] [0] [0; 0] [0; 0])).

(** The small problem started on its lower bound, and with the bounds
    exchanged. *)
Definition boundStartProblem : ParOptProblem :=
  exampleProblem [0] [0] [10] (fun _ => 0) (fun _ => [0]) 0 0.

Definition inconsistentBoundsProblem : ParOptProblem :=
  exampleProblem [5] [10] [0] (fun _ => 0) (fun _ => [0]) 0 0.


(** Kernels reporting an ascent direction: merit value 1 and slope 1. *)
Definition ascentKernels : Kernels (QNI := noMemoryQN) := exampleKernels 1 1.

(** The first pass on the small problem under the other two barrier
    strategies. *)
Definition fractionLoopState : LoopState (QNI := noMemoryQN) :=
  initialLoopState
    (setBarrierStrategy PAROPT_COMPLEMENTARITY_FRACTION smallSolver)
    noFiles None.

Definition mehrotraLoopState : LoopState (QNI := noMemoryQN) :=
  initialLoopState (setBarrierStrategy PAROPT_MEHROTRA smallSolver)
    noFiles None.

(** The square root of a rational whose numerator and denominator are
    squares, as [4] or [9/4]. *)
Definition sqrt_of_square (q : Q) : Q := Z.sqrt (Qnum q) # Pos.sqrt (Qden q).

(** The Cholesky factorisation [U^T*U] of a 2-by-2 matrix in packed upper
    storage [a11, a12, a22], as [dpptrf] computes it: [info] is the order
    of the leading minor that is not positive definite.  The roots are
    exact on the squares that the instances below factor. *)
Definition cholesky2 (a : list Q) : list Q * Z :=
  let a11 := get a 0 in
  let a12 := get a 1 in
  let a22 := get a 2 in
  if Qle_bool a11 0 then (a, 1%Z)
  else
    let u11 := sqrt_of_square a11 in
    let u12 := a12 / u11 in
    let ajj := a22 - u12 * u12 in
    if Qle_bool ajj 0 then ([u11; u12; ajj], 2%Z)
    else ([u11; u12; sqrt_of_square ajj], 0%Z).

(** LAPACK on the sizes of the instances below, with the rounding
    [round]: the Cholesky factorisation of 2-by-2 blocks; the LU
    factorisation of a 1-by-1 matrix, which is the matrix itself, with
    [info = 1] when the entry is zero, and the solve with it; [pow] at the
    exponent 1, the only one with which the instances below call it. *)
Definition smallNumerics (round : Q -> Q) : Numerics :=
  {| LAPACKdpptrf := fun n a =>
       if (n =? 2)%nat then cholesky2 a else (a, 0%Z);
     LAPACKdpptrs := fun _ _ b => (b, 0%Z);
     LAPACKdgetrf := fun n a =>
       if (n =? 1)%nat
       then (a, [1%Z], if Qeq_bool (get a 0) 0 then 1%Z else 0%Z)
       else (a, repeat 1%Z n, 0%Z);
     LAPACKdgetrs := fun n lu _ b =>
       if (n =? 1)%nat then ([get b 0 / get lu 0], 0%Z) else (b, 0%Z);
     pow := fun a b => if Qeq_bool b 1 then a else 1;
     vec_norm := vec_l1norm;
     rnd := round |}.

(** The same with sums and differences rounded to doubles. *)
Definition binary64 : Numerics := smallNumerics round_binary64.

(** The small problem with the variable at 99 below the upper bound 100
    and the step 2. *)
Definition boundSolver : Solver (QNI := noMemoryQN) :=
  exampleSolver smallDims (default_options 1e20 1)
    (mkVars [99] [0] [100] [1] [1] [1] [1] [1] [1] [1] [1])
    (mkSteps [2] [0] [0] [0] [0] [0] [0] [0] [0]).

(** The small problem with the constant objective [1e7]. *)
Definition flatProblem : ParOptProblem :=
  exampleProblem [5] [0] [10] (fun _ => 1e7) (fun _ => [0]) 0 0.

(** Kernels as [exampleKernels], with a merit function that is the
    objective rounded to a double. *)
Definition roundedMeritKernels (m0 dm0 : Q) : Kernels (QNI := noMemoryQN) :=
  {| kktRes := fun _ st => (resid st, (0, 0, 0));
     kktSchur := fun _ st => (Ce (factor st), cpiv (factor st));
     kktStep := fun _ st => (steps st, resid st);
     gmresStep := fun _ _ _ st => (0%Z, steps st, resid st);
     meritFunc := fun _ fk _ _ _ _ _ => round_binary64 fk;
     meritInitDeriv := fun _ st => (m0, dm0, rho_penalty_search st, resid st);
     checkStep := fun _ _ st => resid st |}.

(** The loop state of [optimize] at the first pass on the flat problem,
    after the initial evaluations. *)
Definition flatLoopState : LoopState (QNI := noMemoryQN) :=
  initialLoopState
    (snd (call_evalObjConGradient (prob := flatProblem) [5]
            (snd (call_evalObjCon (prob := flatProblem) [5] smallSolver))))
    noFiles None.



(** The small problem with the objective [f(x) = x], whose gradient is
    the constant 1 of [exampleProblem]. *)
Definition linearProblem : ParOptProblem :=
  exampleProblem [5] [0] [10] (fun xv => Qsum xv) (fun _ => [0]) 0 0.

(** Kernels as [exampleKernels] that report the residual norms 1. *)
Definition residualKernels (m0 dm0 : Q) : Kernels (QNI := noMemoryQN) :=
  {| kktRes := fun _ st => (resid st, (1, 1, 1));
     kktSchur := fun _ st => (Ce (factor st), cpiv (factor st));
     kktStep := fun _ st => (steps st, resid st);
     gmresStep := fun _ _ _ st => (0%Z, steps st, resid st);
     meritFunc := fun _ fk _ _ _ _ _ => fk;
     meritInitDeriv := fun _ st => (m0, dm0, rho_penalty_search st, resid st);
     checkStep := fun _ _ st => resid st |}.

(** The small solver with the step [p_x = -1/1024] and no step in the
    other variables, the barrier parameter [1e-7], [rel_func_tol = 1e-3]
    and the barrier power 1. *)
Definition shortStepSolver : Solver (QNI := noMemoryQN) :=
  setBarrierPower 1
    (setRelFunctionTol 1e-3
       (setInitBarrierParameter 1e-7
          (exampleSolver smallDims (default_options 1e20 1) smallVars
             (mkSteps [-(1 # 1024)] [0] [0] [0] [0] [0] [0] [0] [0])))).

(** The small problem at a second pass with the barrier parameter
    [3.9998e-6] and the barrier power 1. *)
Definition barrierUpdateState : LoopState (QNI := noMemoryQN) :=
  mkLoopState (QNI := noMemoryQN)
    (set_barrier_param 3.9998e-6 (setBarrierPower 1 smallSolver))
    noFiles None 0 1 1 1 (-1) 0 0 false 0 false.

End Examples.

(** * Properties *)

(** ** Comparisons and arrays *)

Lemma Qltb_true (a b : Q) : Qltb a b = true <-> a < b.
Proof.
  unfold Qltb. rewrite negb_true_iff.
  split; intros H.
  - apply Qnot_le_lt. intros Hle. apply Qle_bool_iff in Hle. congruence.
  - destruct (Qle_bool b a) eqn:E; [|reflexivity].
    apply Qle_bool_iff in E. exfalso. apply (Qlt_not_le _ _ H E).
Qed.

Lemma Qltb_false (a b : Q) : Qltb a b = false <-> b <= a.
Proof.
  unfold Qltb. rewrite negb_false_iff. apply Qle_bool_iff.
Qed.

Lemma Qle_bool_false (a b : Q) : Qle_bool a b = false <-> b < a.
Proof.
  rewrite <- Qltb_true. unfold Qltb.
  destruct (Qle_bool a b); simpl; split; congruence.
Qed.

Lemma tabulate_length {A} (n : nat) (f : nat -> A) : length (tabulate n f) = n.
Proof. unfold tabulate. now rewrite length_map, length_seq. Qed.

Lemma tabulate_nth {A} (n : nat) (f : nat -> A) (i : nat) (dflt : A) :
  (i < n)%nat -> nth i (tabulate n f) dflt = f i.
Proof.
  intros Hi. unfold tabulate.
  rewrite (nth_indep _ dflt (f 0%nat)) by now rewrite length_map, length_seq.
  rewrite map_nth, seq_nth; auto.
Qed.

Lemma get_tabulate (n : nat) (f : nat -> Q) (i : nat) :
  (i < n)%nat -> get (tabulate n f) i = f i.
Proof. apply tabulate_nth. Qed.

Lemma Forall_tabulate {A} (P : A -> Prop) (n : nat) (f : nat -> A) :
  (forall i, (i < n)%nat -> P (f i)) -> Forall P (tabulate n f).
Proof.
  intros H. unfold tabulate. apply Forall_forall. intros y Hy.
  apply in_map_iff in Hy. destruct Hy as [i [<- Hi]].
  apply in_seq in Hi. apply H. lia.
Qed.

(** ** binary64 rounding *)

Lemma pow2_pos (e : Z) : 0 < 2 ^ e.
Proof. apply Qpower_0_lt. reflexivity. Qed.

Lemma pow2_plus (a b : Z) : 2 ^ (a + b) == 2 ^ a * 2 ^ b.
Proof. apply Qpower_plus. discriminate. Qed.

Lemma pow2_succ (a : Z) : 2 ^ (a + 1) == 2 * 2 ^ a.
Proof. rewrite pow2_plus. change (2 ^ 1) with 2. ring. Qed.

Lemma pow2_le (a b : Z) : (a <= b)%Z -> 2 ^ a <= 2 ^ b.
Proof. intros H. apply Qpower_le_compat_l; [exact H|discriminate]. Qed.

Lemma pow2_lt_inv (a b : Z) : 2 ^ a < 2 ^ b -> (a < b)%Z.
Proof. intros H. apply (Qpower_lt_compat_l_inv 2); [exact H|reflexivity]. Qed.

Lemma pow2_Z (n : Z) : (0 <= n)%Z -> inject_Z (2 ^ n) == 2 ^ n.
Proof. intros H. rewrite (Zpower_Qpower 2 n H). reflexivity. Qed.

Lemma nearest_even_bounds (q : Q) :
  (Qfloor q <= nearest_even q <= Qfloor q + 1)%Z.
Proof.
  unfold nearest_even.
  destruct (Qcompare _ _); try destruct (Z.even _); lia.
Qed.

Lemma nearest_even_monotone (a b : Q) :
  a <= b -> (nearest_even a <= nearest_even b)%Z.
Proof.
  intros H. pose proof (Qfloor_resp_le a b H) as Hf.
  pose proof (nearest_even_bounds a) as Ba.
  pose proof (nearest_even_bounds b) as Bb.
  destruct (Z.eq_dec (Qfloor a) (Qfloor b)) as [E|E]; [|lia].
  unfold nearest_even. rewrite <- E.
  destruct (Qcompare_spec (a - inject_Z (Qfloor a)) (1 # 2)) as [Ca|Ca|Ca];
    destruct (Qcompare_spec (b - inject_Z (Qfloor a)) (1 # 2)) as [Cb|Cb|Cb];
    try destruct (Z.even (Qfloor a)); try lia; exfalso; lra.
Qed.

Lemma nearest_even_proper (a b : Q) : a == b -> nearest_even a = nearest_even b.
Proof.
  intros H. apply Z.le_antisymm; apply nearest_even_monotone; rewrite H;
    apply Qle_refl.
Qed.

Lemma nearest_even_Z (z : Z) : nearest_even (inject_Z z) = z.
Proof.
  unfold nearest_even. rewrite Qfloor_Z.
  assert (H : inject_Z z - inject_Z z == 0) by ring.
  destruct (Qcompare_spec (inject_Z z - inject_Z z) (1 # 2)) as [C|C|C];
    [|reflexivity|]; exfalso; rewrite H in C; [discriminate C|].
  apply (Qlt_not_le _ _ C). discriminate.
Qed.

Lemma Qabs_fraction (q : Q) :
  Qabs q == inject_Z (Z.abs (Qnum q)) / inject_Z (Zpos (Qden q)).
Proof. destruct q as [a b]. cbn [Qabs Qnum Qden]. apply Qmake_Qdiv. Qed.

Lemma ilog2_spec (q : Q) :
  ~ q == 0 -> 2 ^ ilog2 q <= Qabs q /\ Qabs q < 2 ^ (ilog2 q + 1).
Proof.
  intros Hq. unfold ilog2.
  set (n := Z.abs (Qnum q)). set (d := Zpos (Qden q)).
  set (la := Z.log2 n). set (lb := Z.log2 d).
  assert (Hn : (0 < n)%Z).
  { unfold n. destruct q as [a b]. cbn [Qnum].
    assert (a <> 0%Z); [|lia].
    intros ->. apply Hq. reflexivity. }
  assert (Hd : (0 < d)%Z) by (unfold d; lia).
  destruct (Z.log2_spec n Hn) as [N1 N2]. fold la in N1, N2.
  destruct (Z.log2_spec d Hd) as [D1 D2]. fold lb in D1, D2.
  assert (La : (0 <= la)%Z) by apply Z.log2_nonneg.
  assert (Lb : (0 <= lb)%Z) by apply Z.log2_nonneg.
  pose proof (Qabs_fraction q) as HX. fold n d in HX.
  set (X := Qabs q) in *. clearbody X.
  set (N := inject_Z n) in *. set (D := inject_Z d) in *.
  assert (QN1 : 2 ^ la <= N).
  { rewrite <- pow2_Z by assumption. unfold N. rewrite <- Zle_Qle. exact N1. }
  assert (QN2 : N < 2 * 2 ^ la).
  { rewrite <- pow2_succ. rewrite <- pow2_Z by lia. unfold N.
    rewrite <- Zlt_Qlt. unfold Z.succ in N2. exact N2. }
  assert (QD1 : 2 ^ lb <= D).
  { rewrite <- pow2_Z by assumption. unfold D. rewrite <- Zle_Qle. exact D1. }
  assert (QD2 : D < 2 * 2 ^ lb).
  { rewrite <- pow2_succ. rewrite <- pow2_Z by lia. unfold D.
    rewrite <- Zlt_Qlt. unfold Z.succ in D2. exact D2. }
  pose proof (pow2_pos la) as Pa. pose proof (pow2_pos lb) as Pb.
  set (P := 2 ^ la) in *. set (R := 2 ^ lb) in *.
  assert (Dp : 0 < D) by lra.
  assert (HT : 2 ^ (la - lb) * R == P).
  { unfold P, R. rewrite <- pow2_plus. replace (la - lb + lb)%Z with la by ring.
    reflexivity. }
  pose proof (pow2_pos (la - lb)) as Pt.
  set (T := 2 ^ (la - lb)) in *.
  assert (HXD : X * D == N).
  { rewrite HX. field. lra. }
  assert (U : X < 2 * T).
  { apply Qnot_le_lt. intros C.
    assert (2 * T * R <= X * D); [|lra].
    apply Qle_trans with (2 * T * D).
    - apply Qmult_le_l; lra.
    - apply Qmult_le_r; lra. }
  assert (L : T < 2 * X).
  { apply Qnot_le_lt. intros C.
    assert (E1 : 2 * X * D <= T * D) by (apply Qmult_le_r; lra).
    assert (E2 : T * D < T * (2 * R)) by (apply Qmult_lt_l; lra).
    lra. }
  destruct (Qle_bool T X) eqn:E.
  - apply Qle_bool_iff in E. split; [exact E|].
    rewrite pow2_succ. exact U.
  - assert (E' : X < T).
    { apply Qnot_le_lt. intros C. apply Qle_bool_iff in C. congruence. }
    replace (la - lb - 1 + 1)%Z with (la - lb)%Z by ring. split; [|exact E'].
    assert (S : T == 2 * 2 ^ (la - lb - 1)).
    { unfold T. rewrite <- pow2_succ.
      replace (la - lb - 1 + 1)%Z with (la - lb)%Z by ring. reflexivity. }
    lra.
Qed.

Lemma ilog2_unique (q : Q) (i : Z) :
  2 ^ i <= Qabs q -> Qabs q < 2 ^ (i + 1) -> ilog2 q = i.
Proof.
  intros H1 H2.
  assert (Hq : ~ q == 0).
  { intros E. rewrite E in H1. pose proof (pow2_pos i).
    change (Qabs 0) with 0 in H1. lra. }
  destruct (ilog2_spec q Hq) as [S1 S2].
  assert (A : (i < ilog2 q + 1)%Z) by (apply pow2_lt_inv; lra).
  assert (B : (ilog2 q < i + 1)%Z) by (apply pow2_lt_inv; lra).
  lia.
Qed.

Lemma ulp_exponent_bound (q : Q) :
  ~ q == 0 ->
  Qabs q < 2 ^ (ulp_exponent q + 53) /\
  ((-1074 < ulp_exponent q)%Z -> 2 ^ (ulp_exponent q + 52) <= Qabs q).
Proof.
  intros Hq. destruct (ilog2_spec q Hq) as [S1 S2]. unfold ulp_exponent. split.
  - apply Qlt_le_trans with (2 ^ (ilog2 q + 1)); [exact S2|].
    apply pow2_le. lia.
  - intros H. replace (Z.max (ilog2 q - 52) (-1074) + 52)%Z with (ilog2 q) by lia.
    exact S1.
Qed.

Lemma ulp_exponent_monotone (a b : Q) :
  ~ a == 0 -> Qabs a <= Qabs b -> (ulp_exponent a <= ulp_exponent b)%Z.
Proof.
  intros Ha H.
  assert (Hb : ~ b == 0).
  { intros E. rewrite E in H. change (Qabs 0) with 0 in H.
    pose proof (Qabs_nonneg a). apply Ha.
    destruct (Qabs_Qle_condition a 0) as [C _].
    destruct C as [C1 C2]; lra. }
  destruct (ilog2_spec a Ha) as [A1 A2]. destruct (ilog2_spec b Hb) as [B1 B2].
  assert (L : (ilog2 a < ilog2 b + 1)%Z) by (apply pow2_lt_inv; lra).
  unfold ulp_exponent. lia.
Qed.

(** Rounding to the multiples of [2^e]. *)
Lemma grid_monotone (e : Z) (a b : Q) :
  a <= b ->
  inject_Z (nearest_even (a / 2 ^ e)) * 2 ^ e <=
  inject_Z (nearest_even (b / 2 ^ e)) * 2 ^ e.
Proof.
  intros H. pose proof (pow2_pos e) as P.
  apply Qmult_le_r; [exact P|]. rewrite <- Zle_Qle.
  apply nearest_even_monotone. apply Qmult_le_r; [|exact H].
  apply Qinv_lt_0_compat. exact P.
Qed.

Lemma grid_upper (e : Z) (a : Q) (z : Z) :
  a <= inject_Z z * 2 ^ e ->
  inject_Z (nearest_even (a / 2 ^ e)) * 2 ^ e <= inject_Z z * 2 ^ e.
Proof.
  intros H. pose proof (pow2_pos e) as P.
  apply Qmult_le_r; [exact P|]. rewrite <- Zle_Qle.
  apply Z.le_trans with (nearest_even (inject_Z z));
    [|rewrite nearest_even_Z; apply Z.le_refl].
  apply nearest_even_monotone.
  apply Qle_shift_div_r; assumption.
Qed.

Lemma grid_lower (e : Z) (a : Q) (z : Z) :
  inject_Z z * 2 ^ e <= a ->
  inject_Z z * 2 ^ e <= inject_Z (nearest_even (a / 2 ^ e)) * 2 ^ e.
Proof.
  intros H. pose proof (pow2_pos e) as P.
  apply Qmult_le_r; [exact P|]. rewrite <- Zle_Qle.
  apply Z.le_trans with (nearest_even (inject_Z z));
    [rewrite nearest_even_Z; apply Z.le_refl|].
  apply nearest_even_monotone.
  apply Qle_shift_div_l; assumption.
Qed.

Lemma grid_point (e : Z) (z : Z) :
  inject_Z (nearest_even (inject_Z z * 2 ^ e / 2 ^ e)) * 2 ^ e ==
  inject_Z z * 2 ^ e.
Proof.
  pose proof (pow2_pos e) as P.
  assert (E : inject_Z z * 2 ^ e / 2 ^ e == inject_Z z) by (field; lra).
  rewrite (nearest_even_proper _ _ E), nearest_even_Z. reflexivity.
Qed.

Lemma pow2_shift (e k : Z) : (0 <= k)%Z -> 2 ^ (e + k) == inject_Z (2 ^ k) * 2 ^ e.
Proof. intros H. rewrite pow2_plus, pow2_Z by assumption. ring. Qed.

Lemma round_binary64_nonneg (q : Q) : 0 <= q -> 0 <= round_binary64 q.
Proof.
  intros H. unfold round_binary64.
  assert (Z0 : inject_Z 0 * 2 ^ ulp_exponent q == 0) by ring.
  apply Qle_trans with (inject_Z 0 * 2 ^ ulp_exponent q);
    [rewrite Z0; apply Qle_refl|].
  apply grid_lower. rewrite Z0. exact H.
Qed.

Lemma round_binary64_nonpos (q : Q) : q <= 0 -> round_binary64 q <= 0.
Proof.
  intros H. unfold round_binary64.
  assert (Z0 : inject_Z 0 * 2 ^ ulp_exponent q == 0) by ring.
  apply Qle_trans with (inject_Z 0 * 2 ^ ulp_exponent q);
    [|rewrite Z0; apply Qle_refl].
  apply grid_upper. rewrite Z0. exact H.
Qed.

(** The magnitude of the rounded value within its binade. *)
Lemma round_binary64_magnitude (q : Q) :
  ~ q == 0 ->
  let e := ulp_exponent q in
  (0 <= q ->
   round_binary64 q <= 2 ^ (e + 53) /\
   ((-1074 < e)%Z -> 2 ^ (e + 52) <= round_binary64 q)) /\
  (q <= 0 ->
   - 2 ^ (e + 53) <= round_binary64 q /\
   ((-1074 < e)%Z -> round_binary64 q <= - 2 ^ (e + 52))).
Proof.
  intros Hq e. destruct (ulp_exponent_bound q Hq) as [B1 B2]. fold e in B1, B2.
  unfold round_binary64. fold e. split; intros Hs.
  - rewrite (Qabs_pos q Hs) in B1, B2. split.
    + rewrite (pow2_shift e 53) by lia. apply grid_upper.
      rewrite <- (pow2_shift e 53) by lia. lra.
    + intros He. rewrite (pow2_shift e 52) by lia. apply grid_lower.
      rewrite <- (pow2_shift e 52) by lia. exact (B2 He).
  - rewrite (Qabs_neg q Hs) in B1, B2. split.
    + assert (E : - 2 ^ (e + 53) == inject_Z (- 2 ^ 53) * 2 ^ e).
      { rewrite (pow2_shift e 53) by lia. rewrite inject_Z_opp. ring. }
      rewrite E. apply grid_lower. rewrite <- E. lra.
    + intros He.
      assert (E : - 2 ^ (e + 52) == inject_Z (- 2 ^ 52) * 2 ^ e).
      { rewrite (pow2_shift e 52) by lia. rewrite inject_Z_opp. ring. }
      rewrite E. apply grid_upper. rewrite <- E. specialize (B2 He). lra.
Qed.

Lemma round_binary64_monotone (a b : Q) :
  a <= b -> round_binary64 a <= round_binary64 b.
Proof.
  intros H.
  destruct (Qlt_le_dec a 0) as [An|Ap].
  - (* a < 0 *)
    destruct (Qlt_le_dec b 0) as [Bn|Bp].
    + assert (Ha : ~ a == 0) by lra. assert (Hb : ~ b == 0) by lra.
      assert (M : (ulp_exponent b <= ulp_exponent a)%Z).
      { apply ulp_exponent_monotone; [exact Hb|].
        rewrite (Qabs_neg a), (Qabs_neg b) by lra. lra. }
      destruct (Z.eq_dec (ulp_exponent a) (ulp_exponent b)) as [E|E].
      * unfold round_binary64. rewrite E. apply grid_monotone. exact H.
      * destruct (round_binary64_magnitude a Ha) as [_ Ma].
        destruct (round_binary64_magnitude b Hb) as [_ Mb].
        destruct (Ma (Qlt_le_weak _ _ An)) as [_ Ma2].
        destruct (Mb (Qlt_le_weak _ _ Bn)) as [Mb1 _].
        assert (Ea : (-1074 < ulp_exponent a)%Z).
        { assert (-1074 <= ulp_exponent b)%Z by (unfold ulp_exponent; lia). lia. }
        specialize (Ma2 Ea).
        assert (P : 2 ^ (ulp_exponent b + 53) <= 2 ^ (ulp_exponent a + 52))
          by (apply pow2_le; lia).
        lra.
    + pose proof (round_binary64_nonpos a (Qlt_le_weak _ _ An)).
      pose proof (round_binary64_nonneg b Bp). lra.
  - (* 0 <= a <= b *)
    assert (Bp : 0 <= b) by lra.
    destruct (Qeq_dec a 0) as [Az|Ha].
    + pose proof (round_binary64_nonpos a) as N.
      pose proof (round_binary64_nonneg b Bp).
      assert (a <= 0) by lra. specialize (N H1). lra.
    + assert (Hb : ~ b == 0) by lra.
      assert (M : (ulp_exponent a <= ulp_exponent b)%Z).
      { apply ulp_exponent_monotone; [exact Ha|].
        rewrite (Qabs_pos a), (Qabs_pos b) by lra. lra. }
      destruct (Z.eq_dec (ulp_exponent a) (ulp_exponent b)) as [E|E].
      * unfold round_binary64. rewrite E. apply grid_monotone. exact H.
      * destruct (round_binary64_magnitude a Ha) as [Ma _].
        destruct (round_binary64_magnitude b Hb) as [Mb _].
        destruct (Ma Ap) as [Ma1 _]. destruct (Mb Bp) as [_ Mb2].
        assert (Eb : (-1074 < ulp_exponent b)%Z).
        { assert (-1074 <= ulp_exponent a)%Z by (unfold ulp_exponent; lia). lia. }
        specialize (Mb2 Eb).
        assert (P : 2 ^ (ulp_exponent a + 53) <= 2 ^ (ulp_exponent b + 52))
          by (apply pow2_le; lia).
        lra.
Qed.

Lemma round_binary64_proper (a b : Q) :
  a == b -> round_binary64 a == round_binary64 b.
Proof.
  intros H. apply Qle_antisym; apply round_binary64_monotone; rewrite H;
    apply Qle_refl.
Qed.

Lemma round_binary64_zero : round_binary64 0 == 0.
Proof.
  apply Qle_antisym.
  - apply round_binary64_nonpos. apply Qle_refl.
  - apply round_binary64_nonneg. apply Qle_refl.
Qed.

(** A multiple of [2^e], rounded with this spacing, is itself. *)
Lemma round_binary64_grid_point (r : Q) (z : Z) :
  r == inject_Z z * 2 ^ ulp_exponent r -> round_binary64 r == r.
Proof.
  intros H. unfold round_binary64.
  assert (E : r / 2 ^ ulp_exponent r ==
              inject_Z z * 2 ^ ulp_exponent r / 2 ^ ulp_exponent r).
  { rewrite <- H. reflexivity. }
  rewrite (nearest_even_proper _ _ E), grid_point. symmetry. exact H.
Qed.

Lemma ilog2_of_multiple (M e : Z) :
  M <> 0%Z -> ilog2 (inject_Z M * 2 ^ e) = (Z.log2 (Z.abs M) + e)%Z.
Proof.
  intros HM. pose proof (pow2_pos e) as P.
  assert (A : (0 < Z.abs M)%Z) by lia.
  destruct (Z.log2_spec _ A) as [L1 L2].
  assert (J : (0 <= Z.log2 (Z.abs M))%Z) by apply Z.log2_nonneg.
  assert (Q : Qabs (inject_Z M * 2 ^ e) == inject_Z (Z.abs M) * 2 ^ e).
  { rewrite Qabs_Qmult. rewrite (Qabs_pos (2 ^ e)) by lra.
    apply Qmult_comp; [|reflexivity].
    unfold inject_Z, Qabs. reflexivity. }
  apply ilog2_unique; rewrite Q.
  - rewrite pow2_plus, <- (pow2_Z (Z.log2 (Z.abs M))) by assumption.
    apply Qmult_le_r; [exact P|]. rewrite <- Zle_Qle. exact L1.
  - replace (Z.log2 (Z.abs M) + e + 1)%Z with (Z.succ (Z.log2 (Z.abs M)) + e)%Z
      by lia.
    rewrite pow2_plus, <- (pow2_Z (Z.succ (Z.log2 (Z.abs M)))) by lia.
    apply Qmult_lt_r; [exact P|]. rewrite <- Zlt_Qlt. exact L2.
Qed.

Lemma round_binary64_mantissa (q : Q) :
  (Z.abs (nearest_even (q / 2 ^ ulp_exponent q)) <= 2 ^ 53)%Z.
Proof.
  set (e := ulp_exponent q). pose proof (pow2_pos e) as P.
  destruct (Qeq_dec q 0) as [Hz|Hq].
  - assert (E : q / 2 ^ e == inject_Z 0) by (rewrite Hz; field; lra).
    rewrite (nearest_even_proper _ _ E), nearest_even_Z. cbn. lia.
  - destruct (round_binary64_magnitude q Hq) as [Mp Mn]. fold e in Mp, Mn.
    unfold round_binary64 in Mp, Mn. fold e in Mp, Mn.
    set (M := nearest_even (q / 2 ^ e)) in *.
    destruct (Qlt_le_dec q 0) as [Neg|Pos].
    + destruct (Mn (Qlt_le_weak _ _ Neg)) as [B _].
      pose proof (round_binary64_nonpos q (Qlt_le_weak _ _ Neg)) as S.
      unfold round_binary64 in S. fold e M in S.
      rewrite (pow2_shift e 53) in B by lia.
      assert (B' : inject_Z (- 2 ^ 53) * 2 ^ e <= inject_Z M * 2 ^ e).
      { rewrite inject_Z_opp. lra. }
      apply Qmult_le_r in B'; [|exact P]. rewrite <- Zle_Qle in B'.
      assert (S' : inject_Z M * 2 ^ e <= inject_Z 0 * 2 ^ e)
        by (change (inject_Z 0) with 0; lra).
      apply Qmult_le_r in S'; [|exact P]. rewrite <- Zle_Qle in S'. lia.
    + destruct (Mp Pos) as [B _].
      pose proof (round_binary64_nonneg q Pos) as S.
      unfold round_binary64 in S. fold e M in S.
      rewrite (pow2_shift e 53) in B by lia.
      apply Qmult_le_r in B; [|exact P]. rewrite <- Zle_Qle in B.
      assert (S' : inject_Z 0 * 2 ^ e <= inject_Z M * 2 ^ e)
        by (change (inject_Z 0) with 0; lra).
      apply Qmult_le_r in S'; [|exact P]. rewrite <- Zle_Qle in S'. lia.
Qed.

Lemma round_binary64_idempotent (q : Q) :
  round_binary64 (round_binary64 q) == round_binary64 q.
Proof.
  pose proof (round_binary64_mantissa q) as HM.
  unfold round_binary64 at 2 3.
  set (e := ulp_exponent q) in *.
  set (M := nearest_even (q / 2 ^ e)) in *.
  assert (He : (-1074 <= e)%Z) by (unfold e, ulp_exponent; lia).
  clearbody M e. pose proof (pow2_pos e) as P.
  destruct (Z.eq_dec M 0) as [->|HM0].
  - assert (E : inject_Z 0 * 2 ^ e == 0) by ring.
    rewrite (round_binary64_proper _ _ E), E. apply round_binary64_zero.
  - set (r := inject_Z M * 2 ^ e).
    pose proof (ilog2_of_multiple M e HM0) as IL. fold r in IL.
    assert (A : (0 < Z.abs M)%Z) by lia.
    destruct (Z.log2_spec _ A) as [L1 L2].
    assert (J : (0 <= Z.log2 (Z.abs M))%Z) by apply Z.log2_nonneg.
    set (j := Z.log2 (Z.abs M)) in *.
    assert (J53 : (j <= 53)%Z).
    { destruct (Z_le_gt_dec j 53) as [C|C]; [exact C|exfalso].
      assert (2 ^ 54 <= 2 ^ j)%Z by (apply Z.pow_le_mono_r; lia).
      assert (2 ^ 53 < 2 ^ 54)%Z by reflexivity. lia. }
    destruct (Z_le_gt_dec j 52) as [C|C].
    + (* the spacing around [r] is at most [2^e] *)
      assert (Er : (ulp_exponent r <= e)%Z) by (unfold ulp_exponent; lia).
      assert (Er' : (-1074 <= ulp_exponent r)%Z) by (unfold ulp_exponent; lia).
      apply (round_binary64_grid_point r (M * 2 ^ (e - ulp_exponent r))).
      unfold r at 1. rewrite inject_Z_mult, pow2_Z by lia.
      rewrite <- Qmult_assoc, <- pow2_plus.
      replace (e - ulp_exponent r + ulp_exponent r)%Z with e by ring.
      reflexivity.
    + (* [|M| = 2^53]: the next binade, with spacing [2^(e+1)] *)
      assert (J' : j = 53%Z) by lia.
      assert (M53 : Z.abs M = (2 ^ 53)%Z).
      { rewrite J' in L1. lia. }
      assert (Er : ulp_exponent r = (e + 1)%Z) by (unfold ulp_exponent; lia).
      assert (D : M = (2 * (M / 2))%Z).
      { destruct (Z.abs_eq_or_opp M) as [E|E]; rewrite M53 in E.
        - rewrite <- E. reflexivity.
        - assert (M = (- 2 ^ 53)%Z) by lia. subst M. reflexivity. }
      apply (round_binary64_grid_point r (M / 2)).
      rewrite Er, pow2_succ. unfold r. rewrite D at 1.
      rewrite inject_Z_mult. change (inject_Z 2) with 2. ring.
Qed.

(** [round_binary64] obeys the laws of a rounding. *)
Lemma round_binary64_laws :
  (forall a b, a <= b -> round_binary64 a <= round_binary64 b) /\
  (forall a, round_binary64 (round_binary64 a) == round_binary64 a) /\
  round_binary64 0 == 0.
Proof.
  split; [exact round_binary64_monotone|].
  split; [exact round_binary64_idempotent|exact round_binary64_zero].
Qed.

(** ** The clamped step *)

Section RoundingFacts.

Context {LA : Numerics}.

Hypothesis laws : roundingLaws.

Lemma rnd_monotone (a b : Q) : a <= b -> rnd a <= rnd b.
Proof. apply laws. Qed.

Lemma rnd_proper (a b : Q) : a == b -> rnd a == rnd b.
Proof.
  intros H. apply Qle_antisym; apply rnd_monotone; rewrite H; apply Qle_refl.
Qed.

Lemma rnd_representable (a : Q) : representable (rnd a).
Proof. apply laws. Qed.

(** Adding something that is not negative to a double never rounds below
    the double, and subtracting it never rounds above. *)
Lemma rnd_add_above (a p : Q) : representable a -> 0 <= p -> a <= rnd (a + p).
Proof.
  intros Ha Hp. unfold representable in Ha.
  apply Qle_trans with (rnd a); [rewrite Ha; apply Qle_refl|].
  apply rnd_monotone. lra.
Qed.

Lemma rnd_sub_below (a p : Q) : representable a -> 0 <= p -> rnd (a - p) <= a.
Proof.
  intros Ha Hp. unfold representable in Ha.
  apply Qle_trans with (rnd a); [|rewrite Ha; apply Qle_refl].
  apply rnd_monotone. lra.
Qed.

End RoundingFacts.

Section ClampedStep.

Context {LA : Numerics}.

Variables (dp alpha : Q) (nvals : nat) (xvals pvals : list Q).

(** With bound arrays: entry [i] after the step and the lower clamp is
    [x2], and the upper clamp is applied to it. *)
Lemma computeStep_bound_arrays (lbv ubv : list Q) (i : nat) :
  (i < nvals)%nat ->
  let x1 := rnd (get xvals i + rnd (alpha * get pvals i)) in
  let x2 :=
    if Qle_bool x1 (rnd (get lbv i + dp)) then rnd (get lbv i + dp) else x1 in
  get (computeStep dp nvals xvals alpha pvals (Some lbv) None (Some ubv) None) i =
  (if Qgeb (rnd (x2 + dp)) (get ubv i) then rnd (get ubv i - dp) else x2).
Proof.
  intros Hi x1 x2. unfold computeStep.
  rewrite get_tabulate by assumption.
  rewrite (get_tabulate _ _ i Hi).
  rewrite (get_tabulate _ _ i Hi).
  reflexivity.
Qed.

Hypothesis laws : roundingLaws.
Hypothesis dp_nonneg : 0 <= dp.

(** A step whose rounded value reaches the upper bound ends on the
    rounded offset [ub - design_precision]. *)
Lemma computeStep_reaches_upper (lbv ubv : list Q) (i : nat) :
  (i < nvals)%nat ->
  get ubv i <= rnd (get xvals i + rnd (alpha * get pvals i)) ->
  get (computeStep dp nvals xvals alpha pvals (Some lbv) None (Some ubv) None) i =
  rnd (get ubv i - dp).
Proof.
  intros Hi Hu. rewrite computeStep_bound_arrays by assumption. cbv zeta.
  set (x1 := rnd (get xvals i + rnd (alpha * get pvals i))) in *.
  set (x2 := if Qle_bool x1 _ then _ else _).
  assert (R2 : representable x2).
  { unfold x2. destruct (Qle_bool _ _); apply (rnd_representable laws). }
  assert (H2 : x1 <= x2).
  { unfold x2. destruct (Qle_bool _ _) eqn:E; [|apply Qle_refl].
    apply Qle_bool_iff in E. exact E. }
  assert (H3 : get ubv i <= rnd (x2 + dp)).
  { apply Qle_trans with x2; [lra|].
    apply (rnd_add_above laws); assumption. }
  unfold Qgeb. apply Qle_bool_iff in H3. rewrite H3. reflexivity.
Qed.

(** Every entry ends within the rounded offsets, and so within the bounds
    when these are doubles: at most [ub], and at least [lb] where the
    rounded offsets are in order. *)
Lemma computeStep_within_bounds (lbv ubv : list Q) (i : nat) :
  (i < nvals)%nat ->
  let r := computeStep dp nvals xvals alpha pvals (Some lbv) None (Some ubv) None in
  (representable (get ubv i) -> get r i <= get ubv i) /\
  (rnd (get lbv i + dp) <= rnd (get ubv i - dp) ->
   rnd (get lbv i + dp) <= get r i /\
   (representable (get lbv i) -> get lbv i <= get r i)).
Proof.
  intros Hi r. unfold r. rewrite computeStep_bound_arrays by assumption.
  cbv zeta.
  set (x1 := rnd (get xvals i + rnd (alpha * get pvals i))).
  set (x2 := if Qle_bool x1 _ then _ else _).
  assert (R2 : representable x2).
  { unfold x2. destruct (Qle_bool _ _); apply (rnd_representable laws). }
  assert (L2 : rnd (get lbv i + dp) <= x2).
  { unfold x2. destruct (Qle_bool _ _) eqn:E; [apply Qle_refl|].
    apply Qle_bool_false in E. apply Qlt_le_weak. exact E. }
  clearbody x2.
  split.
  - intros Ru. unfold Qgeb. destruct (Qle_bool _ _) eqn:E.
    + apply (rnd_sub_below laws); assumption.
    + apply Qle_bool_false in E.
      pose proof (rnd_add_above laws x2 dp R2 dp_nonneg). lra.
  - intros Hroom.
    assert (A : rnd (get lbv i + dp) <=
                (if Qgeb (rnd (x2 + dp)) (get ubv i)
                 then rnd (get ubv i - dp) else x2)).
    { destruct (Qgeb _ _); assumption. }
    split; [exact A|].
    intros Rl. pose proof (rnd_add_above laws (get lbv i) dp Rl dp_nonneg). lra.
Qed.

End ClampedStep.

Section UpdateInvariant.

Context {prob : ParOptProblem} {QNI : ParOptCompactQuasiNewton} {LA : Numerics}.

(** The variables after [computeStepAndUpdate]: the stepped multipliers
    with the stepped design variables; evaluations and the quasi-Newton
    update do not touch them. *)
Lemma computeStepAndUpdate_vars (alpha : Q) (ev qu : bool) (st : Solver) :
  vars (snd (computeStepAndUpdate alpha ev qu st)) =
  with_x (computeStepVec (design_precision (opts st))
            (x (steppedMultipliers alpha st)) alpha (px (steps st))
            (Some (lb (steppedMultipliers alpha st))) None
            (Some (ub (steppedMultipliers alpha st))) None)
         (steppedMultipliers alpha st).
Proof.
  unfold computeStepAndUpdate, call_evalObjCon, call_evalObjConGradient.
  set (v := steppedMultipliers alpha st).
  destruct ev; simpl.
  - destruct (evalObjCon _) as [[fo f] cv]; simpl.
    destruct (negb (fo =? 0)%Z); simpl; [reflexivity|].
    destruct (evalObjConGradient _) as [[fg gv] av]; simpl.
    destruct (qn st); simpl; [|reflexivity].
    destruct qu; simpl; [|reflexivity].
    destruct (use_quasi_newton_update (opts st)); simpl.
    + destruct (computeQuasiNewtonUpdateCorrection _ _); simpl.
      destruct (qn_update_sy _ _ _ _ _ _); reflexivity.
    + destruct (qn_update _ _ _ _); reflexivity.
  - destruct (evalObjConGradient _) as [[fg gv] av]; simpl.
    destruct (qn st); simpl; [|reflexivity].
    destruct qu; simpl; [|reflexivity].
    destruct (use_quasi_newton_update (opts st)); simpl.
    + destruct (computeQuasiNewtonUpdateCorrection _ _); simpl.
      destruct (qn_update_sy _ _ _ _ _ _); reflexivity.
    + destruct (qn_update _ _ _ _); reflexivity.
Qed.

End UpdateInvariant.

Section UpdateBounds.

Context {prob : ParOptProblem} {QNI : ParOptCompactQuasiNewton} {LA : Numerics}.

Variables (alpha : Q) (st : Solver).

Let vm := steppedMultipliers alpha st.

Lemma steppedMultipliers_frame :
  x vm = x (vars st) /\ lb vm = lb (vars st) /\ ub vm = ub (vars st).
Proof.
  unfold vm, steppedMultipliers.
  destruct (0 <? nwcon (dims st))%nat, (sparse_inequality (dims st)),
    (use_lower (dims st)), (use_upper (dims st)), (dense_inequality (dims st));
    simpl; auto.
Qed.

Lemma trialPoint_rx :
  rx (resid (trialPoint alpha st)) =
  computeStepVec (design_precision (opts st)) (x (vars st)) alpha (px (steps st))
    (Some (lb (vars st))) None (Some (ub (vars st))) None.
Proof.
  unfold trialPoint. simpl.
  destruct ((0 <? nwcon (dims st))%nat && sparse_inequality (dims st)),
    (dense_inequality (dims st)); reflexivity.
Qed.

End UpdateBounds.

(** C5 (defect of the source).  At the trial points of the line search
    and in the accepted update of [computeStepAndUpdate] alike, the clamps
    of [computeStep] keep a design variable between its bounds, when these
    are doubles and the rounded offsets are in order.  In double arithmetic
    they put a variable whose step reaches the upper bound on the rounded
    difference [ub - design_precision], and one whose step falls to the
    rounded sum [lb + design_precision] on that sum (if the upper clamp
    leaves it there).  Where the bound absorbs the design precision, the
    rounded value is the bound: the variable ends on its bound, not
    [design_precision] inside it as the comment of [computeStepVec]
    promises. *)
Theorem clamped_step_ends_on_the_rounded_offset
    {prob : ParOptProblem} {QNI : ParOptCompactQuasiNewton} {LA : Numerics}
    (alpha : Q) (eval_obj_con perform_qn_update : bool) (st : Solver)
    (i : nat) :
  let dp := design_precision (opts st) in
  let v :=
    vars (snd (computeStepAndUpdate alpha eval_obj_con perform_qn_update st)) in
  let r := resid (trialPoint alpha st) in
  let stepped := rnd (get (x (vars st)) i + rnd (alpha * get (px (steps st)) i)) in
  let lbi := get (lb (vars st)) i in
  let ubi := get (ub (vars st)) i in
  roundingLaws -> 0 < dp -> (i < length (x (vars st)))%nat ->
  (lb v = lb (vars st) /\ ub v = ub (vars st)) /\
  (representable ubi -> get (x v) i <= ubi /\ get (rx r) i <= ubi) /\
  (representable lbi -> rnd (lbi + dp) <= rnd (ubi - dp) ->
   lbi <= get (x v) i /\ lbi <= get (rx r) i) /\
  (ubi <= stepped ->
   (get (x v) i = rnd (ubi - dp) /\ get (rx r) i = rnd (ubi - dp)) /\
   (rnd (ubi - dp) == ubi ->
    get (x v) i == ubi /\ get (rx r) i == ubi /\
    ~ get (x v) i <= ubi - dp /\ ~ get (rx r) i <= ubi - dp)) /\
  (stepped <= rnd (lbi + dp) -> rnd (rnd (lbi + dp) + dp) < ubi ->
   (get (x v) i = rnd (lbi + dp) /\ get (rx r) i = rnd (lbi + dp)) /\
   (rnd (lbi + dp) == lbi ->
    get (x v) i == lbi /\ get (rx r) i == lbi /\
    ~ lbi + dp <= get (x v) i /\ ~ lbi + dp <= get (rx r) i)).
Proof.
  intros dp v r stepped lbi ubi laws Hdp Hi.
  assert (Pdp : 0 <= dp) by lra.
  destruct (steppedMultipliers_frame alpha st) as [Fx [Fl Fu]].
  assert (Hv : vars (snd (computeStepAndUpdate alpha eval_obj_con
                            perform_qn_update st)) =
               with_x (computeStepVec dp (x (vars st)) alpha (px (steps st))
                         (Some (lb (vars st))) None (Some (ub (vars st))) None)
                      (steppedMultipliers alpha st)).
  { rewrite computeStepAndUpdate_vars, Fx, Fl, Fu. reflexivity. }
  assert (Xv : x v = computeStepVec dp (x (vars st)) alpha (px (steps st))
                       (Some (lb (vars st))) None (Some (ub (vars st))) None).
  { unfold v. rewrite Hv. reflexivity. }
  assert (Xr : rx r = computeStepVec dp (x (vars st)) alpha (px (steps st))
                        (Some (lb (vars st))) None (Some (ub (vars st))) None).
  { unfold r. apply trialPoint_rx. }
  split.
  { unfold v. rewrite Hv. cbn [lb ub with_x]. split; assumption. }
  rewrite Xv, Xr. unfold computeStepVec.
  pose proof (computeStep_within_bounds dp alpha _ (x (vars st))
                (px (steps st)) laws Pdp (lb (vars st)) (ub (vars st)) i Hi)
    as [W1 W2].
  cbv zeta in W1, W2. fold lbi ubi in W1, W2.
  split; [intros Ru; split; exact (W1 Ru)|].
  split; [intros Rl Hroom; split; exact (proj2 (W2 Hroom) Rl)|].
  split.
  - intros Hu.
    rewrite (computeStep_reaches_upper dp alpha _ _ _ laws Pdp _ _ i Hi Hu).
    fold ubi. split; [split; reflexivity|].
    intros Ha. split; [exact Ha|]. split; [exact Ha|]. split; lra.
  - intros Hl Hroom.
    rewrite (computeStep_bound_arrays dp alpha _ _ _ _ _ i Hi). cbv zeta.
    fold stepped lbi ubi.
    apply Qle_bool_iff in Hl. rewrite Hl.
    assert (G : Qgeb (rnd (rnd (lbi + dp) + dp)) ubi = false).
    { unfold Qgeb. apply Qle_bool_false. exact Hroom. }
    rewrite G. split; [split; reflexivity|].
    intros Ha. split; [exact Ha|]. split; [exact Ha|]. split; lra.
Qed.

(** A step from 99 towards the bound 100, with the default design
    precision 1e-15, in binary64: the step reaches 101, the clamp puts the
    variable on 100 - 1e-15, and that difference is 100.  So it is for the
    kernel's own doubles.  Between the bounds 0 and 1e-15 the lower clamp
    moves the variable to 1e-15 and the upper clamp then moves it to
    [1e-15 - 1e-15], the lower bound. *)
Lemma clamped_step_ends_on_the_rounded_offset_witness :
  let st := Examples.boundSolver in
  let LA := Examples.binary64 in
  let dp := design_precision (opts st) in
  let v := vars (snd (computeStepAndUpdate (prob := Examples.smallProblem)
                        (LA := LA) 1 true true st)) in
  let r := resid (trialPoint (LA := LA) 1 st) in
  (0 < dp /\ (0 < length (x (vars st)))%nat /\
   get (ub (vars st)) 0 <=
     rnd (get (x (vars st)) 0 + rnd (1 * get (px (steps st)) 0)) /\
   rnd (get (ub (vars st)) 0 - dp) == get (ub (vars st)) 0) /\
  (get (ub v) 0 = 100 /\ get (x v) 0 == 100 /\ get (rx r) 0 == 100 /\
   ~ get (x v) 0 <= get (ub v) 0 - dp) /\
  (PrimFloat.eqb (PrimFloat.sub 100 1e-15) 100 = true /\
   Q_of_float (PrimFloat.sub 100 1e-15) ==
     rnd (Q_of_float 100 - Q_of_float 1e-15)) /\
  get (x (vars (snd (computeStepAndUpdate (prob := Examples.narrowProblem)
                       (LA := LA) 1 true true Examples.narrowSolver)))) 0
    == get (lb (vars Examples.narrowSolver)) 0.
Proof.
  intros st LA dp v r.
  assert (P : 0 < dp) by reflexivity.
  assert (I : (0 < length (x (vars st)))%nat) by (cbn; lia).
  assert (U : get (ub (vars st)) 0 <=
              rnd (get (x (vars st)) 0 + rnd (1 * get (px (steps st)) 0)))
    by (vm_compute; discriminate).
  assert (A : rnd (get (ub (vars st)) 0 - dp) == get (ub (vars st)) 0)
    by (vm_compute; reflexivity).
  destruct (clamped_step_ends_on_the_rounded_offset
              (prob := Examples.smallProblem) (LA := LA) 1 true true st 0
              round_binary64_laws P I) as [[_ Bu] [_ [_ [Hu _]]]].
  destruct (Hu U) as [_ Ha]. destruct (Ha A) as [Xv [Xr [Nv _]]].
  split; [split; [exact P|split; [exact I|split; [exact U|exact A]]]|].
  split.
  - split; [unfold v; rewrite Bu; reflexivity|].
    split; [exact Xv|]. split; [exact Xr|].
    unfold v. rewrite Bu. exact Nv.
  - split; [|vm_compute; reflexivity].
    split; [reflexivity|]. vm_compute. reflexivity.
Defined.

(** ** Scaling of the KKT step *)

Lemma get_vec_scale (a : Q) (v : list Q) (i : nat) :
  get (vec_scale a v) i == a * get v i.
Proof.
  unfold get, vec_scale.
  destruct (Nat.lt_ge_cases i (length v)) as [Hi|Hi].
  - rewrite (nth_indep _ 0 (a * 0)) by now rewrite length_map.
    rewrite map_nth. reflexivity.
  - rewrite !nth_overflow by (try rewrite length_map; assumption). lra.
Qed.

Lemma get_scaleStep (a : Q) (n : nat) (v : list Q) (i : nat) :
  (i < n)%nat -> get (scaleStep a n v) i == a * get v i.
Proof.
  intros Hi. unfold scaleStep. rewrite get_tabulate by assumption. lra.
Qed.

Section ScaleKKTStep.

Context {QNI : ParOptCompactQuasiNewton}.

Variables (tau comp : Q) (inexact_newton_step : bool) (st : Solver).

Let res := scaleKKTStep tau comp inexact_newton_step st.
Let alpha_x := snd (fst (fst res)).
Let alpha_z := snd (fst res).
Let p := steps st.
Let p' := steps (snd res).

(** The scaled step, array by array. *)
Lemma scaleKKTStep_steps :
  let d := dims st in
  px p' = vec_scale alpha_x (px p) /\
  pz p' = scaleStep alpha_z (ncon d) (pz p) /\
  (ps p', pt p', pzt p') =
    (if dense_inequality d
     then (scaleStep alpha_x (ncon d) (ps p), scaleStep alpha_x (ncon d) (pt p),
           scaleStep alpha_z (ncon d) (pzt p))
     else (ps p, pt p, pzt p)) /\
  (pzw p', psw p') =
    (if (0 <? nwcon d)%nat
     then (vec_scale alpha_z (pzw p),
           if sparse_inequality d then vec_scale alpha_x (psw p) else psw p)
     else (pzw p, psw p)) /\
  pzl p' = (if use_lower d then vec_scale alpha_z (pzl p) else pzl p) /\
  pzu p' = (if use_upper d then vec_scale alpha_z (pzu p) else pzu p).
Proof.
  unfold p', alpha_x, alpha_z, res, scaleKKTStep, p.
  destruct (computeMaxStep tau st) as [ax az].
  set (tr := if negb inexact_newton_step then _ else _).
  destruct tr as [[ceq ax'] az'].
  destruct (0 <? nwcon (dims st))%nat, (dense_inequality (dims st)); simpl;
    repeat split; reflexivity.
Qed.

End ScaleKKTStep.

(** C6 (amended).  After the maximum step lengths [alpha_x] and [alpha_z]
    are computed, [alpha_x] scales the steps [px], and [ps], [pt] (dense
    inequalities) and [psw] (sparse inequalities); [alpha_z] scales the
    steps [pz], and [pzt] (dense inequalities), [pzl], [pzu] (bounds in
    use) and [pzw] (sparse constraints present).  The step [pzt] of the
    multipliers of the t-slacks is scaled by [alpha_z], not [alpha_x]. *)
Theorem scaleKKTStep_applies_step_lengths
    {QNI : ParOptCompactQuasiNewton}
    (tau comp : Q) (inexact_newton_step : bool) (st : Solver) :
  let res := scaleKKTStep tau comp inexact_newton_step st in
  let alpha_x := snd (fst (fst res)) in
  let alpha_z := snd (fst res) in
  let d := dims st in
  let p := steps st in
  let p' := steps (snd res) in
  (forall i, get (px p') i == alpha_x * get (px p) i) /\
  (forall i, (i < ncon d)%nat -> get (pz p') i == alpha_z * get (pz p) i) /\
  (dense_inequality d = true -> forall i, (i < ncon d)%nat ->
     get (ps p') i == alpha_x * get (ps p) i /\
     get (pt p') i == alpha_x * get (pt p) i /\
     get (pzt p') i == alpha_z * get (pzt p) i) /\
  ((0 < nwcon d)%nat ->
     (forall i, get (pzw p') i == alpha_z * get (pzw p) i) /\
     (sparse_inequality d = true ->
      forall i, get (psw p') i == alpha_x * get (psw p) i)) /\
  (use_lower d = true -> forall i, get (pzl p') i == alpha_z * get (pzl p) i) /\
  (use_upper d = true -> forall i, get (pzu p') i == alpha_z * get (pzu p) i).
Proof.
  intros res alpha_x alpha_z d p p'.
  destruct (scaleKKTStep_steps tau comp inexact_newton_step st)
    as [Hx [Hz [Hd [Hw [Hl Hu]]]]].
  fold res in Hx, Hz, Hd, Hw, Hl, Hu.
  fold alpha_x alpha_z d p p' in Hx, Hz, Hd, Hw, Hl, Hu.
  split; [intros i; rewrite Hx; apply get_vec_scale|].
  split; [intros i Hi; rewrite Hz; apply get_scaleStep; assumption|].
  split.
  { intros D i Hi. rewrite D in Hd. inversion Hd as [[Hs Ht Hzt]].
    rewrite Hs, Ht, Hzt.
    repeat split; apply get_scaleStep; assumption. }
  split.
  { intros W. apply Nat.ltb_lt in W. rewrite W in Hw.
    inversion Hw as [[Hzw Hsw]]. split.
    - intros i. rewrite Hzw. apply get_vec_scale.
    - intros S i. rewrite Hsw, S. apply get_vec_scale. }
  split.
  - intros L i. rewrite Hl, L. apply get_vec_scale.
  - intros U i. rewrite Hu, U. apply get_vec_scale.
Qed.

(** The scaling on the small problem, with [tau = 0.95]: there
    [alpha_x = 0.2375] and [alpha_z] is a third of [0.95]. *)
Lemma scaleKKTStep_applies_step_lengths_witness :
  let st := Examples.smallSolver in
  let res := scaleKKTStep 0.95 3 false st in
  dense_inequality (dims st) = true /\ (0 < nwcon (dims st))%nat /\
  sparse_inequality (dims st) = true /\
  get (pt (steps (snd res))) 0 == snd (fst (fst res)) * get (pt (steps st)) 0 /\
  get (pzt (steps (snd res))) 0 == snd (fst res) * get (pzt (steps st)) 0 /\
  get (psw (steps (snd res))) 0 == snd (fst (fst res)) * get (psw (steps st)) 0.
Proof.
  intros st res.
  destruct (scaleKKTStep_applies_step_lengths 0.95 3 false st)
    as [_ [_ [Hd [Hw _]]]].
  assert (D : dense_inequality (dims st) = true) by reflexivity.
  assert (W : (0 < nwcon (dims st))%nat) by (simpl; lia).
  assert (S : sparse_inequality (dims st) = true) by reflexivity.
  assert (I : (0 < ncon (dims st))%nat) by (simpl; lia).
  split; [exact D|]. split; [exact W|]. split; [exact S|].
  split; [apply (Hd D 0%nat I)|].
  split; [apply (Hd D 0%nat I)|].
  apply (proj2 (Hw W) S).
Defined.

(** C6 as stated fails: on the small problem [alpha_x] and [alpha_z]
    differ, and the scaled [pzt] is [alpha_z * pzt], which is not
    [alpha_x * pzt]. *)
Lemma scaleKKTStep_pzt_counterexample :
  let st := Examples.smallSolver in
  let res := scaleKKTStep 0.95 3 false st in
  let alpha_x := snd (fst (fst res)) in
  dense_inequality (dims st) = true /\
  ~ (get (pzt (steps (snd res))) 0 == alpha_x * get (pzt (steps st)) 0).
Proof.
  split; [reflexivity|].
  intros H. vm_compute in H. discriminate H.
Qed.

(** ** The complementarity measure *)

Lemma inject_nat_succ (n : nat) :
  inject_Z (Z.of_nat (S n)) == inject_Z (Z.of_nat n) + 1.
Proof.
  rewrite Nat2Z.inj_succ. unfold Z.succ. rewrite inject_Z_plus. reflexivity.
Qed.

Lemma inject_nat_add (n m : nat) :
  inject_Z (Z.of_nat (n + m)) == inject_Z (Z.of_nat n) + inject_Z (Z.of_nat m).
Proof.
  rewrite Nat2Z.inj_add, inject_Z_plus. reflexivity.
Qed.

Lemma inject_nat_zero (n : nat) :
  inject_Z (Z.of_nat n) == 0 <-> n = 0%nat.
Proof.
  split.
  - intros H. unfold Qeq in H. simpl in H. lia.
  - intros ->. reflexivity.
Qed.

(** The accumulation loop over the entries selected by [keep]: the
    product grows by the selected terms, the count by one for each. *)
Lemma accumulate_selected (keep : nat -> bool) (term : nat -> Q)
    (l : list nat) (a : Q * Q) :
  let r :=
    fold_left (fun (a : Q * Q) i =>
      if keep i then (fst a + term i, snd a + 1) else a) l a in
  fst r == fst a + Qsum (map term (filter keep l)) /\
  snd r == snd a + inject_Z (Z.of_nat (length (filter keep l))).
Proof.
  revert a. induction l as [|i l IH]; intros a; simpl.
  - change (inject_Z 0) with 0. unfold Qsum; simpl. split; lra.
  - destruct (keep i) eqn:E; simpl.
    + destruct (IH (fst a + term i, snd a + 1)) as [H1 H2].
      simpl in H1, H2. split.
      * rewrite H1. unfold Qsum. cbn [map fold_right]. lra.
      * rewrite H2.
        change (Z.pos (Pos.of_succ_nat (length (filter keep l))))
          with (Z.of_nat (S (length (filter keep l)))).
        rewrite inject_nat_succ. lra.
    + apply IH.
Qed.

(** The accumulation loop over the dense constraints: two per entry. *)
Lemma accumulate_pairs (term : nat -> Q) (l : list nat) (a : Q * Q) :
  let r := fold_left (fun (a : Q * Q) i => (fst a + term i, snd a + 2)) l a in
  fst r == fst a + Qsum (map term l) /\
  snd r == snd a + 2 * inject_Z (Z.of_nat (length l)).
Proof.
  revert a. induction l as [|i l IH]; intros a; simpl.
  - change (inject_Z 0) with 0. unfold Qsum; simpl. split; lra.
  - destruct (IH (fst a + term i, snd a + 2)) as [H1 H2].
    simpl in H1, H2. split.
    + rewrite H1. unfold Qsum. cbn [map fold_right]. lra.
    + rewrite H2.
      change (Z.pos (Pos.of_succ_nat (length l))) with (Z.of_nat (S (length l))).
      rewrite inject_nat_succ. lra.
Qed.

Section Complementarity.

Context {QNI : ParOptCompactQuasiNewton}.

Variable st : Solver.

Lemma compProductSum_spec :
  fst (compProductSum st) ==
    boundComplementarity st / rel_bound_barrier (opts st) +
    (if dense_inequality (dims st) then denseComplementarity st else 0) /\
  snd (compProductSum st) == inject_Z (Z.of_nat (averagedProducts st)).
Proof.
  unfold compProductSum, boundComplementarity, denseComplementarity,
    averagedProducts, liveBoundCount, liveLowerBounds, liveUpperBounds.
  set (tl := fun i => get (zl (vars st)) i *
                      (get (x (vars st)) i - get (lb (vars st)) i)).
  set (tu := fun i => get (zu (vars st)) i *
                      (get (ub (vars st)) i - get (x (vars st)) i)).
  set (td := fun i => get (s (vars st)) i * get (z (vars st)) i +
                      get (t (vars st)) i * get (zt (vars st)) i).
  set (idx := seq 0 (nvars (dims st))).
  assert (A1 : forall a0 : Q * Q,
    let a1 := if use_lower (dims st)
              then fold_left (fun (a : Q * Q) i =>
                     if live_lower st i then (fst a + tl i, snd a + 1) else a)
                     idx a0 else a0 in
    fst a1 == fst a0 + Qsum (map tl (if use_lower (dims st)
                                     then filter (live_lower st) idx else [])) /\
    snd a1 == snd a0 + inject_Z (Z.of_nat (length
                (if use_lower (dims st) then filter (live_lower st) idx else [])))).
  { intros a0. destruct (use_lower (dims st)); simpl.
    - apply accumulate_selected.
    - change (inject_Z 0) with 0. unfold Qsum; simpl; split; lra. }
  assert (A2 : forall a0 : Q * Q,
    let a1 := if use_upper (dims st)
              then fold_left (fun (a : Q * Q) i =>
                     if live_upper st i then (fst a + tu i, snd a + 1) else a)
                     idx a0 else a0 in
    fst a1 == fst a0 + Qsum (map tu (if use_upper (dims st)
                                     then filter (live_upper st) idx else [])) /\
    snd a1 == snd a0 + inject_Z (Z.of_nat (length
                (if use_upper (dims st) then filter (live_upper st) idx else [])))).
  { intros a0. destruct (use_upper (dims st)); simpl.
    - apply accumulate_selected.
    - change (inject_Z 0) with 0. unfold Qsum; simpl; split; lra. }
  specialize (A1 (0, 0)). simpl in A1.
  set (a1 := if use_lower (dims st) then _ else (0, 0)) in *.
  specialize (A2 a1). simpl in A2.
  set (a2 := if use_upper (dims st) then _ else a1) in *.
  destruct A1 as [P1 S1]. destruct A2 as [P2 S2].
  destruct (dense_inequality (dims st)).
  - destruct (accumulate_pairs td (seq 0 (ncon (dims st)))
                (fst a2 / rel_bound_barrier (opts st), snd a2)) as [P3 S3].
    simpl in P3, S3. split.
    + eapply Qeq_trans; [exact P3|]. rewrite P2, P1.
      apply Qplus_comp; [|reflexivity]. unfold Qdiv.
      apply Qmult_comp; [lra|reflexivity].
    + eapply Qeq_trans; [exact S3|]. rewrite S2, S1, length_seq.
      rewrite !inject_nat_add.
      replace (2 * ncon (dims st))%nat with (ncon (dims st) + ncon (dims st))%nat
        by lia.
      rewrite inject_nat_add. lra.
  - simpl. split.
    + rewrite P2, P1. rewrite Qplus_0_r. unfold Qdiv.
      apply Qmult_comp; [lra|reflexivity].
    + rewrite S2, S1, Nat.add_0_r, inject_nat_add. lra.
Qed.

End Complementarity.

(** C7 (amended).  [getComplementarity] returns the sum over the live
    bounds of bound slack times bound multiplier, divided by
    [rel_bound_barrier], plus (for dense inequalities) the sum over the
    dense constraints of [s_i*z_i + t_i*zt_i], all divided by the number
    of live bounds plus [2*ncon] (for dense inequalities); the sparse
    inequality constraints are not counted, and the value is zero when
    there is nothing to average. *)
Theorem getComplementarity_is_average_over_bounds_and_dense
    {QNI : ParOptCompactQuasiNewton} (st : Solver) :
  getComplementarity st ==
  if (averagedProducts st =? 0)%nat then 0
  else
    (boundComplementarity st / rel_bound_barrier (opts st) +
     (if dense_inequality (dims st) then denseComplementarity st else 0)) /
    inject_Z (Z.of_nat (averagedProducts st)).
Proof.
  unfold getComplementarity, computeComp.
  destruct (compProductSum_spec st) as [HP HS].
  destruct (compProductSum st) as [product sum]. simpl in HP, HS.
  destruct (Qeq_bool sum 0) eqn:E; simpl.
  - apply Qeq_bool_iff in E. rewrite HS in E.
    apply inject_nat_zero in E. rewrite E. reflexivity.
  - destruct (averagedProducts st =? 0)%nat eqn:N.
    + apply Nat.eqb_eq in N. rewrite N in HS.
      assert (Qeq_bool sum 0 = true) by (apply Qeq_bool_iff; exact HS).
      congruence.
    + rewrite HP, HS. reflexivity.
Qed.

(** C7 as stated fails when there are sparse inequality constraints: on
    the small problem (two live bounds, one dense and one sparse
    inequality) the source averages over 4 products and returns 3, the
    stated formula divides the same sum by 5. *)
Lemma getComplementarity_sparse_counterexample :
  let st := Examples.smallSolver in
  sparseInequalityCount st = 1%nat /\
  getComplementarity st == 3 /\
  complementarityAsSpecified st == 12 / 5 /\
  ~ (getComplementarity st == complementarityAsSpecified st).
Proof.
  split; [reflexivity|]. split; [reflexivity|]. split; [reflexivity|].
  intros H. vm_compute in H. discriminate H.
Qed.

(** ** Checkpoint files *)

Lemma tabulate_ext {A} (n : nat) (f h : nat -> A) :
  (forall i, (i < n)%nat -> f i = h i) -> tabulate n f = tabulate n h.
Proof.
  intros H. unfold tabulate. apply map_ext_in. intros i Hi.
  apply in_seq in Hi. apply H. lia.
Qed.

Lemma tabulate_nth_self {A} (l : list A) (dflt : A) :
  tabulate (length l) (fun i => nth i l dflt) = l.
Proof.
  apply (nth_ext _ _ dflt dflt).
  - apply tabulate_length.
  - intros i Hi. rewrite tabulate_length in Hi.
    now rewrite tabulate_nth.
Qed.

Lemma file_write_inside (off : nat) (data : list Cell) (f : File) (i : nat) :
  (i < length data)%nat ->
  file_write off data f (off + i)%nat = nth i data (f (off + i)%nat).
Proof.
  intros Hi. unfold file_write.
  replace (off <=? off + i)%nat with true by (symmetry; apply Nat.leb_le; lia).
  replace (off + i <? off + length data)%nat with true
    by (symmetry; apply Nat.ltb_lt; lia).
  simpl. f_equal. lia.
Qed.

Lemma file_write_outside (off : nat) (data : list Cell) (f : File) (i : nat) :
  (i < off \/ off + length data <= i)%nat -> file_write off data f i = f i.
Proof.
  intros Hi. unfold file_write.
  destruct (off <=? i)%nat eqn:E1; [|reflexivity].
  destruct (i <? off + length data)%nat eqn:E2; [|reflexivity].
  apply Nat.leb_le in E1. apply Nat.ltb_lt in E2. lia.
Qed.

(** Reading back what was just written. *)
Lemma read_scalars_written (off : nat) (data : list Q) (f : File) :
  file_read_scalars off (length data) (file_write_scalars off data f) = data.
Proof.
  unfold file_read_scalars, file_write_scalars.
  transitivity (tabulate (length data) (fun i => nth i data 0));
    [|apply tabulate_nth_self].
  apply tabulate_ext. intros i Hi.
  rewrite file_write_inside by now rewrite length_map.
  rewrite (nth_indep _ _ (ScalarCell 0)) by now rewrite length_map.
  rewrite map_nth. reflexivity.
Qed.

Lemma read_ints_written (off : nat) (data : list Z) (f : File) :
  file_read_ints off (length data) (file_write_ints off data f) = data.
Proof.
  unfold file_read_ints, file_write_ints.
  transitivity (tabulate (length data) (fun i => nth i data 0%Z));
    [|apply tabulate_nth_self].
  apply tabulate_ext. intros i Hi.
  rewrite file_write_inside by now rewrite length_map.
  rewrite (nth_indep _ _ (IntCell 0)) by now rewrite length_map.
  rewrite map_nth. reflexivity.
Qed.

(** A write elsewhere does not change what is read. *)
Lemma read_scalars_other (off n off' : nat) (data : list Cell) (f : File) :
  (off + n <= off' \/ off' + length data <= off)%nat ->
  file_read_scalars off n (file_write off' data f) = file_read_scalars off n f.
Proof.
  intros H. unfold file_read_scalars. apply tabulate_ext. intros i Hi.
  rewrite file_write_outside by lia. reflexivity.
Qed.

Lemma read_ints_other (off n off' : nat) (data : list Cell) (f : File) :
  (off + n <= off' \/ off' + length data <= off)%nat ->
  file_read_ints off n (file_write off' data f) = file_read_ints off n f.
Proof.
  intros H. unfold file_read_ints. apply tabulate_ext. intros i Hi.
  rewrite file_write_outside by lia. reflexivity.
Qed.

Lemma file_read_into_all (off : nat) (f : File) (dst : list Q) :
  file_read_into off (length dst) f dst = file_read_scalars off (length dst) f.
Proof.
  unfold file_read_into. rewrite skipn_all. apply app_nil_r.
Qed.

Lemma open_read_store (fs : FileSystem) (name : string) (f : File) :
  open_read (store fs name f) name = Some f.
Proof.
  unfold open_read, store. simpl. now rewrite String.eqb_refl.
Qed.

Section Checkpoint.

Context {QNI : ParOptCompactQuasiNewton}.

Variables (st : Solver) (fp : File).

Hypothesis sized : wellSized st.

Let d := dims st.
Let v := vars st.

(** Reach the write of the region being read: the writes after it are to
    other cells. *)
Ltac through_writes :=
  unfold file_write_scalars, file_write_ints;
  repeat (rewrite read_scalars_other
            by (rewrite ?length_map; simpl length; lia));
  repeat (rewrite read_ints_other
            by (rewrite ?length_map; simpl length; lia)).

Lemma writeSolution_read_back :
  file_read_ints 0 3 (writeSolution st fp) =
    [Z.of_nat (nvars d); Z.of_nat (nwcon d); Z.of_nat (ncon d)] /\
  file_read_scalars 3 1 (writeSolution st fp) = [barrier_param st] /\
  file_read_scalars 4 (ncon d) (writeSolution st fp) = z v /\
  file_read_scalars (4 + ncon d) (ncon d) (writeSolution st fp) = s v /\
  file_read_scalars (3 + (2 * ncon d + 1)) (nvars d) (writeSolution st fp) = x v /\
  file_read_scalars (3 + (2 * ncon d + 1) + nvars d) (nvars d)
    (writeSolution st fp) = zl v /\
  file_read_scalars (3 + (2 * ncon d + 1) + nvars d + nvars d) (nvars d)
    (writeSolution st fp) = zu v /\
  ((0 < nwcon d)%nat ->
   file_read_scalars (3 + (2 * ncon d + 1) + nvars d + nvars d + nvars d)
     (nwcon d) (writeSolution st fp) = zw v /\
   file_read_scalars
     (3 + (2 * ncon d + 1) + nvars d + nvars d + nvars d + nwcon d)
     (nwcon d) (writeSolution st fp) = sw v).
Proof.
  destruct sized as [Lx [Lzl [Lzu [Lz [Ls [Lzw Lsw]]]]]].
  fold d v in Lx, Lzl, Lzu, Lz, Ls, Lzw, Lsw.
  unfold writeSolution. fold d v.
  rewrite Lx, Lzw.
  rewrite !firstn_all2 by lia.
  assert (R : forall off n data f, length data = n ->
                file_read_scalars off n
                  (file_write off (map ScalarCell data) f) = data)
    by (intros off n data f <-; apply read_scalars_written).
  assert (RI : forall f, file_read_ints 0 3
                (file_write 0 (map IntCell
                   [Z.of_nat (nvars d); Z.of_nat (nwcon d); Z.of_nat (ncon d)]) f)
                = [Z.of_nat (nvars d); Z.of_nat (nwcon d); Z.of_nat (ncon d)])
    by (intros; apply (read_ints_written 0 [_; _; _])).
  destruct (0 <? nwcon d)%nat eqn:W.
  - split; [through_writes; apply RI|].
    split; [through_writes; apply R; reflexivity|].
    split; [through_writes; apply R; assumption|].
    split; [through_writes; apply R; assumption|].
    split; [through_writes; apply R; assumption|].
    split; [through_writes; apply R; assumption|].
    split; [through_writes; apply R; assumption|].
    intros _.
    split; [through_writes; apply R; assumption|].
    through_writes; apply R; assumption.
  - apply Nat.ltb_ge in W.
    split; [through_writes; apply RI|].
    split; [through_writes; apply R; reflexivity|].
    split; [through_writes; apply R; assumption|].
    split; [through_writes; apply R; assumption|].
    split; [through_writes; apply R; assumption|].
    split; [through_writes; apply R; assumption|].
    split; [through_writes; apply R; assumption|].
    intros H. lia.
Qed.

End Checkpoint.

Section CheckpointRoundTrip.

Context {QNI : ParOptCompactQuasiNewton}.

Lemma file_read_into_sized (off n : nat) (f : File) (dst : list Q) :
  length dst = n -> file_read_into off n f dst = file_read_scalars off n f.
Proof. intros <-. apply file_read_into_all. Qed.

(** What [readSolution] restores from a file written by a solver of the
    same sizes. *)
Lemma readSolution_writeSolution (st st2 : Solver) (fp : File) :
  wellSized st -> wellSized st2 -> dims st2 = dims st ->
  let r := readSolution st2 (writeSolution st fp) in
  barrier_param r = barrier_param st /\
  x (vars r) = x (vars st) /\ zl (vars r) = zl (vars st) /\
  zu (vars r) = zu (vars st) /\ z (vars r) = z (vars st) /\
  s (vars r) = s (vars st) /\ zw (vars r) = zw (vars st) /\
  sw (vars r) = sw (vars st) /\
  t (vars r) = t (vars st2) /\ zt (vars r) = zt (vars st2).
Proof.
  intros Hs Hs2 Hd.
  destruct (writeSolution_read_back st fp Hs)
    as [_ [Rmu [Rz [Rs [Rx [Rzl [Rzu Rw]]]]]]].
  destruct Hs as [Lx [Lzl [Lzu [Lz [Ls [Lzw Lsw]]]]]].
  destruct Hs2 as [Lx2 [Lzl2 [Lzu2 [Lz2 [Ls2 [Lzw2 Lsw2]]]]]].
  rewrite Hd in Lx2, Lzl2, Lzu2, Lz2, Ls2, Lzw2, Lsw2.
  unfold readSolution. rewrite Hd. cbn zeta.
  cbn [x zl zu z s zw sw t zt with_x with_zl with_zu with_z with_s with_zw with_sw].
  rewrite Lx2.
  rewrite (file_read_into_sized _ _ _ (z (vars st2)) Lz2).
  rewrite (file_read_into_sized _ _ _ (s (vars st2)) Ls2).
  rewrite (file_read_into_sized _ _ _ (x (vars st2)) Lx2).
  rewrite (file_read_into_sized _ _ _ (zl (vars st2)) Lzl2).
  rewrite (file_read_into_sized _ _ _ (zu (vars st2)) Lzu2).
  rewrite Rmu, Rz, Rs, Rx, Rzl, Rzu.
  destruct (0 <? nwcon (dims st))%nat eqn:W.
  - apply Nat.ltb_lt in W. destruct (Rw W) as [Rzw Rsw].
    cbn [x zl zu z s zw sw t zt with_x with_zl with_zu with_z with_s with_zw with_sw].
    rewrite Lzw2.
    rewrite (file_read_into_sized _ _ _ (zw (vars st2)) Lzw2).
    rewrite (file_read_into_sized _ _ _ (sw (vars st2)) Lsw2).
    rewrite Rzw, Rsw. simpl. repeat split; reflexivity.
  - apply Nat.ltb_ge in W.
    assert (N : nwcon (dims st) = 0%nat) by lia.
    rewrite N in Lzw, Lsw, Lzw2, Lsw2.
    apply length_zero_iff_nil in Lzw, Lsw, Lzw2, Lsw2.
    simpl. rewrite Lzw, Lsw, Lzw2, Lsw2. repeat split; reflexivity.
Qed.

(** C8 (amended).  Writing a solver with [writeSolutionFile] and reading
    the file with [readSolutionFile] into a solver of the same sizes
    succeeds and restores the barrier parameter and the variables the file
    holds, [x], [z_l], [z_u], [z], [s], [z_w] and [s_w], exactly; the
    t-slacks and the multipliers [z_t] are not in the file and keep the
    values the reading solver had. *)
Theorem checkpoint_round_trip_restores_stored_variables
    (filename : string) (st st2 : Solver) (fs : FileSystem) :
  wellSized st -> wellSized st2 -> dims st2 = dims st ->
  writable fs filename = true ->
  let w := writeSolutionFile filename st fs in
  let r := readSolutionFile filename st2 (snd w) in
  fst w = 0%Z /\ fst r = 0%Z /\
  barrier_param (snd r) = barrier_param st /\
  x (vars (snd r)) = x (vars st) /\ zl (vars (snd r)) = zl (vars st) /\
  zu (vars (snd r)) = zu (vars st) /\ z (vars (snd r)) = z (vars st) /\
  s (vars (snd r)) = s (vars st) /\ zw (vars (snd r)) = zw (vars st) /\
  sw (vars (snd r)) = sw (vars st) /\
  t (vars (snd r)) = t (vars st2) /\ zt (vars (snd r)) = zt (vars st2).
Proof.
  intros Hs Hs2 Hd Hw.
  unfold writeSolutionFile, open_write. rewrite Hw.
  set (f0 := match contents fs filename with
             | Some f => f | None => empty_file end).
  replace (match contents fs filename with
           | Some f => Some f | None => Some empty_file end)
    with (Some f0) by (unfold f0; destruct (contents fs filename); reflexivity).
  cbn [fst snd]. unfold readSolutionFile. rewrite open_read_store.
  assert (SF : sizeFail st2 (writeSolution st f0) = false).
  { unfold sizeFail. rewrite Hd.
    destruct (writeSolution_read_back st f0 Hs) as [RI _]. rewrite RI.
    cbn [nth]. rewrite !Z.eqb_refl. reflexivity. }
  rewrite SF. cbn [fst snd].
  split; [reflexivity|]. split; [reflexivity|].
  apply readSolution_writeSolution; assumption.
Qed.

End CheckpointRoundTrip.

(** The round trip between the two solvers of the small problem. *)
Lemma checkpoint_round_trip_restores_stored_variables_witness :
  let st := Examples.smallSolver in
  let st2 := Examples.otherSolver in
  let w := writeSolutionFile "restart.bin" st Examples.noFiles in
  let r := readSolutionFile "restart.bin" st2 (snd w) in
  wellSized st /\ wellSized st2 /\ dims st2 = dims st /\
  writable Examples.noFiles "restart.bin" = true /\
  x (vars (snd r)) = x (vars st) /\ z (vars (snd r)) = z (vars st) /\
  t (vars (snd r)) = t (vars st2).
Proof.
  intros st st2 w r.
  assert (S1 : wellSized st) by (repeat split; reflexivity).
  assert (S2 : wellSized st2) by (repeat split; reflexivity).
  assert (D : dims st2 = dims st) by reflexivity.
  assert (W : writable Examples.noFiles "restart.bin" = true) by reflexivity.
  destruct (checkpoint_round_trip_restores_stored_variables
              "restart.bin" st st2 Examples.noFiles S1 S2 D W)
    as [_ [_ [_ [Hx [_ [_ [Hz [_ [_ [_ [Ht _]]]]]]]]]]].
  split; [exact S1|]. split; [exact S2|]. split; [exact D|].
  split; [exact W|]. split; [exact Hx|]. split; [exact Hz|]. exact Ht.
Defined.

(** C8 as stated fails for the t-slacks and their multipliers: the
    solver that reads keeps its own [t = 8] and [zt = 6] where the written
    state had [t = 1] and [zt = 1]. *)
Lemma checkpoint_t_slack_counterexample :
  let st := Examples.smallSolver in
  let st2 := Examples.otherSolver in
  let w := writeSolutionFile "restart.bin" st Examples.noFiles in
  let r := readSolutionFile "restart.bin" st2 (snd w) in
  fst w = 0%Z /\ fst r = 0%Z /\
  t (vars st) = [1] /\ t (vars (snd r)) = [8] /\
  zt (vars st) = [1] /\ zt (vars (snd r)) = [6] /\
  t (vars (snd r)) <> t (vars st).
Proof.
  repeat split; try reflexivity.
  vm_compute. discriminate.
Qed.

(** C9.  [readSolutionFile] is strict and atomic on a size mismatch: when
    one of the three sizes recorded in the file (total variables, total
    sparse constraints, [ncon]) differs from the solver's, the call
    returns the failure code 1 and the solver is unchanged. *)
Theorem readSolutionFile_size_mismatch_leaves_solver_unchanged
    {QNI : ParOptCompactQuasiNewton}
    (filename : string) (st : Solver) (fs : FileSystem) (fp : File) :
  open_read fs filename = Some fp ->
  (cell_int (fp 0%nat) <> Z.of_nat (nvars (dims st)) \/
   cell_int (fp 1%nat) <> Z.of_nat (nwcon (dims st)) \/
   cell_int (fp 2%nat) <> Z.of_nat (ncon (dims st))) ->
  readSolutionFile filename st fs = (1%Z, st) /\
  fst (readSolutionFile filename st fs) <> 0%Z.
Proof.
  intros Ho Hm. unfold readSolutionFile. rewrite Ho.
  assert (SF : sizeFail st fp = true).
  { unfold sizeFail, file_read_ints, tabulate. cbn [seq map nth Nat.add].
    destruct Hm as [H|[H|H]]; apply Z.eqb_neq in H; rewrite H; cbn [negb orb];
      try reflexivity; rewrite ?orb_true_r; reflexivity. }
  rewrite SF. split; [reflexivity|]. cbn [fst]. discriminate.
Qed.

(** The checkpoint of the small problem (one variable) read by a solver
    with two variables. *)
Lemma readSolutionFile_size_mismatch_leaves_solver_unchanged_witness :
  let fs := snd (writeSolutionFile "restart.bin" Examples.smallSolver
                   Examples.noFiles) in
  let fp := writeSolution Examples.smallSolver empty_file in
  let st := Examples.widerSolver in
  open_read fs "restart.bin" = Some fp /\
  cell_int (fp 0%nat) <> Z.of_nat (nvars (dims st)) /\
  readSolutionFile "restart.bin" st fs = (1%Z, st).
Proof.
  intros fs fp st.
  assert (O : open_read fs "restart.bin" = Some fp) by reflexivity.
  assert (M : cell_int (fp 0%nat) <> Z.of_nat (nvars (dims st)))
    by (vm_compute; discriminate).
  split; [exact O|]. split; [exact M|].
  apply (readSolutionFile_size_mismatch_leaves_solver_unchanged
           "restart.bin" st fs fp O (or_introl M)).
Defined.

(** ** Line-search flags *)

Lemma has_flag_testbit (fail n : Z) :
  (0 <= n)%Z -> has_flag fail (Z.shiftl 1 n) = Z.testbit fail n.
Proof.
  intros Hn. unfold has_flag. rewrite Z.shiftl_1_l.
  destruct (Z.testbit fail n) eqn:E.
  - apply negb_true_iff. apply Z.eqb_neq. intros H.
    assert (T : Z.testbit (Z.land fail (2 ^ n)) n = true).
    { rewrite Z.land_spec, E, Z.pow2_bits_true by assumption. reflexivity. }
    rewrite H, Z.bits_0 in T. discriminate.
  - apply negb_false_iff. apply Z.eqb_eq. apply Z.bits_inj'. intros m Hm.
    rewrite Z.land_spec, Z.bits_0, Z.pow2_bits_eqb by assumption.
    destruct (Z.eqb_spec n m) as [->|Hne].
    + rewrite E. reflexivity.
    + apply andb_false_r.
Qed.

Lemma has_no_improvement (fail : Z) :
  has_flag fail PAROPT_LINE_SEARCH_NO_IMPROVEMENT =
  Z.testbit fail BIT_NO_IMPROVEMENT.
Proof. apply has_flag_testbit. unfold BIT_NO_IMPROVEMENT. lia. Qed.

Section NoChangeGuard.

Context {LA : Numerics}.

Hypothesis laws : roundingLaws.

(** For doubles [a] and [b] and a positive precision, the two-sided test
    holds exactly when the two are equal and the precision is absorbed in
    the rounded sum. *)
Lemma no_change_guard_spec (prec a b : Q) :
  0 < prec -> representable a -> representable b ->
  (no_change_guard prec a b = true <-> a == b /\ rnd (a + prec) == a).
Proof.
  intros Hp Ra Rb. unfold no_change_guard.
  rewrite andb_true_iff, !Qle_bool_iff.
  assert (Pp : 0 <= prec) by lra.
  pose proof (rnd_add_above laws a prec Ra Pp) as Ha.
  pose proof (rnd_add_above laws b prec Rb Pp) as Hb.
  split.
  - intros [E1 E2]. split; lra.
  - intros [E A].
    assert (B : rnd (b + prec) == rnd (a + prec)).
    { apply (rnd_proper laws). rewrite E. reflexivity. }
    split; lra.
Qed.

End NoChangeGuard.

Section LineSearchFlags.

Context {prob : ParOptProblem} {QNI : ParOptCompactQuasiNewton} {LA : Numerics}.
Context {K : Kernels}.

Lemma opts_call_evalObjCon xk st : opts (snd (call_evalObjCon xk st)) = opts st.
Proof.
  unfold call_evalObjCon. destruct (evalObjCon xk) as [[? ?] ?]. reflexivity.
Qed.

Lemma opts_call_evalObjConGradient xk st :
  opts (snd (call_evalObjConGradient xk st)) = opts st.
Proof.
  unfold call_evalObjConGradient.
  destruct (evalObjConGradient xk) as [[? ?] ?]. reflexivity.
Qed.

Lemma opts_trialPoint alpha st : opts (trialPoint alpha st) = opts st.
Proof. reflexivity. Qed.

(** The loop of the line search never sets NO_IMPROVEMENT, and keeps the
    options. *)
Lemma lineSearchLoop_flags (n : nat) (alpha_min m0 dm0 : Q) (l : LineState) :
  Z.testbit (ls_fail l) BIT_NO_IMPROVEMENT = false ->
  let r := snd (lineSearchLoop n alpha_min m0 dm0 l) in
  Z.testbit (ls_fail r) BIT_NO_IMPROVEMENT = false /\
  opts (ls_solver r) = opts (ls_solver l).
Proof.
  revert l. induction n as [|n IH]; intros l Hl; cbn [lineSearchLoop].
  - split; [exact Hl|reflexivity].
  - pose proof (opts_call_evalObjCon
                  (rx (resid (trialPoint (ls_alpha l) (ls_solver l))))
                  (trialPoint (ls_alpha l) (ls_solver l))) as Ho.
    destruct (call_evalObjCon _ _) as [fail_obj st1]. cbn [snd] in Ho.
    rewrite opts_trialPoint in Ho.
    destruct (negb (fail_obj =? 0)%Z).
    + specialize (IH (mkLineState (ls_alpha l * 0.1) (ls_fail l)
                        (ls_best_merit l) (ls_best_alpha l) (ls_merit l) st1) Hl).
      cbn [ls_solver] in IH. rewrite Ho in IH. exact IH.
    + set (merit := evalMeritFunc _ _ _ _ _ _ _).
      set (best := if Qltb (ls_best_alpha l) 0 || Qltb merit (ls_best_merit l)
                   then _ else _).
      destruct best as [best_alpha best_merit].
      destruct (Qltb (merit - _) _).
      { destruct (has_flag (ls_fail l) PAROPT_LINE_SEARCH_MIN_STEP);
          cbn [snd ls_fail ls_solver]; split; try reflexivity; exact Ho. }
      destruct (has_flag (ls_fail l) PAROPT_LINE_SEARCH_MIN_STEP).
      { cbn [snd ls_fail ls_solver]. split; [exact Hl|exact Ho]. }
      set (next := match n with O => _ | S _ => _ end).
      assert (Hp : Z.testbit (snd next) BIT_NO_IMPROVEMENT = false).
      { unfold next. destruct n; [exact Hl|].
        destruct (use_backtracking_alpha (opts st1)).
        - destruct (Qle_bool _ _); cbn [snd]; [|exact Hl].
          rewrite Z.lor_spec, Hl. reflexivity.
        - destruct (Qle_bool _ _); cbn [snd].
          + rewrite Z.lor_spec, Hl. reflexivity.
          + destruct (Qltb _ _); exact Hl. }
      destruct next as [al fl]. cbn [snd] in Hp.
      specialize (IH (mkLineState al fl best_merit best_alpha merit st1) Hp).
      cbn [ls_solver] in IH. rewrite Ho in IH. exact IH.
Qed.

(** The best merit value never exceeds the last one, and the last one is
    a double when the merit function returns doubles. *)
Lemma lineSearchLoop_merits (n : nat) (alpha_min m0 dm0 : Q) (l : LineState) :
  (forall st fk ck xk sk tk swk,
     representable (meritFunc st fk ck xk sk tk swk)) ->
  ls_best_merit l <= ls_merit l -> representable (ls_merit l) ->
  let r := snd (lineSearchLoop n alpha_min m0 dm0 l) in
  ls_best_merit r <= ls_merit r /\ representable (ls_merit r).
Proof.
  intros Hm. revert l. induction n as [|n IH]; intros l Hb Hr;
    cbn [lineSearchLoop].
  - split; assumption.
  - destruct (call_evalObjCon _ _) as [fail_obj st1].
    destruct (negb (fail_obj =? 0)%Z).
    + apply IH; assumption.
    + set (merit := evalMeritFunc _ _ _ _ _ _ _).
      assert (Rm : representable merit) by apply Hm.
      set (best := if Qltb (ls_best_alpha l) 0 || Qltb merit (ls_best_merit l)
                   then _ else _).
      assert (Bm : snd best <= merit).
      { unfold best. destruct (Qltb (ls_best_alpha l) 0); cbn [orb snd].
        - apply Qle_refl.
        - destruct (Qltb merit (ls_best_merit l)) eqn:E; cbn [snd].
          + apply Qle_refl.
          + apply Qltb_false in E. exact E. }
      clearbody merit. destruct best as [best_alpha best_merit]. cbn [snd] in Bm.
      destruct (Qltb (merit - _) _).
      { destruct (has_flag (ls_fail l) PAROPT_LINE_SEARCH_MIN_STEP);
          cbn [snd ls_best_merit ls_merit]; split; assumption. }
      destruct (has_flag (ls_fail l) PAROPT_LINE_SEARCH_MIN_STEP).
      { cbn [snd ls_best_merit ls_merit]. split; assumption. }
      destruct (match n with O => _ | S _ => _ end) as [al fl].
      apply IH; assumption.
Qed.

(** [lineSearch] keeps the options. *)
Lemma lineSearch_opts (alpha_min alpha m0 dm0 : Q) (st : Solver) :
  opts (snd (lineSearch alpha_min alpha m0 dm0 st)) = opts st.
Proof.
  unfold lineSearch.
  pose proof (lineSearchLoop_flags (max_line_iters (opts st)) alpha_min m0 dm0
                (mkLineState alpha PAROPT_LINE_SEARCH_FAILURE 0 (-1) 0 st)
                eq_refl) as [_ Ho].
  destruct (lineSearchLoop _ _ _ _ _) as [broke l].
  cbn [snd ls_solver] in Ho.
  destruct (negb (has_flag _ PAROPT_LINE_SEARCH_SUCCESS)); [|exact Ho].
  destruct (negb (Qeq_bool (ls_alpha l) (ls_best_alpha l))); [|exact Ho].
  pose proof (opts_call_evalObjCon
                (rx (resid (trialPoint (ls_best_alpha l) (ls_solver l))))
                (trialPoint (ls_best_alpha l) (ls_solver l))) as Hc.
  destruct (call_evalObjCon _ _) as [fail_obj st1]. cbn [snd] in Hc.
  rewrite opts_trialPoint, Ho in Hc.
  destruct (negb (fail_obj =? 0)%Z); exact Hc.
Qed.

(** [lineSearch] never reports NO_IMPROVEMENT when the function precision
    is positive and the merit values are doubles: its two-sided test can
    hold only when the best merit value is at most
    [m0 + function_precision], and then the test before it has already
    declared success. *)
Lemma lineSearch_flags (alpha_min alpha m0 dm0 : Q) (st : Solver) :
  roundingLaws ->
  (forall st fk ck xk sk tk swk,
     representable (meritFunc st fk ck xk sk tk swk)) ->
  representable m0 -> 0 < function_precision (opts st) ->
  has_flag (fst (fst (lineSearch alpha_min alpha m0 dm0 st)))
    PAROPT_LINE_SEARCH_NO_IMPROVEMENT = false.
Proof.
  intros laws Hm R0 Hp. unfold lineSearch.
  pose proof (lineSearchLoop_flags (max_line_iters (opts st)) alpha_min m0 dm0
                (mkLineState alpha PAROPT_LINE_SEARCH_FAILURE 0 (-1) 0 st)
                eq_refl) as [Hf _].
  assert (Z0 : representable 0) by apply laws.
  pose proof (lineSearchLoop_merits (max_line_iters (opts st)) alpha_min m0 dm0
                (mkLineState alpha PAROPT_LINE_SEARCH_FAILURE 0 (-1) 0 st)
                Hm (Qle_refl 0) Z0) as [Hb Hr].
  destruct (lineSearchLoop _ _ _ _ _) as [broke l].
  cbn [snd] in Hf, Hb, Hr.
  set (fail1 := if broke then ls_fail l
                else Z.lor (ls_fail l) PAROPT_LINE_SEARCH_MAX_ITERS).
  assert (H1 : Z.testbit fail1 BIT_NO_IMPROVEMENT = false).
  { unfold fail1. destruct broke; [exact Hf|].
    rewrite Z.lor_spec, Hf. reflexivity. }
  clearbody fail1.
  set (fail2 := if Qle_bool (ls_best_merit l) _ then _ else _).
  assert (H2 : Z.testbit fail2 BIT_NO_IMPROVEMENT = false).
  { unfold fail2.
    destruct (Qle_bool (ls_best_merit l) _) eqn:E.
    - rewrite Z.land_spec, Z.lor_spec, H1. reflexivity.
    - apply Qle_bool_false in E.
      destruct (no_change_guard _ m0 (ls_merit l)) eqn:G; [|exact H1].
      apply (no_change_guard_spec laws _ _ _ Hp R0 Hr) in G.
      destruct G as [G1 G2]. exfalso. lra. }
  clearbody fail2.
  destruct (negb (has_flag fail1 PAROPT_LINE_SEARCH_SUCCESS)).
  - destruct (negb (Qeq_bool (ls_alpha l) (ls_best_alpha l))).
    + destruct (call_evalObjCon _ _) as [fail_obj st1].
      destruct (negb (fail_obj =? 0)%Z); cbn [fst]; [reflexivity|].
      rewrite has_no_improvement. exact H2.
    + cbn [fst]. rewrite has_no_improvement. exact H2.
  - cbn [fst]. rewrite has_no_improvement. exact H1.
Qed.

End LineSearchFlags.

(** ** The options are never written by the driver *)

Section OptionsFrame.

Context {prob : ParOptProblem} {QNI : ParOptCompactQuasiNewton} {LA : Numerics}.
Context {K : Kernels}.

Lemma opts_computeKKTRes mu st : opts (fst (computeKKTRes mu st)) = opts st.
Proof.
  unfold computeKKTRes. destruct (kktRes mu st) as [r [[? ?] ?]]. reflexivity.
Qed.

Lemma opts_setUpKKTSystem u st : opts (setUpKKTSystem u st) = opts st.
Proof. unfold setUpKKTSystem. destruct (kktSchur u st). reflexivity. Qed.

Lemma opts_computeKKTStep u st : opts (computeKKTStep u st) = opts st.
Proof. unfold computeKKTStep. destruct (kktStep u st). reflexivity. Qed.

Lemma opts_computeKKTGMRESStep r a u st :
  opts (snd (computeKKTGMRESStep r a u st)) = opts st.
Proof.
  unfold computeKKTGMRESStep. destruct (gmresStep r a u st) as [[? ?] ?].
  reflexivity.
Qed.

Lemma opts_evalMeritInitDeriv m st :
  opts (snd (evalMeritInitDeriv m st)) = opts st.
Proof.
  unfold evalMeritInitDeriv. destruct (meritInitDeriv m st) as [[[? ?] ?] ?].
  reflexivity.
Qed.

Lemma opts_checkKKTStep k b st : opts (checkKKTStep k b st) = opts st.
Proof. reflexivity. Qed.

Lemma opts_checkMeritFuncGradient dh st :
  opts (checkMeritFuncGradient dh st) = opts st.
Proof.
  unfold checkMeritFuncGradient.
  pose proof (opts_call_evalObjCon (x (vars st)) st) as H1.
  destruct (call_evalObjCon _ _) as [fail_obj st1]. cbn [snd] in H1.
  destruct (negb (fail_obj =? 0)%Z); [exact H1|].
  pose proof (opts_call_evalObjConGradient (x (vars st1)) st1) as H2.
  destruct (call_evalObjConGradient _ _) as [fail_gobj st2]. cbn [snd] in H2.
  destruct (negb (fail_gobj =? 0)%Z); [congruence|].
  pose proof (opts_evalMeritInitDeriv 1 st2) as H3.
  destruct (evalMeritInitDeriv 1 st2) as [[m0 dm0] st3]. cbn [snd] in H3.
  destruct (evalObjCon _) as [[? ?] rcv]. cbn. congruence.
Qed.

Lemma opts_factorCw st : opts (snd (factorCw st)) = opts st.
Proof.
  unfold factorCw.
  destruct (if (nwblock (dims st) =? 1)%nat then _ else _). reflexivity.
Qed.

Lemma opts_assembleEw st : opts (assembleEw st) = opts st.
Proof. unfold assembleEw. destruct (ncon (dims st)); reflexivity. Qed.

Lemma opts_setUpKKTDiagSystem u st : opts (setUpKKTDiagSystem u st) = opts st.
Proof.
  unfold setUpKKTDiagSystem.
  set (st1 := if (0 <? nwcon (dims st))%nat then _ else _).
  assert (H1 : opts st1 = opts st).
  { unfold st1. destruct (0 <? nwcon (dims st))%nat; [|reflexivity].
    pose proof (opts_factorCw (assembleCw (assembleCvec u st))) as Hf.
    destruct (factorCw _) as [code st2]. cbn [snd] in Hf.
    rewrite opts_assembleEw. exact Hf. }
  destruct (0 <? ncon (dims st))%nat.
  - destruct (LAPACKdgetrf _ _) as [[? ?] ?]. exact H1.
  - exact H1.
Qed.

Lemma opts_scaleKKTStep tau cmp ins st :
  opts (snd (scaleKKTStep tau cmp ins st)) = opts st.
Proof.
  unfold scaleKKTStep. destruct (computeMaxStep tau st) as [ax az].
  set (tr := if negb ins then _ else _). destruct tr as [[? ?] ?].
  destruct (0 <? nwcon (dims st))%nat, (dense_inequality (dims st));
    reflexivity.
Qed.

Lemma opts_computeStepAndUpdate alpha ev qu st :
  opts (snd (computeStepAndUpdate alpha ev qu st)) = opts st.
Proof.
  unfold computeStepAndUpdate, call_evalObjCon, call_evalObjConGradient.
  destruct ev; simpl.
  - destruct (evalObjCon _) as [[fo f] cv]; simpl.
    destruct (negb (fo =? 0)%Z); simpl; [reflexivity|].
    destruct (evalObjConGradient _) as [[fg gv] av]; simpl.
    destruct (qn st); simpl; [|reflexivity].
    destruct qu; simpl; [|reflexivity].
    destruct (use_quasi_newton_update (opts st)); simpl.
    + destruct (computeQuasiNewtonUpdateCorrection _ _); simpl.
      destruct (qn_update_sy _ _ _ _ _ _); reflexivity.
    + destruct (qn_update _ _ _ _); reflexivity.
  - destruct (evalObjConGradient _) as [[fg gv] av]; simpl.
    destruct (qn st); simpl; [|reflexivity].
    destruct qu; simpl; [|reflexivity].
    destruct (use_quasi_newton_update (opts st)); simpl.
    + destruct (computeQuasiNewtonUpdateCorrection _ _); simpl.
      destruct (qn_update_sy _ _ _ _ _ _); reflexivity.
    + destruct (qn_update _ _ _ _); reflexivity.
Qed.

Lemma opts_reset_qn st : opts (reset_qn st) = opts st.
Proof. unfold reset_qn. destruct (qn st); reflexivity. Qed.

Lemma opts_iterationHead k l :
  opts (solver (iterationHead k l)) = opts (solver l).
Proof.
  unfold iterationHead.
  set (fc := if (0 <? write_output_frequency _)%Z && _ then _ else _).
  destruct fc as [f cp]. cbn [solver].
  destruct (qn (solver l)); [|reflexivity].
  destruct (negb _ && _); [apply opts_reset_qn|reflexivity].
Qed.

Lemma opts_barrierStage k l :
  opts (bs_solver (barrierStage k l)) = opts (solver l).
Proof.
  unfold barrierStage.
  destruct (barrier_strategy (opts (solver l))).
  - pose proof (opts_computeKKTRes (barrier_param (solver l)) (solver l)) as H1.
    destruct (computeKKTRes (barrier_param (solver l)) (solver l))
      as [st1 [[[? ?] ?] rn]]. cbn [fst] in H1.
    destruct (barrierConverged _ _ _ _ _); [|exact H1].
    pose proof (opts_computeKKTRes
                  (monotoneBarrier (opts (solver l)) (barrier_param st1)) st1) as H2.
    destruct (computeKKTRes _ st1) as [st2 [[[? ?] ?] ?]]. cbn [fst] in H2.
    cbn [bs_solver]. cbn. congruence.
  - pose proof (opts_computeKKTRes (barrier_param (solver l)) (solver l)) as H1.
    destruct (computeKKTRes _ _) as [st1 [[[? ?] ?] rn]]. exact H1.
  - match goal with
    | |- context [computeKKTRes ?mu ?s0] =>
        pose proof (opts_computeKKTRes mu s0) as H1;
        destruct (computeKKTRes mu s0) as [st1 [[[? ?] ?] rn]]
    end.
    exact H1.
Qed.

Lemma opts_newtonKrylovStep l b :
  opts (snd (newtonKrylovStep l b)) = opts (bs_solver b).
Proof.
  unfold newtonKrylovStep.
  destruct (use_hvec_product _); [|reflexivity].
  destruct (_ && _); [|reflexivity].
  match goal with
  | |- context [computeKKTGMRESStep ?r ?a ?u ?s0] =>
      pose proof (opts_computeKKTGMRESStep r a u s0) as H1;
      destruct (computeKKTGMRESStep r a u s0) as [iters st1]
  end.
  cbn [snd] in H1.
  rewrite opts_setUpKKTSystem, opts_setUpKKTDiagSystem in H1.
  destruct (iters <? 0)%Z; cbn [snd]; [|exact H1].
  rewrite opts_computeKKTRes. exact H1.
Qed.

Lemma opts_quasiNewtonStep l b st n :
  match quasiNewtonStep l b st n with
  | inl _ => True
  | inr (st', _, _) => opts st' = opts st
  end.
Proof.
  unfold quasiNewtonStep.
  set (hd := if negb _ && use_diag_hessian (opts st) then _ else _).
  assert (Hh : opts (snd hd) = opts st).
  { unfold hd. destruct (negb _ && _); [|reflexivity].
    destruct (evalHessianDiag _ _ _). reflexivity. }
  destruct (negb (fst hd =? 0)%Z); [exact I|].
  set (st1 := match barrier_strategy (opts st) with
              | PAROPT_MEHROTRA => fst (computeKKTRes 0 (snd hd))
              | _ => snd hd end).
  assert (H1 : opts st1 = opts st).
  { unfold st1. destruct (barrier_strategy (opts st));
      rewrite ?opts_computeKKTRes; exact Hh. }
  set (u := negb _ && negb (use_diag_hessian (opts st))).
  set (st2 := computeKKTStep u (setUpKKTSystem u (setUpKKTDiagSystem u st1))).
  assert (H2 : opts st2 = opts st).
  { unfold st2.
    rewrite opts_computeKKTStep, opts_setUpKKTSystem, opts_setUpKKTDiagSystem.
    exact H1. }
  destruct (barrier_strategy (opts st)); try exact H2.
  destruct (computeMaxStep 1 st2) as [mx mz].
  rewrite opts_computeKKTStep, opts_computeKKTRes. exact H2.
Qed.

End OptionsFrame.

(** ** Return code of [optimize] *)

(** C1 (defect of the source).  When the initial objective evaluation
    fails, [optimize] returns its nonzero code; when it succeeds and the
    initial gradient evaluation ([evalObjConGradient]) fails, [optimize]
    returns [fail_obj], which is 0 at that point, and not the code of the
    gradient evaluation. *)
Theorem optimize_initial_evaluation_codes
    {prob : ParOptProblem} {QNI : ParOptCompactQuasiNewton} {LA : Numerics}
    {K : Kernels} (checkpoint : option string) (st : Solver) (fs : FileSystem) :
  let x0 := x (vars (optimizeStart st)) in
  (fst (fst (evalObjCon x0)) <> 0%Z ->
   fst (fst (optimize checkpoint st fs)) = fst (fst (evalObjCon x0))) /\
  (fst (fst (evalObjCon x0)) = 0%Z ->
   fst (fst (evalObjConGradient x0)) <> 0%Z ->
   fst (fst (optimize checkpoint st fs)) = 0%Z).
Proof.
  intros x0. unfold optimize, call_evalObjCon, call_evalObjConGradient.
  fold x0.
  destruct (evalObjCon x0) as [[fail_obj f] cv]. cbn [fst snd].
  split.
  - intros Hf. apply Z.eqb_neq in Hf. rewrite Hf. reflexivity.
  - intros Hf Hg. subst fail_obj. cbn [Z.eqb negb vars set_evals].
    fold x0.
    destruct (evalObjConGradient x0) as [[fail_gobj gv] av]. cbn [fst] in Hg.
    apply Z.eqb_neq in Hg. rewrite Hg. reflexivity.
Qed.

(** The two failing problems: the objective failure is returned as 7, the
    gradient failure (code 1) is returned as 0. *)
Lemma optimize_initial_evaluation_codes_witness :
  let st := Examples.smallSolver in
  fst (fst (evalObjCon (ParOptProblem := Examples.failingObjectiveProblem)
              (x (vars (optimizeStart
                          (prob := Examples.failingObjectiveProblem) st)))))
    <> 0%Z /\
  fst (fst (optimize (prob := Examples.failingObjectiveProblem)
              (LA := Examples.lapackWithInfo 0)
              (K := Examples.descentKernels) None st Examples.noFiles)) = 7%Z /\
  fst (fst (evalObjConGradient (ParOptProblem := Examples.failingGradientProblem)
              (x (vars (optimizeStart
                          (prob := Examples.failingGradientProblem) st)))))
    = 1%Z /\
  fst (fst (optimize (prob := Examples.failingGradientProblem)
              (LA := Examples.lapackWithInfo 0)
              (K := Examples.descentKernels) None st Examples.noFiles)) = 0%Z.
Proof.
  intros st.
  assert (O : fst (fst (evalObjCon
                (ParOptProblem := Examples.failingObjectiveProblem)
                (x (vars (optimizeStart
                            (prob := Examples.failingObjectiveProblem) st)))))
              <> 0%Z) by (vm_compute; discriminate).
  split; [exact O|]. split.
  - rewrite (proj1 (optimize_initial_evaluation_codes
                      (prob := Examples.failingObjectiveProblem)
                      (LA := Examples.lapackWithInfo 0)
                      (K := Examples.descentKernels)
                      None st Examples.noFiles) O).
    reflexivity.
  - split; [reflexivity|].
    apply (proj2 (optimize_initial_evaluation_codes
                    (prob := Examples.failingGradientProblem)
                    (LA := Examples.lapackWithInfo 0)
                    (K := Examples.descentKernels)
                    None st Examples.noFiles)).
    + reflexivity.
    + vm_compute. discriminate.
Defined.

(** ** Convergence tests of the major iteration *)

Section ConvergenceTests.

Context {prob : ParOptProblem} {QNI : ParOptCompactQuasiNewton} {LA : Numerics}.
Context {K : Kernels}.

Lemma iterationHead_locals k l :
  let l0 := iterationHead k l in
  evals (solver l0) = evals (solver l) /\
  barrier_param (solver l0) = barrier_param (solver l) /\
  fobj_prev l0 = fobj_prev l /\ alpha_xprev l0 = alpha_xprev l /\
  alpha_zprev l0 = alpha_zprev l /\
  no_merit_function_improvement l0 = no_merit_function_improvement l /\
  line_search_test l0 = line_search_test l /\
  res_norm_prev l0 = res_norm_prev l.
Proof.
  unfold iterationHead.
  set (fc := if (0 <? write_output_frequency _)%Z && _ then _ else _).
  destruct fc as [f cp]. cbn.
  assert (H : forall st, evals (reset_qn st) = evals st /\
                         barrier_param (reset_qn st) = barrier_param st).
  { intros st. unfold reset_qn. destruct (qn st); split; reflexivity. }
  destruct (qn (solver l)); [|repeat split; reflexivity].
  destruct (negb _ && _); repeat split; try reflexivity; apply H.
Qed.

Lemma stepStage_not_converged k l b st fs :
  stepStage k l b <> Converged st fs.
Proof.
  unfold stepStage.
  destruct (newtonKrylovStep l b) as [[[gm ins] sn] st1].
  destruct (if negb ins then _ else _) as [[code st2]|[[st2 sn2] sl2]];
    discriminate.
Qed.

(** The pass ends in [Converged] exactly when the test [converged] holds,
    and then hands back the solver of the barrier stage. *)
Lemma majorIteration_converged k l :
  let b := barrierStage k (iterationHead k l) in
  (forall st fs, majorIteration k l = Converged st fs ->
     converged k b = true /\ st = bs_solver b) /\
  (converged k b = true ->
   majorIteration k l = Converged (bs_solver b) (fsys (iterationHead k l))).
Proof.
  intros b. unfold majorIteration. fold b.
  destruct (converged k b) eqn:E; split.
  - intros st fs H. inversion H. split; reflexivity.
  - reflexivity.
  - intros st fs H. exfalso. exact (stepStage_not_converged _ _ _ _ _ H).
  - discriminate.
Qed.

Lemma relFunctionTest_spec l :
  relFunctionTest l = true <->
  alpha_xprev l == 1 /\ alpha_zprev l == 1 /\
  Qabs (fobj (evals (solver l)) - fobj_prev l) <
    rel_func_tol (opts (solver l)) * Qabs (fobj_prev l).
Proof.
  unfold relFunctionTest.
  rewrite !andb_true_iff, !Qeq_bool_iff, Qltb_true. tauto.
Qed.

Lemma barrierStage_tests k l :
  let b := barrierStage k l in
  rel_function_test b = relFunctionTest l /\
  bs_line_search_test b =
    (if no_merit_function_improvement l then S (line_search_test l) else 0%nat).
Proof.
  unfold barrierStage.
  destruct (barrier_strategy _).
  - destruct (computeKKTRes _ _) as [st1 [[[? ?] ?] rn]].
    destruct (barrierConverged _ _ _ _ _).
    + destruct (computeKKTRes _ _) as [st2 [[[? ?] ?] ?]]. split; reflexivity.
    + split; reflexivity.
  - destruct (computeKKTRes _ _) as [st1 [[[? ?] ?] rn]]. split; reflexivity.
  - destruct (computeKKTRes _ _) as [st1 [[[? ?] ?] rn]]. split; reflexivity.
Qed.

End ConvergenceTests.

(** C2.  [optimize] declares global convergence, and leaves the loop of
    major iterations, exactly when the iteration count [k] is positive,
    the barrier parameter is at most [0.1*abs_res_tol], and one of these
    holds: the overall KKT residual norm is below [abs_res_tol]; the
    relative function test passes (the previous pass took full steps,
    [alpha_x = 1] and [alpha_z = 1], and
    [|fobj - fobj_prev| < rel_func_tol*|fobj_prev|]); the counter of
    passes without merit-function improvement has reached 2. *)
Theorem global_convergence_test
    {prob : ParOptProblem} {QNI : ParOptCompactQuasiNewton} {LA : Numerics}
    {K : Kernels} (k : nat) (l : LoopState) :
  let b := barrierStage k (iterationHead k l) in
  let o := opts (solver l) in
  ((exists st fs, majorIteration k l = Converged st fs) <->
   (0 < k)%nat /\ barrier_param (bs_solver b) <= 0.1 * abs_res_tol o /\
   (res_norm b < abs_res_tol o \/ rel_function_test b = true \/
    (2 <= bs_line_search_test b)%nat)) /\
  (rel_function_test b = true <->
   alpha_xprev l == 1 /\ alpha_zprev l == 1 /\
   Qabs (fobj (evals (solver l)) - fobj_prev l) <
     rel_func_tol o * Qabs (fobj_prev l)) /\
  bs_line_search_test b =
    (if no_merit_function_improvement l then S (line_search_test l) else 0%nat) /\
  (forall st fs rem,
     majorIteration k l = Converged st fs ->
     majorLoop (S rem) k l = (0%Z, st, fs) /\ st = bs_solver b).
Proof.
  intros b o.
  destruct (majorIteration_converged k l) as [Hc1 Hc2]. fold b in Hc1, Hc2.
  destruct (iterationHead_locals k l)
    as [He [_ [Hf [Hx [Hz [Hn [Ht _]]]]]]].
  destruct (barrierStage_tests k (iterationHead k l)) as [Hr Hs]. fold b in Hr, Hs.
  assert (Ho : opts (bs_solver b) = o)
    by (unfold b, o; rewrite opts_barrierStage, opts_iterationHead; reflexivity).
  assert (Hconv : converged k b = true <->
    (0 < k)%nat /\ barrier_param (bs_solver b) <= 0.1 * abs_res_tol o /\
    (res_norm b < abs_res_tol o \/ rel_function_test b = true \/
     (2 <= bs_line_search_test b)%nat)).
  { unfold converged. rewrite Ho.
    rewrite !andb_true_iff, !orb_true_iff, Nat.ltb_lt, Qle_bool_iff,
      Qltb_true, Nat.leb_le. tauto. }
  split; [|split; [|split]].
  - rewrite <- Hconv. split.
    + intros [st [fs H]]. apply (Hc1 st fs H).
    + intros H. eexists. eexists. apply Hc2. exact H.
  - rewrite Hr, relFunctionTest_spec.
    rewrite opts_iterationHead, He, Hf, Hx, Hz. fold o. tauto.
  - rewrite Hs, Hn, Ht. reflexivity.
  - intros st fs rem H. split.
    + cbn [majorLoop]. rewrite H. reflexivity.
    + apply (Hc1 st fs H).
Qed.

(** The second pass on the small problem with [mu = 1e-7] and zero
    residuals: the three conditions hold, the pass ends converged and
    [optimize]'s loop returns 0 with the solver of the barrier stage. *)
Lemma global_convergence_test_witness :
  let l := Examples.finalPassState in
  let b := barrierStage (LA := Examples.lapackWithInfo 0)
             (K := Examples.descentKernels) 1 (iterationHead 1 l) in
  (0 < 1)%nat /\
  barrier_param (bs_solver b) <= 0.1 * abs_res_tol (opts (solver l)) /\
  res_norm b < abs_res_tol (opts (solver l)) /\
  exists st fs,
    majorIteration (prob := Examples.smallProblem)
      (LA := Examples.lapackWithInfo 0) (K := Examples.descentKernels) 1 l
      = Converged st fs /\
    majorLoop (prob := Examples.smallProblem)
      (LA := Examples.lapackWithInfo 0) (K := Examples.descentKernels) 3 1 l
      = (0%Z, st, fs) /\
    st = bs_solver b.
Proof.
  intros l b.
  assert (Hk : (0 < 1)%nat) by lia.
  assert (Hmu : barrier_param (bs_solver b) <= 0.1 * abs_res_tol (opts (solver l)))
    by (vm_compute; discriminate).
  assert (Hres : res_norm b < abs_res_tol (opts (solver l)))
    by (vm_compute; reflexivity).
  destruct (global_convergence_test (prob := Examples.smallProblem)
              (LA := Examples.lapackWithInfo 0) (K := Examples.descentKernels)
              1 l) as [[_ Hconv] [_ [_ Hloop]]].
  destruct (Hconv (conj Hk (conj Hmu (or_introl Hres)))) as [st [fs Hit]].
  destruct (Hloop st fs 2%nat Hit) as [Hret Hst].
  split; [exact Hk|]. split; [exact Hmu|]. split; [exact Hres|].
  exists st, fs. split; [exact Hit|]. split; [exact Hret|exact Hst].
Defined.

(** C2 as stated fails: [optimize] on the linear problem, with
    [rel_func_tol = 1e-3] and the barrier parameter at [1e-7], makes one
    pass, with full steps, and declares convergence in the second pass
    through the relative function test, while the residual norm is 1 and
    the line-search counter is 0.  One pass has been made, so there are no
    two consecutive full steps, and the test of the specification
    fails. *)
Lemma convergence_after_one_full_step_counterexample :
  let K := Examples.residualKernels 5 (- (1 # 1024)) in
  let run := optimize (prob := Examples.linearProblem)
               (LA := Examples.binary64) (K := K) None
               Examples.shortStepSolver Examples.noFiles in
  let l0 := initialLoopState
              (startLeastSquaresMultipliers (LA := Examples.binary64)
                 (snd (call_evalObjConGradient (prob := Examples.linearProblem)
                         [5]
                         (snd (call_evalObjCon (prob := Examples.linearProblem)
                                 [5]
                                 (optimizeStart (prob := Examples.linearProblem)
                                    Examples.shortStepSolver))))))
              Examples.noFiles None in
  run = majorLoop (prob := Examples.linearProblem) (LA := Examples.binary64)
          (K := K) 1000 0 l0 /\
  fst (fst run) = 0%Z /\ niter (snd (fst run)) = 1%nat /\
  exists l1 info st fs,
    majorIteration (prob := Examples.linearProblem) (LA := Examples.binary64)
      (K := K) 0 l0 = Continue l1 info /\
    alpha_xprev l1 == 1 /\ alpha_zprev l1 == 1 /\
    let l1' :=
      mkLoopState (set_niter (S (niter (solver l1))) (solver l1)) (fsys l1)
        (checkpoint l1) (fobj_prev l1) (alpha_prev l1) (alpha_xprev l1)
        (alpha_zprev l1) (dm0_prev l1) (res_norm_prev l1)
        (step_norm_prev l1) (no_merit_function_improvement l1)
        (line_search_test l1) (line_search_failed l1) in
    let b := barrierStage (LA := Examples.binary64) (K := K) 1
               (iterationHead 1 l1') in
    majorIteration (prob := Examples.linearProblem) (LA := Examples.binary64)
      (K := K) 1 l1' = Converged st fs /\
    run = (0%Z, st, fs) /\
    res_norm b == 1 /\
    ~ res_norm b < abs_res_tol (opts (solver l1')) /\
    bs_line_search_test b = 0%nat /\
    rel_function_test b = true /\
    relFunctionTestAsSpecified [(alpha_xprev l1, alpha_zprev l1)]
      (iterationHead 1 l1') = false /\
    convergedAsSpecified 1 [(alpha_xprev l1, alpha_zprev l1)]
      (iterationHead 1 l1') b = false.
Proof.
  intros K run l0.
  split; [vm_compute; reflexivity|].
  split; [vm_compute; reflexivity|].
  split; [vm_compute; reflexivity|].
  destruct (majorIteration (prob := Examples.linearProblem)
              (LA := Examples.binary64) (K := K) 0 l0)
    as [s1 f1|code s1 f1|l1 info] eqn:E;
    try (vm_compute in E; discriminate E).
  vm_compute in E. inversion E as [[E1 E2]]. clear E.
  eexists. eexists. eexists. eexists.
  split; [reflexivity|].
  split; [vm_compute; reflexivity|].
  split; [vm_compute; reflexivity|].
  split; [vm_compute; reflexivity|].
  split; [vm_compute; reflexivity|].
  split; [vm_compute; reflexivity|].
  split; [vm_compute; discriminate|].
  split; [vm_compute; reflexivity|].
  split; [vm_compute; reflexivity|].
  split; vm_compute; reflexivity.
Qed.

(** ** The NO_IMPROVEMENT outcome *)

Section EvaluationsFrame.

Context {prob : ParOptProblem} {QNI : ParOptCompactQuasiNewton} {LA : Numerics}.
Context {K : Kernels}.

Lemma evals_computeKKTRes mu st : evals (fst (computeKKTRes mu st)) = evals st.
Proof.
  unfold computeKKTRes. destruct (kktRes mu st) as [r [[? ?] ?]]. reflexivity.
Qed.

Lemma evals_setUpKKTSystem u st : evals (setUpKKTSystem u st) = evals st.
Proof. unfold setUpKKTSystem. destruct (kktSchur u st). reflexivity. Qed.

Lemma evals_computeKKTGMRESStep r a u st :
  evals (snd (computeKKTGMRESStep r a u st)) = evals st.
Proof.
  unfold computeKKTGMRESStep. destruct (gmresStep r a u st) as [[? ?] ?].
  reflexivity.
Qed.

Lemma evals_factorCw st : evals (snd (factorCw st)) = evals st.
Proof.
  unfold factorCw.
  destruct (if (nwblock (dims st) =? 1)%nat then _ else _). reflexivity.
Qed.

Lemma evals_assembleEw st : evals (assembleEw st) = evals st.
Proof. unfold assembleEw. destruct (ncon (dims st)); reflexivity. Qed.

Lemma evals_setUpKKTDiagSystem u st : evals (setUpKKTDiagSystem u st) = evals st.
Proof.
  unfold setUpKKTDiagSystem.
  set (st1 := if (0 <? nwcon (dims st))%nat then _ else _).
  assert (H1 : evals st1 = evals st).
  { unfold st1. destruct (0 <? nwcon (dims st))%nat; [|reflexivity].
    pose proof (evals_factorCw (assembleCw (assembleCvec u st))) as Hf.
    destruct (factorCw _) as [code st2]. cbn [snd] in Hf.
    rewrite evals_assembleEw. exact Hf. }
  destruct (0 <? ncon (dims st))%nat.
  - destruct (LAPACKdgetrf _ _) as [[? ?] ?]. exact H1.
  - exact H1.
Qed.

Lemma evals_reset_qn st : evals (reset_qn st) = evals st.
Proof. unfold reset_qn. destruct (qn st); reflexivity. Qed.

Lemma evals_barrierStage k l :
  evals (bs_solver (barrierStage k l)) = evals (solver l).
Proof.
  unfold barrierStage.
  destruct (barrier_strategy (opts (solver l))).
  - pose proof (evals_computeKKTRes (barrier_param (solver l)) (solver l)) as H1.
    destruct (computeKKTRes (barrier_param (solver l)) (solver l))
      as [st1 [[[? ?] ?] rn]]. cbn [fst] in H1.
    destruct (barrierConverged _ _ _ _ _); [|exact H1].
    pose proof (evals_computeKKTRes
                  (monotoneBarrier (opts (solver l)) (barrier_param st1)) st1) as H2.
    destruct (computeKKTRes _ st1) as [st2 [[[? ?] ?] ?]]. cbn [fst] in H2.
    cbn [bs_solver]. cbn. congruence.
  - pose proof (evals_computeKKTRes (barrier_param (solver l)) (solver l)) as H1.
    destruct (computeKKTRes _ _) as [st1 [[[? ?] ?] rn]]. exact H1.
  - match goal with
    | |- context [computeKKTRes ?mu ?s0] =>
        pose proof (evals_computeKKTRes mu s0) as H1;
        destruct (computeKKTRes mu s0) as [st1 [[[? ?] ?] rn]]
    end.
    exact H1.
Qed.

Lemma evals_newtonKrylovStep l b :
  evals (snd (newtonKrylovStep l b)) = evals (bs_solver b).
Proof.
  unfold newtonKrylovStep.
  destruct (use_hvec_product _); [|reflexivity].
  destruct (_ && _); [|reflexivity].
  match goal with
  | |- context [computeKKTGMRESStep ?r ?a ?u ?s0] =>
      pose proof (evals_computeKKTGMRESStep r a u s0) as H1;
      destruct (computeKKTGMRESStep r a u s0) as [iters st1]
  end.
  cbn [snd] in H1.
  rewrite evals_setUpKKTSystem, evals_setUpKKTDiagSystem in H1.
  destruct (iters <? 0)%Z; cbn [snd]; [|exact H1].
  rewrite evals_computeKKTRes. exact H1.
Qed.

(** The objective that [computeStepAndUpdate] stores when it evaluates the
    problem is a value returned by the problem. *)
Lemma fobj_computeStepAndUpdate alpha qu st :
  exists xk,
    fobj (evals (snd (computeStepAndUpdate alpha true qu st))) =
    snd (fst (evalObjCon xk)).
Proof.
  unfold computeStepAndUpdate, call_evalObjCon, call_evalObjConGradient.
  simpl.
  match goal with
  | |- context [evalObjCon ?xk] =>
      exists xk; destruct (evalObjCon xk) as [[fo f] cv]
  end.
  simpl.
  destruct (negb (fo =? 0)%Z); simpl; [reflexivity|].
  destruct (evalObjConGradient _) as [[fg gv] av]; simpl.
  destruct (qn st); simpl; [|reflexivity].
  destruct qu; simpl; [|reflexivity].
  destruct (use_quasi_newton_update (opts st)); simpl.
  - destruct (computeQuasiNewtonUpdateCorrection _ _); simpl.
    destruct (qn_update_sy _ _ _ _ _ _); reflexivity.
  - destruct (qn_update _ _ _ _); reflexivity.
Qed.

End EvaluationsFrame.

Section NoImprovement.

Context {prob : ParOptProblem} {QNI : ParOptCompactQuasiNewton} {LA : Numerics}.
Context {K : Kernels}.

Hypothesis laws : roundingLaws.
Hypothesis doubles : doubleValued.

(** The line-search part of a pass reports NO_IMPROVEMENT only on the path
    that skips the line search, and there exactly when the objective has
    not changed and the function precision is absorbed in the sum. *)
Lemma lineSearchStage_no_improvement k l b f' ins sl st :
  representable f' -> 0 < function_precision (opts st) ->
  let so := lineSearchStage k l b f' ins sl st in
  has_flag (so_line_fail so) PAROPT_LINE_SEARCH_NO_IMPROVEMENT = true <->
  so_line_search_skipped so = true /\
  fobj (evals (so_solver so)) == f' /\
  rnd (f' + function_precision (opts st)) == f'.
Proof.
  intros Rf Hp. destruct doubles as [Dobj [Dmerit Dm0]].
  unfold lineSearchStage.
  set (tau := if Qgeb (1 - barrier_param st) _ then _ else _).
  pose proof (opts_scaleKKTStep tau (comp b) ins st) as H1.
  destruct (scaleKKTStep tau (comp b) ins st) as [[[ceq ax] az] st1].
  cbn [snd] in H1.
  destruct (use_line_search (opts st)).
  - pose proof (opts_evalMeritInitDeriv ax st1) as H2.
    pose proof (Dm0 ax st1) as R0.
    unfold evalMeritInitDeriv in *.
    destruct (meritInitDeriv ax st1) as [[[m0 dm0] rho] r0].
    cbn [fst snd] in H2, R0. rewrite H1 in H2.
    set (st2 := set_rho_penalty_search rho (set_resid r0 st1)) in *.
    destruct (Qgeb dm0 0 && Qle_bool dm0 (function_precision (opts st))).
    + destruct (fobj_computeStepAndUpdate 1 true st2) as [xk Hf].
      destruct (computeStepAndUpdate 1 true true st2) as [upd st3].
      cbn [snd] in Hf. cbn [so_line_fail so_line_search_skipped so_solver].
      assert (R3 : representable (fobj (evals st3))).
      { rewrite Hf. apply Dobj. }
      pose proof (no_change_guard_spec laws _ f' (fobj (evals st3)) Hp Rf R3)
        as G.
      destruct (no_change_guard _ f' (fobj (evals st3))).
      * split.
        -- intros _. destruct (proj1 G eq_refl) as [G1 G2].
           split; [reflexivity|]. split; [symmetry; exact G1|exact G2].
        -- intros _. reflexivity.
      * split; [discriminate|].
        intros [_ [E A]]. exfalso.
        assert (C : false = true); [|discriminate C].
        apply G. split; [symmetry; exact E|exact A].
    + set (redo := if Qgeb dm0 0 then _ else _).
      assert (Hr : opts (snd redo) = opts st /\
                   representable (snd (fst (fst redo)))).
      { unfold redo. destruct (Qgeb dm0 0); [|split; [exact H2|exact R0]].
        match goal with
        | |- context [scaleKKTStep tau (comp b) false ?s0] =>
            pose proof (opts_scaleKKTStep tau (comp b) false s0) as H3;
            destruct (scaleKKTStep tau (comp b) false s0) as [[[c3 ax3] az3] st3]
        end.
        cbn [snd] in H3.
        pose proof (Dm0 ax3 st3) as R4.
        destruct (meritInitDeriv ax3 st3) as [[[m4 dm4] rho4] r4].
        cbn [fst snd] in R4 |- *. split; [|exact R4].
        cbn. rewrite H3.
        rewrite opts_computeKKTStep, opts_setUpKKTSystem,
          opts_setUpKKTDiagSystem, opts_computeKKTRes. exact H2. }
      destruct redo as [[[[[[sl5 c5] ax5] az5] m5] dm5] st5].
      cbn [fst snd] in Hr. destruct Hr as [Hr R5].
      set (st6 := if (0 <? major_iter_step_check (opts st))%Z && _ then _ else st5).
      assert (H6 : opts st6 = opts st).
      { unfold st6. destruct (_ && _); [|exact Hr].
        rewrite opts_checkMeritFuncGradient. exact Hr. }
      clearbody st6.
      destruct (Qgeb dm5 0).
      { cbn [so_line_fail so_line_search_skipped]. split; [discriminate|].
        intros [C _]. discriminate C. }
      match goal with
      | |- context [lineSearch ?am 1 m5 dm5 st6] =>
          pose proof (lineSearch_flags am 1 m5 dm5 st6 laws Dmerit R5) as Hl;
          destruct (lineSearch am 1 m5 dm5 st6) as [[lf al] st7]
      end.
      cbn [fst] in Hl. rewrite H6 in Hl. specialize (Hl Hp).
      destruct (negb (has_flag lf PAROPT_LINE_SEARCH_FAILURE)).
      * destruct (computeStepAndUpdate al false true st7).
        cbn [so_line_fail so_line_search_skipped]. rewrite Hl.
        split; [discriminate|]. intros [C _]. discriminate C.
      * cbn [so_line_fail so_line_search_skipped]. rewrite Hl.
        split; [discriminate|]. intros [C _]. discriminate C.
  - destruct (computeStepAndUpdate 1 true true st1).
    cbn [so_line_fail so_line_search_skipped]. split; [discriminate|].
    intros [C _]. discriminate C.
Qed.

(** What a pass that continues hands to the next one. *)
Lemma stepStage_continue k l b l' info :
  representable (fobj (evals (bs_solver b))) ->
  0 < function_precision (opts (bs_solver b)) ->
  stepStage k l b = Continue l' info ->
  no_merit_function_improvement l' = noMeritFunctionImprovement (line_fail info) /\
  line_search_test l' = bs_line_search_test b /\
  fobj_prev l' = fobj (evals (bs_solver b)) /\
  (has_flag (line_fail info) PAROPT_LINE_SEARCH_NO_IMPROVEMENT = true <->
   line_search_skipped info = true /\
   fobj (evals (solver l')) == fobj_prev l' /\
   rnd (fobj_prev l' + function_precision (opts (bs_solver b))) == fobj_prev l').
Proof.
  intros Rf Hp. unfold stepStage.
  pose proof (opts_newtonKrylovStep l b) as Hn.
  pose proof (evals_newtonKrylovStep l b) as En.
  destruct (newtonKrylovStep l b) as [[[gm ins] sn] st1]. cbn [snd] in Hn, En.
  set (q := if negb ins then _ else _).
  assert (Hq : match q with
               | inl _ => True
               | inr (st', _, _) => opts st' = opts st1
               end).
  { unfold q. destruct (negb ins); [apply opts_quasiNewtonStep|reflexivity]. }
  destruct q as [[code st2]|[[st2 sn2] sl2]]; [discriminate|].
  set (st3 := if (0 <? major_iter_step_check (opts st1))%Z && _ then _ else st2).
  assert (H3 : opts st3 = opts (bs_solver b)).
  { unfold st3. destruct (_ && _); rewrite ?opts_checkKKTStep, Hq, Hn;
      reflexivity. }
  clearbody st3.
  assert (Rf1 : representable (fobj (evals st1))) by (rewrite En; exact Rf).
  pose proof (lineSearchStage_no_improvement k l b (fobj (evals st1)) ins sl2 st3
                Rf1) as G.
  rewrite H3 in G. specialize (G Hp). cbv zeta in G.
  intros H. inversion H; subst; clear H. cbn [no_merit_function_improvement
    line_search_test fobj_prev line_fail line_search_skipped solver].
  split; [reflexivity|]. split; [reflexivity|]. split; [rewrite En; reflexivity|].
  assert (Es : forall s0, evals (if use_quasi_newton_update (opts st1) &&
                                    has_flag
                                      (so_line_fail
                                         (lineSearchStage k l b (fobj (evals st1))
                                            ins sl2 st3))
                                      PAROPT_LINE_SEARCH_FAILURE
                                 then reset_qn s0 else s0) = evals s0).
  { intros s0. destruct (_ && _); [apply evals_reset_qn|reflexivity]. }
  rewrite Es. exact G.
Qed.

End NoImprovement.

(** C10.  [PAROPT_LINE_SEARCH_NO_IMPROVEMENT] is produced by the guard of
    the pass that skips the line search, and by nothing else: with a
    positive [function_precision] the line search itself never reports it,
    and a pass that goes on reports it exactly when it skipped the line
    search, the objective has the same value before and after the step, and
    adding [function_precision] to that value rounds back to it.  When the
    sum is exact the outcome cannot occur.  The flag
    [no_merit_function_improvement] of the next pass is set exactly by the
    three outcomes NO_IMPROVEMENT, MIN_STEP and FAILURE. *)
Theorem no_improvement_needs_an_absorbed_precision
    {prob : ParOptProblem} {QNI : ParOptCompactQuasiNewton} {LA : Numerics}
    {K : Kernels} (k : nat) (l : LoopState) :
  let p := function_precision (opts (solver l)) in
  roundingLaws -> doubleValued ->
  representable (fobj (evals (solver l))) -> 0 < p ->
  (forall a b, representable a -> representable b ->
     (no_change_guard p a b = true <-> a == b /\ rnd (a + p) == a)) /\
  (forall alpha_min alpha m0 dm0 st,
     opts st = opts (solver l) -> representable m0 ->
     has_flag (fst (fst (lineSearch alpha_min alpha m0 dm0 st)))
       PAROPT_LINE_SEARCH_NO_IMPROVEMENT = false) /\
  (forall l' info,
     majorIteration k l = Continue l' info ->
     fobj_prev l' = fobj (evals (solver l)) /\
     (has_flag (line_fail info) PAROPT_LINE_SEARCH_NO_IMPROVEMENT = true <->
      line_search_skipped info = true /\
      fobj (evals (solver l')) == fobj_prev l' /\
      rnd (fobj_prev l' + p) == fobj_prev l') /\
     (rnd (fobj_prev l' + p) == fobj_prev l' + p ->
      has_flag (line_fail info) PAROPT_LINE_SEARCH_NO_IMPROVEMENT = false) /\
     (no_merit_function_improvement l' = true <->
      has_flag (line_fail info) PAROPT_LINE_SEARCH_NO_IMPROVEMENT = true \/
      has_flag (line_fail info) PAROPT_LINE_SEARCH_MIN_STEP = true \/
      has_flag (line_fail info) PAROPT_LINE_SEARCH_FAILURE = true)).
Proof.
  intros p laws doubles Rf Hp. split; [|split].
  - intros a b Ra Rb. exact (no_change_guard_spec laws p a b Hp Ra Rb).
  - intros alpha_min alpha m0 dm0 st Ho R0.
    apply (lineSearch_flags alpha_min alpha m0 dm0 st laws);
      [apply doubles|exact R0|rewrite Ho; exact Hp].
  - intros l' info H. unfold majorIteration in H.
    set (l0 := iterationHead k l) in H.
    set (b := barrierStage k l0) in H.
    destruct (converged k b); [discriminate|].
    assert (Ho : opts (bs_solver b) = opts (solver l)).
    { unfold b. rewrite opts_barrierStage. apply opts_iterationHead. }
    assert (He : fobj (evals (bs_solver b)) = fobj (evals (solver l))).
    { unfold b. rewrite evals_barrierStage.
      pose proof (iterationHead_locals k l) as [E _]. fold l0 in E.
      rewrite E. reflexivity. }
    assert (Rb : representable (fobj (evals (bs_solver b))))
      by (rewrite He; exact Rf).
    assert (Hpb : 0 < function_precision (opts (bs_solver b)))
      by (rewrite Ho; exact Hp).
    destruct (stepStage_continue laws doubles k l0 b l' info Rb Hpb H)
      as (Hn & _ & Hprev & Hiff).
    rewrite Ho in Hiff. fold p in Hiff.
    split; [rewrite Hprev; exact He|]. split; [exact Hiff|]. split.
    + intros Hx.
      destruct (has_flag (line_fail info) PAROPT_LINE_SEARCH_NO_IMPROVEMENT)
        eqn:E; [|reflexivity].
      exfalso. destruct Hiff as [Hi _].
      destruct (Hi eq_refl) as (_ & _ & Hr). lra.
    + rewrite Hn. unfold noMeritFunctionImprovement.
      rewrite !orb_true_iff. tauto.
Qed.

Lemma no_improvement_needs_an_absorbed_precision_witness :
  let l := Examples.flatLoopState in
  (@roundingLaws Examples.binary64 /\
   @doubleValued Examples.flatProblem _ Examples.binary64
     (Examples.roundedMeritKernels 1e7 0) /\
   @representable Examples.binary64 (fobj (evals (solver l))) /\
   0 < function_precision (opts (solver l))) /\
  forall l' info,
    majorIteration (prob := Examples.flatProblem) (LA := Examples.binary64)
      (K := Examples.roundedMeritKernels 1e7 0) 0 l = Continue l' info ->
    (has_flag (line_fail info) PAROPT_LINE_SEARCH_NO_IMPROVEMENT = true <->
     line_search_skipped info = true /\
     fobj (evals (solver l')) == fobj_prev l' /\
     round_binary64 (fobj_prev l' + function_precision (opts (solver l)))
       == fobj_prev l').
Proof.
  intros l.
  assert (L : @roundingLaws Examples.binary64) by exact round_binary64_laws.
  assert (D : @doubleValued Examples.flatProblem _ Examples.binary64
                (Examples.roundedMeritKernels 1e7 0)).
  { split; [|split].
    - intros xk. vm_compute. reflexivity.
    - intros st fk ck xk sk tk swk. apply round_binary64_idempotent.
    - intros max_x st. vm_compute. reflexivity. }
  assert (R : @representable Examples.binary64 (fobj (evals (solver l))))
    by (vm_compute; reflexivity).
  assert (P : 0 < function_precision (opts (solver l)))
    by (vm_compute; reflexivity).
  split; [exact (conj L (conj D (conj R P)))|].
  intros l' info H.
  exact (proj1 (proj2 (proj2 (proj2
           (no_improvement_needs_an_absorbed_precision
              (prob := Examples.flatProblem) (LA := Examples.binary64)
              (K := Examples.roundedMeritKernels 1e7 0) 0 l L D R P))
           l' info H))).
Defined.

(** A pass with a positive [function_precision] that ends with
    NO_IMPROVEMENT: the objective is [1e7] before and after the step, the
    projected derivative is zero so that the line search is skipped, and
    [1e7 + 1e-10] is [1e7] in double precision. *)
Lemma no_improvement_with_positive_precision_counterexample :
  let l := Examples.flatLoopState in
  0 < function_precision (opts (solver l)) /\
  function_precision (opts (solver l)) == 1e-10 /\
  fobj (evals (solver l)) == 1e7 /\
  PrimFloat.eqb (PrimFloat.add 1e7 1e-10) 1e7 = true /\
  round_binary64 (Q_of_float 1e7 + Q_of_float 1e-10) == Q_of_float 1e7 /\
  round_binary64 (1e7 + 1e-10) == 1e7 /\
  exists l' info,
    majorIteration (prob := Examples.flatProblem) (LA := Examples.binary64)
      (K := Examples.roundedMeritKernels 1e7 0) 0 l = Continue l' info /\
    line_fail info = PAROPT_LINE_SEARCH_NO_IMPROVEMENT /\
    has_flag (line_fail info) PAROPT_LINE_SEARCH_NO_IMPROVEMENT = true /\
    line_search_skipped info = true /\
    no_merit_function_improvement l' = true.
Proof.
  intros l.
  split; [vm_compute; reflexivity|].
  split; [vm_compute; reflexivity|].
  split; [vm_compute; reflexivity|].
  split; [vm_compute; reflexivity|].
  split; [vm_compute; reflexivity|].
  split; [vm_compute; reflexivity|].
  destruct (majorIteration (prob := Examples.flatProblem)
              (LA := Examples.binary64)
              (K := Examples.roundedMeritKernels 1e7 0) 0 l)
    as [st fs|code st fs|l' info] eqn:E.
  - exfalso.
    assert (F : match majorIteration (prob := Examples.flatProblem)
                  (LA := Examples.binary64)
                  (K := Examples.roundedMeritKernels 1e7 0) 0 l with
                | Continue _ _ => true | _ => false end = true)
      by (vm_compute; reflexivity).
    rewrite E in F. discriminate.
  - exfalso.
    assert (F : match majorIteration (prob := Examples.flatProblem)
                  (LA := Examples.binary64)
                  (K := Examples.roundedMeritKernels 1e7 0) 0 l with
                | Continue _ _ => true | _ => false end = true)
      by (vm_compute; reflexivity).
    rewrite E in F. discriminate.
  - exists l', info. split; [reflexivity|].
    assert (F : match majorIteration (prob := Examples.flatProblem)
                  (LA := Examples.binary64)
                  (K := Examples.roundedMeritKernels 1e7 0) 0 l with
                | Continue l' info =>
                    (Z.eqb (line_fail info) PAROPT_LINE_SEARCH_NO_IMPROVEMENT
                     && line_search_skipped info
                     && no_merit_function_improvement l')%bool
                | _ => false
                end = true) by (vm_compute; reflexivity).
    rewrite E in F. rewrite !andb_true_iff in F.
    destruct F as [[F1 F2] F3]. apply Z.eqb_eq in F1.
    rewrite F1. repeat split; assumption.
Qed.

(** ** The monotone barrier update *)

Section MonotoneBarrier.

Context {prob : ParOptProblem} {QNI : ParOptCompactQuasiNewton} {LA : Numerics}.
Context {K : Kernels}.

Lemma computeKKTRes_frame mu st :
  let st' := fst (computeKKTRes mu st) in
  barrier_param st' = barrier_param st /\
  rho_penalty_search st' = rho_penalty_search st /\
  opts st' = opts st /\ vars st' = vars st.
Proof.
  unfold computeKKTRes. destruct (kktRes mu st) as [r [[? ?] ?]].
  repeat split; reflexivity.
Qed.

(** The new barrier parameter: the smaller of the fraction and the power
    of the old one, replaced by [0.09999*abs_res_tol] when below
    [0.1*abs_res_tol]. *)
Lemma monotoneBarrier_spec (o : Options) (mu : Q) :
  let m := min2 (pow mu (monotone_barrier_power o))
                (monotone_barrier_fraction o * mu) in
  m <= monotone_barrier_fraction o * mu /\
  m <= pow mu (monotone_barrier_power o) /\
  (m < 0.1 * abs_res_tol o -> monotoneBarrier o mu = 0.09999 * abs_res_tol o) /\
  (0.1 * abs_res_tol o <= m -> monotoneBarrier o mu = m) /\
  (0 <= abs_res_tol o -> 0.09999 * abs_res_tol o <= monotoneBarrier o mu).
Proof.
  intros m. unfold monotoneBarrier. fold (min2 (pow mu (monotone_barrier_power o))
                                               (monotone_barrier_fraction o * mu)).
  fold m.
  assert (M : m <= monotone_barrier_fraction o * mu /\
              m <= pow mu (monotone_barrier_power o)).
  { unfold m, min2. destruct (Qltb _ _) eqn:E.
    - apply Qltb_true in E. split; lra.
    - apply Qltb_false in E. split; lra. }
  destruct M as [M1 M2].
  split; [exact M1|]. split; [exact M2|].
  destruct (Qltb m (0.1 * abs_res_tol o)) eqn:E.
  - apply Qltb_true in E. repeat split; intros; try reflexivity; lra.
  - apply Qltb_false in E. repeat split; intros; try reflexivity; lra.
Qed.

(** The barrier stage of the monotone strategy, spelled out. *)
Lemma barrierStage_monotone k l :
  barrier_strategy (opts (solver l)) = PAROPT_MONOTONE ->
  let o := opts (solver l) in
  let mu := barrier_param (solver l) in
  let first := computeKKTRes mu (solver l) in
  let bc :=
    barrierConverged k (snd (snd first)) mu (relFunctionTest l)
      (if no_merit_function_improvement l then S (line_search_test l) else 0%nat) in
  let b := barrierStage k l in
  barrier_converged b = bc /\
  (bc = true ->
   let second := computeKKTRes (monotoneBarrier o mu) (fst first) in
   bs_solver b =
     set_barrier_param (monotoneBarrier o mu)
       (set_rho_penalty_search (min_rho_penalty_search o) (fst second)) /\
   (max_prime b, max_dual b, max_infeas b, res_norm b) = snd second).
Proof.
  intros Hmono o mu first bc b.
  destruct (computeKKTRes_frame mu (solver l)) as [F1 _]. fold first in F1.
  subst bc b. unfold barrierStage. rewrite Hmono. fold o.
  subst first mu.
  destruct (computeKKTRes (barrier_param (solver l)) (solver l))
    as [st1 [[[mp md] mi] rn]].
  cbn [fst snd] in *. rewrite F1.
  destruct (barrierConverged k rn (barrier_param (solver l)) _ _).
  - destruct (computeKKTRes (monotoneBarrier o (barrier_param (solver l))) st1)
      as [st2 [[[mp2 md2] mi2] rn2]].
    split; [reflexivity|]. intros _. split; reflexivity.
  - split; [reflexivity|]. discriminate.
Qed.

End MonotoneBarrier.

(** C3.  Under the monotone strategy the barrier subproblem is declared
    converged exactly when [k > 0] and the residual norm is below
    [10*mu], or the relative function test passes, or the line-search test
    counter has reached 2 (at [k = 0] the last two cannot hold).  Then
    the new barrier parameter is the smaller of
    [monotone_barrier_fraction*mu] and [mu^monotone_barrier_power], set to
    [0.09999*abs_res_tol] when that is below [0.1*abs_res_tol] and so
    never below [0.09999*abs_res_tol]; [rho_penalty_search] is reset to
    [min_rho_penalty_search]; and the KKT residuals and their norms are
    those computed at the new barrier value. *)
Theorem monotone_barrier_update
    {prob : ParOptProblem} {QNI : ParOptCompactQuasiNewton} {LA : Numerics}
    {K : Kernels} (k : nat) (l : LoopState) :
  let l0 := iterationHead k l in
  let o := opts (solver l) in
  let mu := barrier_param (solver l) in
  let first := computeKKTRes mu (solver l0) in
  let b := barrierStage k l0 in
  let m := min2 (pow mu (monotone_barrier_power o))
                (monotone_barrier_fraction o * mu) in
  let new := barrier_param (bs_solver b) in
  barrier_strategy o = PAROPT_MONOTONE ->
  (barrier_converged b = true <->
   (0 < k)%nat /\
   (snd (snd first) < 10 * mu \/ rel_function_test b = true \/
    (2 <= bs_line_search_test b)%nat)) /\
  (k = 0%nat -> l = initialLoopState (solver l) (fsys l) (checkpoint l) ->
   rel_function_test b = false /\ bs_line_search_test b = 0%nat) /\
  (barrier_converged b = true ->
   m <= monotone_barrier_fraction o * mu /\
   m <= pow mu (monotone_barrier_power o) /\
   (m < 0.1 * abs_res_tol o -> new = 0.09999 * abs_res_tol o) /\
   (0.1 * abs_res_tol o <= m -> new = m) /\
   (0 <= abs_res_tol o -> 0.09999 * abs_res_tol o <= new) /\
   rho_penalty_search (bs_solver b) = min_rho_penalty_search o /\
   resid (bs_solver b) = resid (fst (computeKKTRes new (fst first))) /\
   (max_prime b, max_dual b, max_infeas b, res_norm b) =
     snd (computeKKTRes new (fst first))).
Proof.
  intros l0 o mu first b m new Hmono.
  destruct (iterationHead_locals k l)
    as [He [Hb [Hf [Hx [Hz [Hn [Ht _]]]]]]].
  fold l0 in He, Hb, Hf, Hx, Hz, Hn, Ht.
  assert (Ho : opts (solver l0) = o) by apply opts_iterationHead.
  destruct (barrierStage_tests k l0) as [Hr Hs]. fold b in Hr, Hs.
  assert (Hm0 : barrier_strategy (opts (solver l0)) = PAROPT_MONOTONE)
    by (rewrite Ho; exact Hmono).
  destruct (barrierStage_monotone k l0 Hm0) as [Hbc Hup].
  fold b in Hbc, Hup. cbv zeta in Hup.
  rewrite ?Ho, ?Hb in Hbc. rewrite ?Ho, ?Hb in Hup.
  fold mu first in Hbc, Hup.
  split; [|split].
  - rewrite Hbc, Hr, Hs. unfold barrierConverged.
    rewrite !andb_true_iff, !orb_true_iff, Nat.ltb_lt, Qltb_true, Nat.leb_le.
    tauto.
  - intros Hk Hl. rewrite Hr, Hs, Hn. unfold relFunctionTest.
    rewrite Hx, Hl. cbn. split; reflexivity.
  - intros Hc. rewrite Hbc in Hc. destruct (Hup Hc) as [Hst Hnorm].
    assert (Hnew : new = monotoneBarrier o mu)
      by (unfold new; rewrite Hst; reflexivity).
    pose proof (monotoneBarrier_spec o mu) as [M1 [M2 [M3 [M4 M5]]]].
    fold m in M1, M2, M3, M4, M5. rewrite Hnew.
    split; [exact M1|]. split; [exact M2|]. split; [exact M3|].
    split; [exact M4|]. split; [exact M5|].
    rewrite Hst, Hnorm. repeat split; reflexivity.
Qed.

(** The second pass on the small problem, from [mu = 0.1] with zero
    residuals: the barrier problem has converged and the new barrier
    parameter is the fraction [0.25*0.1]. *)
Lemma monotone_barrier_update_witness :
  let l := Examples.secondPassState in
  let b := barrierStage (LA := Examples.lapackWithInfo 0)
             (K := Examples.descentKernels) 1 (iterationHead 1 l) in
  barrier_strategy (opts (solver l)) = PAROPT_MONOTONE /\
  barrier_converged b = true /\
  barrier_param (bs_solver b) == 0.025 /\
  rho_penalty_search (bs_solver b) = min_rho_penalty_search (opts (solver l)).
Proof.
  intros l b.
  assert (M : barrier_strategy (opts (solver l)) = PAROPT_MONOTONE)
    by reflexivity.
  assert (C : barrier_converged b = true) by reflexivity.
  destruct (monotone_barrier_update (prob := Examples.smallProblem)
              (LA := Examples.lapackWithInfo 0) (K := Examples.descentKernels)
              1 l M) as [_ [_ Hup]].
  destruct (Hup C) as [_ [_ [_ [Hnew [_ [Hrho _]]]]]].
  split; [exact M|]. split; [exact C|]. split.
  - fold b in Hnew. rewrite Hnew; [reflexivity|].
    vm_compute. discriminate.
  - exact Hrho.
Defined.

(** C3 as stated fails: with the default [abs_res_tol = 1e-5] and
    fraction 0.25, at [mu = 3.9998e-6] the smaller of [0.25*mu] and
    [mu^1] is [9.9995e-7]; this is below [0.1*abs_res_tol = 1e-6], and the
    code lowers it to [0.09999*abs_res_tol = 9.999e-7], where a floor at
    that value would leave [9.9995e-7]. *)
Lemma monotone_barrier_is_lowered_to_the_floor_counterexample :
  let l := Examples.barrierUpdateState in
  let o := opts (solver l) in
  let mu := barrier_param (solver l) in
  let b := barrierStage (LA := Examples.binary64)
             (K := Examples.descentKernels) 1 (iterationHead 1 l) in
  barrier_strategy o = PAROPT_MONOTONE /\
  mu == 3.9998e-6 /\ abs_res_tol o == 1e-5 /\
  monotone_barrier_fraction o * mu == 9.9995e-7 /\
  pow (Numerics := Examples.binary64) mu (monotone_barrier_power o) == mu /\
  monotoneBarrier (LA := Examples.binary64) o mu == 9.999e-7 /\
  monotoneBarrierAsSpecified (LA := Examples.binary64) o mu == 9.9995e-7 /\
  monotoneBarrier (LA := Examples.binary64) o mu <
    monotoneBarrierAsSpecified (LA := Examples.binary64) o mu /\
  barrier_converged b = true /\
  barrier_param (bs_solver b) == 9.999e-7 /\
  ~ barrier_param (bs_solver b) ==
      monotoneBarrierAsSpecified (LA := Examples.binary64) o mu.
Proof.
  intros l o mu b.
  split; [reflexivity|].
  split; [vm_compute; reflexivity|].
  split; [vm_compute; reflexivity|].
  split; [vm_compute; reflexivity|].
  split; [vm_compute; reflexivity|].
  split; [vm_compute; reflexivity|].
  split; [vm_compute; reflexivity|].
  split; [vm_compute; reflexivity|].
  split; [vm_compute; reflexivity|].
  split; [vm_compute; reflexivity|].
  vm_compute. discriminate.
Qed.

(** ** Singular factorisations *)

Lemma get_set_nth_other (a : list Q) (i j : nat) (v : Q) :
  i <> j -> get (set_nth a i v) j = get a j.
Proof.
  unfold get. revert i j. induction a as [|h r IH]; intros i j Hij.
  - destruct i; reflexivity.
  - destruct i, j; simpl; try reflexivity; try congruence.
    apply IH. congruence.
Qed.



Section SingularFactorisation.

Context {prob : ParOptProblem} {QNI : ParOptCompactQuasiNewton} {LA : Numerics}.



End SingularFactorisation.


Section BlockFactorisation.

Context {prob : ParOptProblem} {QNI : ParOptCompactQuasiNewton} {LA : Numerics}.

Variable blk : nat.
Let incr := (((blk + 1) * blk) / 2)%nat.


Hypothesis factor_length :
  forall a, length a = incr -> length (fst (LAPACKdpptrf blk a)) = incr.




End BlockFactorisation.




(** * Further properties of the code *)

(** ** Fraction to the boundary *)







Section DecreasingFold.

Variables (A : Type) (le : A -> A -> Prop) (f : A -> nat -> A).
Hypothesis le_refl : forall a, le a a.
Hypothesis le_trans : forall a b c, le a b -> le b c -> le a c.
Hypothesis f_le : forall m i, le (f m i) m.



End DecreasingFold.









Section MaxStep.

Context {QNI : ParOptCompactQuasiNewton}.

Variables (tau : Q) (st : Solver).

Hypothesis tau_nonneg : 0 <= tau.
Hypothesis feasible : feasibleIterate st.


End MaxStep.


Lemma smallSolver_feasible : feasibleIterate Examples.smallSolver.
Proof.
  unfold feasibleIterate. cbn [dims vars Examples.smallSolver
    Examples.exampleSolver Examples.smallDims nvars ncon nwcon
    use_lower use_upper dense_inequality sparse_inequality].
  assert (Z : forall i, (i < 1)%nat -> i = 0%nat) by (intros; lia).
  repeat split; intros; try discriminate;
    match goal with H : (_ < 1)%nat |- _ => rewrite (Z _ H) end;
    vm_compute; discriminate.
Qed.


Section StepLengths.

Context {QNI : ParOptCompactQuasiNewton}.

Variables (tau comp : Q) (inexact_newton_step : bool) (st : Solver).


End StepLengths.



(** ** The complementarity measures *)

(** Two loops that add equal terms and the same counts give equal
    sums. *)
Lemma fold_left_pair_eq (f h : Q * Q -> nat -> Q * Q) (l : list nat) :
  (forall a b i, fst a == fst b -> snd a = snd b ->
     fst (f a i) == fst (h b i) /\ snd (f a i) = snd (h b i)) ->
  forall a b, fst a == fst b -> snd a = snd b ->
  fst (fold_left f l a) == fst (fold_left h l b) /\
  snd (fold_left f l a) = snd (fold_left h l b).
Proof.
  intros Hstep. induction l as [|i l IH]; intros a b H1 H2.
  - split; assumption.
  - simpl. destruct (Hstep a b i H1 H2) as [H3 H4]. apply IH; assumption.
Qed.

Section ComplementarityAtZeroStep.

Context {QNI : ParOptCompactQuasiNewton}.

Variable st : Solver.

Lemma computeCompStep_zero_sums :
  computeCompStep 0 0 st ==
  (if negb (Qeq_bool (snd (compProductSum st)) 0)
   then fst (compProductSum st) / snd (compProductSum st) else 0).
Proof.
  unfold computeCompStep. cbv zeta.
  set (acc := if dense_inequality (dims st) then fold_left _ _ _ else _).
  assert (H : fst acc == fst (compProductSum st) /\
              snd acc = snd (compProductSum st)).
  { subst acc. unfold compProductSum. cbv zeta.
    set (a1 := if use_lower (dims st) then fold_left _ _ (0, 0) else (0, 0)).
    set (b1 := if use_lower (dims st) then fold_left _ _ (0, 0) else (0, 0)).
    assert (E1 : fst a1 == fst b1 /\ snd a1 = snd b1).
    { subst a1 b1. destruct (use_lower (dims st)); [|split; reflexivity].
      apply fold_left_pair_eq; [|reflexivity|reflexivity].
      intros a b i Ha Hb. destruct (live_lower st i); cbn [fst snd].
      - split; [rewrite Ha; ring|rewrite Hb; reflexivity].
      - split; assumption. }
    clearbody a1 b1. destruct E1 as [E1 E1'].
    set (a2 := if use_upper (dims st) then fold_left _ _ a1 else a1).
    set (b2 := if use_upper (dims st) then fold_left _ _ b1 else b1).
    assert (E2 : fst a2 == fst b2 /\ snd a2 = snd b2).
    { subst a2 b2. destruct (use_upper (dims st)); [|split; assumption].
      apply fold_left_pair_eq; [|assumption|assumption].
      intros a b i Ha Hb. destruct (live_upper st i); cbn [fst snd].
      - split; [rewrite Ha; ring|rewrite Hb; reflexivity].
      - split; assumption. }
    clearbody a2 b2. destruct E2 as [E2 E2'].
    destruct (dense_inequality (dims st)).
    - apply fold_left_pair_eq; cbn [fst snd];
        [|rewrite E2; reflexivity|exact E2'].
      intros a b i Ha Hb. cbn [fst snd].
      split; [rewrite Ha; ring|rewrite Hb; reflexivity].
    - cbn [fst snd]. split; [rewrite E2; reflexivity|exact E2']. }
  clearbody acc. destruct H as [H1 H2]. rewrite H2.
  destruct (negb (Qeq_bool (snd (compProductSum st)) 0)); [|reflexivity].
  rewrite H1. reflexivity.
Qed.

Lemma computeComp_sums :
  computeComp st =
  (if negb (Qeq_bool (snd (compProductSum st)) 0)
   then fst (compProductSum st) / snd (compProductSum st) else 0).
Proof.
  unfold computeComp. destruct (compProductSum st) as [product sum].
  reflexivity.
Qed.

End ComplementarityAtZeroStep.

(** X3.  The complementarity predicted for a step of length zero,
    [computeCompStep(0, 0)], is the complementarity at the current point,
    [computeComp()]. *)
Theorem computeCompStep_at_zero_is_computeComp
    {QNI : ParOptCompactQuasiNewton} (st : Solver) :
  computeCompStep 0 0 st == computeComp st.
Proof.
  rewrite computeComp_sums. apply computeCompStep_zero_sums.
Qed.

Lemma Qsum_nonneg (l : list Q) : Forall (fun e => 0 <= e) l -> 0 <= Qsum l.
Proof.
  induction 1 as [|e l He _ IH]; simpl; [apply Qle_refl|].
  change 0 with (0 + 0). apply Qplus_le_compat; assumption.
Qed.

Lemma Qsum_map_nonneg (term : nat -> Q) (l : list nat) :
  (forall i, In i l -> 0 <= term i) -> 0 <= Qsum (map term l).
Proof.
  intros H. apply Qsum_nonneg. apply Forall_forall.
  intros e He. apply in_map_iff in He. destruct He as [i [<- Hi]].
  apply H. exact Hi.
Qed.

(** X4.  At an iterate inside the feasible region, with a positive
    [rel_bound_barrier], the complementarity [computeComp()] is not
    negative. *)
Theorem computeComp_nonnegative
    {QNI : ParOptCompactQuasiNewton} (st : Solver) :
  feasibleIterate st -> 0 < rel_bound_barrier (opts st) ->
  0 <= computeComp st.
Proof.
  intros [FL [FU [FD _]]] Hrel.
  rewrite computeComp_sums.
  destruct (compProductSum_spec st) as [Hp Hs].
  destruct (negb (Qeq_bool (snd (compProductSum st)) 0)) eqn:E;
    [|apply Qle_refl].
  apply negb_true_iff in E.
  assert (Hne : ~ snd (compProductSum st) == 0).
  { intros H. apply Qeq_bool_iff in H. congruence. }
  assert (Hcount : 0 <= snd (compProductSum st)).
  { rewrite Hs. change 0 with (inject_Z 0). rewrite <- Zle_Qle. lia. }
  assert (Hpos : 0 < snd (compProductSum st)).
  { apply Qle_lteq in Hcount. destruct Hcount as [H|H]; [exact H|].
    exfalso. apply Hne. symmetry. exact H. }
  apply Qle_shift_div_l; [exact Hpos|]. rewrite Qmult_0_l, Hp.
  assert (Hb : 0 <= boundComplementarity st).
  { unfold boundComplementarity, liveLowerBounds, liveUpperBounds. cbv zeta.
    change 0 with (0 + 0). apply Qplus_le_compat.
    - destruct (use_lower (dims st)) eqn:El; [|apply Qle_refl].
      apply Qsum_map_nonneg. intros i Hi.
      apply filter_In in Hi. destruct Hi as [Hi _]. apply in_seq in Hi.
      destruct (FL eq_refl i ltac:(lia)) as [H1 H2].
      apply Qmult_le_0_compat; [exact H2|lra].
    - destruct (use_upper (dims st)) eqn:Eu; [|apply Qle_refl].
      apply Qsum_map_nonneg. intros i Hi.
      apply filter_In in Hi. destruct Hi as [Hi _]. apply in_seq in Hi.
      destruct (FU eq_refl i ltac:(lia)) as [H1 H2].
      apply Qmult_le_0_compat; [exact H2|lra]. }
  assert (Hd : 0 <= (if dense_inequality (dims st)
                     then denseComplementarity st else 0)).
  { destruct (dense_inequality (dims st)) eqn:Ed; [|apply Qle_refl].
    unfold denseComplementarity. cbv zeta.
    apply Qsum_map_nonneg. intros i Hi. apply in_seq in Hi.
    destruct (FD eq_refl i ltac:(lia)) as [H1 [H2 [H3 H4]]].
    change 0 with (0 + 0).
    apply Qplus_le_compat; apply Qmult_le_0_compat; assumption. }
  assert (Hq : 0 <= boundComplementarity st / rel_bound_barrier (opts st)).
  { apply Qle_shift_div_l; [exact Hrel|]. rewrite Qmult_0_l. exact Hb. }
  change 0 with (0 + 0). apply Qplus_le_compat; assumption.
Qed.

(** On the small problem the complementarity is 3. *)
Lemma computeComp_nonnegative_witness :
  let st := Examples.smallSolver in
  feasibleIterate st /\ 0 < rel_bound_barrier (opts st) /\
  computeComp st == 3 /\ 0 <= computeComp st.
Proof.
  intros st.
  assert (Hrel : 0 < rel_bound_barrier (opts st)) by reflexivity.
  split; [exact smallSolver_feasible|]. split; [exact Hrel|].
  split; [reflexivity|].
  apply (computeComp_nonnegative st smallSolver_feasible Hrel).
Defined.

(** ** The diagonal Cw factorisation *)

Lemma get_set_nth_same (a : list Q) (i : nat) (v : Q) :
  (i < length a)%nat -> get (set_nth a i v) i = v.
Proof.
  unfold get. revert i. induction a as [|h r IH]; intros i Hi; simpl in Hi.
  - lia.
  - destruct i; simpl; [reflexivity|]. apply IH. lia.
Qed.

Lemma get_outside (a : list Q) (i : nat) : (length a <= i)%nat -> get a i = 0.
Proof. intros H. unfold get. apply nth_overflow. exact H. Qed.

Lemma nonzero_inside (a : list Q) (i : nat) :
  ~ get a i == 0 -> (i < length a)%nat.
Proof.
  intros H. destruct (Nat.lt_ge_cases i (length a)) as [L|L]; [exact L|].
  exfalso. apply H. rewrite get_outside by exact L. reflexivity.
Qed.

(** The loop of [factorCw] for [nwblock == 1], when the first zero entry
    (if any) is [m] places after its start: the entries before it are
    replaced by their reciprocals, the others are left alone. *)
Lemma factorCw_diagonal_prefix (n i m : nat) (cw : list Q) :
  (m <= n)%nat ->
  (forall k, (i <= k < i + m)%nat -> ~ get cw k == 0) ->
  ((m < n)%nat -> get cw (i + m) == 0) ->
  let r := factorCw_diagonal n i cw in
  snd r = (if (m <? n)%nat then 1%Z else 0%Z) /\
  (forall k, (i <= k < i + m)%nat -> get (fst r) k = 1 / get cw k) /\
  (forall k, ~ (i <= k < i + m)%nat -> get (fst r) k = get cw k).
Proof.
  revert i m cw. induction n as [|n IH]; intros i m cw Hm Hnz Hz.
  - assert (m = 0)%nat by lia. subst m. cbn.
    split; [reflexivity|]. split; [intros; lia|reflexivity].
  - cbn [factorCw_diagonal]. destruct m as [|m].
    + assert (Z0 : get cw i == 0) by (rewrite <- (Nat.add_0_r i); apply Hz; lia).
      apply Qeq_bool_iff in Z0. rewrite Z0. cbn.
      split; [reflexivity|]. split; [intros; lia|reflexivity].
    + assert (N0 : ~ get cw i == 0) by (apply Hnz; lia).
      destruct (Qeq_bool (get cw i) 0) eqn:E;
        [apply Qeq_bool_iff in E; contradiction|].
      assert (Hi : (i < length cw)%nat) by (apply nonzero_inside; exact N0).
      destruct (IH (S i) m (set_nth cw i (1 / get cw i))) as [A [B C]].
      * lia.
      * intros k Hk. rewrite get_set_nth_other by lia. apply Hnz. lia.
      * intros Hlt. rewrite get_set_nth_other by lia.
        replace (S i + m)%nat with (i + S m)%nat by lia. apply Hz. lia.
      * split; [|split].
        -- rewrite A. change (S m <? S n)%nat with (m <? n)%nat. reflexivity.
        -- intros k Hk. destruct (Nat.eq_dec k i) as [->|Hne].
           ++ rewrite C by lia. apply get_set_nth_same. exact Hi.
           ++ rewrite B by lia. rewrite get_set_nth_other by lia. reflexivity.
        -- intros k Hk. rewrite C by lia.
           apply get_set_nth_other. lia.
Qed.

Section DiagonalCw.

Context {QNI : ParOptCompactQuasiNewton} {LA : Numerics}.

Variable st : Solver.

Hypothesis diagonal : nwblock (dims st) = 1%nat.

Lemma factorCw_diagonal_case :
  factorCw st =
  (snd (factorCw_diagonal (nwcon (dims st)) 0 (Cw (factor st))),
   set_factor
     (mkFactor (Cvec (factor st))
        (fst (factorCw_diagonal (nwcon (dims st)) 0 (Cw (factor st))))
        (Ew (factor st)) (Dmat (factor st)) (dpiv (factor st))
        (Ce (factor st)) (cpiv (factor st))) st).
Proof.
  unfold factorCw. rewrite diagonal. cbn [Nat.eqb].
  destruct (factorCw_diagonal _ _ _). reflexivity.
Qed.

Lemma applyCwFactor_diagonal_case (st' : Solver) (vec : list Q) :
  dims st' = dims st ->
  applyCwFactor st' vec =
  (tabulate (nwcon (dims st))
     (fun i => get vec i * get (Cw (factor st')) i), 0%Z).
Proof.
  intros Hd. unfold applyCwFactor. rewrite Hd, diagonal. reflexivity.
Qed.

End DiagonalCw.

(** X5.  For [nwblock == 1] and a diagonal Cw without zero entry,
    [factorCw] returns 0 and [applyCwFactor] on the factored matrix
    returns 0 and solves the diagonal system: entry [i] of the result,
    times the assembled [Cw[i]], is entry [i] of the right-hand side. *)
Theorem factorCw_then_applyCwFactor_solves_diagonal_system
    {QNI : ParOptCompactQuasiNewton} {LA : Numerics} (st : Solver) :
  nwblock (dims st) = 1%nat ->
  (forall j, (j < nwcon (dims st))%nat -> ~ get (Cw (factor st)) j == 0) ->
  fst (factorCw st) = 0%Z /\
  forall vec,
    snd (applyCwFactor (snd (factorCw st)) vec) = 0%Z /\
    forall i, (i < nwcon (dims st))%nat ->
      get (Cw (factor st)) i *
      get (fst (applyCwFactor (snd (factorCw st)) vec)) i == get vec i.
Proof.
  intros Hb Hnz.
  destruct (factorCw_diagonal_prefix (nwcon (dims st)) 0 (nwcon (dims st))
              (Cw (factor st)) (Nat.le_refl _)) as [A [B _]].
  { intros k Hk. apply Hnz. lia. }
  { intros H. lia. }
  rewrite Nat.ltb_irrefl in A.
  rewrite (factorCw_diagonal_case st Hb). cbn [fst snd].
  split; [exact A|]. intros vec.
  rewrite (applyCwFactor_diagonal_case st Hb) by reflexivity.
  cbn [fst snd factor set_factor Cw].
  split; [reflexivity|]. intros i Hi.
  rewrite get_tabulate by exact Hi. rewrite B by lia.
  field. apply Hnz. exact Hi.
Qed.

(** Cw = diag(2, 4) and the right-hand side (6, 8): the solution is
    (3, 2). *)
Lemma factorCw_then_applyCwFactor_solves_diagonal_system_witness :
  let st := Examples.cwSolver [2; 4] in
  let sol := fst (applyCwFactor (LA := Examples.lapackWithInfo 0)
                    (snd (factorCw (LA := Examples.lapackWithInfo 0) st))
                    [6; 8]) in
  nwblock (dims st) = 1%nat /\
  fst (factorCw (LA := Examples.lapackWithInfo 0) st) = 0%Z /\
  2 * get sol 0 == 6 /\ 4 * get sol 1 == 8.
Proof.
  intros st sol.
  assert (B : nwblock (dims st) = 1%nat) by reflexivity.
  assert (N : forall j, (j < nwcon (dims st))%nat ->
                ~ get (Cw (factor st)) j == 0).
  { intros j Hj. change (nwcon (dims st)) with 2%nat in Hj.
    destruct j as [|[|j]]; [discriminate|discriminate|lia]. }
  destruct (factorCw_then_applyCwFactor_solves_diagonal_system
              (LA := Examples.lapackWithInfo 0) st B N) as [C S].
  destruct (S [6; 8]) as [_ S'].
  split; [exact B|]. split; [exact C|].
  split; [apply (S' 0%nat); cbn; lia|apply (S' 1%nat); cbn; lia].
Defined.

(** X6.  For [nwblock == 1], when [Cw[j]] is the first zero entry,
    [factorCw] returns 1 and leaves Cw half factored: the entries before
    [j] hold their reciprocals, the entries from [j] on are as
    assembled. *)
Theorem factorCw_zero_pivot_leaves_partial_inverse
    {QNI : ParOptCompactQuasiNewton} {LA : Numerics} (st : Solver) (j : nat) :
  nwblock (dims st) = 1%nat -> (j < nwcon (dims st))%nat ->
  (forall k, (k < j)%nat -> ~ get (Cw (factor st)) k == 0) ->
  get (Cw (factor st)) j == 0 ->
  fst (factorCw st) = 1%Z /\
  (forall k, (k < j)%nat ->
     get (Cw (factor (snd (factorCw st)))) k = 1 / get (Cw (factor st)) k) /\
  (forall k, (j <= k)%nat ->
     get (Cw (factor (snd (factorCw st)))) k = get (Cw (factor st)) k).
Proof.
  intros Hb Hj Hnz Hz.
  destruct (factorCw_diagonal_prefix (nwcon (dims st)) 0 j
              (Cw (factor st))) as [A [B C]].
  { lia. }
  { intros k Hk. apply Hnz. lia. }
  { intros _. exact Hz. }
  apply Nat.ltb_lt in Hj. rewrite Hj in A.
  rewrite (factorCw_diagonal_case st Hb). cbn [fst snd factor set_factor Cw].
  split; [exact A|]. split.
  - intros k Hk. apply B. lia.
  - intros k Hk. apply C. lia.
Qed.

(** Cw = diag(2, 0): the factorisation stops with 1 at the second entry
    and leaves (1/2, 0). *)
Lemma factorCw_zero_pivot_leaves_partial_inverse_witness :
  let st := Examples.cwSolver [2; 0] in
  let st' := snd (factorCw (LA := Examples.lapackWithInfo 0) st) in
  nwblock (dims st) = 1%nat /\ (1 < nwcon (dims st))%nat /\
  get (Cw (factor st)) 1 == 0 /\
  fst (factorCw (LA := Examples.lapackWithInfo 0) st) = 1%Z /\
  get (Cw (factor st')) 0 = 1 / 2 /\ get (Cw (factor st')) 1 = 0.
Proof.
  intros st st'.
  assert (B : nwblock (dims st) = 1%nat) by reflexivity.
  assert (J : (1 < nwcon (dims st))%nat) by (cbn; lia).
  assert (N : forall k, (k < 1)%nat -> ~ get (Cw (factor st)) k == 0).
  { intros k Hk. assert (k = 0)%nat by lia. subst k. discriminate. }
  assert (Z0 : get (Cw (factor st)) 1 == 0) by reflexivity.
  destruct (factorCw_zero_pivot_leaves_partial_inverse
              (LA := Examples.lapackWithInfo 0) st 1 B J N Z0) as [C [P R]].
  split; [exact B|]. split; [exact J|]. split; [exact Z0|].
  split; [exact C|]. split; [apply (P 0%nat); lia|apply (R 1%nat); lia].
Defined.

(** ** The start of the optimization *)

Lemma get_map_tabulate {A : Type} (f : A -> Q) (n : nat) (g : nat -> A)
    (i : nat) :
  (i < n)%nat -> get (map f (tabulate n g)) i = f (g i).
Proof.
  intros Hi. unfold tabulate. rewrite map_map.
  apply (get_tabulate n (fun k => f (g k)) i Hi).
Qed.

Section InitialPoint.

Context {prob : ParOptProblem} {QNI : ParOptCompactQuasiNewton}.

Variables (st : Solver) (i : nat).

Let given := getVarsAndBounds (x (vars st)) (lb (vars st)) (ub (vars st)).
Let x0 := get (fst (fst given)) i.
Let lb0 := get (snd (fst given)) i.
Let ub0 := get (snd given) i.
Let mbv := max_bound_val (opts st).
Let rel_bound := 0.001 * barrier_param st.
Let v := vars (initAndCheckDesignAndBounds st).

Hypothesis lower_used : use_lower (dims st) = true.
Hypothesis upper_used : use_upper (dims st) = true.
Hypothesis inside : (i < nvars (dims st))%nat.
Hypothesis lower_live : - mbv < lb0.
Hypothesis upper_live : ub0 < mbv.

(** Entry [i] after the check, when both bounds are live. *)
Lemma initAndCheckDesignAndBounds_entry :
  let bnd :=
    if Qgeb lb0 ub0
    then (0.5 * (lb0 + ub0) - 0.5 * rel_bound,
          0.5 * (lb0 + ub0) - 0.5 * rel_bound + rel_bound)
    else (lb0, ub0) in
  let delta := snd bnd - fst bnd in
  let x1 :=
    if Qgtb (fst bnd) (- mbv) && Qltb x0 (fst bnd + rel_bound * delta)
    then fst bnd + rel_bound * delta else x0 in
  let x2 :=
    if Qltb (snd bnd) mbv && Qgtb x1 (snd bnd - rel_bound * delta)
    then snd bnd - rel_bound * delta else x1 in
  get (lb v) i = fst bnd /\ get (ub v) i = snd bnd /\ get (x v) i = x2.
Proof.
  unfold v, initAndCheckDesignAndBounds, zeroInactiveBoundMultipliers.
  unfold x0, lb0, ub0, given in *. cbv zeta.
  destruct (getVarsAndBounds _ _ _) as [[xv lbv] ubv]. cbn [fst snd] in *.
  rewrite lower_used, upper_used. cbn [andb].
  cbn [vars set_vars with_zu with_zl with_bounds with_x x lb ub].
  rewrite !get_map_tabulate by exact inside.
  fold mbv rel_bound.
  assert (L : Qgtb (get lbv i) (- mbv) = true)
    by (apply Qltb_true; exact lower_live).
  assert (U : Qltb (get ubv i) mbv = true)
    by (apply Qltb_true; exact upper_live).
  rewrite L, U. cbn [andb].
  destruct (Qgeb (get lbv i) (get ubv i)); cbn [fst snd];
    repeat split; reflexivity.
Qed.

End InitialPoint.

(** X7.  With both kinds of bounds in use, a barrier parameter in
    (0, 500] and live, consistent bounds [lb0 < ub0] on variable [i],
    [initAndCheckDesignAndBounds] keeps these bounds and leaves [x[i]]
    strictly between them, at least [rel_bound*(ub0 - lb0)] away from
    each, with [rel_bound = 0.001*barrier_param]; a start that already is
    that far inside is not moved. *)
Theorem initAndCheckDesignAndBounds_moves_start_inside
    {prob : ParOptProblem} {QNI : ParOptCompactQuasiNewton}
    (st : Solver) (i : nat) :
  let given := getVarsAndBounds (x (vars st)) (lb (vars st)) (ub (vars st)) in
  let x0 := get (fst (fst given)) i in
  let lb0 := get (snd (fst given)) i in
  let ub0 := get (snd given) i in
  let margin := 0.001 * barrier_param st * (ub0 - lb0) in
  let v := vars (initAndCheckDesignAndBounds st) in
  use_lower (dims st) = true -> use_upper (dims st) = true ->
  (i < nvars (dims st))%nat ->
  0 < barrier_param st -> barrier_param st <= 500 ->
  - max_bound_val (opts st) < lb0 -> ub0 < max_bound_val (opts st) ->
  lb0 < ub0 ->
  get (lb v) i = lb0 /\ get (ub v) i = ub0 /\
  lb0 + margin <= get (x v) i /\ get (x v) i <= ub0 - margin /\
  lb0 < get (x v) i /\ get (x v) i < ub0 /\
  (lb0 + margin <= x0 -> x0 <= ub0 - margin -> get (x v) i = x0).
Proof.
  intros given x0 lb0 ub0 margin v Hl Hu Hi Hmu1 Hmu2 Ll Lu Hlt.
  destruct (initAndCheckDesignAndBounds_entry st i Hl Hu Hi Ll Lu)
    as [El [Eu Ex]].
  fold given in El, Eu, Ex. fold lb0 ub0 in El, Eu, Ex. fold x0 in Ex.
  fold v in El, Eu, Ex.
  assert (G : Qgeb lb0 ub0 = false) by (apply Qle_bool_false; exact Hlt).
  rewrite G in El, Eu, Ex. cbn [fst snd] in El, Eu, Ex.
  assert (L : Qgtb lb0 (- max_bound_val (opts st)) = true)
    by (apply Qltb_true; exact Ll).
  assert (U : Qltb ub0 (max_bound_val (opts st)) = true)
    by (apply Qltb_true; exact Lu).
  rewrite L, U in Ex. cbn [andb] in Ex.
  fold margin in Ex.
  assert (M1 : 0 < margin).
  { unfold margin. apply Qmult_lt_0_compat; lra. }
  assert (M2 : margin <= 0.5 * (ub0 - lb0)).
  { unfold margin. apply Qmult_le_compat_r; lra. }
  split; [exact El|]. split; [exact Eu|]. rewrite Ex. unfold Qgtb.
  destruct (Qltb x0 (lb0 + margin)) eqn:E1.
  - apply Qltb_true in E1.
    destruct (Qltb (ub0 - margin) (lb0 + margin)) eqn:E2.
    + apply Qltb_true in E2. exfalso. lra.
    + apply Qltb_false in E2. repeat split; try lra.
  - apply Qltb_false in E1.
    destruct (Qltb (ub0 - margin) x0) eqn:E2.
    + apply Qltb_true in E2. repeat split; try lra.
    + apply Qltb_false in E2. repeat split; try lra.
Qed.

(** The small problem started on its lower bound 0 of [0, 10]: with the
    barrier parameter 0.1 the start is moved to 0.001. *)
Lemma initAndCheckDesignAndBounds_moves_start_inside_witness :
  let st := Examples.smallSolver in
  let v := vars (initAndCheckDesignAndBounds
                   (prob := Examples.boundStartProblem) st) in
  use_lower (dims st) = true /\ use_upper (dims st) = true /\
  0 < barrier_param st /\ barrier_param st <= 500 /\
  get (lb v) 0 = 0 /\ get (ub v) 0 = 10 /\
  0 < get (x v) 0 /\ get (x v) 0 < 10.
Proof.
  intros st v.
  assert (Hl : use_lower (dims st) = true) by reflexivity.
  assert (Hu : use_upper (dims st) = true) by reflexivity.
  assert (Hi : (0 < nvars (dims st))%nat) by (cbn; lia).
  assert (M1 : 0 < barrier_param st) by reflexivity.
  assert (M2 : barrier_param st <= 500) by (vm_compute; discriminate).
  destruct (initAndCheckDesignAndBounds_moves_start_inside
              (prob := Examples.boundStartProblem) st 0 Hl Hu Hi M1 M2)
    as [A [B [_ [_ [C [D _]]]]]];
    try reflexivity.
  split; [exact Hl|]. split; [exact Hu|]. split; [exact M1|].
  split; [exact M2|]. split; [exact A|]. split; [exact B|].
  split; [exact C|exact D].
Defined.

(** X8.  With both kinds of bounds in use, live bounds on variable [i]
    that are inconsistent ([lb0 >= ub0]) are replaced by an interval of
    width [rel_bound = 0.001*barrier_param] around their midpoint, which
    is a proper interval when the barrier parameter is positive. *)
Theorem initAndCheckDesignAndBounds_makes_up_bounds
    {prob : ParOptProblem} {QNI : ParOptCompactQuasiNewton}
    (st : Solver) (i : nat) :
  let given := getVarsAndBounds (x (vars st)) (lb (vars st)) (ub (vars st)) in
  let lb0 := get (snd (fst given)) i in
  let ub0 := get (snd given) i in
  let rel_bound := 0.001 * barrier_param st in
  let v := vars (initAndCheckDesignAndBounds st) in
  use_lower (dims st) = true -> use_upper (dims st) = true ->
  (i < nvars (dims st))%nat ->
  - max_bound_val (opts st) < lb0 -> ub0 < max_bound_val (opts st) ->
  ub0 <= lb0 ->
  get (lb v) i == 0.5 * (lb0 + ub0) - 0.5 * rel_bound /\
  get (ub v) i == 0.5 * (lb0 + ub0) + 0.5 * rel_bound /\
  (0 < barrier_param st -> get (lb v) i < get (ub v) i).
Proof.
  intros given lb0 ub0 rel_bound v Hl Hu Hi Ll Lu Hge.
  destruct (initAndCheckDesignAndBounds_entry st i Hl Hu Hi Ll Lu)
    as [El [Eu _]].
  fold given in El, Eu. fold lb0 ub0 in El, Eu. fold v in El, Eu.
  fold rel_bound in El, Eu.
  assert (G : Qgeb lb0 ub0 = true) by (apply Qle_bool_iff; exact Hge).
  rewrite G in El, Eu. cbn [fst snd] in El, Eu.
  rewrite El, Eu.
  split; [reflexivity|]. split; [ring|].
  intros Hmu. unfold rel_bound. lra.
Qed.

(** The small problem with the bounds 10 and 0 exchanged: they are
    replaced by an interval of width 0.0001 around 5. *)
Lemma initAndCheckDesignAndBounds_makes_up_bounds_witness :
  let st := Examples.smallSolver in
  let v := vars (initAndCheckDesignAndBounds
                   (prob := Examples.inconsistentBoundsProblem) st) in
  use_lower (dims st) = true /\ use_upper (dims st) = true /\
  get (lb v) 0 == 5 - 0.00005 /\ get (ub v) 0 == 5 + 0.00005.
Proof.
  intros st v.
  assert (Hl : use_lower (dims st) = true) by reflexivity.
  assert (Hu : use_upper (dims st) = true) by reflexivity.
  assert (Hi : (0 < nvars (dims st))%nat) by (cbn; lia).
  destruct (initAndCheckDesignAndBounds_makes_up_bounds
              (prob := Examples.inconsistentBoundsProblem) st 0 Hl Hu Hi)
    as [A [B _]]; try reflexivity; try (vm_compute; discriminate).
  split; [exact Hl|]. split; [exact Hu|].
  split; [eapply Qeq_trans; [exact A|reflexivity]
         |eapply Qeq_trans; [exact B|reflexivity]].
Defined.

(** X9.  The least-squares starting point sets every slack [s], [t] and
    multiplier [zt] of the dense constraints to 1 and leaves the design
    variables and bounds alone.  Each dense multiplier [z[i]] is either 1
    or the least-squares estimate, which is kept only within
    [0.01, penalty_gamma[i]] for inequalities (so [z[i] >= 0.01]) and
    within [-penalty_gamma[i], penalty_gamma[i]] for equalities. *)
Theorem least_squares_start_keeps_multipliers_in_range
    {QNI : ParOptCompactQuasiNewton} {LA : Numerics} (st : Solver) :
  let v := vars (startLeastSquaresMultipliers st) in
  let d := dims st in
  let gamma := penalty_gamma (opts st) in
  (x v = x (vars st) /\ lb v = lb (vars st) /\ ub v = ub (vars st)) /\
  (s v = vec_set (ncon d) 1 /\ t v = vec_set (ncon d) 1 /\
   zt v = vec_set (ncon d) 1) /\
  (dense_inequality d = true -> forall i, (i < ncon d)%nat ->
     0.01 <= get (z v) i /\ (get (z v) i = 1 \/ get (z v) i <= get gamma i)) /\
  (dense_inequality d = false -> forall i, (i < ncon d)%nat ->
     get (z v) i = 1 \/
     (- get gamma i <= get (z v) i /\ get (z v) i <= get gamma i)).
Proof.
  unfold startLeastSquaresMultipliers. cbv zeta.
  set (st1 := zeroInactiveBoundMultipliers _).
  set (xt := vec_axpy 1 _ _).
  set (zv0 := tabulate (ncon (dims st)) _).
  set (dmat := tabulate (ncon (dims st) * ncon (dims st)) _).
  assert (V1 : x (vars st1) = x (vars st) /\ lb (vars st1) = lb (vars st) /\
               ub (vars st1) = ub (vars st) /\
               s (vars st1) = vec_set (ncon (dims st)) 1 /\
               t (vars st1) = vec_set (ncon (dims st)) 1 /\
               zt (vars st1) = vec_set (ncon (dims st)) 1)
    by (repeat split; reflexivity).
  clearbody st1 xt zv0 dmat.
  destruct V1 as [Vx [Vl [Vu [Vs [Vt Vzt]]]]].
  destruct (0 <? ncon (dims st))%nat eqn:En.
  - destruct (LAPACKdgetrf (ncon (dims st)) dmat) as [[lu piv] info].
    cbn [vars set_vars set_factor set_qn_vecs with_z x lb ub s t zt z].
    split; [repeat split; assumption|]. split; [repeat split; assumption|].
    destruct (info =? 0)%Z.
    + destruct (dense_inequality (dims st)); split; try discriminate;
        intros _ i Hi; rewrite get_tabulate by exact Hi.
      * destruct (Qltb _ 0.01) eqn:E1; cbn [orb].
        { split; [vm_compute; discriminate|left; reflexivity]. }
        destruct (Qgtb _ _) eqn:E2.
        { split; [vm_compute; discriminate|left; reflexivity]. }
        apply Qltb_false in E1, E2. split; [exact E1|right; exact E2].
      * destruct (Qltb _ (- _)) eqn:E1; cbn [orb]; [left; reflexivity|].
        destruct (Qgtb _ _) eqn:E2; [left; reflexivity|].
        apply Qltb_false in E1, E2. right. split; assumption.
    + split; intros _ i Hi.
      * assert (E : get (vec_set (ncon (dims st)) 1) i = 1)
          by (unfold get, vec_set; apply nth_repeat_lt; exact Hi).
        rewrite E. split; [vm_compute; discriminate|left; reflexivity].
      * left. unfold get, vec_set. apply nth_repeat_lt. exact Hi.
  - apply Nat.ltb_ge in En.
    cbn [vars set_vars set_factor set_qn_vecs with_z x lb ub s t zt z].
    split; [repeat split; assumption|]. split; [repeat split; assumption|].
    split; intros _ i Hi; lia.
Qed.

(** On the small problem, with one dense inequality, the multiplier
    after the least-squares start is at least 0.01. *)
Lemma least_squares_start_keeps_multipliers_in_range_witness :
  let st := Examples.smallSolver in
  let v := vars (startLeastSquaresMultipliers
                   (LA := Examples.lapackWithInfo 0) st) in
  dense_inequality (dims st) = true /\ (0 < ncon (dims st))%nat /\
  0.01 <= get (z v) 0 /\ s v = [1].
Proof.
  intros st v.
  assert (D : dense_inequality (dims st) = true) by reflexivity.
  assert (N : (0 < ncon (dims st))%nat) by (cbn; lia).
  destruct (least_squares_start_keeps_multipliers_in_range
              (LA := Examples.lapackWithInfo 0) st) as [_ [[S _] [Z _]]].
  split; [exact D|]. split; [exact N|].
  split; [apply (Z D 0%nat N)|exact S].
Defined.

(** ** What the linear algebra leaves alone *)

Section IterateFrame.

Context {prob : ParOptProblem} {QNI : ParOptCompactQuasiNewton} {LA : Numerics}.
Context {K : Kernels}.

Lemma sameIterate_refl (st : Solver) : sameIterate st st.
Proof. repeat split. Qed.

Lemma sameIterate_trans (a b c : Solver) :
  sameIterate a b -> sameIterate b c -> sameIterate a c.
Proof.
  intros [A1 [A2 [A3 A4]]] [B1 [B2 [B3 B4]]].
  repeat split; congruence.
Qed.

Lemma sameIterate_computeKKTRes mu st :
  sameIterate st (fst (computeKKTRes mu st)).
Proof.
  unfold computeKKTRes. destruct (kktRes mu st) as [r [[? ?] ?]].
  repeat split.
Qed.

Lemma sameIterate_setUpKKTSystem u st : sameIterate st (setUpKKTSystem u st).
Proof. unfold setUpKKTSystem. destruct (kktSchur u st). repeat split. Qed.

Lemma sameIterate_computeKKTStep u st : sameIterate st (computeKKTStep u st).
Proof. unfold computeKKTStep. destruct (kktStep u st). repeat split. Qed.

Lemma sameIterate_factorCw st : sameIterate st (snd (factorCw st)).
Proof.
  unfold factorCw.
  destruct (if (nwblock (dims st) =? 1)%nat then _ else _). repeat split.
Qed.

Lemma sameIterate_assembleEw st : sameIterate st (assembleEw st).
Proof. unfold assembleEw. destruct (ncon (dims st)); repeat split. Qed.

Lemma sameIterate_setUpKKTDiagSystem u st :
  sameIterate st (setUpKKTDiagSystem u st).
Proof.
  unfold setUpKKTDiagSystem.
  set (st1 := if (0 <? nwcon (dims st))%nat then _ else _).
  assert (H1 : sameIterate st st1).
  { unfold st1. destruct (0 <? nwcon (dims st))%nat; [|repeat split].
    pose proof (sameIterate_factorCw (assembleCw (assembleCvec u st))) as Hf.
    destruct (factorCw _) as [code st2]. cbn [snd] in Hf.
    apply (sameIterate_trans _ st2); [|apply sameIterate_assembleEw].
    apply (sameIterate_trans _ (assembleCw (assembleCvec u st)));
      [repeat split|exact Hf]. }
  destruct (0 <? ncon (dims st))%nat.
  - destruct (LAPACKdgetrf _ _) as [[? ?] ?].
    apply (sameIterate_trans _ st1); [exact H1|repeat split].
  - apply (sameIterate_trans _ st1); [exact H1|repeat split].
Qed.

End IterateFrame.

Lemma max2_lower (a b : Q) : a <= max2 a b.
Proof.
  unfold max2, Qgtb. destruct (Qltb b a) eqn:E; [apply Qle_refl|].
  apply Qltb_false in E. exact E.
Qed.

(** X10.  The affine-step starting point leaves every dense multiplier
    [z], with dense inequalities every [s], [t], [zt], with sparse
    constraints every [zw] (and [sw] for inequalities), and the multipliers
    [zl], [zu] of the live bounds in use, at least
    [start_affine_multiplier_min]; the design variables and bounds are not
    moved, and the barrier parameter it sets is the complementarity of the
    point it returns. *)
Theorem affine_start_keeps_multipliers_above_minimum
    {prob : ParOptProblem} {QNI : ParOptCompactQuasiNewton} {LA : Numerics}
    {K : Kernels} (st : Solver) :
  let r := startAffineStep st in
  let v := vars r in
  let d := dims st in
  let m := start_affine_multiplier_min (opts st) in
  let above := Forall (fun e => m <= e) in
  (x v = x (vars st) /\ lb v = lb (vars st) /\ ub v = ub (vars st)) /\
  above (z v) /\
  (dense_inequality d = true -> above (s v) /\ above (t v) /\ above (zt v)) /\
  ((0 < nwcon d)%nat ->
   above (zw v) /\ (sparse_inequality d = true -> above (sw v))) /\
  (use_lower d = true -> forall i, (i < nvars d)%nat ->
     - max_bound_val (opts st) < get (lb (vars st)) i -> m <= get (zl v) i) /\
  (use_upper d = true -> forall i, (i < nvars d)%nat ->
     get (ub (vars st)) i < max_bound_val (opts st) -> m <= get (zu v) i) /\
  barrier_param r = computeComp r.
Proof.
  unfold startAffineStep. cbv zeta.
  set (st0 := zeroInactiveBoundMultipliers st).
  pose proof (sameIterate_computeKKTRes 0 st0) as F1.
  destruct (computeKKTRes 0 st0) as [st1 r1]. cbn [fst] in F1.
  set (st4 := computeKKTStep _ (setUpKKTSystem _ (setUpKKTDiagSystem _ st1))).
  assert (F4 : sameIterate st0 st4).
  { apply (sameIterate_trans _ st1); [exact F1|].
    eapply sameIterate_trans; [apply sameIterate_setUpKKTDiagSystem|].
    eapply sameIterate_trans; [apply sameIterate_setUpKKTSystem|].
    apply sameIterate_computeKKTStep. }
  clearbody st4. clear F1 r1 st1.
  destruct F4 as [Ed [Eo [Ev _]]].
  change (dims st0) with (dims st) in Ed.
  change (opts st0) with (opts st) in Eo.
  assert (Ex : x (vars st0) = x (vars st) /\ lb (vars st0) = lb (vars st) /\
               ub (vars st0) = ub (vars st)) by (repeat split).
  rewrite Ev. clearbody st0. destruct Ex as [Ex [El Eu]].
  set (m := start_affine_multiplier_min (opts st)).
  set (above := Forall (fun e => m <= e)).
  assert (A : forall n vv pp,
            above (tabulate n (fun i =>
                     affine_start (opts st) (get vv i) (get pp i)))).
  { intros n vv pp. apply Forall_tabulate. intros i _.
    unfold affine_start. apply max2_lower. }
  (* the dense multipliers and slacks *)
  set (v1 := if dense_inequality (dims st) then with_zt _ _ else with_z _ _).
  assert (S1 : (x v1 = x (vars st) /\ lb v1 = lb (vars st) /\
                ub v1 = ub (vars st)) /\
               above (z v1) /\
               (dense_inequality (dims st) = true ->
                above (s v1) /\ above (t v1) /\ above (zt v1))).
  { subst v1. destruct (dense_inequality (dims st)); cbn.
    - split; [repeat split; assumption|]. split; [apply A|].
      intros _. repeat split; apply A.
    - split; [repeat split; assumption|]. split; [apply A|]. discriminate. }
  clearbody v1. destruct S1 as [[X1 [L1 U1]] [Z1 D1]].
  (* the sparse multipliers and slacks *)
  set (v2 := if (0 <? nwcon (dims st))%nat then _ else v1).
  assert (S2 : (x v2 = x (vars st) /\ lb v2 = lb (vars st) /\
                ub v2 = ub (vars st)) /\
               (z v2 = z v1 /\ s v2 = s v1 /\ t v2 = t v1 /\ zt v2 = zt v1) /\
               ((0 < nwcon (dims st))%nat ->
                above (zw v2) /\
                (sparse_inequality (dims st) = true -> above (sw v2)))).
  { subst v2. destruct (0 <? nwcon (dims st))%nat eqn:E.
    - destruct (sparse_inequality (dims st)); cbn.
      + split; [repeat split; assumption|]. split; [repeat split|].
        intros _. split; [apply A|intros _; apply A].
      + split; [repeat split; assumption|]. split; [repeat split|].
        intros _. split; [apply A|discriminate].
    - split; [repeat split; assumption|]. split; [repeat split|].
      intros H. apply Nat.ltb_lt in H. congruence. }
  clearbody v2. destruct S2 as [[X2 [L2 U2]] [[Z2 [Ss2 [T2 Zt2]]] W2]].
  (* the multipliers of the lower bounds *)
  set (v3 := if use_lower (dims st) then with_zl _ v2 else v2).
  assert (S3 : (x v3 = x v2 /\ lb v3 = lb v2 /\ ub v3 = ub v2) /\
               (z v3 = z v2 /\ s v3 = s v2 /\ t v3 = t v2 /\ zt v3 = zt v2 /\
                zw v3 = zw v2 /\ sw v3 = sw v2) /\
               (use_lower (dims st) = true ->
                forall i, (i < nvars (dims st))%nat ->
                  - max_bound_val (opts st) < get (lb (vars st)) i ->
                  m <= get (zl v3) i)).
  { subst v3. destruct (use_lower (dims st));
      cbn [x lb ub z s t zt zw sw zl zu with_zl with_zu].
    - split; [repeat split|]. split; [repeat split|].
      intros _ i Hi Hlive. rewrite get_tabulate by exact Hi.
      assert (L : live_lower (set_vars v2 st4) i = true).
      { unfold live_lower. cbn [vars set_vars opts]. rewrite Eo, L2.
        apply Qltb_true. exact Hlive. }
      rewrite L. apply max2_lower.
    - split; [repeat split|]. split; [repeat split|]. discriminate. }
  clearbody v3. destruct S3 as [[X3 [L3 U3]] [[Z3 [Ss3 [T3 [Zt3 [Zw3 Sw3]]]]] B3]].
  (* the multipliers of the upper bounds *)
  set (v4 := if use_upper (dims st) then with_zu _ v3 else v3).
  assert (S4 : (x v4 = x v3 /\ lb v4 = lb v3 /\ ub v4 = ub v3) /\
               (z v4 = z v3 /\ s v4 = s v3 /\ t v4 = t v3 /\ zt v4 = zt v3 /\
                zw v4 = zw v3 /\ sw v4 = sw v3 /\ zl v4 = zl v3) /\
               (use_upper (dims st) = true ->
                forall i, (i < nvars (dims st))%nat ->
                  get (ub (vars st)) i < max_bound_val (opts st) ->
                  m <= get (zu v4) i)).
  { subst v4. destruct (use_upper (dims st));
      cbn [x lb ub z s t zt zw sw zl zu with_zl with_zu].
    - split; [repeat split|]. split; [repeat split|].
      intros _ i Hi Hlive. rewrite get_tabulate by exact Hi.
      assert (L : live_upper (set_vars v2 st4) i = true).
      { unfold live_upper. cbn [vars set_vars opts]. rewrite Eo, U2.
        apply Qltb_true. exact Hlive. }
      rewrite L. apply max2_lower.
    - split; [repeat split|]. split; [repeat split|]. discriminate. }
  clearbody v4.
  destruct S4 as [[X4 [L4 U4]] [[Z4 [Ss4 [T4 [Zt4 [Zw4 [Sw4 Zl4]]]]]] B4]].
  cbn [vars set_vars set_barrier_param barrier_param].
  split; [repeat split; congruence|].
  split; [rewrite Z4, Z3, Z2; exact Z1|].
  split.
  { intros E. rewrite Ss4, Ss3, Ss2, T4, T3, T2, Zt4, Zt3, Zt2. exact (D1 E). }
  split.
  { intros E. rewrite Zw4, Zw3, Sw4, Sw3. exact (W2 E). }
  split.
  { intros E i Hi Hlive. rewrite Zl4. exact (B3 E i Hi Hlive). }
  split; [exact B4|reflexivity].
Qed.

(** The affine start on the small problem, whose dense constraint is an
    inequality. *)
Lemma affine_start_keeps_multipliers_above_minimum_witness :
  let st := Examples.smallSolver in
  let v := vars (startAffineStep (prob := Examples.smallProblem)
                   (LA := Examples.lapackWithInfo 0)
                   (K := Examples.descentKernels) st) in
  dense_inequality (dims st) = true /\
  Forall (fun e => start_affine_multiplier_min (opts st) <= e) (s v) /\
  Forall (fun e => start_affine_multiplier_min (opts st) <= e) (zt v).
Proof.
  intros st v.
  assert (D : dense_inequality (dims st) = true) by reflexivity.
  destruct (affine_start_keeps_multipliers_above_minimum
              (prob := Examples.smallProblem) (LA := Examples.lapackWithInfo 0)
              (K := Examples.descentKernels) st) as [_ [_ [A _]]].
  destruct (A D) as [S [_ Zt]].
  split; [exact D|]. split; [exact S|exact Zt].
Defined.

(** ** The option setters *)

Lemma Forall_get_nonneg (l : list Q) (i : nat) :
  Forall (fun e => 0 <= e) l -> 0 <= get l i.
Proof.
  intros H. unfold get. destruct (Nat.lt_ge_cases i (length l)) as [L|L].
  - apply (proj1 (Forall_forall _ l) H). apply nth_In. exact L.
  - rewrite nth_overflow by exact L. apply Qle_refl.
Qed.

Section SetterRanges.

Context {QNI : ParOptCompactQuasiNewton}.

Variable st : Solver.

Hypothesis ranges : optionRanges st.

Ltac setter_case :=
  match goal with
  | |- optionRanges (if ?c then _ else _) =>
      destruct c eqn:?; [|exact ranges]
  end;
  repeat match goal with
  | H : _ && _ = true |- _ => apply andb_true_iff in H; destruct H
  | H : Qltb _ _ = true |- _ => apply Qltb_true in H
  | H : Qgtb _ _ = true |- _ => apply Qltb_true in H
  | H : Qgeb _ _ = true |- _ => apply Qle_bool_iff in H
  | H : Qle_bool _ _ = true |- _ => apply Qle_bool_iff in H
  | H : (_ <=? _)%Z = true |- _ => apply Z.leb_le in H
  | H : (_ <? _)%Z = true |- _ => apply Z.ltb_lt in H
  end;
  destruct ranges as [R1 [R2 [R3 [R4 [R5 [R6 [R7 [R8 [R9 [R10 [R11 [R12
    [R13 [R14 [R15 R16]]]]]]]]]]]]]]];
  unfold optionRanges; cbn;
  repeat split; try assumption; try tauto; try lia.

Lemma setMaxMajorIterations_ranges iters :
  optionRanges (setMaxMajorIterations iters st).
Proof. unfold setMaxMajorIterations. setter_case. Qed.

Lemma setAbsOptimalityTol_ranges tol : optionRanges (setAbsOptimalityTol tol st).
Proof. unfold setAbsOptimalityTol. setter_case. Qed.

Lemma setRelFunctionTol_ranges tol : optionRanges (setRelFunctionTol tol st).
Proof. unfold setRelFunctionTol. setter_case. Qed.

Lemma setAbsStepTol_ranges tol : optionRanges (setAbsStepTol tol st).
Proof. unfold setAbsStepTol. setter_case. Qed.

Lemma setInitBarrierParameter_ranges mu :
  optionRanges (setInitBarrierParameter mu st).
Proof. unfold setInitBarrierParameter. setter_case. Qed.

Lemma setRelativeBarrier_ranges rel : optionRanges (setRelativeBarrier rel st).
Proof. unfold setRelativeBarrier. setter_case. Qed.

Lemma setBarrierFraction_ranges frac : optionRanges (setBarrierFraction frac st).
Proof. unfold setBarrierFraction. setter_case. Qed.

Lemma setBarrierPower_ranges power : optionRanges (setBarrierPower power st).
Proof. unfold setBarrierPower. setter_case. Qed.

Lemma setPenaltyGamma_ranges gamma : optionRanges (setPenaltyGamma gamma st).
Proof.
  unfold setPenaltyGamma. setter_case.
  apply Forall_tabulate. intros. assumption.
Qed.

Lemma setPenaltyGammaArray_ranges gamma :
  optionRanges (setPenaltyGammaArray gamma st).
Proof.
  unfold setPenaltyGammaArray.
  destruct ranges as [R1 [R2 [R3 [R4 [R5 [R6 [R7 [R8 [R9 [R10 [R11 [R12
    [R13 [R14 [R15 R16]]]]]]]]]]]]]]].
  unfold optionRanges; cbn. repeat split; try assumption; try tauto.
  apply Forall_tabulate. intros i _.
  destruct (Qgeb (get gamma i) 0) eqn:E.
  - apply Qle_bool_iff in E. exact E.
  - apply Forall_get_nonneg. exact R16.
Qed.

Lemma setHessianResetFreq_ranges freq :
  optionRanges (setHessianResetFreq freq st).
Proof. unfold setHessianResetFreq. setter_case. Qed.

Lemma setQNDiagonalFactor_ranges sigma :
  optionRanges (setQNDiagonalFactor sigma st).
Proof. unfold setQNDiagonalFactor. setter_case. Qed.

Lemma setMaxLineSearchIters_ranges iters :
  optionRanges (setMaxLineSearchIters iters st).
Proof. unfold setMaxLineSearchIters. setter_case. Qed.

Lemma setArmijoParam_ranges c1 : optionRanges (setArmijoParam c1 st).
Proof. unfold setArmijoParam. setter_case. Qed.

Lemma setMinPenaltyParameter_ranges rho_min :
  optionRanges (setMinPenaltyParameter rho_min st).
Proof. unfold setMinPenaltyParameter. setter_case. Qed.

Lemma setEisenstatWalkerParameters_ranges gamma alpha :
  optionRanges (setEisenstatWalkerParameters gamma alpha st).
Proof.
  unfold setEisenstatWalkerParameters.
  destruct ranges as [R1 [R2 [R3 [R4 [R5 [R6 [R7 [R8 [R9 [R10 [R11 [R12
    [R13 [R14 [R15 R16]]]]]]]]]]]]]]].
  destruct (Qgtb gamma 0 && Qle_bool gamma 1) eqn:E1;
    destruct (Qgeb alpha 0 && Qle_bool gamma 2) eqn:E2;
    repeat match goal with
    | H : _ && _ = true |- _ => apply andb_true_iff in H; destruct H
    | H : Qgtb _ _ = true |- _ => apply Qltb_true in H
    | H : Qgeb _ _ = true |- _ => apply Qle_bool_iff in H
    | H : Qle_bool _ _ = true |- _ => apply Qle_bool_iff in H
    end;
    unfold optionRanges; cbn; repeat split; try assumption; try tauto.
Qed.

End SetterRanges.

(** X11.  The validating setters keep the options in their ranges
    whatever argument they are given: an argument outside the accepted
    range is ignored.  The ranges are [max_major_iters >= 1],
    [0 <= abs_res_tol, rel_func_tol, abs_step_tol < 0.01],
    [barrier_param > 0], [rel_bound_barrier > 0],
    [0 < monotone_barrier_fraction < 1], [1 <= monotone_barrier_power < 10],
    [hessian_reset_freq > 0], [qn_sigma >= 0], [max_line_iters > 0],
    [armijo_constant >= 0], [min_rho_penalty_search >= 0],
    [0 < eisenstat_walker_gamma <= 1], [eisenstat_walker_alpha >= 0] and
    [penalty_gamma[i] >= 0]. *)
Theorem validating_setters_keep_option_ranges
    {QNI : ParOptCompactQuasiNewton} (st : Solver) :
  optionRanges st ->
  (forall iters, optionRanges (setMaxMajorIterations iters st)) /\
  (forall tol, optionRanges (setAbsOptimalityTol tol st)) /\
  (forall tol, optionRanges (setRelFunctionTol tol st)) /\
  (forall tol, optionRanges (setAbsStepTol tol st)) /\
  (forall mu, optionRanges (setInitBarrierParameter mu st)) /\
  (forall rel, optionRanges (setRelativeBarrier rel st)) /\
  (forall frac, optionRanges (setBarrierFraction frac st)) /\
  (forall power, optionRanges (setBarrierPower power st)) /\
  (forall gamma, optionRanges (setPenaltyGamma gamma st)) /\
  (forall gamma, optionRanges (setPenaltyGammaArray gamma st)) /\
  (forall freq, optionRanges (setHessianResetFreq freq st)) /\
  (forall sigma, optionRanges (setQNDiagonalFactor sigma st)) /\
  (forall iters, optionRanges (setMaxLineSearchIters iters st)) /\
  (forall c1, optionRanges (setArmijoParam c1 st)) /\
  (forall rho_min, optionRanges (setMinPenaltyParameter rho_min st)) /\
  (forall gamma alpha,
     optionRanges (setEisenstatWalkerParameters gamma alpha st)).
Proof.
  intros R.
  split; [intros; apply setMaxMajorIterations_ranges; exact R|].
  split; [intros; apply setAbsOptimalityTol_ranges; exact R|].
  split; [intros; apply setRelFunctionTol_ranges; exact R|].
  split; [intros; apply setAbsStepTol_ranges; exact R|].
  split; [intros; apply setInitBarrierParameter_ranges; exact R|].
  split; [intros; apply setRelativeBarrier_ranges; exact R|].
  split; [intros; apply setBarrierFraction_ranges; exact R|].
  split; [intros; apply setBarrierPower_ranges; exact R|].
  split; [intros; apply setPenaltyGamma_ranges; exact R|].
  split; [intros; apply setPenaltyGammaArray_ranges; exact R|].
  split; [intros; apply setHessianResetFreq_ranges; exact R|].
  split; [intros; apply setQNDiagonalFactor_ranges; exact R|].
  split; [intros; apply setMaxLineSearchIters_ranges; exact R|].
  split; [intros; apply setArmijoParam_ranges; exact R|].
  split; [intros; apply setMinPenaltyParameter_ranges; exact R|].
  intros; apply setEisenstatWalkerParameters_ranges; exact R.
Qed.

Lemma smallSolver_optionRanges : optionRanges Examples.smallSolver.
Proof.
  unfold optionRanges. cbn.
  repeat split; try lia; try (vm_compute; discriminate);
    try (vm_compute; reflexivity).
  repeat constructor; vm_compute; discriminate.
Qed.

(** The constructor's options are in range, and stay so when the
    tolerance 1, the barrier fraction 2 and the iteration limit 0 are
    refused. *)
Lemma validating_setters_keep_option_ranges_witness :
  let st := Examples.smallSolver in
  optionRanges st /\
  optionRanges (setAbsOptimalityTol 1 st) /\
  abs_res_tol (opts (setAbsOptimalityTol 1 st)) = 1e-5 /\
  optionRanges (setBarrierFraction 2 st) /\
  optionRanges (setMaxMajorIterations 0 st).
Proof.
  intros st.
  destruct (validating_setters_keep_option_ranges st smallSolver_optionRanges)
    as [A [B [_ [_ [_ [_ [C _]]]]]]].
  split; [exact smallSolver_optionRanges|].
  split; [apply B|]. split; [reflexivity|].
  split; [apply C|apply A].
Defined.

(** X12.  After [setUseDiagHessian] or [setUseHvecProduct], whatever the
    argument and the earlier settings, the diagonal Hessian and the
    Hessian-vector products are never both switched on.  If [hdiag] was
    allocated whenever the diagonal Hessian was on, it still is after
    either call: switching the diagonal Hessian on allocates it, switching
    the Hessian-vector products on turns the diagonal Hessian off before
    freeing it. *)
Theorem diagonal_hessian_and_hvec_product_exclude_each_other
    {QNI : ParOptCompactQuasiNewton}
    (new_vec : list Q) (truth : bool) (st : Solver) :
  let a := setUseDiagHessian new_vec truth st in
  let b := setUseHvecProduct truth st in
  use_diag_hessian (opts a) && use_hvec_product (opts a) = false /\
  use_diag_hessian (opts b) && use_hvec_product (opts b) = false /\
  use_diag_hessian (opts a) = truth /\ use_hvec_product (opts b) = truth /\
  ((use_diag_hessian (opts st) = true -> hdiag st <> None) ->
   (use_diag_hessian (opts a) = true -> hdiag a <> None) /\
   (use_diag_hessian (opts b) = true -> hdiag b <> None)).
Proof.
  intros a b. subst a b. unfold setUseDiagHessian, setUseHvecProduct.
  destruct truth;
    cbn [set_opts set_hdiag opts hdiag with_use_diag_hessian
         with_use_hvec_product use_diag_hessian use_hvec_product andb].
  - split; [reflexivity|]. split; [reflexivity|].
    split; [reflexivity|]. split; [reflexivity|].
    intros _. split; [|intros H; discriminate H].
    intros _. destruct (hdiag st) eqn:E; cbn [hdiag set_hdiag];
      rewrite ?E; intros H; discriminate H.
  - split; [reflexivity|]. split; [apply andb_false_r|].
    split; [reflexivity|]. split; [reflexivity|].
    intros H. split; [intros H'; discriminate H'|exact H].
Qed.

(** Switching the diagonal Hessian on for the small problem allocates
    [hdiag]. *)
Lemma diagonal_hessian_and_hvec_product_exclude_each_other_witness :
  let st := Examples.smallSolver in
  let a := setUseDiagHessian [0] true st in
  (use_diag_hessian (opts st) = true -> hdiag st <> None) /\
  use_diag_hessian (opts a) = true /\ hdiag a <> None /\
  use_hvec_product (opts a) = false.
Proof.
  intros st a.
  assert (H : use_diag_hessian (opts st) = true -> hdiag st <> None)
    by (intros E; discriminate E).
  destruct (diagonal_hessian_and_hvec_product_exclude_each_other [0] true st)
    as [_ [_ [T [_ I]]]].
  destruct (I H) as [A _].
  split; [exact H|]. split; [exact T|]. split; [exact (A T)|reflexivity].
Defined.

(** X13.  With [0 < monotone_barrier_fraction < 1], a positive barrier
    parameter [mu] that is at least [0.1*abs_res_tol] is strictly
    decreased by the monotone update, whatever [pow] returns; the new
    value is either at least [0.1*abs_res_tol] or the final value
    [0.09999*abs_res_tol]. *)
Theorem monotone_update_strictly_decreases_barrier
    {LA : Numerics} (o : Options) (mu : Q) :
  0 < monotone_barrier_fraction o -> monotone_barrier_fraction o < 1 ->
  0 < mu -> 0.1 * abs_res_tol o <= mu ->
  monotoneBarrier o mu < mu /\
  (0.1 * abs_res_tol o <= monotoneBarrier o mu \/
   monotoneBarrier o mu = 0.09999 * abs_res_tol o).
Proof.
  intros F1 F2 Hmu Htol. unfold monotoneBarrier. cbv zeta.
  assert (Hf : monotone_barrier_fraction o * mu < mu).
  { assert (H : monotone_barrier_fraction o * mu < 1 * mu)
      by (apply Qmult_lt_compat_r; assumption).
    lra. }
  set (cand := if Qltb (pow mu (monotone_barrier_power o)) _ then _ else _).
  assert (Hc : cand <= monotone_barrier_fraction o * mu).
  { unfold cand. destruct (Qltb _ _) eqn:E; [|apply Qle_refl].
    apply Qltb_true in E. lra. }
  clearbody cand.
  destruct (Qltb cand (0.1 * abs_res_tol o)) eqn:E.
  - split; [|right; reflexivity].
    destruct (Qlt_le_dec 0 (abs_res_tol o)); lra.
  - apply Qltb_false in E. split; [lra|left; exact E].
Qed.

(** The constructor's fraction 0.25 and tolerance 1e-5: from
    [mu = 0.1] the update gives a smaller value. *)
Lemma monotone_update_strictly_decreases_barrier_witness :
  let o := default_options 1e20 1 in
  0 < monotone_barrier_fraction o /\ monotone_barrier_fraction o < 1 /\
  0 < 0.1 /\ 0.1 * abs_res_tol o <= 0.1 /\
  monotoneBarrier (LA := Examples.lapackWithInfo 0) o 0.1 < 0.1.
Proof.
  intros o.
  assert (F1 : 0 < monotone_barrier_fraction o) by reflexivity.
  assert (F2 : monotone_barrier_fraction o < 1) by reflexivity.
  assert (M : 0 < 0.1) by reflexivity.
  assert (T : 0.1 * abs_res_tol o <= 0.1) by (vm_compute; discriminate).
  split; [exact F1|]. split; [exact F2|]. split; [exact M|]. split; [exact T|].
  apply (monotone_update_strictly_decreases_barrier
           (LA := Examples.lapackWithInfo 0) o 0.1 F1 F2 M T).
Defined.

(** ** The line search *)

Section LineSearchBudget.

Context {prob : ParOptProblem} {QNI : ParOptCompactQuasiNewton} {LA : Numerics}.
Context {K : Kernels}.

Lemma sameStepData_refl (st : Solver) : sameStepData st st.
Proof. repeat split. Qed.

Lemma sameStepData_trans (a b c : Solver) :
  sameStepData a b -> sameStepData b c -> sameStepData a c.
Proof.
  intros [[A1 [A2 [A3 A4]]] [A5 [A6 [A7 [A8 [A9 [A10 A11]]]]]]]
         [[B1 [B2 [B3 B4]]] [B5 [B6 [B7 [B8 [B9 [B10 B11]]]]]]].
  repeat split; congruence.
Qed.

(** One trial of the line search: the trial point is written to the
    residual buffers and the objective is evaluated there once. *)
Lemma trial_evaluation (alpha : Q) (st : Solver) :
  let r := call_evalObjCon (rx (resid (trialPoint alpha st)))
             (trialPoint alpha st) in
  sameStepData st (snd r) /\
  neval (evals (snd r)) = S (neval (evals st)).
Proof.
  unfold call_evalObjCon. destruct (evalObjCon _) as [[fail_obj f] cv].
  cbn [snd]. unfold trialPoint. cbv zeta.
  split; [repeat split|reflexivity].
Qed.

Lemma lineSearchLoop_budget (n : nat) (alpha_min m0 dm0 : Q) (l : LineState) :
  let r := snd (lineSearchLoop n alpha_min m0 dm0 l) in
  sameStepData (ls_solver l) (ls_solver r) /\
  (neval (evals (ls_solver r)) <= neval (evals (ls_solver l)) + n)%nat /\
  ((0 < n)%nat ->
   (neval (evals (ls_solver l)) < neval (evals (ls_solver r)))%nat).
Proof.
  revert l. induction n as [|n IH]; intros l; cbn [lineSearchLoop].
  - cbn [snd]. split; [apply sameStepData_refl|]. split; lia.
  - destruct (trial_evaluation (ls_alpha l) (ls_solver l)) as [Hs Hn].
    destruct (call_evalObjCon _ _) as [fail_obj st1]. cbn [snd] in Hs, Hn.
    assert (Step : forall l', ls_solver l' = st1 ->
              let r := snd (lineSearchLoop n alpha_min m0 dm0 l') in
              sameStepData (ls_solver l) (ls_solver r) /\
              (neval (evals (ls_solver r)) <=
               neval (evals (ls_solver l)) + S n)%nat /\
              ((0 < S n)%nat ->
               (neval (evals (ls_solver l)) < neval (evals (ls_solver r)))%nat)).
    { intros l' El. destruct (IH l') as [A [B C]]. rewrite El in A, B.
      split; [apply (sameStepData_trans _ st1); assumption|].
      split; [lia|]. intros _.
      destruct n; [cbn [lineSearchLoop snd]; rewrite El; lia|].
      specialize (C ltac:(lia)). rewrite El in C. lia. }
    assert (Stop : forall a f bm ba me,
              sameStepData (ls_solver l)
                (ls_solver (mkLineState a f bm ba me st1)) /\
              (neval (evals (ls_solver (mkLineState a f bm ba me st1))) <=
               neval (evals (ls_solver l)) + S n)%nat /\
              ((0 < S n)%nat ->
               (neval (evals (ls_solver l)) <
                neval (evals (ls_solver (mkLineState a f bm ba me st1))))%nat)).
    { intros. cbn [ls_solver]. split; [exact Hs|]. split; lia. }
    destruct (negb (fail_obj =? 0)%Z); [apply Step; reflexivity|].
    set (merit := evalMeritFunc _ _ _ _ _ _ _).
    set (best := if Qltb (ls_best_alpha l) 0 || Qltb merit (ls_best_merit l)
                 then _ else _).
    destruct best as [best_alpha best_merit].
    destruct (Qltb (merit - _) _); [apply Stop|].
    destruct (has_flag (ls_fail l) PAROPT_LINE_SEARCH_MIN_STEP); [apply Stop|].
    set (next := match n with O => _ | S _ => _ end).
    destruct next as [al fl]. apply Step. reflexivity.
Qed.

End LineSearchBudget.

Lemma lineSearch_evaluation_frame
    {prob : ParOptProblem} {QNI : ParOptCompactQuasiNewton} {LA : Numerics}
    {K : Kernels}
    (alpha_min alpha m0 dm0 : Q) (st : Solver) :
  let st' := snd (lineSearch alpha_min alpha m0 dm0 st) in
  sameStepData st st' /\
  (neval (evals st') <= neval (evals st) + max_line_iters (opts st) + 1)%nat /\
  ((0 < max_line_iters (opts st))%nat ->
   (neval (evals st) < neval (evals st'))%nat).
Proof.
  unfold lineSearch.
  destruct (lineSearchLoop_budget (max_line_iters (opts st)) alpha_min m0 dm0
              (mkLineState alpha PAROPT_LINE_SEARCH_FAILURE 0 (-1) 0 st))
    as [Hs [Hn Hp]].
  destruct (lineSearchLoop _ _ _ _ _) as [broke l].
  cbn [snd ls_solver] in Hs, Hn, Hp.
  destruct (negb (has_flag _ PAROPT_LINE_SEARCH_SUCCESS)).
  - destruct (negb (Qeq_bool (ls_alpha l) (ls_best_alpha l))).
    + destruct (trial_evaluation (ls_best_alpha l) (ls_solver l)) as [Ht He].
      destruct (call_evalObjCon _ _) as [fail_obj st1]. cbn [snd] in Ht, He.
      assert (G : sameStepData st st1 /\
                  (neval (evals st1) <=
                   neval (evals st) + max_line_iters (opts st) + 1)%nat /\
                  ((0 < max_line_iters (opts st))%nat ->
                   (neval (evals st) < neval (evals st1))%nat)).
      { split; [apply (sameStepData_trans _ (ls_solver l)); assumption|].
        split; [lia|]. intros H. specialize (Hp H). lia. }
      destruct (negb (fail_obj =? 0)%Z); cbn [snd]; exact G.
    + cbn [snd]. split; [exact Hs|]. split; [lia|exact Hp].
  - cbn [snd]. split; [exact Hs|]. split; [lia|exact Hp].
Qed.

(** X14.  [lineSearch] moves nothing but the trial buffers and the
    objective and constraint values: the variables, the options, the
    barrier parameter, the step, the factored matrices, the quasi-Newton
    approximation, the penalty parameter and the gradients are those it
    was called with, and no gradient is evaluated.  It evaluates the
    objective at most [max_line_iters + 1] times, and at least once when
    [max_line_iters > 0]. *)
Theorem lineSearch_evaluation_budget
    {prob : ParOptProblem} {QNI : ParOptCompactQuasiNewton} {LA : Numerics}
    {K : Kernels} (alpha_min alpha m0 dm0 : Q) (st : Solver) :
  let st' := snd (lineSearch alpha_min alpha m0 dm0 st) in
  sameStepData st st' /\
  (neval (evals st') <= neval (evals st) + max_line_iters (opts st) + 1)%nat /\
  ((0 < max_line_iters (opts st))%nat ->
   (neval (evals st) < neval (evals st'))%nat).
Proof. exact (lineSearch_evaluation_frame alpha_min alpha m0 dm0 st). Qed.

(** With the constructor's limit of 10 trials. *)
Lemma lineSearch_evaluation_budget_witness :
  let st := Examples.smallSolver in
  let st' := snd (lineSearch (prob := Examples.smallProblem)
                    (LA := Examples.lapackWithInfo 0)
                    (K := Examples.descentKernels) 0.5 1 1 (-1) st) in
  (0 < max_line_iters (opts st))%nat /\
  vars st' = vars st /\
  (neval (evals st) < neval (evals st'))%nat /\
  (neval (evals st') <= neval (evals st) + 11)%nat.
Proof.
  intros st st'.
  assert (P : (0 < max_line_iters (opts st))%nat) by (cbn; lia).
  destruct (lineSearch_evaluation_budget (prob := Examples.smallProblem)
              (LA := Examples.lapackWithInfo 0)
              (K := Examples.descentKernels) 0.5 1 1 (-1) st)
    as [[[_ [_ [V _]]] _] [B L]].
  split; [exact P|]. split; [exact V|]. split; [exact (L P)|exact B].
Defined.

Section LineSearchOutcome.

Context {prob : ParOptProblem} {QNI : ParOptCompactQuasiNewton} {LA : Numerics}.
Context {K : Kernels}.

Lemma lineSearchLoop_outcome (n : nat) (alpha_min m0 dm0 : Q) (l : LineState) :
  Z.testbit (ls_fail l) BIT_SUCCESS = negb (Z.testbit (ls_fail l) BIT_FAILURE) ->
  let r := snd (lineSearchLoop n alpha_min m0 dm0 l) in
  Z.testbit (ls_fail r) BIT_SUCCESS = negb (Z.testbit (ls_fail r) BIT_FAILURE).
Proof.
  revert l. induction n as [|n IH]; intros l Hl; cbn [lineSearchLoop].
  - exact Hl.
  - destruct (call_evalObjCon _ _) as [fail_obj st1].
    destruct (negb (fail_obj =? 0)%Z).
    + apply (IH (mkLineState (ls_alpha l * 0.1) (ls_fail l)
                   (ls_best_merit l) (ls_best_alpha l) (ls_merit l) st1) Hl).
    + set (merit := evalMeritFunc _ _ _ _ _ _ _).
      set (best := if Qltb (ls_best_alpha l) 0 || Qltb merit (ls_best_merit l)
                   then _ else _).
      destruct best as [best_alpha best_merit].
      destruct (Qltb (merit - _) _).
      { destruct (has_flag (ls_fail l) PAROPT_LINE_SEARCH_MIN_STEP);
          reflexivity. }
      destruct (has_flag (ls_fail l) PAROPT_LINE_SEARCH_MIN_STEP);
        [exact Hl|].
      set (next := match n with O => _ | S _ => _ end).
      assert (Hp : Z.testbit (snd next) BIT_SUCCESS =
                   negb (Z.testbit (snd next) BIT_FAILURE)).
      { unfold next. destruct n; [exact Hl|].
        destruct (use_backtracking_alpha (opts st1)).
        - destruct (Qle_bool _ _); cbn [snd]; [|exact Hl].
          rewrite !Z.lor_spec, Hl.
          change (Z.testbit PAROPT_LINE_SEARCH_MIN_STEP BIT_SUCCESS) with false.
          change (Z.testbit PAROPT_LINE_SEARCH_MIN_STEP BIT_FAILURE) with false.
          rewrite !orb_false_r. reflexivity.
        - destruct (Qle_bool _ _); cbn [snd].
          + rewrite !Z.lor_spec, Hl.
            change (Z.testbit PAROPT_LINE_SEARCH_MIN_STEP BIT_SUCCESS) with false.
            change (Z.testbit PAROPT_LINE_SEARCH_MIN_STEP BIT_FAILURE) with false.
            rewrite !orb_false_r. reflexivity.
          + destruct (Qltb _ _); exact Hl. }
      destruct next as [al fl]. cbn [snd] in Hp.
      apply (IH (mkLineState al fl best_merit best_alpha merit st1) Hp).
Qed.

End LineSearchOutcome.

Lemma has_flag_success (fail : Z) :
  has_flag fail PAROPT_LINE_SEARCH_SUCCESS = Z.testbit fail BIT_SUCCESS.
Proof. apply has_flag_testbit. unfold BIT_SUCCESS. lia. Qed.

Lemma has_flag_failure (fail : Z) :
  has_flag fail PAROPT_LINE_SEARCH_FAILURE = Z.testbit fail BIT_FAILURE.
Proof. apply has_flag_testbit. unfold BIT_FAILURE. lia. Qed.

(** X15.  With the outcome flags as distinct single bits, the flag word
    [lineSearch] returns carries exactly one of SUCCESS and FAILURE,
    whatever other flags (MIN_STEP, MAX_ITERS, NO_IMPROVEMENT) it
    carries. *)
Theorem lineSearch_reports_success_or_failure
    {prob : ParOptProblem} {QNI : ParOptCompactQuasiNewton} {LA : Numerics}
    {K : Kernels}
    (alpha_min alpha m0 dm0 : Q) (st : Solver) :
  let fail := fst (fst (lineSearch alpha_min alpha m0 dm0 st)) in
  has_flag fail PAROPT_LINE_SEARCH_SUCCESS =
  negb (has_flag fail PAROPT_LINE_SEARCH_FAILURE).
Proof.
  cbv zeta. rewrite has_flag_success, has_flag_failure.
  unfold lineSearch.
  pose proof (lineSearchLoop_outcome (max_line_iters (opts st)) alpha_min m0 dm0
                (mkLineState alpha PAROPT_LINE_SEARCH_FAILURE 0 (-1) 0 st)
                eq_refl) as Hf.
  destruct (lineSearchLoop _ _ _ _ _) as [broke l].
  cbn [snd] in Hf.
  set (fail1 := if broke then ls_fail l
                else Z.lor (ls_fail l) PAROPT_LINE_SEARCH_MAX_ITERS).
  assert (H1 : Z.testbit fail1 BIT_SUCCESS = negb (Z.testbit fail1 BIT_FAILURE)).
  { unfold fail1. destruct broke; [exact Hf|].
    rewrite !Z.lor_spec, Hf.
    change (Z.testbit PAROPT_LINE_SEARCH_MAX_ITERS BIT_SUCCESS) with false.
    change (Z.testbit PAROPT_LINE_SEARCH_MAX_ITERS BIT_FAILURE) with false.
    rewrite !orb_false_r. reflexivity. }
  clearbody fail1.
  set (fail2 := if Qle_bool (ls_best_merit l) _ then _ else _).
  assert (H2 : Z.testbit fail2 BIT_SUCCESS = negb (Z.testbit fail2 BIT_FAILURE)).
  { unfold fail2. destruct (Qle_bool _ _).
    - rewrite !Z.land_spec, !Z.lor_spec.
      rewrite !Z.lnot_spec by (unfold BIT_SUCCESS, BIT_FAILURE; lia).
      change (Z.testbit PAROPT_LINE_SEARCH_SUCCESS BIT_SUCCESS) with true.
      change (Z.testbit PAROPT_LINE_SEARCH_SUCCESS BIT_FAILURE) with false.
      change (Z.testbit PAROPT_LINE_SEARCH_FAILURE BIT_SUCCESS) with false.
      change (Z.testbit PAROPT_LINE_SEARCH_FAILURE BIT_FAILURE) with true.
      cbn [negb]. rewrite orb_true_r, andb_false_r. reflexivity.
    - destruct (no_change_guard _ _ _); [|exact H1].
      rewrite !Z.lor_spec, H1.
      change (Z.testbit PAROPT_LINE_SEARCH_NO_IMPROVEMENT BIT_SUCCESS) with false.
      change (Z.testbit PAROPT_LINE_SEARCH_NO_IMPROVEMENT BIT_FAILURE) with false.
      rewrite !orb_false_r. reflexivity. }
  clearbody fail2.
  destruct (negb (has_flag fail1 PAROPT_LINE_SEARCH_SUCCESS)).
  - destruct (negb (Qeq_bool (ls_alpha l) (ls_best_alpha l))).
    + destruct (call_evalObjCon _ _) as [fail_obj st1].
      destruct (negb (fail_obj =? 0)%Z); cbn [fst]; [reflexivity|exact H2].
    + cbn [fst]. exact H2.
  - cbn [fst]. exact H1.
Qed.

(** ** The loop of major iterations *)

Section DriverFrame.

Context {prob : ParOptProblem} {QNI : ParOptCompactQuasiNewton} {LA : Numerics}.
Context {K : Kernels}.

Lemma opts_lineSearchStage k l b f' ins sl st :
  opts (so_solver (lineSearchStage k l b f' ins sl st)) = opts st.
Proof.
  unfold lineSearchStage.
  set (tau := if Qgeb (1 - barrier_param st) _ then _ else _).
  pose proof (opts_scaleKKTStep tau (comp b) ins st) as H1.
  destruct (scaleKKTStep tau (comp b) ins st) as [[[ceq ax] az] st1].
  cbn [snd] in H1.
  destruct (use_line_search (opts st)).
  - pose proof (opts_evalMeritInitDeriv ax st1) as H2.
    destruct (evalMeritInitDeriv ax st1) as [[m0 dm0] st2]. cbn [snd] in H2.
    rewrite H1 in H2.
    destruct (Qgeb dm0 0 && Qle_bool dm0 (function_precision (opts st))).
    + pose proof (opts_computeStepAndUpdate 1 true true st2) as H3.
      destruct (computeStepAndUpdate 1 true true st2) as [upd st3].
      cbn [snd so_solver] in *. congruence.
    + set (redo := if Qgeb dm0 0 then _ else _).
      assert (Hr : opts (snd redo) = opts st).
      { unfold redo. destruct (Qgeb dm0 0); [|exact H2].
        match goal with
        | |- context [scaleKKTStep tau (comp b) false ?s0] =>
            pose proof (opts_scaleKKTStep tau (comp b) false s0) as H3;
            destruct (scaleKKTStep tau (comp b) false s0) as [[[c3 ax3] az3] st3]
        end.
        cbn [snd] in H3.
        pose proof (opts_evalMeritInitDeriv ax3 st3) as H4.
        destruct (evalMeritInitDeriv ax3 st3) as [[m4 dm4] st4].
        cbn [snd] in H4 |- *. rewrite H4, H3.
        rewrite opts_computeKKTStep, opts_setUpKKTSystem,
          opts_setUpKKTDiagSystem, opts_computeKKTRes. exact H2. }
      destruct redo as [[[[[[sl5 c5] ax5] az5] m5] dm5] st5]. cbn [snd] in Hr.
      set (st6 := if (0 <? major_iter_step_check (opts st))%Z && _ then _ else st5).
      assert (H6 : opts st6 = opts st).
      { unfold st6. destruct (_ && _); [|exact Hr].
        rewrite opts_checkMeritFuncGradient. exact Hr. }
      destruct (Qgeb dm5 0); [exact H6|].
      match goal with
      | |- context [lineSearch ?am 1 m5 dm5 st6] =>
          pose proof (lineSearch_opts am 1 m5 dm5 st6) as Hl;
          destruct (lineSearch am 1 m5 dm5 st6) as [[lf al] st7]
      end.
      cbn [snd] in Hl.
      destruct (negb (has_flag lf PAROPT_LINE_SEARCH_FAILURE)).
      * pose proof (opts_computeStepAndUpdate al false true st7) as H8.
        destruct (computeStepAndUpdate al false true st7).
        cbn [snd so_solver] in *. congruence.
      * cbn [so_solver]. congruence.
  - pose proof (opts_computeStepAndUpdate 1 true true st1) as H3.
    destruct (computeStepAndUpdate 1 true true st1).
    cbn [snd so_solver] in *. congruence.
Qed.

(** How a pass ends after the convergence test: it goes on with the same
    options, file system and checkpoint name, or it returns the nonzero
    code of [evalHessianDiag], which is called only when the diagonal
    Hessian is switched on. *)
Lemma stepStage_ends k l b :
  match stepStage k l b with
  | Converged _ _ => False
  | Returned code _ fs =>
      use_diag_hessian (opts (bs_solver b)) = true /\ code <> 0%Z /\
      fs = fsys l
  | Continue l' _ =>
      opts (solver l') = opts (bs_solver b) /\ fsys l' = fsys l /\
      checkpoint l' = checkpoint l
  end.
Proof.
  unfold stepStage.
  pose proof (opts_newtonKrylovStep l b) as Hn.
  destruct (newtonKrylovStep l b) as [[[gm ins] sn] st1]. cbn [snd] in Hn.
  set (q := if negb ins then _ else _).
  assert (Hq : match q with
               | inl (code, _) =>
                   use_diag_hessian (opts st1) = true /\ code <> 0%Z
               | inr (st', _, _) => opts st' = opts st1
               end).
  { unfold q. destruct (negb ins); [|reflexivity].
    pose proof (opts_quasiNewtonStep l b st1 sn) as Ho.
    unfold quasiNewtonStep in *. cbv zeta in *.
    set (hd := if negb _ && use_diag_hessian (opts st1) then _ else _) in *.
    assert (Hd : fst hd <> 0%Z -> use_diag_hessian (opts st1) = true).
    { unfold hd. destruct (negb _ && use_diag_hessian (opts st1)) eqn:E.
      - intros _. apply andb_true_iff in E. apply E.
      - cbn [fst]. intros H. contradiction H. reflexivity. }
    destruct (negb (fst hd =? 0)%Z) eqn:E.
    - apply negb_true_iff, Z.eqb_neq in E. destruct hd as [code st2].
      cbn [fst] in *. split; [apply Hd; exact E|exact E].
    - exact Ho. }
  destruct q as [[code st2]|[[st2 sn2] sl2]].
  - rewrite <- Hn. destruct Hq as [Hq1 Hq2]. repeat split; assumption.
  - cbn [solver fsys checkpoint]. split; [|split; reflexivity].
    set (st3 := if (0 <? major_iter_step_check (opts st1))%Z && _ then _ else st2).
    assert (H3 : opts st3 = opts st1).
    { unfold st3. destruct (_ && _); rewrite ?opts_checkKKTStep; exact Hq. }
    pose proof (opts_lineSearchStage k l b (fobj (evals st1)) ins sl2 st3) as H4.
    destruct (use_quasi_newton_update (opts st1) && _);
      rewrite ?opts_reset_qn; congruence.
Qed.

(** The checkpoint part of the head of a pass: nothing is written without
    a checkpoint name, to a file that cannot be opened, or when the output
    frequency is not positive. *)
Lemma iterationHead_files k l :
  let h := iterationHead k l in
  (checkpoint l = None -> fsys h = fsys l /\ checkpoint h = None) /\
  (forall name, checkpoint l = Some name -> writable (fsys l) name = false ->
     fsys h = fsys l /\ (checkpoint h = None \/ checkpoint h = Some name)) /\
  ((write_output_frequency (opts (solver l)) <= 0)%Z ->
   fsys h = fsys l /\ checkpoint h = checkpoint l).
Proof.
  unfold iterationHead. cbv zeta.
  set (cond := (0 <? write_output_frequency (opts (solver l)))%Z && _).
  split; [|split].
  - intros E. rewrite E. destruct cond; cbn [fsys checkpoint]; split; reflexivity.
  - intros name E W. rewrite E. destruct cond.
    + unfold writeSolutionFile, open_write. rewrite W.
      cbn [negb Z.eqb fsys checkpoint]. split; [reflexivity|left; reflexivity].
    + cbn [fsys checkpoint]. split; [reflexivity|right; reflexivity].
  - intros F. assert (C : cond = false).
    { unfold cond. apply andb_false_iff. left. apply Z.ltb_ge. exact F. }
    rewrite C. cbn [fsys checkpoint]. split; reflexivity.
Qed.

Lemma majorIteration_ends k l :
  match majorIteration k l with
  | Converged _ fs => fs = fsys (iterationHead k l)
  | Returned code _ fs =>
      use_diag_hessian (opts (solver l)) = true /\ code <> 0%Z /\
      fs = fsys (iterationHead k l)
  | Continue l' _ =>
      opts (solver l') = opts (solver l) /\
      fsys l' = fsys (iterationHead k l) /\
      checkpoint l' = checkpoint (iterationHead k l)
  end.
Proof.
  unfold majorIteration. cbv zeta.
  destruct (converged k (barrierStage k (iterationHead k l)));
    [reflexivity|].
  pose proof (stepStage_ends k (iterationHead k l)
                (barrierStage k (iterationHead k l))) as H.
  rewrite opts_barrierStage, opts_iterationHead in H.
  destruct (stepStage _ _ _); [contradiction|exact H|exact H].
Qed.

(** The condition under which no checkpoint is written. *)
Lemma majorLoop_ends (n k : nat) (l : LoopState) :
  let r := majorLoop n k l in
  (use_diag_hessian (opts (solver l)) = false -> fst (fst r) = 0%Z) /\
  ((write_output_frequency (opts (solver l)) <= 0)%Z \/
   checkpoint l = None \/
   (exists name, checkpoint l = Some name /\ writable (fsys l) name = false) ->
   snd r = fsys l).
Proof.
  revert k l. induction n as [|n IH]; intros k l; cbn [majorLoop].
  - split; [reflexivity|]. intros _. reflexivity.
  - pose proof (majorIteration_ends k l) as H.
    destruct (iterationHead_files k l) as [F1 [F2 F3]].
    assert (Hfs : (write_output_frequency (opts (solver l)) <= 0)%Z \/
                  checkpoint l = None \/
                  (exists name, checkpoint l = Some name /\
                                writable (fsys l) name = false) ->
                  fsys (iterationHead k l) = fsys l /\
                  (checkpoint (iterationHead k l) = None \/
                   checkpoint (iterationHead k l) = checkpoint l)).
    { intros [C|[C|[name [C W]]]].
      - destruct (F3 C) as [A B]. split; [exact A|right; exact B].
      - destruct (F1 C) as [A B]. split; [exact A|left; exact B].
      - destruct (F2 name C W) as [A [B|B]];
          (split; [exact A|]); [left; exact B|right; congruence]. }
    destruct (majorIteration k l) as [st fs|code st fs|l' info].
    + cbn [fst snd]. split; [reflexivity|].
      intros C. rewrite H. apply (Hfs C).
    + destruct H as [H1 [H2 H3]]. cbn [fst snd]. split; [congruence|].
      intros C. rewrite H3. apply (Hfs C).
    + destruct H as [H1 [H2 H3]].
      match goal with
      | |- context [majorLoop n (S k) ?l2] => destruct (IH (S k) l2) as [A B]
      end.
      cbn [solver fsys checkpoint opts set_niter] in A, B.
      split.
      * intros D. apply A. rewrite H1. exact D.
      * intros C. destruct (Hfs C) as [E1 E2]. rewrite B; [congruence|].
        rewrite H1, H2, H3, E1.
        destruct C as [C|[C|[name [C W]]]]; [left; exact C| |].
        -- right. left. destruct E2 as [E2|E2]; congruence.
        -- destruct E2 as [E2|E2]; [right; left; exact E2|].
           right. right. exists name. split; [congruence|exact W].
Qed.

End DriverFrame.

Section OptimizeFrame.

Context {prob : ParOptProblem} {QNI : ParOptCompactQuasiNewton} {LA : Numerics}.
Context {K : Kernels}.

Lemma opts_initAndCheckDesignAndBounds st :
  opts (initAndCheckDesignAndBounds st) = opts st.
Proof.
  unfold initAndCheckDesignAndBounds.
  destruct (getVarsAndBounds _ _ _) as [[xv lbv] ubv].
  destruct (use_lower (dims st) && use_upper (dims st)); reflexivity.
Qed.

Lemma opts_optimizeStart st : opts (optimizeStart st) = opts st.
Proof.
  unfold optimizeStart. rewrite opts_initAndCheckDesignAndBounds.
  destruct (qn _); reflexivity.
Qed.

Lemma opts_startAffineStep st : opts (startAffineStep st) = opts st.
Proof.
  unfold startAffineStep. cbv zeta.
  set (st0 := zeroInactiveBoundMultipliers st).
  pose proof (sameIterate_computeKKTRes 0 st0) as F1.
  destruct (computeKKTRes 0 st0) as [st1 r1]. cbn [fst] in F1.
  cbn [opts set_barrier_param set_vars].
  rewrite opts_computeKKTStep, opts_setUpKKTSystem, opts_setUpKKTDiagSystem.
  destruct F1 as [_ [F1 _]]. exact F1.
Qed.

Lemma opts_startLeastSquaresMultipliers st :
  opts (startLeastSquaresMultipliers st) = opts st.
Proof.
  unfold startLeastSquaresMultipliers. cbv zeta.
  destruct (0 <? ncon (dims st))%nat; [|reflexivity].
  destruct (LAPACKdgetrf _ _) as [[lu piv] info]. reflexivity.
Qed.

(** [optimize] either returns at the initial evaluations, with the code
    [fail_obj] and the files untouched, or runs the loop of major
    iterations on a solver with the options it was called with. *)
Lemma optimize_reaches_loop (cp : option string) (st : Solver) (fs : FileSystem) :
  let x0 := x (vars (optimizeStart st)) in
  (fst (fst (optimize cp st fs)) = fst (fst (evalObjCon x0)) /\
   snd (optimize cp st fs) = fs) \/
  (fst (fst (evalObjCon x0)) = 0%Z /\
   exists st4, opts st4 = opts st /\
     optimize cp st fs =
     majorLoop (max_major_iters (opts st4)) 0 (initialLoopState st4 fs cp)).
Proof.
  intros x0. unfold optimize.
  pose proof (opts_call_evalObjCon x0 (optimizeStart st)) as H1.
  fold x0. unfold call_evalObjCon in *.
  destruct (evalObjCon x0) as [[fail_obj f] cv]. cbn [fst snd] in H1 |- *.
  destruct (negb (fail_obj =? 0)%Z) eqn:E.
  { left. split; reflexivity. }
  apply negb_false_iff, Z.eqb_eq in E. subst fail_obj.
  match goal with
  | |- context [call_evalObjConGradient ?xx ?s0] =>
      pose proof (opts_call_evalObjConGradient xx s0) as H2;
      destruct (call_evalObjConGradient xx s0) as [fail_gobj st2]
  end.
  cbn [snd] in H2. rewrite H1, opts_optimizeStart in H2.
  destruct (negb (fail_gobj =? 0)%Z).
  { left. split; reflexivity. }
  right. split; [reflexivity|].
  set (st3 := match starting_point_strategy (opts st2) with
              | PAROPT_AFFINE_STEP => _
              | PAROPT_LEAST_SQUARES_MULTIPLIERS => _
              | PAROPT_NO_START_STRATEGY => _ end).
  assert (H3 : opts st3 = opts st).
  { unfold st3. destruct (starting_point_strategy (opts st2));
      rewrite ?opts_startAffineStep, ?opts_startLeastSquaresMultipliers;
      exact H2. }
  clearbody st3.
  set (st4 := match qn st3 with Some _ => _ | None => _ end).
  assert (H4 : opts st4 = opts st).
  { unfold st4. destruct (qn st3); [|exact H3].
    destruct (negb (use_quasi_newton_update (opts st3))); exact H3. }
  clearbody st4.
  exists st4. split; [exact H4|reflexivity].
Qed.

End OptimizeFrame.

(** X16.  With the diagonal Hessian switched off, the value [optimize]
    returns is the code of its initial objective evaluation: it is 0
    whenever that evaluation succeeds, whether or not the iteration
    converges within [max_major_iters] passes and whatever the later
    evaluations and line searches report. *)
Theorem optimize_returns_the_initial_objective_code
    {prob : ParOptProblem} {QNI : ParOptCompactQuasiNewton} {LA : Numerics}
    {K : Kernels} (checkpoint : option string) (st : Solver) (fs : FileSystem) :
  use_diag_hessian (opts st) = false ->
  fst (fst (optimize checkpoint st fs)) =
  fst (fst (evalObjCon (x (vars (optimizeStart st))))).
Proof.
  intros Hd.
  destruct (optimize_reaches_loop checkpoint st fs)
    as [[A _]|[A [st4 [Ho E]]]]; [exact A|].
  rewrite A, E.
  apply (proj1 (majorLoop_ends (max_major_iters (opts st4)) 0
                  (initialLoopState st4 fs checkpoint))).
  cbn [solver initialLoopState]. rewrite Ho. exact Hd.
Qed.

(** On the small problem [optimize] returns 0. *)
Lemma optimize_returns_the_initial_objective_code_witness :
  let st := Examples.smallSolver in
  use_diag_hessian (opts st) = false /\
  fst (fst (optimize (prob := Examples.smallProblem)
              (LA := Examples.lapackWithInfo 0)
              (K := Examples.descentKernels) None st Examples.noFiles)) = 0%Z.
Proof.
  intros st.
  assert (D : use_diag_hessian (opts st) = false) by reflexivity.
  split; [exact D|].
  rewrite (optimize_returns_the_initial_objective_code
             (prob := Examples.smallProblem) (LA := Examples.lapackWithInfo 0)
             (K := Examples.descentKernels) None st Examples.noFiles D).
  reflexivity.
Defined.



(** ** The barrier stage and the residual norm *)

Section BarrierStrategies.

Context {prob : ParOptProblem} {QNI : ParOptCompactQuasiNewton} {LA : Numerics}.
Context {K : Kernels}.

Lemma computeComp_reset_qn st : computeComp (reset_qn st) = computeComp st.
Proof. unfold reset_qn. destruct (qn st); reflexivity. Qed.

Lemma computeComp_iterationHead k l :
  computeComp (solver (iterationHead k l)) = computeComp (solver l).
Proof.
  unfold iterationHead.
  set (fc := if (0 <? write_output_frequency _)%Z && _ then _ else _).
  destruct fc as [f cp]. cbn [solver].
  destruct (qn (solver l)); [|reflexivity].
  destruct (negb _ && _); [apply computeComp_reset_qn|reflexivity].
Qed.

(** The barrier stage of the complementarity-fraction strategy. *)
Lemma barrierStage_complementarity_fraction k l :
  barrier_strategy (opts (solver l)) = PAROPT_COMPLEMENTARITY_FRACTION ->
  let b := barrierStage k l in
  let o := opts (solver l) in
  let mu := monotone_barrier_fraction o * computeComp (solver l) in
  barrier_param (bs_solver b) =
    (if Qltb mu (0.1 * abs_res_tol o) then 0.1 * abs_res_tol o else mu) /\
  barrier_converged b = false.
Proof.
  intros Hs. unfold barrierStage. cbv zeta. rewrite Hs.
  match goal with
  | |- context [computeKKTRes ?m ?s0] =>
      destruct (computeKKTRes_frame m s0) as [Hb _];
      destruct (computeKKTRes m s0) as [st1 [[[mp md] mi] rn]]
  end.
  cbn [fst bs_solver barrier_converged barrier_param set_barrier_param] in *.
  split; [exact Hb|reflexivity].
Qed.

End BarrierStrategies.

(** X18.  Under the complementarity-fraction strategy every pass sets the
    barrier parameter to [monotone_barrier_fraction*comp], raised to
    [0.1*abs_res_tol] when below it, so it is never below
    [0.1*abs_res_tol]; a pass can therefore end converged only when
    [monotone_barrier_fraction*comp <= 0.1*abs_res_tol], and the barrier
    parameter it hands back is then [0.1*abs_res_tol]. *)
Theorem complementarity_fraction_converges_only_at_small_complementarity
    {prob : ParOptProblem} {QNI : ParOptCompactQuasiNewton} {LA : Numerics}
    {K : Kernels} (k : nat) (l : LoopState) :
  barrier_strategy (opts (solver l)) = PAROPT_COMPLEMENTARITY_FRACTION ->
  let b := barrierStage k (iterationHead k l) in
  let o := opts (solver l) in
  let target := monotone_barrier_fraction o * computeComp (solver l) in
  0.1 * abs_res_tol o <= barrier_param (bs_solver b) /\
  target <= barrier_param (bs_solver b) /\
  forall st fs, majorIteration k l = Converged st fs ->
    target <= 0.1 * abs_res_tol o /\
    barrier_param st == 0.1 * abs_res_tol o.
Proof.
  intros Hs b o target.
  assert (Hs' : barrier_strategy (opts (solver (iterationHead k l))) =
                PAROPT_COMPLEMENTARITY_FRACTION)
    by (rewrite opts_iterationHead; exact Hs).
  destruct (barrierStage_complementarity_fraction k (iterationHead k l) Hs')
    as [Hb _].
  fold b in Hb. rewrite opts_iterationHead, computeComp_iterationHead in Hb.
  fold o target in Hb.
  assert (B : 0.1 * abs_res_tol o <= barrier_param (bs_solver b) /\
              target <= barrier_param (bs_solver b)).
  { rewrite Hb. destruct (Qltb target (0.1 * abs_res_tol o)) eqn:E.
    - apply Qltb_true in E. split; [apply Qle_refl|lra].
    - apply Qltb_false in E. split; [exact E|apply Qle_refl]. }
  split; [apply B|]. split; [apply B|].
  intros st fs Hc.
  destruct (majorIteration_converged k l) as [Hc1 _].
  destruct (Hc1 st fs Hc) as [Hconv Hst]. fold b in Hconv, Hst.
  unfold converged in Hconv.
  apply andb_true_iff in Hconv. destruct Hconv as [Hconv _].
  apply andb_true_iff in Hconv. destruct Hconv as [_ Hle].
  apply Qle_bool_iff in Hle.
  assert (Ho : opts (bs_solver b) = o)
    by (unfold b, o; rewrite opts_barrierStage, opts_iterationHead; reflexivity).
  rewrite Ho in Hle. subst st. destruct B as [B1 B2].
  split; [lra|]. apply Qle_antisym; assumption.
Qed.

(** The first pass on the small problem under the complementarity
    fraction: the complementarity is 3, the barrier parameter 0.75. *)
Lemma complementarity_fraction_converges_only_at_small_complementarity_witness :
  let l := Examples.fractionLoopState in
  let b := barrierStage (LA := Examples.lapackWithInfo 0)
             (K := Examples.descentKernels) 0 (iterationHead 0 l) in
  barrier_strategy (opts (solver l)) = PAROPT_COMPLEMENTARITY_FRACTION /\
  0.1 * abs_res_tol (opts (solver l)) <= barrier_param (bs_solver b) /\
  barrier_param (bs_solver b) == 0.75.
Proof.
  intros l b.
  assert (S : barrier_strategy (opts (solver l)) =
              PAROPT_COMPLEMENTARITY_FRACTION) by reflexivity.
  destruct (complementarity_fraction_converges_only_at_small_complementarity
              (prob := Examples.smallProblem) (LA := Examples.lapackWithInfo 0)
              (K := Examples.descentKernels) 0 l S) as [A _].
  split; [exact S|]. split; [exact A|reflexivity].
Defined.

(** X19.  The overall residual norm [computeKKTRes] hands back is the
    largest of the optimality, dual and infeasibility norms: it is one of
    them, none exceeds it, and it is below a tolerance exactly when all
    three are. *)
Theorem computeKKTRes_norm_is_the_largest
    {QNI : ParOptCompactQuasiNewton} {K : Kernels} (barrier : Q) (st : Solver) :
  let r := snd (computeKKTRes barrier st) in
  let max_prime := fst (fst (fst r)) in
  let max_dual := snd (fst (fst r)) in
  let max_infeas := snd (fst r) in
  let res_norm := snd r in
  (max_prime <= res_norm /\ max_dual <= res_norm /\ max_infeas <= res_norm) /\
  (res_norm = max_prime \/ res_norm = max_dual \/ res_norm = max_infeas) /\
  forall tol, res_norm < tol <->
    max_prime < tol /\ max_dual < tol /\ max_infeas < tol.
Proof.
  unfold computeKKTRes. destruct (kktRes barrier st) as [r [[mp md] mi]].
  cbn [fst snd]. unfold Qgtb.
  destruct (Qltb mp md) eqn:E1.
  - apply Qltb_true in E1. destruct (Qltb md mi) eqn:E2.
    + apply Qltb_true in E2.
      split; [repeat split; lra|]. split; [right; right; reflexivity|].
      intros tol. split; [intros H; repeat split; lra|intros [_ [_ H]]; exact H].
    + apply Qltb_false in E2.
      split; [repeat split; lra|]. split; [right; left; reflexivity|].
      intros tol. split; [intros H; repeat split; lra|intros [_ [H _]]; exact H].
  - apply Qltb_false in E1. destruct (Qltb mp mi) eqn:E2.
    + apply Qltb_true in E2.
      split; [repeat split; lra|]. split; [right; right; reflexivity|].
      intros tol. split; [intros H; repeat split; lra|intros [_ [_ H]]; exact H].
    + apply Qltb_false in E2.
      split; [repeat split; lra|]. split; [left; reflexivity|].
      intros tol. split; [intros H; repeat split; lra|intros [H _]; exact H].
Qed.

(** X20.  With [rel_func_tol <= 0], as the constructor leaves it, the
    relative function test of a pass never passes, whatever the step
    lengths and objective values of the previous pass. *)
Theorem relative_function_test_is_off_without_tolerance
    {QNI : ParOptCompactQuasiNewton} {LA : Numerics} {K : Kernels}
    (k : nat) (l : LoopState) :
  rel_func_tol (opts (solver l)) <= 0 ->
  rel_function_test (barrierStage k (iterationHead k l)) = false.
Proof.
  intros Htol.
  destruct (barrierStage_tests k (iterationHead k l)) as [Hr _].
  rewrite Hr. unfold relFunctionTest. rewrite opts_iterationHead.
  apply andb_false_iff. right. apply Qltb_false.
  assert (A : 0 <= Qabs (fobj (evals (solver (iterationHead k l))) -
                         fobj_prev (iterationHead k l))) by apply Qabs_nonneg.
  assert (B : 0 <= Qabs (fobj_prev (iterationHead k l))) by apply Qabs_nonneg.
  eapply Qle_trans; [|exact A].
  rewrite <- (Qmult_0_l (Qabs (fobj_prev (iterationHead k l)))).
  apply Qmult_le_compat_r; assumption.
Qed.

(** The constructor's tolerance is 0: after a pass with full steps the
    test still fails. *)
Lemma relative_function_test_is_off_without_tolerance_witness :
  let l := Examples.secondPassState in
  rel_func_tol (opts (solver l)) <= 0 /\
  alpha_xprev l == 1 /\ alpha_zprev l == 1 /\
  rel_function_test
    (barrierStage (LA := Examples.lapackWithInfo 0)
       (K := Examples.descentKernels) 1 (iterationHead 1 l)) = false.
Proof.
  intros l.
  assert (T : rel_func_tol (opts (solver l)) <= 0) by (vm_compute; discriminate).
  split; [exact T|]. split; [reflexivity|]. split; [reflexivity|].
  apply (relative_function_test_is_off_without_tolerance
           (LA := Examples.lapackWithInfo 0)
           (K := Examples.descentKernels) 1 l T).
Defined.

(** ** The accepted update and the clamped step *)

(** X21.  When the objective evaluation at the new point fails inside
    [computeStepAndUpdate], the function returns the failure code after
    the variables have been moved: the design variables hold the rejected
    point, the gradient is not evaluated and the quasi-Newton
    approximation is not updated. *)
Theorem computeStepAndUpdate_failed_evaluation_keeps_the_new_point
    {prob : ParOptProblem} {QNI : ParOptCompactQuasiNewton} {LA : Numerics}
    (alpha : Q) (perform_qn_update : bool) (st : Solver) :
  let xnew :=
    computeStepVec (design_precision (opts st)) (x (vars st)) alpha
      (px (steps st)) (Some (lb (vars st))) None (Some (ub (vars st))) None in
  let r := computeStepAndUpdate alpha true perform_qn_update st in
  fst (fst (evalObjCon xnew)) <> 0%Z ->
  fst r = fst (fst (evalObjCon xnew)) /\
  x (vars (snd r)) = xnew /\
  neval (evals (snd r)) = S (neval (evals st)) /\
  ngeval (evals (snd r)) = ngeval (evals st) /\
  g (evals (snd r)) = g (evals st) /\
  qn (snd r) = qn st.
Proof.
  intros xnew r Hfail.
  destruct (steppedMultipliers_frame alpha st) as [Fx [Fl Fu]].
  unfold r, computeStepAndUpdate. cbv zeta. rewrite Fx, Fl, Fu.
  fold xnew. cbn [with_x x]. unfold call_evalObjCon.
  destruct (evalObjCon xnew) as [[fail_obj f] cv]. cbn [fst] in Hfail.
  apply Z.eqb_neq in Hfail. rewrite Hfail. cbn [andb negb fst snd].
  repeat split.
Qed.

(** The small problem whose objective evaluation fails with code 7: the
    update returns 7 with the design variable at the rejected point 6. *)
Lemma computeStepAndUpdate_failed_evaluation_keeps_the_new_point_witness :
  let st := Examples.smallSolver in
  let r := computeStepAndUpdate (prob := Examples.failingObjectiveProblem)
             (LA := Examples.lapackWithInfo 0) 1 true true st in
  fst r = 7%Z /\ x (vars st) = [5] /\ get (x (vars (snd r))) 0 == 6 /\
  ngeval (evals (snd r)) = ngeval (evals st).
Proof.
  intros st r.
  destruct (computeStepAndUpdate_failed_evaluation_keeps_the_new_point
              (prob := Examples.failingObjectiveProblem)
              (LA := Examples.lapackWithInfo 0) 1 true st)
    as [A [B [_ [C _]]]].
  { cbn. discriminate. }
  split; [exact A|]. split; [reflexivity|].
  split; [unfold r; rewrite B; reflexivity|exact C].
Defined.

(** X22.  The point [computeStepAndUpdate] accepts for a step length
    [alpha] is the trial point the line search builds for the same
    [alpha]: the new design variables are the buffer [rx], the new slacks
    [s], [t] of dense inequalities the buffers [rs], [rt], and the new
    slacks [sw] of sparse inequalities the buffer [rsw].  This is why the
    update after a line search does not evaluate the objective again. *)
Theorem update_accepts_the_trial_point_of_the_line_search
    {prob : ParOptProblem} {QNI : ParOptCompactQuasiNewton} {LA : Numerics}
    (alpha : Q) (eval_obj_con perform_qn_update : bool) (st : Solver) :
  let v := vars (snd (computeStepAndUpdate alpha eval_obj_con
                        perform_qn_update st)) in
  let r := resid (trialPoint alpha st) in
  let d := dims st in
  x v = rx r /\
  (dense_inequality d = true -> s v = rs r /\ t v = rt r) /\
  ((0 < nwcon d)%nat -> sparse_inequality d = true -> sw v = rsw r).
Proof.
  intros v r d. unfold v, r.
  rewrite computeStepAndUpdate_vars, trialPoint_rx.
  destruct (steppedMultipliers_frame alpha st) as [Fx [Fl Fu]].
  rewrite Fx, Fl, Fu. cbn [with_x x s t sw].
  split; [reflexivity|].
  unfold steppedMultipliers, trialPoint. cbv zeta. fold d.
  split.
  - intros E. rewrite E.
    destruct (0 <? nwcon d)%nat, (sparse_inequality d), (use_lower d),
      (use_upper d); cbn; split; reflexivity.
  - intros E1 E2. apply Nat.ltb_lt in E1. rewrite E1, E2.
    destruct (dense_inequality d), (use_lower d), (use_upper d);
      cbn; reflexivity.
Qed.

(** The full step on the small problem: the accepted slacks are the
    trial slacks. *)
Lemma update_accepts_the_trial_point_of_the_line_search_witness :
  let st := Examples.smallSolver in
  let v := vars (snd (computeStepAndUpdate (prob := Examples.smallProblem)
                        (LA := Examples.lapackWithInfo 0) 1 false true st)) in
  let r := resid (trialPoint (LA := Examples.lapackWithInfo 0) 1 st) in
  dense_inequality (dims st) = true /\ x v = rx r /\ s v = rs r /\ t v = rt r.
Proof.
  intros st v r.
  assert (D : dense_inequality (dims st) = true) by reflexivity.
  destruct (update_accepts_the_trial_point_of_the_line_search
              (prob := Examples.smallProblem)
              (LA := Examples.lapackWithInfo 0) 1 false true st) as [X [A _]].
  destruct (A D) as [S T].
  split; [exact D|]. split; [exact X|]. split; [exact S|exact T].
Defined.

(** ** Checkpoint headers *)

(** X23.  A checkpoint written by a solver whose arrays have their
    allocated sizes is accepted by [readSolutionFile] exactly when the
    reading solver has the same numbers of design variables, sparse
    constraints and dense constraints: the call then returns 0, otherwise
    it returns 1 and leaves the reading solver as it was. *)
Theorem checkpoint_is_accepted_exactly_for_equal_sizes
    {QNI : ParOptCompactQuasiNewton}
    (filename : string) (st st2 : Solver) (fs : FileSystem) :
  wellSized st -> writable fs filename = true ->
  let w := writeSolutionFile filename st fs in
  let r := readSolutionFile filename st2 (snd w) in
  let same_sizes :=
    nvars (dims st2) = nvars (dims st) /\ nwcon (dims st2) = nwcon (dims st) /\
    ncon (dims st2) = ncon (dims st) in
  (fst r = 0%Z <-> same_sizes) /\
  (~ same_sizes -> r = (1%Z, st2)).
Proof.
  intros Hs Hw w r same_sizes.
  unfold r, w, writeSolutionFile, open_write. rewrite Hw.
  set (fp := match contents fs filename with Some f => f | None => empty_file end).
  assert (E : (match contents fs filename with
               | Some f => Some f | None => Some empty_file end) = Some fp)
    by (unfold fp; destruct (contents fs filename); reflexivity).
  rewrite E. cbn [snd]. unfold readSolutionFile. rewrite open_read_store.
  destruct (writeSolution_read_back st fp Hs) as [Hh _].
  unfold sizeFail. rewrite Hh. cbn [nth].
  destruct (Z.of_nat (nvars (dims st)) =? Z.of_nat (nvars (dims st2)))%Z eqn:E1;
  destruct (Z.of_nat (nwcon (dims st)) =? Z.of_nat (nwcon (dims st2)))%Z eqn:E2;
  destruct (Z.of_nat (ncon (dims st)) =? Z.of_nat (ncon (dims st2)))%Z eqn:E3;
  cbn [negb orb fst];
  repeat match goal with
  | H : (_ =? _)%Z = true |- _ => apply Z.eqb_eq, Nat2Z.inj in H
  | H : (_ =? _)%Z = false |- _ => apply Z.eqb_neq in H
  end;
  unfold same_sizes;
  (split; [split; [intros H; try discriminate H; repeat split; congruence
                  |intros [A [B C]]; try reflexivity; exfalso;
                   rewrite ?A, ?B, ?C in *; congruence]
          |intros H; try reflexivity; exfalso; apply H; repeat split;
           congruence]).
Qed.

(** The checkpoint of the small problem is refused by a solver with two
    design variables and accepted by another solver of the small
    problem. *)
Lemma checkpoint_is_accepted_exactly_for_equal_sizes_witness :
  let st := Examples.smallSolver in
  let w := writeSolutionFile "restart.bin" st Examples.noFiles in
  wellSized st /\ writable Examples.noFiles "restart.bin" = true /\
  fst (readSolutionFile "restart.bin" Examples.otherSolver (snd w)) = 0%Z /\
  readSolutionFile "restart.bin" Examples.widerSolver (snd w) =
    (1%Z, Examples.widerSolver).
Proof.
  intros st w.
  assert (S : wellSized st) by (repeat split).
  assert (W : writable Examples.noFiles "restart.bin" = true) by reflexivity.
  split; [exact S|]. split; [exact W|]. split.
  - apply (proj1 (checkpoint_is_accepted_exactly_for_equal_sizes
                    "restart.bin" st Examples.otherSolver Examples.noFiles S W)).
    repeat split.
  - apply (proj2 (checkpoint_is_accepted_exactly_for_equal_sizes
                    "restart.bin" st Examples.widerSolver Examples.noFiles S W)).
    intros [A _]. discriminate A.
Defined.

(** ** What a pass leaves of the iterate *)

Section PassFrame.

Context {prob : ParOptProblem} {QNI : ParOptCompactQuasiNewton} {LA : Numerics}.
Context {K : Kernels}.

Lemma sameIterate_computeKKTGMRESStep r a u st :
  sameIterate st (snd (computeKKTGMRESStep r a u st)).
Proof.
  unfold computeKKTGMRESStep. destruct (gmresStep r a u st) as [[? ?] ?].
  repeat split.
Qed.

Lemma sameIterate_evalMeritInitDeriv m st :
  sameIterate st (snd (evalMeritInitDeriv m st)).
Proof.
  unfold evalMeritInitDeriv. destruct (meritInitDeriv m st) as [[[? ?] ?] ?].
  repeat split.
Qed.

Lemma sameIterate_checkKKTStep k b st : sameIterate st (checkKKTStep k b st).
Proof. repeat split. Qed.

Lemma sameIterate_checkMeritFuncGradient dh st :
  sameIterate st (checkMeritFuncGradient dh st).
Proof.
  unfold checkMeritFuncGradient, call_evalObjCon, call_evalObjConGradient,
    evalMeritInitDeriv.
  destruct (evalObjCon (x (vars st))) as [[fail_obj f] cv].
  destruct (negb (fail_obj =? 0)%Z); [repeat split|].
  cbn [vars set_evals].
  destruct (evalObjConGradient (x (vars st))) as [[fail_gobj gv] av].
  destruct (negb (fail_gobj =? 0)%Z); [repeat split|].
  destruct (meritInitDeriv 1 _) as [[[m0 dm0] rho] r0].
  destruct (evalObjCon _) as [[? ?] rcv].
  repeat split.
Qed.

Lemma sameIterate_reset_qn st : sameIterate st (reset_qn st).
Proof. unfold reset_qn. destruct (qn st); repeat split. Qed.

Lemma sameIterate_scaleKKTStep tau cmp ins st :
  sameIterate st (snd (scaleKKTStep tau cmp ins st)).
Proof.
  unfold scaleKKTStep. destruct (computeMaxStep tau st) as [ax az].
  set (tr := if negb ins then _ else _). destruct tr as [[? ?] ?].
  destruct (0 <? nwcon (dims st))%nat, (dense_inequality (dims st));
    repeat split.
Qed.

Lemma sameIterate_iterationHead k l :
  sameIterate (solver l) (solver (iterationHead k l)).
Proof.
  unfold iterationHead.
  set (fc := if (0 <? write_output_frequency _)%Z && _ then _ else _).
  destruct fc as [f cp]. cbn [solver].
  destruct (qn (solver l)); [|apply sameIterate_refl].
  destruct (negb _ && _); [apply sameIterate_reset_qn|apply sameIterate_refl].
Qed.

(** The barrier stage writes the barrier parameter, the penalty parameter
    and the residuals only. *)
Lemma barrierStage_variables k l :
  dims (bs_solver (barrierStage k l)) = dims (solver l) /\
  vars (bs_solver (barrierStage k l)) = vars (solver l).
Proof.
  unfold barrierStage. cbv zeta.
  destruct (barrier_strategy (opts (solver l))).
  - pose proof (sameIterate_computeKKTRes (barrier_param (solver l)) (solver l))
      as [D1 [_ [V1 _]]].
    destruct (computeKKTRes _ _) as [st1 [[[mp md] mi] rn]]. cbn [fst] in D1, V1.
    destruct (barrierConverged _ _ _ _ _).
    + match goal with
      | |- context [computeKKTRes ?m st1] =>
          pose proof (sameIterate_computeKKTRes m st1) as [D2 [_ [V2 _]]];
          destruct (computeKKTRes m st1) as [st2 [[[? ?] ?] ?]]
      end.
      cbn [fst bs_solver dims vars set_barrier_param set_rho_penalty_search] in *.
      split; congruence.
    + cbn [bs_solver]. split; assumption.
  - pose proof (sameIterate_computeKKTRes (barrier_param (solver l)) (solver l))
      as [D1 [_ [V1 _]]].
    destruct (computeKKTRes _ _) as [st1 [[[mp md] mi] rn]]. cbn [fst] in D1, V1.
    cbn [bs_solver]. split; assumption.
  - match goal with
    | |- context [computeKKTRes ?m ?s0] =>
        pose proof (sameIterate_computeKKTRes m s0) as [D1 [_ [V1 _]]];
        destruct (computeKKTRes m s0) as [st1 [[[mp md] mi] rn]]
    end.
    cbn [fst bs_solver dims vars set_barrier_param] in *. split; assumption.
Qed.

Lemma newtonKrylovStep_variables l b :
  sameIterate (bs_solver b) (snd (newtonKrylovStep l b)).
Proof.
  unfold newtonKrylovStep. cbv zeta.
  destruct (use_hvec_product _); [|apply sameIterate_refl].
  destruct (_ && _); [|apply sameIterate_refl].
  match goal with
  | |- context [computeKKTGMRESStep ?r ?a ?u ?s0] =>
      pose proof (sameIterate_computeKKTGMRESStep r a u s0) as H;
      destruct (computeKKTGMRESStep r a u s0) as [iters st1]
  end.
  cbn [snd] in H.
  assert (H1 : sameIterate (bs_solver b) st1).
  { eapply sameIterate_trans; [apply sameIterate_setUpKKTDiagSystem|].
    eapply sameIterate_trans; [apply sameIterate_setUpKKTSystem|]. exact H. }
  destruct (iters <? 0)%Z; cbn [snd]; [|exact H1].
  eapply sameIterate_trans; [exact H1|apply sameIterate_computeKKTRes].
Qed.

(** The quasi-Newton step writes the step, the factored matrices, the
    residuals, the Hessian diagonal and, for Mehrotra's strategy, the
    barrier parameter. *)
Lemma quasiNewtonStep_variables l b st n :
  match quasiNewtonStep l b st n with
  | inl _ => True
  | inr (st', _, _) =>
      dims st' = dims st /\ vars st' = vars st /\
      (barrier_strategy (opts st) = PAROPT_MEHROTRA ->
       0.09999 * abs_res_tol (opts st) <= barrier_param st') /\
      (barrier_strategy (opts st) <> PAROPT_MEHROTRA ->
       barrier_param st' = barrier_param st)
  end.
Proof.
  unfold quasiNewtonStep. cbv zeta.
  set (hd := if negb _ && use_diag_hessian (opts st) then _ else _).
  assert (Hd : sameIterate st (snd hd)).
  { unfold hd. destruct (negb _ && _); [|apply sameIterate_refl].
    destruct (evalHessianDiag _ _ _). repeat split. }
  destruct (negb (fst hd =? 0)%Z); [exact I|].
  set (use_qn := negb _ && negb _).
  set (st1 := match barrier_strategy (opts st) with
              | PAROPT_MEHROTRA => fst (computeKKTRes 0 (snd hd))
              | _ => snd hd end).
  assert (H1 : sameIterate st st1).
  { unfold st1. destruct (barrier_strategy (opts st)); try exact Hd.
    eapply sameIterate_trans; [exact Hd|apply sameIterate_computeKKTRes]. }
  clearbody st1.
  set (st2 := computeKKTStep use_qn (setUpKKTSystem use_qn
                (setUpKKTDiagSystem use_qn st1))).
  assert (H2 : sameIterate st st2).
  { eapply sameIterate_trans; [exact H1|].
    eapply sameIterate_trans; [apply sameIterate_setUpKKTDiagSystem|].
    eapply sameIterate_trans; [apply sameIterate_setUpKKTSystem|].
    apply sameIterate_computeKKTStep. }
  clearbody st2. destruct H2 as [D2 [O2 [V2 B2]]].
  destruct (barrier_strategy (opts st)) eqn:Es.
  - split; [exact D2|]. split; [exact V2|].
    split; [intros H; discriminate H|intros _; exact B2].
  - destruct (computeMaxStep 1 st2) as [max_x max_z].
    set (mu := if Qltb _ (0.09999 * abs_res_tol (opts st)) then _ else _).
    assert (Hmu : 0.09999 * abs_res_tol (opts st) <= mu).
    { unfold mu. destruct (Qltb _ _) eqn:E; [apply Qle_refl|].
      apply Qltb_false in E. exact E. }
    clearbody mu.
    pose proof (sameIterate_computeKKTRes mu (set_barrier_param mu st2))
      as [D3 [_ [V3 B3]]].
    destruct (computeKKTRes mu (set_barrier_param mu st2)) as [st3 r3].
    cbn [fst dims vars barrier_param set_barrier_param] in D3, V3, B3.
    pose proof (sameIterate_computeKKTStep use_qn st3) as [D4 [_ [V4 B4]]].
    cbn [fst]. split; [congruence|]. split; [congruence|].
    split; [intros _; rewrite B4, B3; exact Hmu|].
    intros H. contradiction H. reflexivity.
  - split; [exact D2|]. split; [exact V2|].
    split; [intros H; discriminate H|intros _; exact B2].
Qed.

End PassFrame.

Section FailedLineSearch.

Context {prob : ParOptProblem} {QNI : ParOptCompactQuasiNewton} {LA : Numerics}.
Context {K : Kernels}.

Lemma barrier_param_computeStepAndUpdate alpha ev qu st :
  barrier_param (snd (computeStepAndUpdate alpha ev qu st)) = barrier_param st.
Proof.
  unfold computeStepAndUpdate, call_evalObjCon, call_evalObjConGradient.
  destruct ev; simpl.
  - destruct (evalObjCon _) as [[fo f] cv]; simpl.
    destruct (negb (fo =? 0)%Z); simpl; [reflexivity|].
    destruct (evalObjConGradient _) as [[fg gv] av]; simpl.
    destruct (qn st); simpl; [|reflexivity].
    destruct qu; simpl; [|reflexivity].
    destruct (use_quasi_newton_update (opts st)); simpl.
    + destruct (computeQuasiNewtonUpdateCorrection _ _); simpl.
      destruct (qn_update_sy _ _ _ _ _ _); reflexivity.
    + destruct (qn_update _ _ _ _); reflexivity.
  - destruct (evalObjConGradient _) as [[fg gv] av]; simpl.
    destruct (qn st); simpl; [|reflexivity].
    destruct qu; simpl; [|reflexivity].
    destruct (use_quasi_newton_update (opts st)); simpl.
    + destruct (computeQuasiNewtonUpdateCorrection _ _); simpl.
      destruct (qn_update_sy _ _ _ _ _ _); reflexivity.
    + destruct (qn_update _ _ _ _); reflexivity.
Qed.

(** The part of a pass from the step scaling to the accepted update keeps
    the barrier parameter; when a line search is run and reports FAILURE,
    it keeps the variables too and makes no quasi-Newton update. *)
Lemma lineSearchStage_frame k l b f' ins sl st :
  let so := lineSearchStage k l b f' ins sl st in
  barrier_param (so_solver so) = barrier_param st /\
  (use_line_search (opts st) = true -> so_line_search_skipped so = false ->
   has_flag (so_line_fail so) PAROPT_LINE_SEARCH_FAILURE = true ->
   vars (so_solver so) = vars st /\ so_update_type so = 0%Z).
Proof.
  unfold lineSearchStage. cbv zeta.
  set (tau := if Qgeb (1 - barrier_param st) _ then _ else _).
  pose proof (sameIterate_scaleKKTStep tau (comp b) ins st) as H1.
  destruct (scaleKKTStep tau (comp b) ins st) as [[[ceq ax] az] st1].
  cbn [snd] in H1.
  destruct (use_line_search (opts st)).
  - pose proof (sameIterate_evalMeritInitDeriv ax st1) as H2.
    destruct (evalMeritInitDeriv ax st1) as [[m0 dm0] st2]. cbn [snd] in H2.
    assert (H2' : sameIterate st st2)
      by (eapply sameIterate_trans; eassumption).
    destruct (Qgeb dm0 0 && Qle_bool dm0 (function_precision (opts st))).
    + pose proof (barrier_param_computeStepAndUpdate 1 true true st2) as H3.
      destruct (computeStepAndUpdate 1 true true st2) as [upd st3].
      cbn [snd so_solver so_line_search_skipped] in *.
      destruct H2' as [_ [_ [_ B]]].
      split; [congruence|]. intros _ H. discriminate H.
    + set (redo := if Qgeb dm0 0 then _ else _).
      assert (Hr : sameIterate st (snd redo)).
      { unfold redo. destruct (Qgeb dm0 0); [|exact H2'].
        match goal with
        | |- context [scaleKKTStep tau (comp b) false ?s0] =>
            pose proof (sameIterate_scaleKKTStep tau (comp b) false s0) as H3;
            assert (H0 : sameIterate st s0);
            [|destruct (scaleKKTStep tau (comp b) false s0)
                as [[[c3 ax3] az3] st3]]
        end.
        { eapply sameIterate_trans; [exact H2'|].
          eapply sameIterate_trans; [apply sameIterate_computeKKTRes|].
          eapply sameIterate_trans; [apply sameIterate_setUpKKTDiagSystem|].
          eapply sameIterate_trans; [apply sameIterate_setUpKKTSystem|].
          apply sameIterate_computeKKTStep. }
        cbn [snd] in H3.
        pose proof (sameIterate_evalMeritInitDeriv ax3 st3) as H4.
        destruct (evalMeritInitDeriv ax3 st3) as [[m4 dm4] st4].
        cbn [snd] in H4 |- *.
        eapply sameIterate_trans; [exact H0|].
        eapply sameIterate_trans; eassumption. }
      destruct redo as [[[[[[sl5 c5] ax5] az5] m5] dm5] st5]. cbn [snd] in Hr.
      set (st6 := if (0 <? major_iter_step_check (opts st))%Z && _ then _ else st5).
      assert (H6 : sameIterate st st6).
      { unfold st6. destruct (_ && _); [|exact Hr].
        eapply sameIterate_trans; [exact Hr|].
        apply sameIterate_checkMeritFuncGradient. }
      clearbody st6.
      destruct (Qgeb dm5 0).
      { cbn [so_solver so_update_type]. destruct H6 as [_ [_ [V B]]].
        split; [exact B|]. intros _ _ _. split; [exact V|reflexivity]. }
      match goal with
      | |- context [lineSearch ?am 1 m5 dm5 st6] =>
          destruct (lineSearch_evaluation_frame am 1 m5 dm5 st6) as [Hl _];
          destruct (lineSearch am 1 m5 dm5 st6) as [[lf al] st7]
      end.
      cbn [snd] in Hl.
      assert (H7 : sameIterate st st7).
      { eapply sameIterate_trans; [exact H6|]. apply Hl. }
      destruct H7 as [_ [_ [V B]]].
      destruct (has_flag lf PAROPT_LINE_SEARCH_FAILURE) eqn:Ef; cbn [negb].
      * cbn [so_solver so_update_type]. split; [exact B|].
        intros _ _ _. split; [exact V|reflexivity].
      * pose proof (barrier_param_computeStepAndUpdate al false true st7) as H8.
        destruct (computeStepAndUpdate al false true st7) as [upd st8].
        cbn [snd so_solver so_line_fail] in *.
        split; [congruence|]. intros _ _ H. congruence.
  - pose proof (barrier_param_computeStepAndUpdate 1 true true st1) as H3.
    destruct (computeStepAndUpdate 1 true true st1) as [upd st3].
    cbn [snd so_solver] in *. destruct H1 as [_ [_ [_ B]]].
    split; [congruence|]. intros H. discriminate H.
Qed.

End FailedLineSearch.

Section PassOutcome.

Context {prob : ParOptProblem} {QNI : ParOptCompactQuasiNewton} {LA : Numerics}.
Context {K : Kernels}.

(** When no inexact Newton step is tried, the step is the quasi-Newton
    one. *)
Lemma newtonKrylovStep_off l b :
  use_hvec_product (opts (bs_solver b)) = false ->
  newtonKrylovStep l b = (0%Z, false, step_norm_prev l, bs_solver b).
Proof. intros H. unfold newtonKrylovStep. rewrite H. reflexivity. Qed.

Lemma stepStage_continues k l b l' info :
  stepStage k l b = Continue l' info ->
  (use_line_search (opts (bs_solver b)) = true ->
   line_search_skipped info = false ->
   has_flag (line_fail info) PAROPT_LINE_SEARCH_FAILURE = true ->
   vars (solver l') = vars (bs_solver b) /\ update_type info = 0%Z /\
   line_search_failed l' = true) /\
  (barrier_strategy (opts (bs_solver b)) = PAROPT_MEHROTRA ->
   use_hvec_product (opts (bs_solver b)) = false ->
   0.09999 * abs_res_tol (opts (bs_solver b)) <= barrier_param (solver l')).
Proof.
  unfold stepStage.
  pose proof (opts_newtonKrylovStep l b) as Hn.
  pose proof (newtonKrylovStep_variables l b) as Hv.
  pose proof (newtonKrylovStep_off l b) as Hoff.
  destruct (newtonKrylovStep l b) as [[[gm ins] sn] st1]. cbn [snd] in Hn, Hv.
  set (q := if negb ins then _ else _).
  assert (Hq : match q with
               | inl _ => True
               | inr (st', _, _) =>
                   opts st' = opts st1 /\ vars st' = vars st1 /\
                   (barrier_strategy (opts st1) = PAROPT_MEHROTRA ->
                    ins = false ->
                    0.09999 * abs_res_tol (opts st1) <= barrier_param st')
               end).
  { unfold q. destruct ins; cbn [negb].
    - split; [reflexivity|]. split; [reflexivity|].
      intros _ H. discriminate H.
    - pose proof (opts_quasiNewtonStep l b st1 sn) as Ho.
      pose proof (quasiNewtonStep_variables l b st1 sn) as Hq.
      destruct (quasiNewtonStep l b st1 sn) as [[code st2]|[[st2 sn2] sl2]];
        [exact I|].
      destruct Hq as [_ [V [M _]]]. split; [exact Ho|]. split; [exact V|].
      intros Hs _. apply M. exact Hs. }
  destruct q as [[code st2]|[[st2 sn2] sl2]]; [discriminate|].
  destruct Hq as [Q1 [Q2 Q3]].
  set (st3 := if (0 <? major_iter_step_check (opts st1))%Z && _ then _ else st2).
  assert (H3 : opts st3 = opts st1 /\ vars st3 = vars st1 /\
               barrier_param st3 = barrier_param st2).
  { unfold st3. destruct (_ && _); repeat split; assumption. }
  clearbody st3. destruct H3 as [O3 [V3 B3]].
  destruct (lineSearchStage_frame k l b (fobj (evals st1)) ins sl2 st3)
    as [F1 F2].
  intros H. inversion H; subst; clear H.
  cbn [solver line_search_failed update_type line_fail line_search_skipped].
  destruct Hv as [_ [_ [Hv _]]].
  split.
  - intros Hu Hs Hf. rewrite <- Hn, <- O3 in Hu.
    destruct (F2 Hu Hs Hf) as [A B].
    split; [|split; [exact B|exact Hf]].
    rewrite Hf, andb_true_r.
    destruct (use_quasi_newton_update (opts st1));
      [destruct (sameIterate_reset_qn
                   (so_solver (lineSearchStage k l b (fobj (evals st1))
                                 ins sl2 st3))) as [_ [_ [R _]]];
       rewrite R|]; congruence.
  - intros Hs Hh. rewrite <- Hn in Hs |- *.
    assert (Hi : ins = false).
    { specialize (Hoff Hh). inversion Hoff. reflexivity. }
    specialize (Q3 Hs Hi).
    assert (B : barrier_param
                  (so_solver (lineSearchStage k l b (fobj (evals st1))
                                ins sl2 st3)) = barrier_param st2)
      by congruence.
    destruct (use_quasi_newton_update (opts st1) && _);
      [destruct (sameIterate_reset_qn
                   (so_solver (lineSearchStage k l b (fobj (evals st1))
                                ins sl2 st3))) as [_ [_ [_ R]]];
       rewrite R|]; rewrite B; exact Q3.
Qed.

End PassOutcome.

(** X24.  When a pass runs a line search that reports FAILURE, the pass
    hands the variables it started with to the next pass: no step is
    taken, no quasi-Newton update is made, and the next pass knows that
    the line search failed. *)
Theorem failed_line_search_keeps_the_variables
    {prob : ParOptProblem} {QNI : ParOptCompactQuasiNewton} {LA : Numerics}
    {K : Kernels} (k : nat) (l l' : LoopState) (info : IterInfo) :
  majorIteration k l = Continue l' info ->
  use_line_search (opts (solver l)) = true ->
  line_search_skipped info = false ->
  has_flag (line_fail info) PAROPT_LINE_SEARCH_FAILURE = true ->
  vars (solver l') = vars (solver l) /\ update_type info = 0%Z /\
  line_search_failed l' = true.
Proof.
  unfold majorIteration. cbv zeta.
  destruct (converged k (barrierStage k (iterationHead k l)));
    [discriminate|].
  intros H Hu Hs Hf.
  destruct (stepStage_continues k _ _ l' info H) as [A _].
  rewrite opts_barrierStage, opts_iterationHead in A.
  destruct (A Hu Hs Hf) as [A1 [A2 A3]].
  destruct (barrierStage_variables k (iterationHead k l)) as [_ V].
  destruct (sameIterate_iterationHead k l) as [_ [_ [V' _]]].
  split; [congruence|]. split; assumption.
Qed.

(** The first pass on the small problem with kernels that report an
    ascent direction: the line search is refused with FAILURE and the
    variables stay. *)
Lemma failed_line_search_keeps_the_variables_witness :
  let l := Examples.smallLoopState in
  exists l' info,
    majorIteration (prob := Examples.smallProblem)
      (LA := Examples.lapackWithInfo 0) (K := Examples.ascentKernels) 0 l
      = Continue l' info /\
    use_line_search (opts (solver l)) = true /\
    line_search_skipped info = false /\
    has_flag (line_fail info) PAROPT_LINE_SEARCH_FAILURE = true /\
    vars (solver l') = vars (solver l).
Proof.
  intros l.
  destruct (majorIteration (prob := Examples.smallProblem)
              (LA := Examples.lapackWithInfo 0)
              (K := Examples.ascentKernels) 0 l) as [st fs|code st fs|l' info]
    eqn:E; try (vm_compute in E; discriminate E).
  assert (U : use_line_search (opts (solver l)) = true) by reflexivity.
  assert (S : line_search_skipped info = false)
    by (vm_compute in E; inversion E; reflexivity).
  assert (F : has_flag (line_fail info) PAROPT_LINE_SEARCH_FAILURE = true)
    by (vm_compute in E; inversion E; reflexivity).
  exists l', info. split; [reflexivity|]. split; [exact U|].
  split; [exact S|]. split; [exact F|].
  apply (failed_line_search_keeps_the_variables
           (prob := Examples.smallProblem) (LA := Examples.lapackWithInfo 0)
           (K := Examples.ascentKernels) 0 l l' info E U S F).
Defined.

(** X25.  With the Hessian-vector products switched off and a
    complementarity [comp] that is not zero, a pass under Mehrotra's
    strategy that continues hands on a barrier parameter of at least
    [0.09999*abs_res_tol]: the predictor-corrector value [sigma*comp] is
    raised to that floor. *)
Theorem mehrotra_barrier_parameter_has_a_floor
    {prob : ParOptProblem} {QNI : ParOptCompactQuasiNewton} {LA : Numerics}
    {K : Kernels} (k : nat) (l l' : LoopState) (info : IterInfo) :
  majorIteration k l = Continue l' info ->
  barrier_strategy (opts (solver l)) = PAROPT_MEHROTRA ->
  use_hvec_product (opts (solver l)) = false ->
  ~ comp (barrierStage k (iterationHead k l)) == 0 ->
  0.09999 * abs_res_tol (opts (solver l)) <= barrier_param (solver l').
Proof.
  unfold majorIteration. cbv zeta.
  destruct (converged k (barrierStage k (iterationHead k l)));
    [discriminate|].
  intros H Hs Hh _.
  destruct (stepStage_continues k _ _ l' info H) as [_ A].
  rewrite opts_barrierStage, opts_iterationHead in A.
  apply A; assumption.
Qed.

(** The first pass on the small problem under Mehrotra's strategy. *)
Lemma mehrotra_barrier_parameter_has_a_floor_witness :
  let l := Examples.mehrotraLoopState in
  exists l' info,
    majorIteration (prob := Examples.smallProblem)
      (LA := Examples.lapackWithInfo 0) (K := Examples.descentKernels) 0 l
      = Continue l' info /\
    barrier_strategy (opts (solver l)) = PAROPT_MEHROTRA /\
    use_hvec_product (opts (solver l)) = false /\
    comp (barrierStage (LA := Examples.lapackWithInfo 0)
            (K := Examples.descentKernels) 0 (iterationHead 0 l)) == 3 /\
    0.09999 * abs_res_tol (opts (solver l)) <= barrier_param (solver l').
Proof.
  intros l.
  destruct (majorIteration (prob := Examples.smallProblem)
              (LA := Examples.lapackWithInfo 0)
              (K := Examples.descentKernels) 0 l) as [st fs|code st fs|l' info]
    eqn:E; try (vm_compute in E; discriminate E).
  assert (S : barrier_strategy (opts (solver l)) = PAROPT_MEHROTRA)
    by reflexivity.
  assert (H : use_hvec_product (opts (solver l)) = false) by reflexivity.
  assert (C : comp (barrierStage (LA := Examples.lapackWithInfo 0)
                      (K := Examples.descentKernels) 0 (iterationHead 0 l))
              == 3) by (vm_compute; reflexivity).
  exists l', info. split; [reflexivity|]. split; [exact S|].
  split; [exact H|]. split; [exact C|].
  apply (mehrotra_barrier_parameter_has_a_floor
           (prob := Examples.smallProblem) (LA := Examples.lapackWithInfo 0)
           (K := Examples.descentKernels) 0 l l' info E S H).
  rewrite C. discriminate.
Defined.

(** X26.  An inexact Newton step by GMRES is taken only when the
    Hessian-vector products are switched on, the three residual norms are
    below [nk_switch_tol], and GMRES did not fail (its iteration count is
    not negative); with the products switched off the Newton-Krylov part
    of the pass does nothing. *)
Theorem inexact_newton_step_is_taken_only_near_the_solution
    {prob : ParOptProblem} {QNI : ParOptCompactQuasiNewton} {LA : Numerics}
    {K : Kernels} (l : LoopState) (b : BarrierStage) :
  let r := newtonKrylovStep l b in
  let gmres_iters := fst (fst (fst r)) in
  let inexact_newton_step := snd (fst (fst r)) in
  let o := opts (bs_solver b) in
  (inexact_newton_step = true ->
   use_hvec_product o = true /\
   max_prime b < nk_switch_tol o /\ max_dual b < nk_switch_tol o /\
   max_infeas b < nk_switch_tol o /\ (0 <= gmres_iters)%Z) /\
  (use_hvec_product o = false ->
   r = (0%Z, false, step_norm_prev l, bs_solver b)).
Proof.
  intros r gmres_iters inexact_newton_step o.
  split; [|apply newtonKrylovStep_off].
  unfold inexact_newton_step, gmres_iters, r, newtonKrylovStep. cbv zeta.
  fold o.
  destruct (use_hvec_product o); [|intros H; discriminate H].
  destruct (Qltb (max_prime b) (nk_switch_tol o)) eqn:E1;
    [|intros H; discriminate H].
  destruct (Qltb (max_dual b) (nk_switch_tol o)) eqn:E2;
    [|intros H; discriminate H].
  destruct (Qltb (max_infeas b) (nk_switch_tol o)) eqn:E3;
    [|intros H; discriminate H].
  cbn [andb].
  destruct (Qltb _ (max_gmres_rtol o)); [|intros H; discriminate H].
  destruct (computeKKTGMRESStep _ _ _ _) as [iters st1].
  destruct (iters <? 0)%Z eqn:E4; cbn [fst snd]; [intros H; discriminate H|].
  intros _. apply Qltb_true in E1, E2, E3. apply Z.ltb_ge in E4.
  repeat split; assumption.
Qed.

(** The constructor leaves the Hessian-vector products off: the
    Newton-Krylov part of the second pass on the small problem does
    nothing. *)
Lemma inexact_newton_step_is_taken_only_near_the_solution_witness :
  let l := Examples.secondPassState in
  let b := barrierStage (LA := Examples.lapackWithInfo 0)
             (K := Examples.descentKernels) 1 (iterationHead 1 l) in
  use_hvec_product (opts (bs_solver b)) = false /\
  newtonKrylovStep (prob := Examples.smallProblem)
    (LA := Examples.lapackWithInfo 0) (K := Examples.descentKernels) l b
    = (0%Z, false, step_norm_prev l, bs_solver b).
Proof.
  intros l b.
  assert (H : use_hvec_product (opts (bs_solver b)) = false) by reflexivity.
  split; [exact H|].
  apply (proj2 (inexact_newton_step_is_taken_only_near_the_solution
                  (prob := Examples.smallProblem)
                  (LA := Examples.lapackWithInfo 0)
                  (K := Examples.descentKernels) l b) H).
Defined.

(** ** The clamped slacks and multipliers *)

Section ClampedMultipliers.

Context {prob : ParOptProblem} {QNI : ParOptCompactQuasiNewton} {LA : Numerics}.

Variables (alpha : Q) (st : Solver).

Let d := dims st.
Let dp := design_precision (opts st).
Let vm := steppedMultipliers alpha st.
Let above := Forall (fun e => rnd (0 + dp) <= e).

(** With a single lower value and no upper bound, every entry ends at
    least the rounded offset [lbval + design_precision]. *)
Lemma computeStep_lower_value (n : nat) (xv pv : list Q) (lbval : Q) :
  Forall (fun e => rnd (lbval + dp) <= e)
    (computeStep dp n xv alpha pv None (Some lbval) None None).
Proof.
  unfold computeStep. apply Forall_tabulate. intros i Hi.
  destruct (Qle_bool _ _) eqn:E.
  - apply Qle_refl.
  - apply Qle_bool_false in E. apply Qlt_le_weak. exact E.
Qed.

Lemma steppedMultipliers_z : above (z vm).
Proof.
  unfold vm, steppedMultipliers.
  destruct (dense_inequality (dims st)); simpl; apply computeStep_lower_value.
Qed.

Lemma steppedMultipliers_dense :
  dense_inequality d = true -> above (s vm) /\ above (t vm) /\ above (zt vm).
Proof.
  intros Hd. unfold d in Hd. unfold vm, steppedMultipliers. rewrite Hd. simpl.
  repeat split; apply computeStep_lower_value.
Qed.

Lemma steppedMultipliers_zw : (0 < nwcon d)%nat -> above (zw vm).
Proof.
  intros Hw. apply Nat.ltb_lt in Hw. unfold d in Hw.
  unfold vm, steppedMultipliers. rewrite Hw.
  destruct (sparse_inequality (dims st)), (use_lower (dims st)),
    (use_upper (dims st)), (dense_inequality (dims st)); simpl;
    apply computeStep_lower_value.
Qed.

Lemma steppedMultipliers_sw :
  (0 < nwcon d)%nat -> sparse_inequality d = true -> above (sw vm).
Proof.
  intros Hw Hs. apply Nat.ltb_lt in Hw. unfold d in Hw, Hs.
  unfold vm, steppedMultipliers. rewrite Hw, Hs.
  destruct (use_lower (dims st)), (use_upper (dims st)),
    (dense_inequality (dims st)); simpl; apply computeStep_lower_value.
Qed.

Lemma steppedMultipliers_zl : use_lower d = true -> above (zl vm).
Proof.
  intros Hl. unfold d in Hl. unfold vm, steppedMultipliers. rewrite Hl.
  destruct (0 <? nwcon (dims st))%nat, (sparse_inequality (dims st)),
    (use_upper (dims st)), (dense_inequality (dims st)); simpl;
    apply computeStep_lower_value.
Qed.

Lemma steppedMultipliers_zu : use_upper d = true -> above (zu vm).
Proof.
  intros Hu. unfold d in Hu. unfold vm, steppedMultipliers. rewrite Hu.
  destruct (0 <? nwcon (dims st))%nat, (sparse_inequality (dims st)),
    (use_lower (dims st)), (dense_inequality (dims st)); simpl;
    apply computeStep_lower_value.
Qed.

(** The slacks of the trial point of the line search. *)
Lemma trialPoint_slacks :
  let r := resid (trialPoint alpha st) in
  (dense_inequality d = true -> above (rs r) /\ above (rt r)) /\
  ((0 < nwcon d)%nat -> sparse_inequality d = true -> above (rsw r)).
Proof.
  unfold trialPoint. simpl. split.
  - intros Hd. unfold d in Hd. rewrite Hd. simpl.
    split; apply computeStep_lower_value.
  - intros Hw Hs. apply Nat.ltb_lt in Hw. unfold d in Hw, Hs.
    rewrite Hw, Hs. simpl.
    destruct (dense_inequality (dims st)); simpl;
      apply computeStep_lower_value.
Qed.

End ClampedMultipliers.

(** X27.  After the accepted update of [computeStepAndUpdate], and at
    every trial point of the line search, each slack and multiplier that
    the step moves is at least the double [0 + design_precision]: [z]
    always; [s], [t] and [z_t] for dense inequalities; [z_w] when there are
    sparse constraints and [s_w] when they are inequalities; [z_l] and
    [z_u] when the lower and upper bounds are in use; the trial point holds
    [s], [t] and [s_w] only. *)
Theorem stepped_slacks_and_multipliers_stay_above_design_precision
    {prob : ParOptProblem} {QNI : ParOptCompactQuasiNewton} {LA : Numerics}
    (alpha : Q) (eval_obj_con perform_qn_update : bool) (st : Solver) :
  let d := dims st in
  let dp := design_precision (opts st) in
  let v :=
    vars (snd (computeStepAndUpdate alpha eval_obj_con perform_qn_update st)) in
  let r := resid (trialPoint alpha st) in
  let above := Forall (fun e => rnd (0 + dp) <= e) in
  (above (z v) /\
   (dense_inequality d = true -> above (s v) /\ above (t v) /\ above (zt v)) /\
   ((0 < nwcon d)%nat ->
    above (zw v) /\ (sparse_inequality d = true -> above (sw v))) /\
   (use_lower d = true -> above (zl v)) /\
   (use_upper d = true -> above (zu v))) /\
  ((dense_inequality d = true -> above (rs r) /\ above (rt r)) /\
   ((0 < nwcon d)%nat -> sparse_inequality d = true -> above (rsw r))).
Proof.
  intros d dp v r above. split.
  - unfold v. rewrite computeStepAndUpdate_vars. simpl. repeat split.
    + apply steppedMultipliers_z.
    + apply steppedMultipliers_dense; assumption.
    + apply steppedMultipliers_dense; assumption.
    + apply steppedMultipliers_dense; assumption.
    + apply steppedMultipliers_zw; assumption.
    + intros Hs. apply steppedMultipliers_sw; assumption.
    + apply steppedMultipliers_zl.
    + apply steppedMultipliers_zu.
  - split; apply trialPoint_slacks.
Qed.
